(** * Voice-driven merchant negotiation: shop resolver, transaction bridge,
      conversation graph and channel controller.

    Shallow embedding of
      - inventory/items.py, inventory/manager.py, entities/player.py
      - scenes/shop_scene.py (purchase resolver)
      - voice/assistant.py (conversation orchestrator)
      - voice/service.py (capture / synthesis service)
      - merchant_dialogue.py (channel controller and purchase bridge)

    Python [str] values are modelled as [string] whose characters are read as
    code points 0..255; [int] as [Z]; [dict] as [gmap]; objects that are
    shared between the game loop and the background worker (futures, events,
    result containers) live in explicit stores indexed by an identity. *)

From Stdlib Require Import ZArith QArith Lia Ascii String.
From stdpp Require Import base option list gmap strings pretty.

Local Open Scope string_scope.
Local Open Scope Z_scope.

(** ** Python string primitives *)

Module PyStr.

(** [str.isspace] on one character (code points below 256). *)
Definition isspace (c : ascii) : bool :=
  let n := nat_of_ascii c in
  ((9 <=? n) && (n <=? 13))%nat || ((28 <=? n) && (n <=? 32))%nat
  || (n =? 133)%nat || (n =? 160)%nat.

(** [str.lower] on one character: A-Z and the Latin-1 capitals. *)
Definition lower_char (c : ascii) : ascii :=
  let n := nat_of_ascii c in
  if ((65 <=? n) && (n <=? 90))%nat then ascii_of_nat (n + 32)
  else if ((192 <=? n) && (n <=? 222) && negb (n =? 215))%nat
       then ascii_of_nat (n + 32)
  else c.

Fixpoint lower (s : string) : string :=
  match s with
  | EmptyString => EmptyString
  | String c r => String (lower_char c) (lower r)
  end.

Fixpoint lstrip (s : string) : string :=
  match s with
  | EmptyString => EmptyString
  | String c r => if isspace c then lstrip r else s
  end.

(** Strips trailing white space: a suffix made of white space only
    collapses to the empty string. *)
Fixpoint rstrip (s : string) : string :=
  match s with
  | EmptyString => EmptyString
  | String c r =>
      match rstrip r with
      | EmptyString => if isspace c then EmptyString else String c EmptyString
      | r' => String c r'
      end
  end.

Definition strip (s : string) : string := rstrip (lstrip s).

(** Truth value of a [str]: non-empty. *)
Definition truthy (s : string) : bool :=
  match s with EmptyString => false | _ => true end.

(** Truth value of a [str | None]. *)
Definition truthy_opt (o : option string) : bool :=
  match o with Some s => truthy s | None => false end.

(** [s.replace("\n", " ")]. *)
Fixpoint replace_newlines (s : string) : string :=
  match s with
  | EmptyString => EmptyString
  | String c r =>
      String (if (nat_of_ascii c =? 10)%nat then " "%char else c)
             (replace_newlines r)
  end.

(** [str(n)] for an [int]. *)
Definition of_int (n : Z) : string := pretty n.

(** [repr(s)] for a [str] without control characters: quote selection and
    escaping of the quote and the backslash. *)
Fixpoint has_char (c : ascii) (s : string) : bool :=
  match s with
  | EmptyString => false
  | String d r => if Ascii.eqb c d then true else has_char c r
  end.

Fixpoint escape (q : ascii) (s : string) : string :=
  match s with
  | EmptyString => EmptyString
  | String c r =>
      if Ascii.eqb c q || Ascii.eqb c "\"%char
      then String "\"%char (String c (escape q r))
      else String c (escape q r)
  end.

Definition repr (s : string) : string :=
  let dq := ascii_of_nat 34 in
  let sq := "'"%char in
  let q := if has_char sq s && negb (has_char dq s) then dq else sq in
  String q (escape q s ++ String q EmptyString).

End PyStr.

(** ** Exceptions and results *)

(** The exception classes that occur in the modelled code.  All of them are
    subclasses of [Exception]. *)
Inductive exn_class : Type :=
| KeyError | ValueError | RecordingError | CancelledError | AttributeError
| OtherError (cls : string).

Record exn : Type := Exn { exn_cls : exn_class; exn_arg : string }.

(** [str(exc)]: the single argument, except for [KeyError] which shows its
    [repr]. *)
Definition str_exn (e : exn) : string :=
  match exn_cls e with
  | KeyError => PyStr.repr (exn_arg e)
  | _ => exn_arg e
  end.

Inductive result (A : Type) : Type :=
| Ok (a : A)
| Raised (e : exn).
Arguments Ok {A} a.
Arguments Raised {A} e.

(** State-and-exception monad: the state reached when an exception is raised
    is kept, as a Python method that raises keeps its earlier mutations. *)
Definition stx (S A : Type) : Type := S → result A * S.

Definition stx_raise {S A} (e : exn) : stx S A := λ s, (Raised e, s).
Definition stx_get {S} : stx S S := λ s, (Ok s, s).
Definition stx_modify {S} (f : S → S) : stx S unit := λ s, (Ok tt, f s).

#[global] Instance stx_ret {S} : MRet (stx S) := λ A a s, (Ok a, s).
#[global] Instance stx_bind {S} : MBind (stx S) :=
  λ A B f m s,
    match m s with
    | (Ok a, s') => f a s'
    | (Raised e, s') => (Raised e, s')
    end.

(** Runs a computation on a component of the state reached through a getter
    and a setter. *)
Definition stx_zoom {S T A} (get : S → T) (set : T → S → S)
    (m : stx T A) : stx S A :=
  λ s, let '(r, t') := m (get s) in (r, set t' s).

(** ** difflib: the closest-match search used by the resolver

    Transcription of [SequenceMatcher] and [get_close_matches] of the Python
    standard library, for [isjunk=None] and [autojunk=True] as the resolver
    calls them.  Sequences are lists of characters; a score [2.0*m/t] is kept
    as the rational it denotes. *)

Module Difflib.

Definition Match : Type := (nat * nat * nat)%type.
Definition msize (m : Match) : nat := m.2.

(** [__chain_b]: with at least 200 elements, an element of [b] occurring
    more than [n // 100 + 1] times is popular and leaves [b2j]. *)
Definition bpopular (b : list ascii) (c : ascii) : bool :=
  ((200 <=? length b) && (length b / 100 + 1 <? count_occ ascii_dec b c))%nat.

(** One round of the outer loop of [find_longest_match]: [newj2len] as the
    list of its values by [j], with [0] for an absent key. *)
Definition next_j2len (pop : ascii → bool) (ai : ascii) (b : list ascii)
    (j2len : list nat) : list nat :=
  zip_with (λ bj prev, if Ascii.eqb bj ai && negb (pop ai) then S prev else O)
           b (O :: j2len).

Fixpoint scan_row (i j : nat) (row : list nat) (best : Match) : Match :=
  match row with
  | [] => best
  | k :: row' =>
      scan_row i (S j) row'
        (if (msize best <? k)%nat then (S i - k, S j - k, k)%nat else best)
  end.

Fixpoint longest_loop (pop : ascii → bool) (i : nat) (a_rest b : list ascii)
    (j2len : list nat) (best : Match) : Match :=
  match a_rest with
  | [] => best
  | ai :: a' =>
      let row := next_j2len pop ai b j2len in
      longest_loop pop (S i) a' b row (scan_row i 0 row best)
  end.

(** The two loops that extend the best block by matching elements on each
    end (no element is junk, so the later pair of loops never runs). *)
Fixpoint extend_left (fuel : nat) (a b : list ascii) (m : Match) : Match :=
  match fuel with
  | O => m
  | S fuel' =>
      let '(i, j, k) := m in
      if ((0 <? i) && (0 <? j))%nat
         && bool_decide (a !! (i - 1)%nat = b !! (j - 1)%nat)
      then extend_left fuel' a b (i - 1, j - 1, k + 1)%nat
      else m
  end.

Fixpoint extend_right (fuel : nat) (a b : list ascii) (m : Match) : Match :=
  match fuel with
  | O => m
  | S fuel' =>
      let '(i, j, k) := m in
      if ((i + k <? length a) && (j + k <? length b))%nat
         && bool_decide (a !! (i + k)%nat = b !! (j + k)%nat)
      then extend_right fuel' a b (i, j, k + 1)%nat
      else m
  end.

(** [find_longest_match] on the slices [a = a[alo:ahi]], [b = b[blo:bhi]];
    the indices of the result are relative to the slices. *)
Definition find_longest_match (pop : ascii → bool) (a b : list ascii) : Match :=
  let best := longest_loop pop 0 a b (replicate (length b) O) (O, O, O) in
  let best := extend_left best.1.1 a b best in
  extend_right (length a) a b best.

(** Sum of the sizes of [get_matching_blocks]: the block found in a region,
    then the regions to its left and to its right.  Every recursive call
    is on a strictly shorter slice of [a], so [S (length a)] rounds reach
    all regions. *)
Fixpoint matches_in (fuel : nat) (pop : ascii → bool) (a b : list ascii) : nat :=
  match fuel with
  | O => O
  | S fuel' =>
      let '(i, j, k) := find_longest_match pop a b in
      if (k =? 0)%nat then O
      else (matches_in fuel' pop (take i a) (take j b) + k
            + matches_in fuel' pop (drop (i + k) a) (drop (j + k) b))%nat
  end.

Definition _calculate_ratio (matches length : nat) : Q :=
  if (length =? 0)%nat then 1%Q
  else Qmake (2 * Z.of_nat matches) (Pos.of_nat length).

(** The matcher has [a] as the first sequence and [b] as the second. *)
Definition matches (a b : list ascii) : nat :=
  matches_in (S (length a)) (bpopular b) a b.

Definition ratio (a b : list ascii) : Q :=
  _calculate_ratio (matches a b) (length a + length b).

Definition fullbcount (b : list ascii) : gmap ascii Z :=
  foldl (λ m elt, <[elt := default 0 (m !! elt) + 1]> m) ∅ b.

Definition quick_step (fb : gmap ascii Z) (st : gmap ascii Z * nat)
    (elt : ascii) : gmap ascii Z * nat :=
  let '(avail, matches) := st in
  let numb := match avail !! elt with
              | Some n => n
              | None => default 0 (fb !! elt)
              end in
  (<[elt := numb - 1]> avail, if 0 <? numb then S matches else matches).

Definition quick_matches (a b : list ascii) : nat :=
  (foldl (quick_step (fullbcount b)) (∅, O) a).2.

Definition quick_ratio (a b : list ascii) : Q :=
  _calculate_ratio (quick_matches a b) (length a + length b).

Definition real_quick_ratio (a b : list ascii) : Q :=
  _calculate_ratio (min (length a) (length b)) (length a + length b).

(** Order of the [(score, x)] tuples: by score, then by the string. *)
Definition tuple_lt (x y : Q * string) : bool :=
  match (x.1 ?= y.1)%Q with
  | Lt => true
  | Gt => false
  | Eq => String.ltb x.2 y.2
  end.

(** [max] of a list: the first of the maximal elements. *)
Definition py_max (l : list (Q * string)) : option (Q * string) :=
  match l with
  | [] => None
  | x :: r => Some (foldl (λ best y, if tuple_lt best y then y else best) x r)
  end.

Definition passes (cutoff : Q) (word x : string) : bool :=
  let a := list_ascii_of_string x in
  let b := list_ascii_of_string word in
  Qle_bool cutoff (real_quick_ratio a b)
  && Qle_bool cutoff (quick_ratio a b)
  && Qle_bool cutoff (ratio a b).

Definition scored (cutoff : Q) (word : string) (possibilities : list string)
    : list (Q * string) :=
  omap (λ x, if passes cutoff word x
             then Some (ratio (list_ascii_of_string x)
                              (list_ascii_of_string word), x)
             else None) possibilities.

(** [get_close_matches(word, possibilities, n=1, cutoff)]. *)
Definition get_close_matches (word : string) (possibilities : list string)
    (cutoff : Q) : list string :=
  match py_max (scored cutoff word possibilities) with
  | Some (_, x) => [x]
  | None => []
  end.

End Difflib.




(** ** inventory/items.py *)

Module Items.

Record Weapon := { weapon_name : string; attack_bonus : Z; weapon_price : Z }.
Record Shield := { shield_name : string; defense_bonus : Z; shield_price : Z }.
Record Potion := { potion_name : string; restore_amount : Z;
                   potion_price : Z; resource : string }.

Definition WEAPONS : gmap string Weapon :=
  <["Short Sword" := Build_Weapon "Short Sword" 6 50]>
  (<["Steel Sword" := Build_Weapon "Steel Sword" 12 120]> ∅).

Definition SHIELDS : gmap string Shield :=
  <["Wooden Shield" := Build_Shield "Wooden Shield" 2 40]>
  (<["Iron Shield" := Build_Shield "Iron Shield" 5 110]> ∅).

Definition POTIONS : gmap string Potion :=
  <["Heal Potion" := Build_Potion "Heal Potion" 40 20 "hp"]>
  (<["Mana Potion" := Build_Potion "Mana Potion" 40 20 "mp"]> ∅).

End Items.

(** ** inventory/manager.py *)

Module InventoryManager.

Record t := {
  weapons : gmap string Z;
  shields : gmap string Z;
  potions : gmap string Z;
  equipped_weapon : option string;
  equipped_shield : option string;
}.

Definition set_weapons (f : gmap string Z → gmap string Z) (inv : t) : t :=
  {| weapons := f (weapons inv); shields := shields inv;
     potions := potions inv; equipped_weapon := equipped_weapon inv;
     equipped_shield := equipped_shield inv |}.
Definition set_shields (f : gmap string Z → gmap string Z) (inv : t) : t :=
  {| weapons := weapons inv; shields := f (shields inv);
     potions := potions inv; equipped_weapon := equipped_weapon inv;
     equipped_shield := equipped_shield inv |}.
Definition set_potions (f : gmap string Z → gmap string Z) (inv : t) : t :=
  {| weapons := weapons inv; shields := shields inv;
     potions := f (potions inv); equipped_weapon := equipped_weapon inv;
     equipped_shield := equipped_shield inv |}.
Definition set_equipped_weapon (w : option string) (inv : t) : t :=
  {| weapons := weapons inv; shields := shields inv;
     potions := potions inv; equipped_weapon := w;
     equipped_shield := equipped_shield inv |}.
Definition set_equipped_shield (w : option string) (inv : t) : t :=
  {| weapons := weapons inv; shields := shields inv;
     potions := potions inv; equipped_weapon := equipped_weapon inv;
     equipped_shield := w |}.

(** [__init__]: every known item name starts at count 0. *)
Definition init : t :=
  {| weapons := (λ _, 0) <$> Items.WEAPONS;
     shields := (λ _, 0) <$> Items.SHIELDS;
     potions := (λ _, 0) <$> Items.POTIONS;
     equipped_weapon := None;
     equipped_shield := None |}.

Definition add_weapon (name : string) : stx t unit :=
  λ inv,
    match weapons inv !! name with
    | None => (Raised (Exn KeyError ("Unknown weapon: " ++ name)), inv)
    | Some n => (Ok tt, set_weapons <[name := n + 1]> inv)
    end.

Definition add_shield (name : string) : stx t unit :=
  λ inv,
    match shields inv !! name with
    | None => (Raised (Exn KeyError ("Unknown shield: " ++ name)), inv)
    | Some n => (Ok tt, set_shields <[name := n + 1]> inv)
    end.

Definition add_potion (name : string) (amount : Z) : stx t unit :=
  λ inv,
    match potions inv !! name with
    | None => (Raised (Exn KeyError ("Unknown potion: " ++ name)), inv)
    | Some n => (Ok tt, set_potions <[name := n + amount]> inv)
    end.

Definition equip_weapon (name : string) : stx t unit :=
  λ inv,
    if default 0 (weapons inv !! name) <=? 0
    then (Raised (Exn ValueError ("Weapon " ++ name ++ " not owned")), inv)
    else (Ok tt, set_equipped_weapon (Some name) inv).

Definition equip_shield (name : string) : stx t unit :=
  λ inv,
    if default 0 (shields inv !! name) <=? 0
    then (Raised (Exn ValueError ("Shield " ++ name ++ " not owned")), inv)
    else (Ok tt, set_equipped_shield (Some name) inv).

End InventoryManager.

(** ** entities/player.py

    Only the fields the shop reads or writes are kept; level, hit points
    and position are never touched by the modelled code. *)

Module Player.

Record t := {
  name : string;
  gold : Z;
  inventory : InventoryManager.t;
}.

Definition set_gold (g : Z) (p : t) : t :=
  {| name := name p; gold := g; inventory := inventory p |}.
Definition set_inventory (inv : InventoryManager.t) (p : t) : t :=
  {| name := name p; gold := gold p; inventory := inv |}.

Definition spend_gold (amount : Z) : stx t bool :=
  λ p, if amount <=? gold p
       then (Ok true, set_gold (gold p - amount) p)
       else (Ok false, p).

End Player.

(** ** voice/assistant.py: the outcome record of a purchase *)

Record PurchaseOutcome := {
  success : bool;
  item_name : option string;
  message : string;
  price_paid : option Z;
}.

(** ** scenes/shop_scene.py *)

Module Shop.

(** One catalog entry (a [dict] with fixed keys in the source). *)
Record Item := {
  i_name : string;
  i_type : string;
  i_price : Z;
  i_sprite : string;
  i_stock_key : option string;
  i_bonus : string;
}.

(** The part of [GameApp] the shop works on.  [sounds] lists the
    [assets.play_sound] requests (key, volume). *)
Record App := {
  player : Player.t;
  merchant_stock : gmap string Z;
  sounds : list (string * Q);
}.

Record Scene := {
  app : App;
  items : list Item;
  feedback : string;
}.

Definition set_player (p : Player.t) (a : App) : App :=
  {| player := p; merchant_stock := merchant_stock a; sounds := sounds a |}.
Definition set_merchant_stock (m : gmap string Z) (a : App) : App :=
  {| player := player a; merchant_stock := m; sounds := sounds a |}.
Definition set_app (a : App) (s : Scene) : Scene :=
  {| app := a; items := items s; feedback := feedback s |}.
Definition set_feedback (f : string) (s : Scene) : Scene :=
  {| app := app s; items := items s; feedback := f |}.

Definition play_sound (key : string) (volume : Q) : stx Scene unit :=
  stx_modify (λ s, set_app {| player := player (app s);
                              merchant_stock := merchant_stock (app s);
                              sounds := (sounds (app s) ++ [(key, volume)])%list |} s).

Definition on_player {A} (m : stx Player.t A) : stx Scene A :=
  stx_zoom (λ s, player (app s)) (λ p s, set_app (set_player p (app s)) s) m.
Definition on_inventory {A} (m : stx InventoryManager.t A) : stx Scene A :=
  on_player (stx_zoom Player.inventory Player.set_inventory m).

Definition price_of {T} (tbl : gmap string T) (price : T → Z) (k : string) : Z :=
  default 0 (price <$> tbl !! k).

Definition _build_items : list Item :=
  [ {| i_name := "Short Sword"; i_type := "weapon";
       i_price := price_of Items.WEAPONS Items.weapon_price "Short Sword";
       i_sprite := "short_sword"; i_stock_key := None; i_bonus := "+6 ATK" |};
    {| i_name := "Steel Sword"; i_type := "weapon";
       i_price := price_of Items.WEAPONS Items.weapon_price "Steel Sword";
       i_sprite := "steel_sword"; i_stock_key := None; i_bonus := "+12 ATK" |};
    {| i_name := "Wooden Shield"; i_type := "shield";
       i_price := price_of Items.SHIELDS Items.shield_price "Wooden Shield";
       i_sprite := "wooden_shield"; i_stock_key := None; i_bonus := "+2 DEF" |};
    {| i_name := "Iron Shield"; i_type := "shield";
       i_price := price_of Items.SHIELDS Items.shield_price "Iron Shield";
       i_sprite := "iron_shield"; i_stock_key := None; i_bonus := "+5 DEF" |};
    {| i_name := "Heal Potion"; i_type := "potion";
       i_price := price_of Items.POTIONS Items.potion_price "Heal Potion";
       i_sprite := "heal_potion"; i_stock_key := Some "Heal Potion";
       i_bonus := "Restores 40 HP" |};
    {| i_name := "Mana Potion"; i_type := "potion";
       i_price := price_of Items.POTIONS Items.potion_price "Mana Potion";
       i_sprite := "mana_potion"; i_stock_key := None;
       i_bonus := "Restores 40 MP" |} ].

(** [stock_key] when it is truthy (neither [None] nor the empty string). *)
Definition finite_stock_key (item : Item) : option string :=
  match i_stock_key item with
  | Some k => if PyStr.truthy k then Some k else None
  | None => None
  end.

(** [remaining]: the ledger value (0 when the key is missing) for an item
    with a stock key, [None] otherwise. *)
Definition remaining_of (item : Item) (s : Scene) : option Z :=
  k ← finite_stock_key item; Some (default 0 (merchant_stock (app s) !! k)).

Definition grant (item : Item) : stx InventoryManager.t unit :=
  if String.eqb (i_type item) "weapon" then
    _ ← InventoryManager.add_weapon (i_name item);
    inv ← stx_get;
    match InventoryManager.equipped_weapon inv with
    | None => InventoryManager.equip_weapon (i_name item)
    | Some _ => mret tt
    end
  else if String.eqb (i_type item) "shield" then
    _ ← InventoryManager.add_shield (i_name item);
    inv ← stx_get;
    match InventoryManager.equipped_shield inv with
    | None => InventoryManager.equip_shield (i_name item)
    | Some _ => mret tt
    end
  else InventoryManager.add_potion (i_name item) 1.

Definition _attempt_purchase (item : Item) : stx Scene PurchaseOutcome :=
  s ← stx_get;
  let stock_key := finite_stock_key item in
  let price := i_price item in
  let remaining := remaining_of item s in
  if bool_decide (is_Some stock_key)
     && match remaining with Some r => r <=? 0 | None => false end
  then
    _ ← play_sound "error" (5 # 10);
    mret {| success := false; item_name := Some (i_name item);
            message := i_name item ++ " is out of stock!";
            price_paid := None |}
  else
    paid ← on_player (Player.spend_gold price);
    if negb paid then
      _ ← play_sound "error" (6 # 10);
      mret {| success := false; item_name := Some (i_name item);
              message := "Not enough gold for "
                         ++ PyStr.of_int (i_price item) ++ "g.";
              price_paid := None |}
    else
      _ ← on_inventory (grant item);
      _ ← stx_modify (λ s,
            match stock_key with
            | Some k =>
                set_app (set_merchant_stock
                  (<[k := Z.max 0 (default 0 remaining - 1)]>
                     (merchant_stock (app s))) (app s)) s
            | None => s
            end);
      _ ← play_sound "gold" (6 # 10);
      mret {| success := true; item_name := Some (i_name item);
              message := "Bought " ++ i_name item ++ " for "
                         ++ PyStr.of_int price ++ "g.";
              price_paid := Some price |}.

(** A [dict] with [str] keys in insertion order: assigning to a key that
    is present replaces its value in place. *)
Fixpoint dict_set {V} (k : string) (v : V) (d : list (string * V))
    : list (string * V) :=
  match d with
  | [] => [(k, v)]
  | (k', v') :: d' =>
      if String.eqb k k' then (k', v) :: d' else (k', v') :: dict_set k v d'
  end.

Fixpoint dict_get {V} (k : string) (d : list (string * V)) : option V :=
  match d with
  | [] => None
  | (k', v) :: d' => if String.eqb k k' then Some v else dict_get k d'
  end.

Definition enumerate {A} (l : list A) : list (nat * A) := imap pair l.

(** [{item["name"].lower(): (idx, item) for idx, item in enumerate(items)}] *)
Definition name_lookup (its : list Item) : list (string * (nat * Item)) :=
  foldl (λ d '(idx, item), dict_set (PyStr.lower (i_name item)) (idx, item) d)
        [] (enumerate its).

Definition cutoff : Q := 6 # 10.

Definition _resolve_item_name (raw_name : string) (s : Scene)
    : option (nat * Item) :=
  let lowered := PyStr.strip (PyStr.lower raw_name) in
  if negb (PyStr.truthy lowered) then None
  else
    let lookup := name_lookup (items s) in
    match dict_get lowered lookup with
    | Some hit => Some hit
    | None =>
        match Difflib.get_close_matches lowered lookup.*1 cutoff with
        | m :: _ => dict_get m lookup
        | [] => None
        end
    end.

Definition attempt_voice_purchase (raw_item_name : option string)
    : stx Scene PurchaseOutcome :=
  match raw_item_name with
  | None =>
      _ ← play_sound "error" (4 # 10);
      mret {| success := false; item_name := None;
              message := "I did not catch which item you want.";
              price_paid := None |}
  | Some raw =>
      if negb (PyStr.truthy raw) || negb (PyStr.truthy (PyStr.strip raw)) then
        _ ← play_sound "error" (4 # 10);
        mret {| success := false; item_name := None;
                message := "I did not catch which item you want.";
                price_paid := None |}
      else
        s ← stx_get;
        match _resolve_item_name raw s with
        | None =>
            _ ← play_sound "error" (4 # 10);
            mret {| success := false; item_name := None;
                    message := "I do not have '" ++ raw ++ "' in stock.";
                    price_paid := None |}
        | Some (_index, item) =>
            outcome ← _attempt_purchase item;
            _ ← stx_modify (set_feedback (message outcome));
            mret outcome
        end
  end.

(** [_purchase]: the button path. *)
Definition _purchase (index : nat) : stx Scene unit :=
  s ← stx_get;
  match items s !! index with
  | None => stx_raise (Exn (OtherError "IndexError") "list index out of range")
  | Some item =>
      outcome ← _attempt_purchase item;
      stx_modify (set_feedback (message outcome))
  end.

End Shop.

(** The state of the shop on a first visit with a given purse. *)
Definition fresh_scene (visitor : string) (gold : Z) (stock : gmap string Z)
    : Shop.Scene :=
  {| Shop.app := {| Shop.player := {| Player.name := visitor;
                                      Player.gold := gold;
                                      Player.inventory := InventoryManager.init |};
                    Shop.merchant_stock := stock;
                    Shop.sounds := [] |};
     Shop.items := Shop._build_items;
     Shop.feedback := "" |}.


(** ** voice/assistant.py: data *)

Inductive IntentLabel := trade | smalltalk | unknown.

Record IntentPrediction := {
  p_intent : IntentLabel;
  p_item : option string;
  p_confidence : option Q;
  p_rationale : option string;
}.

Inductive Message :=
| HumanMessage (content : string)
| AIMessage (content : string).

(** [MerchantState] is a [TypedDict] with [total=False]: every key may be
    absent.  For [candidate_item] and [trade_result] an absent key and a
    [None] value read the same through [state.get]. *)
Record MerchantState := {
  messages : option (list Message);
  user_input : option string;
  intent : option IntentLabel;
  candidate_item : option string;
  response_text : option string;
  trade_result : option PurchaseOutcome;
}.

Definition empty_state : MerchantState :=
  {| messages := None; user_input := None; intent := None;
     candidate_item := None; response_text := None; trade_result := None |}.

Record AssistantResult := {
  r_intent : IntentLabel;
  r_text : string;
  r_candidate_item : option string;
  r_trade_result : option PurchaseOutcome;
  r_raw_state : MerchantState;
}.

(** ** Programs of the background worker

    The worker code calls external services, the checkpointer of the
    conversation graph and the purchase bridge.  Each such call is an
    effect; a program is a tree of effects, so that the same program text can
    be run to completion or stepped under an interleaving with the game loop. *)

Inductive effect : Type → Type :=
(* capture / synthesis service *)
| ERecord (duration : Q) : effect (result string)
| ETranscribe (audio_path : string) : effect (result string)
| EUnlink (path : string) : effect unit
| ETts (text : string) : effect (result string)
(* language model chains *)
| EIntentChain (conversation : list Message) (catalog : string)
    : effect (result IntentPrediction)
| ESmalltalkChain (conversation : list Message) : effect (result string)
| ETradeChain (conversation : list Message) (catalog purchase_message
                                             visitor : string)
    : effect (result string)
| EFallbackChain (conversation : list Message) : effect (result string)
(* checkpointer of the compiled graph *)
| ECheckpointGet (thread : string) : effect (option MerchantState)
| ECheckpointPut (thread : string) (st : MerchantState) : effect unit
(* purchase bridge: threading.Event(), {}, queue.put, event.wait, dict read *)
| ENewEvent : effect nat
| ENewContainer : effect nat
| EQueuePut (item_name : option string) (event container : nat) : effect unit
| EEventWait (event : nat) : effect unit
| EContainerGet (container : nat) (key : string) : effect (result PurchaseOutcome).

Inductive prog (A : Type) : Type :=
| Ret (a : A)
| Throw (e : exn)
| Vis {X : Type} (eff : effect X) (k : X → prog A).
Arguments Ret {A} a.
Arguments Throw {A} e.
Arguments Vis {A X} eff k.

Fixpoint prog_bind {A B} (f : A → prog B) (p : prog A) : prog B :=
  match p with
  | Ret a => f a
  | Throw e => Throw e
  | Vis eff k => Vis eff (λ x, prog_bind f (k x))
  end.

#[global] Instance prog_mret : MRet prog := λ A a, Ret a.
#[global] Instance prog_mbind : MBind prog := λ A B f p, prog_bind f p.

(** An effect that cannot fail. *)
Definition perform {X} (eff : effect X) : prog X := Vis eff Ret.

(** A call that returns or raises. *)
Definition call {X} (eff : effect (result X)) : prog X :=
  Vis eff (λ r, match r with Ok x => Ret x | Raised e => Throw e end).

(** [try: p except Exception as exc: h exc] *)
Fixpoint try_catch {A} (p : prog A) (h : exn → prog A) : prog A :=
  match p with
  | Ret a => Ret a
  | Throw e => h e
  | Vis eff k => Vis eff (λ x, try_catch (k x) h)
  end.

(** [try: p finally: fin] *)
Fixpoint try_finally {A} (p : prog A) (fin : prog unit) : prog A :=
  match p with
  | Ret a => _ ← fin; Ret a
  | Throw e => _ ← fin; Throw e
  | Vis eff k => Vis eff (λ x, try_finally (k x) fin)
  end.

(** ** voice/service.py *)

Module VoiceEngine.

Definition record (duration : Q) : prog string := call (ERecord duration).

Definition transcribe (audio_path : string) : prog string :=
  call (ETranscribe audio_path).

Definition record_and_transcribe (duration : Q) : prog string :=
  audio_path ← record duration;
  try_finally (transcribe audio_path) (perform (EUnlink audio_path)).

Definition synthesize (text : string) : prog string :=
  if negb (PyStr.truthy (PyStr.strip text))
  then Throw (Exn ValueError "Cannot synthesize empty text")
  else call (ETts text).

End VoiceEngine.

(** ** voice/assistant.py: the orchestrator *)

Module Assistant.

Record t := {
  _items : list Shop.Item;
  _thread_namespace : string;
  _visitor_name : string;
  _catalog_text : string;
}.

Fixpoint join (sep : string) (l : list string) : string :=
  match l with
  | [] => ""
  | [x] => x
  | x :: r => x ++ sep ++ join sep r
  end.

Definition newline : string := String (ascii_of_nat 10) EmptyString.

Definition catalog_line (item : Shop.Item) : string :=
  "- " ++ Shop.i_name item ++ " (" ++ Shop.i_type item ++ ") costs "
  ++ PyStr.of_int (Shop.i_price item) ++ " gold. " ++ Shop.i_bonus item.

(** [__init__] up to the construction of the chat models, which needs the
    API key of the environment ([api_key_set]). *)
Definition init (items : list Shop.Item) (thread_namespace : string)
    (visitor_name : option string) (api_key_set : bool) : result t :=
  match items with
  | [] => Raised (Exn ValueError
                    "MerchantVoiceAssistant requires at least one item")
  | _ =>
      let visitor :=
        PyStr.strip (match visitor_name with
                     | Some v => if PyStr.truthy v then v else "traveler"
                     | None => "traveler"
                     end) in
      if negb api_key_set
      then Raised (Exn (OtherError "OSError")
                     "OPENAI_API_KEY must be set for voice interactions")
      else Ok {| _items := items;
                 _thread_namespace := thread_namespace;
                 _visitor_name :=
                   if PyStr.truthy visitor then visitor else "traveler";
                 _catalog_text := join newline (catalog_line <$> items) |}
  end.

Definition set_messages (m : list Message) (st : MerchantState) :=
  {| messages := Some m; user_input := user_input st; intent := intent st;
     candidate_item := candidate_item st;
     response_text := response_text st; trade_result := trade_result st |}.

Definition _add_user_message (state : MerchantState) : MerchantState :=
  let msgs := default [] (messages state) in
  let input := PyStr.strip (default "" (user_input state)) in
  set_messages (if PyStr.truthy input
                then (msgs ++ [HumanMessage input])%list else msgs) state.

(** [prediction.item.strip() if prediction.item else None] *)
Definition candidate_of (prediction : IntentPrediction) : option string :=
  match p_item prediction with
  | Some it => if PyStr.truthy it then Some (PyStr.strip it) else None
  | None => None
  end.

Definition _classify_intent (self : t) (state : MerchantState)
    : prog MerchantState :=
  prediction ← call (EIntentChain (default [] (messages state))
                                  (_catalog_text self));
  Ret {| messages := messages state; user_input := user_input state;
         intent := Some (p_intent prediction);
         candidate_item := candidate_of prediction;
         response_text := response_text state;
         trade_result := trade_result state |}.

Definition _append_response (state : MerchantState) (response : string)
    : MerchantState :=
  {| messages := Some ((default [] (messages state) ++ [AIMessage response])%list);
     user_input := user_input state; intent := intent state;
     candidate_item := candidate_item state;
     response_text := Some response;
     trade_result := trade_result state |}.

Definition _respond_smalltalk (self : t) (state : MerchantState)
    : prog MerchantState :=
  response ← call (ESmalltalkChain (default [] (messages state)));
  Ret (_append_response state response).

Definition set_trade_result (o : PurchaseOutcome) (st : MerchantState) :=
  {| messages := messages st; user_input := user_input st;
     intent := intent st; candidate_item := candidate_item st;
     response_text := response_text st; trade_result := Some o |}.

Definition _respond_trade (self : t)
    (purchase_handler : option string → prog PurchaseOutcome)
    (state : MerchantState) : prog MerchantState :=
  let candidate := candidate_item state in
  outcome ← purchase_handler candidate;
  let state := set_trade_result outcome state in
  response ← call (ETradeChain (default [] (messages state))
                     (_catalog_text self) (message outcome)
                     (_visitor_name self));
  Ret (_append_response state response).

Definition _respond_unknown (self : t) (state : MerchantState)
    : prog MerchantState :=
  response ← call (EFallbackChain (default [] (messages state)));
  Ret (_append_response state response).

Definition _route_intent (state : MerchantState) : IntentLabel :=
  match default unknown (intent state) with
  | trade => trade
  | smalltalk => smalltalk
  | unknown => unknown
  end.

(** The thread identifier under which [process] runs the graph. *)
Definition thread_key (namespace thread_id : string) : string :=
  namespace ++ ":" ++ thread_id.

(** Modelled from the spec: the engine that runs the compiled graph
    ([self._graph.invoke({"user_input": ...}, config)], LangGraph) is not
    part of the sources.  The nodes and edges are those of [_build_graph]
    ([add_user], [classify], then the routed [respond_*] node); as the spec
    has it, every node works on the same Turn sequence of the session: the
    saved state of the thread is loaded, the input keys are written over
    it, and the state is saved under the thread after each node.
    [entry_state] is the state after the [add_user] node. *)
Definition entry_state (saved : option MerchantState) (input : string)
    : MerchantState :=
  let st := default empty_state saved in
  _add_user_message
    {| messages := messages st; user_input := Some input;
       intent := intent st; candidate_item := candidate_item st;
       response_text := response_text st;
       trade_result := trade_result st |}.

Definition graph_invoke (self : t)
    (purchase_handler : option string → prog PurchaseOutcome)
    (input : string) (thread : string) : prog MerchantState :=
  saved ← perform (ECheckpointGet thread);
  let st := entry_state saved input in
  _ ← perform (ECheckpointPut thread st);
  st ← _classify_intent self st;
  _ ← perform (ECheckpointPut thread st);
  st ← match _route_intent st with
       | trade => _respond_trade self purchase_handler st
       | smalltalk => _respond_smalltalk self st
       | unknown => _respond_unknown self st
       end;
  _ ← perform (ECheckpointPut thread st);
  Ret st.

Definition process (self : t)
    (purchase_handler : option string → prog PurchaseOutcome)
    (user_input : string) (thread_id : string) : prog AssistantResult :=
  if negb (PyStr.truthy (PyStr.strip user_input))
  then Throw (Exn ValueError "user_input must not be empty")
  else
    state ← graph_invoke self purchase_handler user_input
               (thread_key (_thread_namespace self) thread_id);
    Ret {| r_intent := default unknown (intent state);
           r_text := default "" (response_text state);
           r_candidate_item := candidate_item state;
           r_trade_result := trade_result state;
           r_raw_state := state |}.

End Assistant.

(** Modelled from the spec: the checkpointer of the graph ([MemorySaver], a
    class of the LangGraph library) is not part of the sources.  The spec
    describes the session store as a keyed map from session to Turn
    sequence that is created on first use; [get] and [put] are what the
    engine of the graph does with it for the thread it runs under.

    The class defines no attribute named [delete]: the lookup
    [self._checkpointer.delete] of [reset_conversation] raises
    [AttributeError] before any argument is passed, and nothing is removed
    from the store. *)
Module MemorySaver.

Definition get (thread : string) (store : gmap string MerchantState)
    : option MerchantState := store !! thread.

Definition put (thread : string) (st : MerchantState)
    (store : gmap string MerchantState) : gmap string MerchantState :=
  <[thread := st]> store.

Definition no_delete : exn :=
  Exn AttributeError "'MemorySaver' object has no attribute 'delete'".

Definition delete {S} (namespace thread_id : string) : stx S unit :=
  stx_raise no_delete.

End MemorySaver.

(** ** merchant_dialogue.py: the voice channel *)

Record VoiceTaskResult := {
  transcript : option string;
  assistant : option AssistantResult;
  audio_path : option string;
  error : option string;
}.

(** A queued purchase request: the raw item name, the completion event and
    the result container, the latter two by identity. *)
Record Request := {
  rq_item : option string;
  rq_event : nat;
  rq_container : nat;
}.

(** [concurrent.futures.Future] by its state. *)
Inductive Future :=
| FPending
| FRunning
| FCancelled
| FFinished (r : VoiceTaskResult)
| FFailed (e : exn).

Definition future_done (f : Future) : bool :=
  match f with
  | FPending | FRunning => false
  | _ => true
  end.

(** [future.result()] of a future that is done. *)
Definition future_result (f : Future) : result VoiceTaskResult :=
  match f with
  | FFinished r => Ok r
  | FFailed e => Raised e
  | _ => Raised (Exn CancelledError "")
  end.

Module Channel.

Definition VOICE_RECORD_SECONDS : Q := 4.
Definition MAX_LOG_LINES : nat := 10.

(** The fields of [VoiceChannel], together with the objects it shares with
    the worker thread: the futures and the work queue of its
    single-worker executor, the task the worker is running (with the rest
    of its program), the events and containers of the bridge, and the
    checkpointer of its assistant.  [signalled] records the calls of
    [event.set()] in order. *)
Record t := {
  _scene : Shop.Scene;
  _engine : bool;
  _assistant : option Assistant.t;
  _current_future : option nat;
  _purchase_requests : list Request;
  _log : list (string * string);
  _state : string;
  _status_text : string;
  _error_message : option string;
  _thread_id : string;
  _temp_audio : list string;
  (* shared objects *)
  futures : gmap nat Future;
  work_queue : list nat;
  executor_shutdown : bool;
  worker : option (nat * prog VoiceTaskResult);
  events : gmap nat bool;
  containers : gmap nat (gmap string PurchaseOutcome);
  checkpoints : gmap string MerchantState;
  next_id : nat;
  signalled : list nat;
}.

(** Field updates. *)
Definition with_scene (v : Shop.Scene) (c : t) : t :=
  {| _scene := v; _engine := _engine c; _assistant := _assistant c;
     _current_future := _current_future c;
     _purchase_requests := _purchase_requests c; _log := _log c;
     _state := _state c; _status_text := _status_text c;
     _error_message := _error_message c; _thread_id := _thread_id c;
     _temp_audio := _temp_audio c; futures := futures c;
     work_queue := work_queue c; executor_shutdown := executor_shutdown c;
     worker := worker c; events := events c; containers := containers c;
     checkpoints := checkpoints c; next_id := next_id c;
     signalled := signalled c |}.
Definition with_current_future (v : option nat) (c : t) : t :=
  {| _scene := _scene c; _engine := _engine c; _assistant := _assistant c;
     _current_future := v;
     _purchase_requests := _purchase_requests c; _log := _log c;
     _state := _state c; _status_text := _status_text c;
     _error_message := _error_message c; _thread_id := _thread_id c;
     _temp_audio := _temp_audio c; futures := futures c;
     work_queue := work_queue c; executor_shutdown := executor_shutdown c;
     worker := worker c; events := events c; containers := containers c;
     checkpoints := checkpoints c; next_id := next_id c;
     signalled := signalled c |}.
Definition with_purchase_requests (v : list Request) (c : t) : t :=
  {| _scene := _scene c; _engine := _engine c; _assistant := _assistant c;
     _current_future := _current_future c;
     _purchase_requests := v; _log := _log c;
     _state := _state c; _status_text := _status_text c;
     _error_message := _error_message c; _thread_id := _thread_id c;
     _temp_audio := _temp_audio c; futures := futures c;
     work_queue := work_queue c; executor_shutdown := executor_shutdown c;
     worker := worker c; events := events c; containers := containers c;
     checkpoints := checkpoints c; next_id := next_id c;
     signalled := signalled c |}.
Definition with_log (v : list (string * string)) (c : t) : t :=
  {| _scene := _scene c; _engine := _engine c; _assistant := _assistant c;
     _current_future := _current_future c;
     _purchase_requests := _purchase_requests c; _log := v;
     _state := _state c; _status_text := _status_text c;
     _error_message := _error_message c; _thread_id := _thread_id c;
     _temp_audio := _temp_audio c; futures := futures c;
     work_queue := work_queue c; executor_shutdown := executor_shutdown c;
     worker := worker c; events := events c; containers := containers c;
     checkpoints := checkpoints c; next_id := next_id c;
     signalled := signalled c |}.
(** [_state], [_status_text] and [_error_message] are assigned together. *)
Definition with_status (st status : string) (err : option string) (c : t) : t :=
  {| _scene := _scene c; _engine := _engine c; _assistant := _assistant c;
     _current_future := _current_future c;
     _purchase_requests := _purchase_requests c; _log := _log c;
     _state := st; _status_text := status;
     _error_message := err; _thread_id := _thread_id c;
     _temp_audio := _temp_audio c; futures := futures c;
     work_queue := work_queue c; executor_shutdown := executor_shutdown c;
     worker := worker c; events := events c; containers := containers c;
     checkpoints := checkpoints c; next_id := next_id c;
     signalled := signalled c |}.
Definition with_temp_audio (v : list string) (c : t) : t :=
  {| _scene := _scene c; _engine := _engine c; _assistant := _assistant c;
     _current_future := _current_future c;
     _purchase_requests := _purchase_requests c; _log := _log c;
     _state := _state c; _status_text := _status_text c;
     _error_message := _error_message c; _thread_id := _thread_id c;
     _temp_audio := v; futures := futures c;
     work_queue := work_queue c; executor_shutdown := executor_shutdown c;
     worker := worker c; events := events c; containers := containers c;
     checkpoints := checkpoints c; next_id := next_id c;
     signalled := signalled c |}.
Definition with_futures (v : gmap nat Future) (c : t) : t :=
  {| _scene := _scene c; _engine := _engine c; _assistant := _assistant c;
     _current_future := _current_future c;
     _purchase_requests := _purchase_requests c; _log := _log c;
     _state := _state c; _status_text := _status_text c;
     _error_message := _error_message c; _thread_id := _thread_id c;
     _temp_audio := _temp_audio c; futures := v;
     work_queue := work_queue c; executor_shutdown := executor_shutdown c;
     worker := worker c; events := events c; containers := containers c;
     checkpoints := checkpoints c; next_id := next_id c;
     signalled := signalled c |}.
Definition with_executor (q : list nat) (down : bool) (c : t) : t :=
  {| _scene := _scene c; _engine := _engine c; _assistant := _assistant c;
     _current_future := _current_future c;
     _purchase_requests := _purchase_requests c; _log := _log c;
     _state := _state c; _status_text := _status_text c;
     _error_message := _error_message c; _thread_id := _thread_id c;
     _temp_audio := _temp_audio c; futures := futures c;
     work_queue := q; executor_shutdown := down;
     worker := worker c; events := events c; containers := containers c;
     checkpoints := checkpoints c; next_id := next_id c;
     signalled := signalled c |}.
Definition with_worker (v : option (nat * prog VoiceTaskResult)) (c : t) : t :=
  {| _scene := _scene c; _engine := _engine c; _assistant := _assistant c;
     _current_future := _current_future c;
     _purchase_requests := _purchase_requests c; _log := _log c;
     _state := _state c; _status_text := _status_text c;
     _error_message := _error_message c; _thread_id := _thread_id c;
     _temp_audio := _temp_audio c; futures := futures c;
     work_queue := work_queue c; executor_shutdown := executor_shutdown c;
     worker := v; events := events c; containers := containers c;
     checkpoints := checkpoints c; next_id := next_id c;
     signalled := signalled c |}.
(** The stores of the bridge objects and the identity counter. *)
Definition with_bridge (ev : gmap nat bool)
    (ct : gmap nat (gmap string PurchaseOutcome)) (n : nat)
    (sg : list nat) (c : t) : t :=
  {| _scene := _scene c; _engine := _engine c; _assistant := _assistant c;
     _current_future := _current_future c;
     _purchase_requests := _purchase_requests c; _log := _log c;
     _state := _state c; _status_text := _status_text c;
     _error_message := _error_message c; _thread_id := _thread_id c;
     _temp_audio := _temp_audio c; futures := futures c;
     work_queue := work_queue c; executor_shutdown := executor_shutdown c;
     worker := worker c; events := ev; containers := ct;
     checkpoints := checkpoints c; next_id := n;
     signalled := sg |}.
Definition with_checkpoints (v : gmap string MerchantState) (c : t) : t :=
  {| _scene := _scene c; _engine := _engine c; _assistant := _assistant c;
     _current_future := _current_future c;
     _purchase_requests := _purchase_requests c; _log := _log c;
     _state := _state c; _status_text := _status_text c;
     _error_message := _error_message c; _thread_id := _thread_id c;
     _temp_audio := _temp_audio c; futures := futures c;
     work_queue := work_queue c; executor_shutdown := executor_shutdown c;
     worker := worker c; events := events c; containers := containers c;
     checkpoints := v; next_id := next_id c;
     signalled := signalled c |}.

(** The answers of the services outside the program: audio capture,
    transcription, speech synthesis, the language-model chains and the
    sound mixer. *)
Record Env := {
  env_record : Q → result string;
  env_transcribe : string → result string;
  env_tts : string → result string;
  env_intent : list Message → string → result IntentPrediction;
  env_smalltalk : list Message → result string;
  env_trade : list Message → string → string → string → result string;
  env_fallback : list Message → result string;
}.

(** [deque(maxlen=MAX_LOG_LINES).append] *)
Definition deque_append {A} (maxlen : nat) (x : A) (d : list A) : list A :=
  if (maxlen <=? length d)%nat then (drop (S (length d) - maxlen) d ++ [x])%list
  else (d ++ [x])%list.

Definition _append_log (speaker : string) (msg : option string) (c : t) : t :=
  match msg with
  | None => c
  | Some m =>
      let clean := PyStr.strip (PyStr.replace_newlines m) in
      if negb (PyStr.truthy clean) then c
      else with_log (deque_append MAX_LOG_LINES (speaker, clean) (_log c)) c
  end.

Definition _make_thread_id (scene : Shop.Scene) : string :=
  "shop:" ++ PyStr.lower (Player.name (Shop.player (Shop.app scene))).

(** [__init__] with [_initialise_services]: [engine] is the outcome of
    [ensure_voice_engine()], [api_key_set] what the assistant finds in the
    environment. *)
Definition init (scene : Shop.Scene) (engine : result unit)
    (api_key_set : bool) : t :=
  let fields (eng : bool) (a : option Assistant.t) :=
    {| _scene := scene; _engine := eng; _assistant := a;
       _current_future := None; _purchase_requests := [];
       _log := []; _state := "idle";
       _status_text := "Press Space to talk";
       _error_message := None;
       _thread_id := _make_thread_id scene;
       _temp_audio := []; futures := ∅; work_queue := [];
       executor_shutdown := false; worker := None; events := ∅;
       containers := ∅; checkpoints := ∅; next_id := O;
       signalled := [] |} in
  let failed (exc : exn) (c : t) :=
    with_status "error" "Voice setup failed" (Some (str_exn exc)) c in
  match engine with
  | Raised exc => failed exc (fields false None)
  | Ok _ =>
      let visitor := Player.name (Shop.player (Shop.app scene)) in
      match Assistant.init (Shop.items scene) "merchant" (Some visitor)
              api_key_set with
      | Raised exc => failed exc (fields true None)
      | Ok a =>
          let display_name :=
            let v := PyStr.strip (if PyStr.truthy visitor then visitor
                                  else "traveler") in
            if PyStr.truthy v then v else "traveler" in
          _append_log "Mira"
            (Some ("Welcome, " ++ display_name
                   ++ "! Tell me what you need or feel free to chat."))
            (fields true (Some a))
      end
  end.

(** [self._current_future and not self._current_future.done()] *)
Definition outstanding (c : t) : bool :=
  match _current_future c with
  | Some f =>
      match futures c !! f with
      | Some fu => negb (future_done fu)
      | None => false
      end
  | None => false
  end.

(** [self._executor.submit(self._capture_and_process)] *)
Definition submit : stx t nat :=
  λ c,
    if executor_shutdown c
    then (Raised (Exn (OtherError "RuntimeError")
                    "cannot schedule new futures after shutdown"), c)
    else
      let f := next_id c in
      (Ok f,
       with_bridge (events c) (containers c) (S f) (signalled c)
         (with_executor (work_queue c ++ [f])%list false
            (with_futures (<[f := FPending]> (futures c)) c))).

Definition _start_listening : stx t unit :=
  λ c,
    if outstanding c then (Ok tt, c)
    else if String.eqb (_state c) "error" then (Ok tt, c)
    else if negb (_engine c) || bool_decide (_assistant c = None)
    then (Ok tt, c)
    else
      (f ← submit; stx_modify (with_current_future (Some f)))
        (with_status "recording" "Listening..." None c).

(** [_purchase_handler], run by the worker: it queues the request and
    blocks until the game loop has stored the outcome. *)
Definition _purchase_handler (item_name : option string)
    : prog PurchaseOutcome :=
  event ← perform ENewEvent;
  container ← perform ENewContainer;
  _ ← perform (EQueuePut item_name event container);
  _ ← perform (EEventWait event);
  call (EContainerGet container "outcome").

Definition error_result (msg : string) : VoiceTaskResult :=
  {| transcript := None; assistant := None; audio_path := None;
     error := Some msg |}.

Definition _capture_and_process (c : t) : prog VoiceTaskResult :=
  match _engine c, _assistant c with
  | true, Some a =>
      try_catch
        (transcript ← VoiceEngine.record_and_transcribe VOICE_RECORD_SECONDS;
         if negb (PyStr.truthy (PyStr.strip transcript))
         then Ret (error_result "I could not hear you.")
         else
           assistant_result ←
             Assistant.process a _purchase_handler transcript (_thread_id c);
           audio_path ←
             (if PyStr.truthy (r_text assistant_result)
              then p ← VoiceEngine.synthesize (r_text assistant_result);
                   Ret (Some p)
              else Ret None);
           Ret {| transcript := Some (PyStr.strip transcript);
                  assistant := Some assistant_result;
                  audio_path := audio_path;
                  error := None |})
        (λ exc,
           match exn_cls exc with
           | RecordingError => Ret (error_result (str_exn exc))
           | _ => Ret (error_result
                         ("Voice interaction failed: " ++ str_exn exc))
           end)
  | _, _ => Throw (Exn (OtherError "AssertionError") "")
  end.

(** One round of the loop of [_process_purchase_requests], for the request
    just taken from the queue. *)
Definition process_request (rq : Request) (c : t) : t :=
  let '(r, scene') := Shop.attempt_voice_purchase (rq_item rq) (_scene c) in
  let outcome :=
    match r with
    | Ok o => o
    | Raised exc =>
        {| success := false; item_name := rq_item rq;
           message := "Trade failed: " ++ str_exn exc; price_paid := None |}
    end in
  with_bridge
    (<[rq_event rq := true]> (events c))
    (<[rq_container rq :=
         <["outcome" := outcome]> (default ∅ (containers c !! rq_container rq))]>
       (containers c))
    (next_id c)
    (signalled c ++ [rq_event rq])%list
    (with_scene scene' c).

(** The loop takes requests with [get_nowait] until the queue is empty. *)
Fixpoint drain (fuel : nat) (c : t) : t :=
  match fuel with
  | O => c
  | S fuel' =>
      match _purchase_requests c with
      | [] => c
      | rq :: rest =>
          drain fuel' (process_request rq (with_purchase_requests rest c))
      end
  end.

Definition _process_purchase_requests (c : t) : t :=
  drain (length (_purchase_requests c)) c.

(** [_play_audio]: [sound_ok] tells whether the mixer loads the file. *)
Definition _play_audio (path : string) (sound_ok : bool) (c : t) : t :=
  if negb sound_ok then c
  else with_temp_audio (_temp_audio c ++ [path])%list c.

Definition _handle_task_result (result : VoiceTaskResult) (sound_ok : bool)
    (c : t) : t :=
  if PyStr.truthy_opt (error result) then
    _append_log "System" (error result)
      (with_status "idle" "Press Space to talk" (error result) c)
  else
    let c := with_status "idle" "Press Space to talk" (_error_message c) c in
    let c := if PyStr.truthy_opt (transcript result)
             then _append_log "You" (transcript result) c else c in
    let c := match assistant result with
             | Some ar => if PyStr.truthy (r_text ar)
                          then _append_log "Mira" (Some (r_text ar)) c else c
             | None => c
             end in
    match audio_path result with
    | Some path => _play_audio path sound_ok c
    | None => c
    end.

Definition _poll_future (sound_ok : bool) (c : t) : t :=
  match _current_future c with
  | None => c
  | Some f =>
      match futures c !! f with
      | None => c
      | Some fu =>
          if negb (future_done fu) then c
          else
            with_current_future None
              match future_result fu with
              | Raised exc =>
                  with_status "error" "Voice error" (Some (str_exn exc)) c
              | Ok result => _handle_task_result result sound_ok c
              end
      end
  end.

(** [MerchantVoiceAssistant.reset_conversation], on the channel that owns
    the assistant and its checkpointer. *)
Definition reset_conversation (a : Assistant.t) (thread_id : string)
    : stx t unit :=
  MemorySaver.delete (Assistant._thread_namespace a) thread_id.

Definition _reset_conversation : stx t unit :=
  λ c,
    match _assistant c with
    | None => (Ok tt, c)
    | Some a =>
        (_ ← reset_conversation a (_thread_id c);
         stx_modify (λ c,
           let c := with_log [] c in
           let c := _append_log "Mira"
                      (Some "Let's start over. How can I help?") c in
           with_status "idle" "Press Space to talk" None c)) c
    end.

Inductive Key := K_SPACE | K_r | K_other.

(** [handle_input] on the keys of the KEYDOWN events, after the input
    callback of the scene. *)
Fixpoint handle_keys (keys : list Key) : stx t unit :=
  match keys with
  | [] => mret tt
  | K_SPACE :: r => _ ← _start_listening; handle_keys r
  | K_r :: r => _ ← _reset_conversation; handle_keys r
  | K_other :: r => handle_keys r
  end.

Definition handle_input (keys : list Key) : stx t unit :=
  λ c,
    if bool_decide (_assistant c = None) || negb (_engine c)
       || String.eqb (_state c) "error"
    then (Ok tt, c)
    else handle_keys keys c.

(** [render] before drawing. *)
Definition render (sound_ok : bool) (c : t) : t :=
  _poll_future sound_ok (_process_purchase_requests c).

(** [future.cancel()]: only a pending future is cancelled. *)
Definition cancel (fu : Future) : Future :=
  match fu with FPending => FCancelled | _ => fu end.

Definition close : stx t unit :=
  λ c,
    (_ ← match _assistant c with
         | Some a => reset_conversation a (_thread_id c)
         | None => mret tt
         end;
     stx_modify (λ c,
       let c := match _current_future c with
                | Some f => if outstanding c
                            then with_futures (alter cancel f (futures c)) c
                            else c
                | None => c
                end in
       (* shutdown(wait=False, cancel_futures=True) *)
       let c := with_executor [] true
                  (with_futures
                     (foldr (λ f m, alter cancel f m) (futures c)
                            (work_queue c)) c) in
       with_temp_audio [] c)) c.

(** *** Running the worker

    [handle] answers one effect in the current state; [None] means that
    the worker is blocked (an [event.wait()] on an event that is not
    set). *)
Definition handle (env : Env) {X} (eff : effect X) (c : t) : option (X * t) :=
  match eff in effect X return option (X * t) with
  | ERecord d => Some (env_record env d, c)
  | ETranscribe path => Some (env_transcribe env path, c)
  | EUnlink _ => Some (tt, c)
  | ETts text => Some (env_tts env text, c)
  | EIntentChain conv cat => Some (env_intent env conv cat, c)
  | ESmalltalkChain conv => Some (env_smalltalk env conv, c)
  | ETradeChain conv cat pm v => Some (env_trade env conv cat pm v, c)
  | EFallbackChain conv => Some (env_fallback env conv, c)
  | ECheckpointGet th => Some (MemorySaver.get th (checkpoints c), c)
  | ECheckpointPut th st =>
      Some (tt, with_checkpoints (MemorySaver.put th st (checkpoints c)) c)
  | ENewEvent =>
      Some (next_id c,
            with_bridge (<[next_id c := false]> (events c)) (containers c)
                        (S (next_id c)) (signalled c) c)
  | ENewContainer =>
      Some (next_id c,
            with_bridge (events c) (<[next_id c := ∅]> (containers c))
                        (S (next_id c)) (signalled c) c)
  | EQueuePut it ev ct =>
      Some (tt, with_purchase_requests
                  (_purchase_requests c
                   ++ [{| rq_item := it; rq_event := ev;
                          rq_container := ct |}])%list c)
  | EEventWait ev =>
      match events c !! ev with
      | Some true => Some (tt, c)
      | _ => None
      end
  | EContainerGet ct key =>
      Some (match containers c !! ct ≫= (λ d, d !! key) with
            | Some o => Ok o
            | None => Raised (Exn KeyError key)
            end, c)
  end.

(** The worker thread takes the next work item: a cancelled future is
    skipped, a pending one starts running [_capture_and_process]. *)
Definition worker_pickup (c : t) : option t :=
  match worker c, work_queue c with
  | None, f :: q =>
      match futures c !! f with
      | Some FPending =>
          Some (with_worker (Some (f, _capture_and_process c))
                  (with_executor q (executor_shutdown c)
                     (with_futures (<[f := FRunning]> (futures c)) c)))
      | _ => Some (with_executor q (executor_shutdown c) c)
      end
  | _, _ => None
  end.

(** One step of the running task: the next effect, or the completion of
    the future with the value or the exception of the task. *)
Definition worker_step (env : Env) (c : t) : option t :=
  match worker c with
  | None => None
  | Some (f, Ret r) =>
      Some (with_worker None (with_futures (<[f := FFinished r]> (futures c)) c))
  | Some (f, Throw e) =>
      Some (with_worker None (with_futures (<[f := FFailed e]> (futures c)) c))
  | Some (f, Vis eff k) =>
      match handle env eff c with
      | Some (x, c') => Some (with_worker (Some (f, k x)) c')
      | None => None
      end
  end.

(** The moves of the system: the game loop calls into the channel between
    the steps of the worker.  A move that raises leaves the channel as it is
    at the raise.  [Button] is the callback of a "Buy" button, run whether
    or not the button is enabled, so the moves include those that a
    disabled button swallows. *)
Inductive action :=
| Keys (keys : list Key)
| Button (index : nat)
| Drain
| Poll (sound_ok : bool)
| Close
| WorkerPickup
| WorkerStep (env : Env).

Definition step (a : action) (c : t) : option t :=
  match a with
  | Keys keys =>
      if executor_shutdown c then None else Some (handle_input keys c).2
  | Button index =>
      if executor_shutdown c then None
      else Some (with_scene (Shop._purchase index (_scene c)).2 c)
  | Drain =>
      if executor_shutdown c then None else Some (_process_purchase_requests c)
  | Poll sound_ok =>
      if executor_shutdown c then None else Some (_poll_future sound_ok c)
  | Close => if executor_shutdown c then None else Some (close c).2
  | WorkerPickup => worker_pickup c
  | WorkerStep env => worker_step env c
  end.

Fixpoint steps (acts : list action) (c : t) : option t :=
  match acts with
  | [] => Some c
  | a :: acts' => c' ← step a c; steps acts' c'
  end.

Inductive reachable (c0 : t) : t → Prop :=
| reach_init : reachable c0 c0
| reach_step c a c' : reachable c0 c → step a c = Some c' → reachable c0 c'.

(** *** A task run to completion

    The worker runs its program; when it blocks, the game loop renders a
    frame, which drains the purchase queue, and the worker goes on. *)
Fixpoint run (env : Env) {A} (p : prog A) (c : t) : option (result A * t) :=
  match p with
  | Ret a => Some (Ok a, c)
  | Throw e => Some (Raised e, c)
  | Vis eff k =>
      match handle env eff c with
      | Some (x, c') => run env (k x) c'
      | None =>
          match handle env eff (_process_purchase_requests c) with
          | Some (x, c') => run env (k x) c'
          | None => None
          end
      end
  end.

End Channel.

(** * Specification vocabulary *)

(** The dictionary of the inventory that holds an item of this type. *)
Definition bucket (item : Shop.Item) (inv : InventoryManager.t) : gmap string Z :=
  if String.eqb (Shop.i_type item) "weapon" then InventoryManager.weapons inv
  else if String.eqb (Shop.i_type item) "shield" then InventoryManager.shields inv
  else InventoryManager.potions inv.

(** The player's holdings of an item. *)
Definition holdings (item : Shop.Item) (s : Shop.Scene) : Z :=
  default 0 (bucket item (Player.inventory (Shop.player (Shop.app s)))
               !! Shop.i_name item).

Definition gold_of (s : Shop.Scene) : Z := Player.gold (Shop.player (Shop.app s)).

Definition ledger (s : Shop.Scene) (k : string) : Z :=
  default 0 (Shop.merchant_stock (Shop.app s) !! k).

(** The inventory knows the item (its name is a key of the dictionary for
    its type) with a count that is not negative.  [InventoryManager.init]
    gives every catalog name the count 0 and no method removes a key. *)
Definition grantable (inv : InventoryManager.t) (item : Shop.Item) : Prop :=
  ∃ n, bucket item inv !! Shop.i_name item = Some n ∧ 0 ≤ n.

Definition stocked (s : Shop.Scene) : Prop :=
  Forall (grantable (Player.inventory (Shop.player (Shop.app s)))) (Shop.items s).

(** The three effects of a purchase, and their absence. *)
Definition purchase_applied (item : Shop.Item) (s s' : Shop.Scene) : Prop :=
  gold_of s' = gold_of s - Shop.i_price item
  ∧ holdings item s' = holdings item s + 1
  ∧ match Shop.finite_stock_key item with
    | Some k => 0 < ledger s k
                ∧ Shop.merchant_stock (Shop.app s')
                  = <[k := ledger s k - 1]> (Shop.merchant_stock (Shop.app s))
    | None => Shop.merchant_stock (Shop.app s')
              = Shop.merchant_stock (Shop.app s)
    end.

Definition untouched (s s' : Shop.Scene) : Prop :=
  Shop.player (Shop.app s') = Shop.player (Shop.app s)
  ∧ Shop.merchant_stock (Shop.app s') = Shop.merchant_stock (Shop.app s)
  ∧ Shop.items s' = Shop.items s.

(** A sequence of resolver calls, each on the state the previous one left. *)
Fixpoint resolve_all (raws : list (option string)) (s : Shop.Scene)
    : list (result PurchaseOutcome) * Shop.Scene :=
  match raws with
  | [] => ([], s)
  | raw :: rest =>
      let '(r, s1) := Shop.attempt_voice_purchase raw s in
      let '(rs, s2) := resolve_all rest s1 in
      (r :: rs, s2)
  end.

Definition out_of_stock_outcome (item : Shop.Item) : PurchaseOutcome :=
  {| success := false; item_name := Some (Shop.i_name item);
     message := Shop.i_name item ++ " is out of stock!"; price_paid := None |}.

(** The outcome the bridge stores for a request that the game loop resolves
    on the scene [sc]: the outcome of the resolver, or the failure made from
    the exception it raised. *)
Definition bridged_outcome (rq : Request) (sc : Shop.Scene) : PurchaseOutcome :=
  match (Shop.attempt_voice_purchase (rq_item rq) sc).1 with
  | Ok o => o
  | Raised exc =>
      {| success := false; item_name := rq_item rq;
         message := "Trade failed: " ++ str_exn exc; price_paid := None |}
  end.

(** The scene on which each request of a queue is resolved, when they are
    taken in order from the scene [sc]. *)
Fixpoint scenes_before (q : list Request) (sc : Shop.Scene) : list Shop.Scene :=
  match q with
  | [] => []
  | rq :: rest =>
      sc :: scenes_before rest (Shop.attempt_voice_purchase (rq_item rq) sc).2
  end.

(** What [container["outcome"]] holds. *)
Definition stored_outcome (c : Channel.t) (container : nat)
    : option PurchaseOutcome :=
  Channel.containers c !! container ≫= (λ d, d !! "outcome").

(** ** Concrete situations used to exercise the model *)

(** The channel of a first visit: 25 gold, three heal potions in stock,
    services initialised. *)
Definition demo_channel : Channel.t :=
  Channel.init (fresh_scene "Hero" 25 {["Heal Potion" := 3]}) (Ok tt) true.

(** Services that hear a request for a heal potion; the reply chains and
    the synthesis answer as given. *)
Definition demo_env (record : result string) (intent : IntentLabel)
    (reply : result string) (tts : result string) : Channel.Env :=
  {| Channel.env_record := λ _, record;
     Channel.env_transcribe := λ _, Ok " a heal potion please ";
     Channel.env_tts := λ _, tts;
     Channel.env_intent := λ _ _,
       Ok {| p_intent := intent; p_item := Some "heal potion";
             p_confidence := None; p_rationale := None |};
     Channel.env_smalltalk := λ _, reply;
     Channel.env_trade := λ _ _ _ _, reply;
     Channel.env_fallback := λ _, reply |}.

(** The state after a list of moves ([c] itself when a move is not
    enabled). *)
Definition after (acts : list Channel.action) (c : Channel.t) : Channel.t :=
  default c (Channel.steps acts c).

(** A queue of two requests on a scene whose player has 500 gold and an
    inventory that does not know any weapon: the second request makes the
    resolver raise. *)
Definition demo_queue_channel : Channel.t :=
  Channel.with_purchase_requests
    [ {| rq_item := Some "heal potion"; rq_event := 0; rq_container := 1 |};
      {| rq_item := Some "steel sword"; rq_event := 2; rq_container := 3 |} ]%nat
    (Channel.with_scene
       {| Shop.app :=
            {| Shop.player :=
                 {| Player.name := "Hero"; Player.gold := 500;
                    Player.inventory :=
                      InventoryManager.set_weapons (λ _, ∅) InventoryManager.init |};
               Shop.merchant_stock := {["Heal Potion" := 3]};
               Shop.sounds := [] |};
          Shop.items := Shop._build_items;
          Shop.feedback := "" |}
       demo_channel).

(** The Turn sequence stored for a session of an assistant. *)
Definition history (a : Assistant.t) (thread_id : string) (c : Channel.t)
    : list Message :=
  default []
    (MemorySaver.get (Assistant.thread_key (Assistant._thread_namespace a) thread_id)
                     (Channel.checkpoints c) ≫= messages).

(** The error text of the task result for an exception caught at the
    boundary of [_capture_and_process]. *)
Definition boundary_error (exc : exn) : string :=
  match exn_cls exc with
  | RecordingError => str_exn exc
  | _ => "Voice interaction failed: " ++ str_exn exc
  end.

(** The PurchaseOutcome that the caller of the pipeline finds in a task
    result. *)
Definition reported_trade (r : VoiceTaskResult) : option PurchaseOutcome :=
  assistant r ≫= r_trade_result.

(** Two sessions of one assistant, "shop:alice" and "shop:bob", each with a
    stored exchange. *)
Definition demo_assistant : Assistant.t :=
  default {| Assistant._items := []; Assistant._thread_namespace := "";
             Assistant._visitor_name := ""; Assistant._catalog_text := "" |}
          (Channel._assistant demo_channel).

Definition talk (input thread_id : string) (c : Channel.t) : Channel.t :=
  match Channel.run (demo_env (Ok "rec.wav") smalltalk (Ok "Good day to you!")
                              (Ok "tts.mp3"))
          (Assistant.process demo_assistant Channel._purchase_handler
             input thread_id) c with
  | Some (_, c') => c'
  | None => c
  end.

Definition two_sessions : Channel.t :=
  talk "any news?" "shop:bob" (talk "hello" "shop:alice" demo_channel).

(** ** The discipline of the bridge

    Where a task stands with respect to the purchase bridge: it has not
    touched it ([Fresh]), it holds a new event that is not queued yet
    ([Holding]), its request is queued and it has to wait for the event
    ([Queued]), or it has been woken ([Spent]). *)
Inductive phase :=
| Fresh
| Holding (event : nat)
| Queued (event : nat)
| Spent.

Definition not_queued (ph : phase) : Prop :=
  match ph with Queued _ => False | _ => True end.

(** The effects that leave the queue and the events alone. *)
Definition bridge_free {X} (eff : effect X) : bool :=
  match eff with
  | ENewEvent | EQueuePut _ _ _ | EEventWait _ => false
  | _ => true
  end.

(** The phase after an effect, when the effect is allowed in the phase. *)
Definition next_phase {X} (eff : effect X) (ph : phase) : option (X → phase) :=
  match eff in effect X return option (X → phase) with
  | ENewEvent =>
      match ph with Fresh => Some (λ ev, Holding ev) | _ => None end
  | EQueuePut _ ev _ =>
      match ph with
      | Holding ev' => if decide (ev = ev') then Some (λ _, Queued ev) else None
      | _ => None
      end
  | EEventWait ev =>
      match ph with
      | Queued ev' => if decide (ev = ev') then Some (λ _, Spent) else None
      | _ => None
      end
  | _ => match ph with Queued _ => None | _ => Some (λ _, ph) end
  end.

(** A program that, from the given phase, creates at most one event,
    queues at most one request, for that event, and then at once waits for
    it. *)
Fixpoint disciplined {A} (ph : phase) (p : prog A) : Prop :=
  match p with
  | Ret _ | Throw _ => not_queued ph
  | Vis eff k =>
      match next_phase eff ph with
      | Some g => ∀ x, disciplined (g x) (k x)
      | None => False
      end
  end.

(** A program without any effect on the queue or the events. *)
Fixpoint quiet {A} (p : prog A) : Prop :=
  match p with
  | Ret _ | Throw _ => True
  | Vis eff k => bridge_free eff = true ∧ ∀ x, quiet (k x)
  end.

(** The invariant of the bridge: the queue is empty unless the running task
    is waiting for the event of the one request in it, and that event is
    not set. *)
Definition bridge_inv (c : Channel.t) : Prop :=
  match Channel.worker c with
  | None => Channel._purchase_requests c = []
  | Some (_, p) =>
      ∃ ph, disciplined ph p
        ∧ match ph with
          | Fresh | Spent => Channel._purchase_requests c = []
          | Holding ev =>
              Channel._purchase_requests c = []
              ∧ Channel.events c !! ev = Some false
          | Queued ev =>
              Channel._purchase_requests c = []
              ∨ ∃ rq, Channel._purchase_requests c = [rq]
                      ∧ rq_event rq = ev
                      ∧ Channel.events c !! ev = Some false
          end
  end.

(** The parts of the state the invariant reads. *)
Definition same_bridge (c c' : Channel.t) : Prop :=
  Channel.worker c' = Channel.worker c
  ∧ Channel._purchase_requests c' = Channel._purchase_requests c
  ∧ Channel.events c' = Channel.events c.

(** ** Vocabulary of the closest-match search *)

(** The similarity of a catalog name [x] to the looked-up [word]. *)
Definition score (word x : string) : Q :=
  Difflib.ratio (list_ascii_of_string x) (list_ascii_of_string word).

(** [x] clears the cutoff for [word]: its similarity is at least 0.6. *)
Definition clears (word x : string) : Prop :=
  (Shop.cutoff <= score word x)%Q.

(** [y] ranks below [x]: a lower score, or the same score and a smaller
    string. *)
Definition ranks_below (word y x : string) : Prop :=
  (score word y < score word x)%Q
  ∨ ((score word y == score word x)%Q ∧ String.ltb y x = true).

(** The "not in stock" failure. *)
Definition not_in_stock_outcome (raw : string) : PurchaseOutcome :=
  {| success := false; item_name := None;
     message := "I do not have '" ++ raw ++ "' in stock."; price_paid := None |}.

(** A program whose checkpoints all go to one thread. *)
Fixpoint saves_only (thread : string) {A} (p : prog A) : Prop :=
  match p with
  | Ret _ | Throw _ => True
  | Vis eff k =>
      match eff with
      | ECheckpointPut th _ => th = thread
      | _ => True
      end
      ∧ ∀ x, saves_only thread (k x)
  end.

(** ** Vocabulary of the matching blocks *)

(** A block [(i, j, k)] of the matcher: [a[i:i+k] == b[j:j+k]]. *)
Definition valid_block (a b : list ascii) (m : Difflib.Match) : Prop :=
  (m.1.1 + m.2 ≤ length a)%nat
  ∧ (m.1.2 + m.2 ≤ length b)%nat
  ∧ ∀ d, (d < m.2)%nat → a !! (m.1.1 + d)%nat = b !! (m.1.2 + d)%nat.

(** The values of [j2len] after the elements [adone] of [a]: an entry [k]
    at [j] is a match of length [k] that ends with the last element of
    [adone] and with [b[j]]. *)
Definition row_ok (adone b : list ascii) (row : list nat) : Prop :=
  length row = length b
  ∧ ∀ j k, row !! j = Some k →
      (k ≤ length adone)%nat ∧ (k ≤ j + 1)%nat
      ∧ ∀ d, (d < k)%nat →
          adone !! (length adone - k + d)%nat = b !! (j + 1 - k + d)%nat.

(** All characters, each once. *)
Definition alphabet : list ascii := ascii_of_nat <$> seq 0 256.

Fixpoint sum_map (f : ascii → nat) (l : list ascii) : nat :=
  match l with
  | [] => O
  | c :: l' => (f c + sum_map f l')%nat
  end.

Definition sum_over (f : ascii → nat) : nat := sum_map f alphabet.

(** The number of elements two sequences have in common as multisets. *)
Definition common (a b : list ascii) : nat :=
  sum_over (λ c, min (count_occ ascii_dec a c) (count_occ ascii_dec b c)).

(** The state of the loop of [quick_ratio] after the elements [a1]. *)
Definition quick_inv (b a1 : list ascii) (st : gmap ascii Z * nat) : Prop :=
  (∀ c, st.1 !! c
        = if decide (0 < count_occ ascii_dec a1 c)%nat
          then Some (Z.of_nat (count_occ ascii_dec b c)
                     - Z.of_nat (count_occ ascii_dec a1 c))
          else None)
  ∧ st.2 = common a1 b.

(** * Further parts of the program

    The remaining methods of the inventory and of the player, the button
    path and the display logic of the shop, the text helpers of the voice
    overlay, the loader of the [.env] file and the inventory screen. *)

(** ** inventory/manager.py: consuming and reading *)

Module Inventory.

(** [consume_potion]: the count is read with [get(name, 0)], lowered in
    place, and the potion is looked up in the table last. *)
Definition consume_potion (name : string)
    : stx InventoryManager.t Items.Potion :=
  λ inv,
    match InventoryManager.potions inv !! name with
    | Some n =>
        if n <=? 0
        then (Raised (Exn ValueError
                        ("No potion named " ++ name ++ " available")), inv)
        else
          let inv' := InventoryManager.set_potions <[name := n - 1]> inv in
          match Items.POTIONS !! name with
          | Some p => (Ok p, inv')
          | None => (Raised (Exn KeyError name), inv')
          end
    | None => (Raised (Exn ValueError
                         ("No potion named " ++ name ++ " available")), inv)
    end.

(** [get_equipped_weapon]: a falsy name ([None] or the empty string) gives
    [None]; otherwise the name is looked up in the table. *)
Definition get_equipped_weapon (inv : InventoryManager.t)
    : result (option Items.Weapon) :=
  match InventoryManager.equipped_weapon inv with
  | Some w =>
      if PyStr.truthy w then
        match Items.WEAPONS !! w with
        | Some x => Ok (Some x)
        | None => Raised (Exn KeyError w)
        end
      else Ok None
  | None => Ok None
  end.

Definition get_equipped_shield (inv : InventoryManager.t)
    : result (option Items.Shield) :=
  match InventoryManager.equipped_shield inv with
  | Some w =>
      if PyStr.truthy w then
        match Items.SHIELDS !! w with
        | Some x => Ok (Some x)
        | None => Raised (Exn KeyError w)
        end
      else Ok None
  | None => Ok None
  end.

End Inventory.

(** ** entities/player.py: level, experience and vitals *)

Module PlayerClassData.

Record t := {
  base_hp : Z;
  base_mp : Z;
  base_atk : Z;
  base_def : Z;
  hp_per_level : Z;
  atk_per_level : Z;
  def_per_level : Z;
  mp_per_level : Z;
}.

End PlayerClassData.

Definition PLAYER_CLASS_DATA : gmap string PlayerClassData.t :=
  <["Fighter" := {| PlayerClassData.base_hp := 100;
                    PlayerClassData.base_mp := 20;
                    PlayerClassData.base_atk := 5;
                    PlayerClassData.base_def := 2;
                    PlayerClassData.hp_per_level := 15;
                    PlayerClassData.atk_per_level := 3;
                    PlayerClassData.def_per_level := 2;
                    PlayerClassData.mp_per_level := 5 |}]>
  (<["Sorcerer" := {| PlayerClassData.base_hp := 70;
                      PlayerClassData.base_mp := 60;
                      PlayerClassData.base_atk := 4;
                      PlayerClassData.base_def := 1;
                      PlayerClassData.hp_per_level := 10;
                      PlayerClassData.atk_per_level := 2;
                      PlayerClassData.def_per_level := 1;
                      PlayerClassData.mp_per_level := 10 |}]> ∅).

Definition required_xp (level : Z) : Z := 100 + 50 * (level - 1).

(** The fields of [Player] that [Player.t] above leaves out, except the
    position on the map. *)
Module PlayerStats.

Record t := {
  player_class : string;
  data : PlayerClassData.t;
  level : Z;
  xp : Z;
  max_hp : Z;
  hp : Z;
  max_mp : Z;
  mp : Z;
  base_atk : Z;
  base_def : Z;
}.

Definition set_xp (v : Z) (p : t) : t :=
  {| player_class := player_class p; data := data p; level := level p;
     xp := v; max_hp := max_hp p; hp := hp p; max_mp := max_mp p;
     mp := mp p; base_atk := base_atk p; base_def := base_def p |}.
Definition set_hp (v : Z) (p : t) : t :=
  {| player_class := player_class p; data := data p; level := level p;
     xp := xp p; max_hp := max_hp p; hp := v; max_mp := max_mp p;
     mp := mp p; base_atk := base_atk p; base_def := base_def p |}.
Definition set_mp (v : Z) (p : t) : t :=
  {| player_class := player_class p; data := data p; level := level p;
     xp := xp p; max_hp := max_hp p; hp := hp p; max_mp := max_mp p;
     mp := v; base_atk := base_atk p; base_def := base_def p |}.

(** [__init__]: the class must be a known one. *)
Definition init (player_class : string) : result t :=
  match PLAYER_CLASS_DATA !! player_class with
  | None => Raised (Exn ValueError ("Unknown player class: " ++ player_class))
  | Some d =>
      Ok {| player_class := player_class; data := d; level := 1; xp := 0;
            max_hp := PlayerClassData.base_hp d;
            hp := PlayerClassData.base_hp d;
            max_mp := PlayerClassData.base_mp d;
            mp := PlayerClassData.base_mp d;
            base_atk := PlayerClassData.base_atk d;
            base_def := PlayerClassData.base_def d |}
  end.

(** One round of the loop of [gain_xp]. *)
Definition level_up (p : t) : t :=
  {| player_class := player_class p; data := data p;
     level := level p + 1;
     xp := xp p - required_xp (level p);
     max_hp := max_hp p + PlayerClassData.hp_per_level (data p);
     hp := max_hp p + PlayerClassData.hp_per_level (data p);
     max_mp := max_mp p + PlayerClassData.mp_per_level (data p);
     mp := max_mp p + PlayerClassData.mp_per_level (data p);
     base_atk := base_atk p + PlayerClassData.atk_per_level (data p);
     base_def := base_def p + PlayerClassData.def_per_level (data p) |}.

(** [while self.xp >= required_xp(self.level)]: [None] when the rounds
    allowed by [fuel] do not reach the end of the loop. *)
Fixpoint gain_xp_loop (fuel : nat) (p : t) (leveled_up : bool)
    : option (bool * t) :=
  match fuel with
  | O => if required_xp (level p) <=? xp p then None else Some (leveled_up, p)
  | S fuel' =>
      if required_xp (level p) <=? xp p
      then gain_xp_loop fuel' (level_up p) true
      else Some (leveled_up, p)
  end.

(** [gain_xp]: from level 1 on a round takes at least 100 points off the
    experience, so the experience itself bounds the number of rounds. *)
Definition gain_xp (amount : Z) (p : t) : option (bool * t) :=
  let p := set_xp (xp p + amount) p in
  gain_xp_loop (Z.to_nat (xp p)) p false.

Definition take_damage (amount : Z) (p : t) : t :=
  set_hp (Z.max 0 (hp p - amount)) p.

Definition heal (amount : Z) (p : t) : t :=
  set_hp (Z.min (max_hp p) (hp p + amount)) p.

Definition restore_mana (amount : Z) (p : t) : t :=
  set_mp (Z.min (max_mp p) (mp p + amount)) p.

Definition spend_mp (amount : Z) (p : t) : bool * t :=
  if amount <=? mp p then (true, set_mp (mp p - amount) p) else (false, p).

End PlayerStats.

(** ** ui/components.py: the button *)

Module Button.

(** The fields of a [Button] that its [handle_events] reads. *)
Record t := {
  enabled : bool;
  is_focused : bool;
}.

(** An event as a button sees it: a mouse press with its button number and
    whether its position is inside the rectangle of the button
    ([self.rect.collidepoint(event.pos)]), a key press with whether the key
    is Return, keypad Enter or Space, or an event of another type. *)
Inductive Event :=
| MOUSEBUTTONDOWN (button : Z) (inside : bool)
| KEYDOWN (activates : bool)
| OTHER.

Fixpoint handle_loop {S} (self : t) (callback : stx S unit)
    (events : list Event) : stx S unit :=
  match events with
  | [] => mret tt
  | MOUSEBUTTONDOWN button inside :: rest =>
      if (button =? 1) && inside
      then _ ← callback; handle_loop self callback rest
      else handle_loop self callback rest
  | KEYDOWN activates :: rest =>
      if is_focused self && activates
      then _ ← callback; handle_loop self callback rest
      else handle_loop self callback rest
  | OTHER :: rest => handle_loop self callback rest
  end.

(** [handle_events]: a button that is not enabled ignores every event. *)
Definition handle_events {S} (self : t) (callback : stx S unit)
    (events : list Event) : stx S unit :=
  if enabled self then handle_loop self callback events else mret tt.

End Button.

(** ** scenes/shop_scene.py: what [_render_ui] decides for the row of an item

    The drawing itself is left out; these are the values computed for each
    item before its row is drawn. *)

Module ShopView.

(** [out_of_stock]: only an item with a stock key can be out of stock. *)
Definition out_of_stock (item : Shop.Item) (s : Shop.Scene) : bool :=
  match Shop.finite_stock_key item with
  | Some k => default 0 (Shop.merchant_stock (Shop.app s) !! k) <=? 0
  | None => false
  end.

(** [button.enabled = (not out_of_stock) and (player.gold >= item["price"])] *)
Definition button_enabled (item : Shop.Item) (s : Shop.Scene) : bool :=
  negb (out_of_stock item s)
  && (Shop.i_price item <=? Player.gold (Shop.player (Shop.app s))).

(** The "Buy" buttons as [_render_ui] leaves them when it draws the scene:
    one per item, never focused, enabled by the flag of its row. *)
Definition render_buttons (s : Shop.Scene) : list Button.t :=
  (λ item, {| Button.enabled := button_enabled item s;
              Button.is_focused := false |}) <$> Shop.items s.

(** A left click on the "Buy" button of a row: [_handle_input] hands the
    events to every button, and the press is inside the rectangle of the
    button of this row; its callback is [_purchase] of the row. *)
Definition click (buttons : list Button.t) (index : nat)
    : stx Shop.Scene unit :=
  match buttons !! index with
  | Some button =>
      Button.handle_events button (Shop._purchase index)
        [Button.MOUSEBUTTONDOWN 1 true]
  | None => mret tt
  end.

End ShopView.

(** ** Python [str.split()] without arguments

    The words of a string: the maximal runs of characters that are not white
    space. *)

Module Words.

(** [cur] is the word being read, if one has been started. *)
Fixpoint split_from (cur : option string) (s : string) : list string :=
  match s with
  | EmptyString =>
      match cur with
      | Some w => [w]
      | None => []
      end
  | String c r =>
      if PyStr.isspace c then
        match cur with
        | Some w => w :: split_from None r
        | None => split_from None r
        end
      else
        split_from (Some (match cur with
                          | Some w => w ++ String c EmptyString
                          | None => String c EmptyString
                          end)) r
  end.

Definition split (s : string) : list string := split_from None s.

End Words.

(** ** merchant_dialogue.py: the lines of the voice overlay

    [width] stands for the font: the width in pixels of a rendered line,
    [font.render(line, True, color).get_width()]. *)

Module Overlay.

(** The loop of [_wrap_text] over [words[1:]]. *)
Fixpoint wrap_words (width : string → Z) (max_width : Z)
    (lines : list string) (current : string) (words : list string)
    : list string :=
  match words with
  | [] => (lines ++ [current])%list
  | word :: rest =>
      let candidate := current ++ " " ++ word in
      if width candidate <=? max_width
      then wrap_words width max_width lines candidate rest
      else wrap_words width max_width (lines ++ [current])%list word rest
  end.

Definition _wrap_text (width : string → Z) (text : string) (max_width : Z)
    : list string :=
  match Words.split text with
  | [] => [""]
  | first :: rest => wrap_words width max_width [] first rest
  end.

Definition panel_width : Z := 420.
Definition max_log_lines : nat := 8.
Definition max_line_width : Z := panel_width - 32.

(** The inner loop of [_render_overlay]: the chunks of one log entry, last
    chunk first, until [max_log_lines] lines are gathered. *)
Fixpoint take_chunks (speaker : string) (chunks : list string)
    (rendered_lines : list (string * string)) : list (string * string) :=
  match chunks with
  | [] => rendered_lines
  | chunk :: rest =>
      let rendered_lines := (rendered_lines ++ [(speaker, chunk)])%list in
      if (max_log_lines <=? length rendered_lines)%nat then rendered_lines
      else take_chunks speaker rest rendered_lines
  end.

(** The outer loop, over the reversed log. *)
Fixpoint gather (width : string → Z) (entries : list (string * string))
    (rendered_lines : list (string * string)) : list (string * string) :=
  match entries with
  | [] => rendered_lines
  | (speaker, message) :: rest =>
      let wrapped := _wrap_text width (speaker ++ ": " ++ message)
                       max_line_width in
      let rendered_lines :=
        take_chunks speaker (reverse wrapped) rendered_lines in
      if (max_log_lines <=? length rendered_lines)%nat then rendered_lines
      else gather width rest rendered_lines
  end.

(** [rendered_lines] as [_render_overlay] draws them, top to bottom. *)
Definition rendered_lines (width : string → Z) (log : list (string * string))
    : list (string * string) :=
  reverse (gather width (reverse log) []).

End Overlay.


(** ** utils/config.py: the reader of the [.env] file *)

Module Config.

(** [line.split("=", 1)] on a line: the text before the first "=" and the
    text after it, [None] when the line has no "=". *)
Fixpoint split_assignment (line : string) : option (string * string) :=
  match line with
  | EmptyString => None
  | String c r =>
      if Ascii.eqb c "="%char then Some (EmptyString, r)
      else match split_assignment r with
           | Some (key, value) => Some (String c key, value)
           | None => None
           end
  end.

(** [line.startswith("#")] *)
Definition is_comment (line : string) : bool :=
  match line with
  | String c _ => Ascii.eqb c "#"%char
  | EmptyString => false
  end.

(** One round of the loop of [load_env] on [os.environ]. *)
Definition load_line (environ : gmap string string) (line : string)
    : gmap string string :=
  let line := PyStr.strip line in
  if negb (PyStr.truthy line) || is_comment line then environ
  else
    match split_assignment line with
    | None => environ
    | Some (key, value) =>
        let key := PyStr.strip key in
        let value := PyStr.strip value in
        if PyStr.truthy key && negb (bool_decide (is_Some (environ !! key)))
        then <[key := value]> environ
        else environ
    end.

(** [load_env]: [lines] is [target.read_text().splitlines()], or [None]
    when the file does not exist. *)
Definition load_env (lines : option (list string))
    (environ : gmap string string) : gmap string string :=
  match lines with
  | None => environ
  | Some lines => foldl load_line environ lines
  end.

End Config.

(** ** inventory/manager.py: the rows of what is owned *)

(** [seq[i]] on a list: a negative index counts from the end. *)
Definition list_item {A} (l : list A) (i : Z) : result A :=
  let n := Z.of_nat (length l) in
  let j := if i <? 0 then i + n else i in
  match (if (0 <=? j) && (j <? n) then l !! Z.to_nat j else None) with
  | Some x => Ok x
  | None => Raised (Exn (OtherError "IndexError") "list index out of range")
  end.

Definition stx_lift {S A} (r : result A) : stx S A := λ s, (r, s).

Module Owned.

(** The keys of the item tables in the order of their literals.  The count
    dictionaries of an inventory are filled in this order by [__init__] and
    no method adds or removes a key, so this is the order in which
    [items()] runs over them. *)
Definition WEAPON_NAMES : list string := ["Short Sword"; "Steel Sword"].
Definition SHIELD_NAMES : list string := ["Wooden Shield"; "Iron Shield"].
Definition POTION_NAMES : list string := ["Heal Potion"; "Mana Potion"].

(** [[(TABLE[name], count) for name, count in counts.items() if count > 0]]
    for a dictionary whose keys are among [names]. *)
Fixpoint rows {A} (table : gmap string A) (counts : gmap string Z)
    (names : list string) : result (list (A * Z)) :=
  match names with
  | [] => Ok []
  | name :: rest =>
      match counts !! name with
      | Some count =>
          if 0 <? count then
            match table !! name with
            | Some x =>
                match rows table counts rest with
                | Ok l => Ok ((x, count) :: l)
                | Raised e => Raised e
                end
            | None => Raised (Exn KeyError name)
            end
          else rows table counts rest
      | None => rows table counts rest
      end
  end.

Definition get_owned_weapons (inv : InventoryManager.t)
    : result (list (Items.Weapon * Z)) :=
  rows Items.WEAPONS (InventoryManager.weapons inv) WEAPON_NAMES.

Definition get_owned_shields (inv : InventoryManager.t)
    : result (list (Items.Shield * Z)) :=
  rows Items.SHIELDS (InventoryManager.shields inv) SHIELD_NAMES.

Definition get_potions (inv : InventoryManager.t)
    : result (list (Items.Potion * Z)) :=
  rows Items.POTIONS (InventoryManager.potions inv) POTION_NAMES.

End Owned.

(** ** inventory/overlay.py: the inventory screen *)

Module InventoryOverlay.

Inductive Key :=
| K_ESCAPE | K_i | K_RIGHT | K_d | K_LEFT | K_a | K_DOWN | K_s | K_UP | K_w
| K_RETURN | K_KP_ENTER | K_other.

(** A [KEYDOWN] event with its key, or an event of another type. *)
Inductive Event := KEYDOWN (key : Key) | OTHER.

(** The overlay with the parts of [app] it works on: the inventory and the
    statistics of [app.player], and the [assets.play_sound] requests. *)
Record t := {
  active : bool;
  section_index : Z;
  selection_index : Z;
  inventory : InventoryManager.t;
  player : PlayerStats.t;
  sounds : list (string * Q);
}.

Definition section_order : list string := ["Weapons"; "Shields"; "Potions"].

Definition set_indices (section selection : Z) (o : t) : t :=
  {| active := active o; section_index := section;
     selection_index := selection; inventory := inventory o;
     player := player o; sounds := sounds o |}.
Definition set_inventory (inv : InventoryManager.t) (o : t) : t :=
  {| active := active o; section_index := section_index o;
     selection_index := selection_index o; inventory := inv;
     player := player o; sounds := sounds o |}.
Definition set_player (p : PlayerStats.t) (o : t) : t :=
  {| active := active o; section_index := section_index o;
     selection_index := selection_index o; inventory := inventory o;
     player := p; sounds := sounds o |}.

Definition play_sound (key : string) (volume : Q) : stx t unit :=
  stx_modify (λ o, {| active := active o; section_index := section_index o;
                      selection_index := selection_index o;
                      inventory := inventory o; player := player o;
                      sounds := (sounds o ++ [(key, volume)])%list |}).

Definition on_inventory {A} (m : stx InventoryManager.t A) : stx t A :=
  stx_zoom inventory set_inventory m.

Definition toggle (o : t) : t :=
  {| active := negb (active o); section_index := 0; selection_index := 0;
     inventory := inventory o; player := player o; sounds := sounds o |}.

Definition _item_count_in_section : stx t Z :=
  o ← stx_get;
  section ← stx_lift (list_item section_order (section_index o));
  if String.eqb section "Weapons" then
    l ← stx_lift (Owned.get_owned_weapons (inventory o));
    mret (Z.of_nat (length l))
  else if String.eqb section "Shields" then
    l ← stx_lift (Owned.get_owned_shields (inventory o));
    mret (Z.of_nat (length l))
  else
    l ← stx_lift (Owned.get_potions (inventory o));
    mret (Z.of_nat (length l)).

Definition _activate_selection : stx t unit :=
  o ← stx_get;
  section ← stx_lift (list_item section_order (section_index o));
  if String.eqb section "Weapons" then
    weapons ← stx_lift (Owned.get_owned_weapons (inventory o));
    match weapons with
    | [] => mret tt
    | _ =>
        row ← stx_lift (list_item weapons (selection_index o));
        _ ← on_inventory
              (InventoryManager.equip_weapon (Items.weapon_name row.1));
        play_sound "heavy_hit" (4 # 10)
    end
  else if String.eqb section "Shields" then
    shields ← stx_lift (Owned.get_owned_shields (inventory o));
    match shields with
    | [] => mret tt
    | _ =>
        row ← stx_lift (list_item shields (selection_index o));
        _ ← on_inventory
              (InventoryManager.equip_shield (Items.shield_name row.1));
        play_sound "heavy_hit" (4 # 10)
    end
  else
    potions ← stx_lift (Owned.get_potions (inventory o));
    match potions with
    | [] => mret tt
    | _ =>
        row ← stx_lift (list_item potions (selection_index o));
        effect ← on_inventory
                   (Inventory.consume_potion (Items.potion_name row.1));
        if String.eqb (Items.resource effect) "hp" then
          _ ← stx_modify (λ o, set_player
                 (PlayerStats.heal (Items.restore_amount effect) (player o)) o);
          play_sound "drink" (6 # 10)
        else
          _ ← stx_modify (λ o, set_player
                 (PlayerStats.restore_mana (Items.restore_amount effect)
                    (player o)) o);
          play_sound "mana_drink" (6 # 10)
    end.

(** The loop over the events of [handle_events]; Escape and I leave it. *)
Fixpoint handle_loop (events : list Event) : stx t unit :=
  match events with
  | [] => mret tt
  | OTHER :: rest => handle_loop rest
  | KEYDOWN key :: rest =>
      match key with
      | K_ESCAPE | K_i => stx_modify toggle
      | K_RIGHT | K_d =>
          _ ← stx_modify (λ o,
                set_indices ((section_index o + 1)
                               `mod` Z.of_nat (length section_order)) 0 o);
          handle_loop rest
      | K_LEFT | K_a =>
          _ ← stx_modify (λ o,
                set_indices ((section_index o - 1)
                               `mod` Z.of_nat (length section_order)) 0 o);
          handle_loop rest
      | K_DOWN | K_s =>
          count ← _item_count_in_section;
          _ ← (if 0 <? count
               then stx_modify (λ o,
                      set_indices (section_index o)
                                  ((selection_index o + 1) `mod` count) o)
               else mret tt);
          handle_loop rest
      | K_UP | K_w =>
          count ← _item_count_in_section;
          _ ← (if 0 <? count
               then stx_modify (λ o,
                      set_indices (section_index o)
                                  ((selection_index o - 1) `mod` count) o)
               else mret tt);
          handle_loop rest
      | K_RETURN | K_KP_ENTER => _ ← _activate_selection; handle_loop rest
      | K_other => handle_loop rest
      end
  end.

Definition handle_events (events : list Event) : stx t unit :=
  λ o, if active o then handle_loop events o else (Ok tt, o).

End InventoryOverlay.
(** * Specification vocabulary for the further parts *)

(** ** Calls on an inventory *)

Inductive inventory_call :=
| AddWeapon (name : string)
| AddShield (name : string)
| AddPotion (name : string) (amount : Z)
| ConsumePotion (name : string)
| EquipWeapon (name : string)
| EquipShield (name : string).

(** The inventory after a call, whether the call returned or raised. *)
Definition inventory_step (inv : InventoryManager.t) (call : inventory_call)
    : InventoryManager.t :=
  match call with
  | AddWeapon name => (InventoryManager.add_weapon name inv).2
  | AddShield name => (InventoryManager.add_shield name inv).2
  | AddPotion name amount => (InventoryManager.add_potion name amount inv).2
  | ConsumePotion name => (Inventory.consume_potion name inv).2
  | EquipWeapon name => (InventoryManager.equip_weapon name inv).2
  | EquipShield name => (InventoryManager.equip_shield name inv).2
  end.

(** Potions are added in amounts that are not negative. *)
Definition adds_some (call : inventory_call) : Prop :=
  match call with
  | AddPotion _ amount => 0 ≤ amount
  | _ => True
  end.

(** No count of the dictionary is negative. *)
Definition counted (d : gmap string Z) : Prop :=
  ∀ k n, d !! k = Some n → 0 ≤ n.

(** The name, if any, has a positive count in the dictionary. *)
Definition owned (d : gmap string Z) (equipped : option string) : Prop :=
  ∀ w, equipped = Some w → ∃ n, d !! w = Some n ∧ 0 < n.

(** The dictionaries have the keys of the item tables and no negative
    count, and what is equipped is owned. *)
Definition inventory_ok (inv : InventoryManager.t) : Prop :=
  dom (InventoryManager.weapons inv) = dom Items.WEAPONS
  ∧ dom (InventoryManager.shields inv) = dom Items.SHIELDS
  ∧ dom (InventoryManager.potions inv) = dom Items.POTIONS
  ∧ counted (InventoryManager.weapons inv)
  ∧ counted (InventoryManager.shields inv)
  ∧ counted (InventoryManager.potions inv)
  ∧ owned (InventoryManager.weapons inv) (InventoryManager.equipped_weapon inv)
  ∧ owned (InventoryManager.shields inv) (InventoryManager.equipped_shield inv).

(** ** Experience and vitals *)

(** The experience gathered since level 1: the points of the current level
    and the thresholds of the levels passed,
    [sum (required_xp l) for l in 1 .. level-1]. *)
Definition total_xp (p : PlayerStats.t) : Z :=
  PlayerStats.xp p + 25 * (PlayerStats.level p - 1) * (PlayerStats.level p + 2).

Inductive vitals_call :=
| TakeDamage (amount : Z)
| Heal (amount : Z)
| RestoreMana (amount : Z)
| SpendMp (amount : Z)
| GainXp (amount : Z).

Definition vitals_amount (call : vitals_call) : Z :=
  match call with
  | TakeDamage a | Heal a | RestoreMana a | SpendMp a | GainXp a => a
  end.

(** The player after a call ([None] when [gain_xp] does not end within its
    bound). *)
Definition vitals_step (call : vitals_call) (p : PlayerStats.t)
    : option PlayerStats.t :=
  match call with
  | TakeDamage a => Some (PlayerStats.take_damage a p)
  | Heal a => Some (PlayerStats.heal a p)
  | RestoreMana a => Some (PlayerStats.restore_mana a p)
  | SpendMp a => Some (PlayerStats.spend_mp a p).2
  | GainXp a => snd <$> PlayerStats.gain_xp a p
  end.

Fixpoint vitals_run (calls : list vitals_call) (p : PlayerStats.t)
    : option PlayerStats.t :=
  match calls with
  | [] => Some p
  | call :: rest => p' ← vitals_step call p; vitals_run rest p'
  end.

(** Hit points and mana are between 0 and their maxima, the level is at
    least 1 and the experience is below the threshold of the level. *)
Definition vitals_ok (p : PlayerStats.t) : Prop :=
  0 ≤ PlayerStats.hp p ≤ PlayerStats.max_hp p
  ∧ 0 ≤ PlayerStats.mp p ≤ PlayerStats.max_mp p
  ∧ 1 ≤ PlayerStats.level p
  ∧ PlayerStats.xp p < required_xp (PlayerStats.level p).

(** The statistics a class gains per level are not negative. *)
Definition growing (d : PlayerClassData.t) : Prop :=
  0 ≤ PlayerClassData.hp_per_level d ∧ 0 ≤ PlayerClassData.mp_per_level d.

(** New players of the two classes, as [Player.__init__] makes them. *)
Definition fighter : PlayerStats.t :=
  {| PlayerStats.player_class := "Fighter";
     PlayerStats.data :=
       {| PlayerClassData.base_hp := 100; PlayerClassData.base_mp := 20;
          PlayerClassData.base_atk := 5; PlayerClassData.base_def := 2;
          PlayerClassData.hp_per_level := 15;
          PlayerClassData.atk_per_level := 3;
          PlayerClassData.def_per_level := 2;
          PlayerClassData.mp_per_level := 5 |};
     PlayerStats.level := 1; PlayerStats.xp := 0;
     PlayerStats.max_hp := 100; PlayerStats.hp := 100;
     PlayerStats.max_mp := 20; PlayerStats.mp := 20;
     PlayerStats.base_atk := 5; PlayerStats.base_def := 2 |}.

Definition sorcerer : PlayerStats.t :=
  {| PlayerStats.player_class := "Sorcerer";
     PlayerStats.data :=
       {| PlayerClassData.base_hp := 70; PlayerClassData.base_mp := 60;
          PlayerClassData.base_atk := 4; PlayerClassData.base_def := 1;
          PlayerClassData.hp_per_level := 10;
          PlayerClassData.atk_per_level := 2;
          PlayerClassData.def_per_level := 1;
          PlayerClassData.mp_per_level := 10 |};
     PlayerStats.level := 1; PlayerStats.xp := 0;
     PlayerStats.max_hp := 70; PlayerStats.hp := 70;
     PlayerStats.max_mp := 60; PlayerStats.mp := 60;
     PlayerStats.base_atk := 4; PlayerStats.base_def := 1 |}.

(** ** Moves in the shop *)

(** A purchase attempt: a spoken item name, or a click on the "Buy" button
    of a row. *)
Inductive shop_action :=
| Say (raw : option string)
| Click (index : nat).

(** The scene after an attempt, whether it returned or raised.  [Click] is
    the callback of the "Buy" button of a row, run whether or not the button
    is enabled, so the moves include those that a disabled button
    swallows. *)
Definition shop_step (s : Shop.Scene) (a : shop_action) : Shop.Scene :=
  match a with
  | Say raw => (Shop.attempt_voice_purchase raw s).2
  | Click index => (Shop._purchase index s).2
  end.

Definition shop_run (acts : list shop_action) (s : Shop.Scene) : Shop.Scene :=
  foldl shop_step s acts.

(** The price of everything the player holds of the catalog. *)
Fixpoint goods_value (its : list Shop.Item) (s : Shop.Scene) : Z :=
  match its with
  | [] => 0
  | item :: rest => Shop.i_price item * holdings item s + goods_value rest s
  end.

(** Gold plus the price of the goods bought. *)
Definition wealth (s : Shop.Scene) : Z :=
  gold_of s + goods_value (Shop.items s) s.

(** ** The face of the channel *)

(** The line-feed character. *)
Definition LF : ascii := ascii_of_nat 10.

(** A log message as [_append_log] leaves it: not empty, without white
    space at either end and without a line feed. *)
Definition tidy (m : string) : Prop :=
  PyStr.truthy m = true ∧ PyStr.strip m = m ∧ PyStr.has_char LF m = false.

(** The log holds at most [MAX_LOG_LINES] lines, all tidy. *)
Definition log_ok (c : Channel.t) : Prop :=
  (length (Channel._log c) ≤ Channel.MAX_LOG_LINES)%nat
  ∧ Forall (λ line : string * string, tidy line.2) (Channel._log c).

(** The fields that only the game loop writes, and not while it drains the
    purchase queue. *)
Definition same_face (c c' : Channel.t) : Prop :=
  Channel._log c' = Channel._log c
  ∧ Channel._state c' = Channel._state c
  ∧ Channel._status_text c' = Channel._status_text c
  ∧ Channel._error_message c' = Channel._error_message c
  ∧ Channel._current_future c' = Channel._current_future c
  ∧ Channel._temp_audio c' = Channel._temp_audio c
  ∧ Channel._assistant c' = Channel._assistant c
  ∧ Channel._engine c' = Channel._engine c.

(** A string that is empty or starts with a character that is not white
    space. *)
Definition headed (s : string) : Prop :=
  match s with
  | EmptyString => True
  | String c _ => PyStr.isspace c = false
  end.

(** The channel has no task: no future, an empty work queue, an idle
    worker and no future attached. *)
Definition no_task (c : Channel.t) : Prop :=
  Channel.futures c = ∅
  ∧ Channel.work_queue c = []
  ∧ Channel.worker c = None
  ∧ Channel._current_future c = None.

(** In the error state no task is attached to the channel. *)
Definition error_inv (c : Channel.t) : Prop :=
  Channel._state c = "error" → Channel._current_future c = None.

(** A channel whose voice engine could not be set up. *)
Definition broken_channel : Channel.t :=
  Channel.init (fresh_scene "Hero" 25 {["Heal Potion" := 3]})
    (Raised (Exn (OtherError "OpenAIError") "no credentials")) true.

(** ** Turns of the conversation *)

(** The answer of the reply chain that the graph routes a state to when the
    intent is not a trade. *)
Definition chat_reply (env : Channel.Env) (label : IntentLabel)
    (conversation : list Message) : result string :=
  match label with
  | smalltalk => Channel.env_smalltalk env conversation
  | _ => Channel.env_fallback env conversation
  end.

(** The state of the graph after classification. *)
Definition classified (st : MerchantState) (pred : IntentPrediction)
    : MerchantState :=
  {| messages := messages st; user_input := user_input st;
     intent := Some (p_intent pred);
     candidate_item := Assistant.candidate_of pred;
     response_text := response_text st;
     trade_result := trade_result st |}.

(** The program deletes the file on every path, whatever the services
    answer. *)
Fixpoint unlinks (path : string) {A} (p : prog A) : Prop :=
  match p with
  | Ret _ | Throw _ => False
  | Vis eff k =>
      match eff with
      | EUnlink q => q = path
      | _ => ∀ x, unlinks path (k x)
      end
  end.

(** ** The lines of the overlay *)

(** A line fits the width, or is a single word of the text. *)
Definition fits_or_word (width : string → Z) (max_width : Z)
    (words : list string) (line : string) : Prop :=
  width line ≤ max_width ∨ line ∈ words.

(** The log as wrapped lines, each with the speaker of its entry, oldest
    first. *)
Definition wrapped_log (width : string → Z) (log : list (string * string))
    : list (string * string) :=
  concat ((λ entry : string * string,
             (λ chunk, (entry.1, chunk))
               <$> Overlay._wrap_text width (entry.1 ++ ": " ++ entry.2)
                     Overlay.max_line_width) <$> log).

(** A font in which every character is 10 pixels wide. *)
Definition monospace (line : string) : Z := 10 * Z.of_nat (String.length line).


(** ** The [.env] file *)



(** ** The inventory screen *)

(** The rows a dictionary of counts gives over a list of names: the names
    with a positive count, in the order of the list. *)
Definition listed (counts : gmap string Z) (names : list string)
    : list (string * Z) :=
  omap (λ name, match counts !! name with
                | Some count => if 0 <? count then Some (name, count) else None
                | None => None
                end) names.

(** The rows of a section as names and counts (none when the list cannot
    be built). *)
Definition row_names {A} (name_of : A → string)
    (r : result (list (A * Z))) : list (string * Z) :=
  match r with
  | Ok l => (λ row : A * Z, (name_of row.1, row.2)) <$> l
  | Raised _ => []
  end.

(** The rows of the section on screen. *)
Definition shown (o : InventoryOverlay.t) : list (string * Z) :=
  let inv := InventoryOverlay.inventory o in
  if InventoryOverlay.section_index o =? 0
  then row_names Items.weapon_name (Owned.get_owned_weapons inv)
  else if InventoryOverlay.section_index o =? 1
  then row_names Items.shield_name (Owned.get_owned_shields inv)
  else row_names Items.potion_name (Owned.get_potions inv).

(** The inventory is well formed, the section is one of the three, and the
    selection is on a row of the section (on row 0 when it has none). *)
Definition overlay_ok (o : InventoryOverlay.t) : Prop :=
  inventory_ok (InventoryOverlay.inventory o)
  ∧ 0 ≤ InventoryOverlay.section_index o < 3
  ∧ 0 ≤ InventoryOverlay.selection_index o
      < Z.max 1 (Z.of_nat (length (shown o))).

(** The selection is on the last of two or more rows of potions, and that
    row holds a single potion. *)
Definition on_last_potion (o : InventoryOverlay.t) : Prop :=
  InventoryOverlay.section_index o = 2
  ∧ (2 ≤ length (shown o))%nat
  ∧ InventoryOverlay.selection_index o = Z.of_nat (length (shown o)) - 1
  ∧ ∃ name, shown o !! Z.to_nat (InventoryOverlay.selection_index o)
            = Some (name, 1).

Definition is_enter (e : InventoryOverlay.Event) : bool :=
  match e with
  | InventoryOverlay.KEYDOWN InventoryOverlay.K_RETURN
  | InventoryOverlay.KEYDOWN InventoryOverlay.K_KP_ENTER => true
  | _ => false
  end.

(** Escape and I close the screen. *)
Definition is_escape (e : InventoryOverlay.Event) : bool :=
  match e with
  | InventoryOverlay.KEYDOWN InventoryOverlay.K_ESCAPE
  | InventoryOverlay.KEYDOWN InventoryOverlay.K_i => true
  | _ => false
  end.

Definition IndexError : exn :=
  Exn (OtherError "IndexError") "list index out of range".

(** A player with one heal potion and one mana potion, on the second row
    of the potions. *)
Definition two_potions : InventoryOverlay.t :=
  {| InventoryOverlay.active := true;
     InventoryOverlay.section_index := 2;
     InventoryOverlay.selection_index := 1;
     InventoryOverlay.inventory :=
       foldl inventory_step InventoryManager.init
             [AddPotion "Heal Potion" 1; AddPotion "Mana Potion" 1];
     InventoryOverlay.player := sorcerer;
     InventoryOverlay.sounds := [] |}.
(** * Checks of the model on concrete inputs *)

Example difflib_sword_short :
  Difflib.ratio (list_ascii_of_string "short sword") (list_ascii_of_string "sword")
  = (10 # 16)%Q.
Proof. vm_compute. reflexivity. Qed.

Example difflib_heall :
  Difflib.get_close_matches "heall poshun"
    ["short sword"; "steel sword"; "wooden shield"; "iron shield";
     "heal potion"; "mana potion"] (6 # 10) = ["heal potion"].
Proof. vm_compute. reflexivity. Qed.

Example difflib_sword :
  Difflib.get_close_matches "sword"
    ["short sword"; "steel sword"; "wooden shield"; "iron shield";
     "heal potion"; "mana potion"] (6 # 10) = ["steel sword"].
Proof. vm_compute. reflexivity. Qed.

Example scenario_1 :
  let '(r, s') := Shop.attempt_voice_purchase (Some "heal potion")
                    (fresh_scene "Hero" 25 {["Heal Potion" := 3]}) in
  r = Ok {| success := true; item_name := Some "Heal Potion";
            message := "Bought Heal Potion for 20g."; price_paid := Some 20 |}
  ∧ Player.gold (Shop.player (Shop.app s')) = 5
  ∧ Shop.merchant_stock (Shop.app s') !! "Heal Potion" = Some 2.
Proof. vm_compute. auto. Qed.

(** * Facts about the shop *)

Lemma grant_spec (item : Shop.Item) (inv : InventoryManager.t) :
  grantable inv item →
  ∃ inv', Shop.grant item inv = (Ok tt, inv')
          ∧ bucket item inv' !! Shop.i_name item
            = Some (default 0 (bucket item inv !! Shop.i_name item) + 1).
Proof.
  intros (n & Hn & Hpos). unfold Shop.grant, bucket in *.
  destruct (String.eqb (Shop.i_type item) "weapon") eqn:Hw.
  - unfold mbind, stx_bind, InventoryManager.add_weapon. rewrite Hn. simpl.
    destruct (InventoryManager.equipped_weapon inv) eqn:He; simpl.
    + eexists; split; [reflexivity|]. simpl. rewrite lookup_insert_eq. done.
    + unfold InventoryManager.equip_weapon. simpl. rewrite lookup_insert_eq.
      simpl. destruct (n + 1 <=? 0) eqn:Hle; [apply Z.leb_le in Hle; lia|].
      eexists; split; [reflexivity|]. simpl. rewrite lookup_insert_eq. done.
  - destruct (String.eqb (Shop.i_type item) "shield") eqn:Hs.
    + unfold mbind, stx_bind, InventoryManager.add_shield. rewrite Hn. simpl.
      destruct (InventoryManager.equipped_shield inv) eqn:He; simpl.
      * eexists; split; [reflexivity|]. simpl. rewrite lookup_insert_eq. done.
      * unfold InventoryManager.equip_shield. simpl. rewrite lookup_insert_eq.
        simpl. destruct (n + 1 <=? 0) eqn:Hle; [apply Z.leb_le in Hle; lia|].
        eexists; split; [reflexivity|]. simpl. rewrite lookup_insert_eq. done.
    + unfold InventoryManager.add_potion. rewrite Hn.
      eexists; split; [reflexivity|]. simpl. rewrite lookup_insert_eq. done.
Qed.

Lemma remaining_of_finite (item : Shop.Item) (s : Shop.Scene) (k : string) :
  Shop.finite_stock_key item = Some k →
  Shop.remaining_of item s = Some (ledger s k).
Proof. intros H. unfold Shop.remaining_of. rewrite H. reflexivity. Qed.

Lemma remaining_of_infinite (item : Shop.Item) (s : Shop.Scene) :
  Shop.finite_stock_key item = None → Shop.remaining_of item s = None.
Proof. intros H. unfold Shop.remaining_of. rewrite H. reflexivity. Qed.

(** The outcome of [_attempt_purchase] when the ledger of the item is
    exhausted. *)
Lemma attempt_purchase_out_of_stock (item : Shop.Item) (s : Shop.Scene) (k : string) :
  Shop.finite_stock_key item = Some k →
  ledger s k ≤ 0 →
  Shop._attempt_purchase item s
  = (Ok {| success := false; item_name := Some (Shop.i_name item);
           message := Shop.i_name item ++ " is out of stock!";
           price_paid := None |},
     (Shop.play_sound "error" (5 # 10) s).2).
Proof.
  intros Hk Hle. unfold Shop._attempt_purchase, mbind, stx_bind, stx_get.
  rewrite (remaining_of_finite _ _ _ Hk), Hk. simpl.
  destruct (ledger s k <=? 0) eqn:E; [reflexivity|].
  apply Z.leb_gt in E. lia.
Qed.

(** [_attempt_purchase] on an item the inventory can take: it returns, and
    either all three effects of the purchase are applied or none. *)
Lemma attempt_purchase_spec (item : Shop.Item) (s : Shop.Scene) :
  grantable (Player.inventory (Shop.player (Shop.app s))) item →
  ∃ o s', Shop._attempt_purchase item s = (Ok o, s')
    ∧ item_name o = Some (Shop.i_name item)
    ∧ Shop.items s' = Shop.items s
    ∧ Shop.feedback s' = Shop.feedback s
    ∧ ((success o = true ∧ price_paid o = Some (Shop.i_price item)
        ∧ purchase_applied item s s')
       ∨ (success o = false ∧ price_paid o = None ∧ untouched s s')).
Proof.
  intros Hg.
  destruct (grant_spec item _ Hg) as (inv' & Hgrant & Hcount).
  unfold Shop._attempt_purchase, mbind, stx_bind, stx_get.
  destruct (Shop.finite_stock_key item) as [k|] eqn:Hk.
  - rewrite (remaining_of_finite _ _ _ Hk). simpl.
    destruct (ledger s k <=? 0) eqn:Hstock.
    { do 2 eexists. split; [reflexivity|]. simpl.
      repeat split; try done. right. repeat split; done. }
    apply Z.leb_gt in Hstock.
    unfold Shop.on_player, stx_zoom, Player.spend_gold.
    destruct (Shop.i_price item <=? Player.gold (Shop.player (Shop.app s)))
      eqn:Hgold; simpl.
    + unfold Shop.on_inventory, Shop.on_player, stx_zoom. simpl.
      rewrite Hgrant. simpl.
      do 2 eexists. split; [reflexivity|]. simpl.
      repeat split; try done. left. repeat split; try done.
      * unfold holdings. simpl. rewrite Hcount. reflexivity.
      * rewrite Hk. split; [done|]. simpl.
        rewrite Z.max_r by lia. reflexivity.
    + do 2 eexists. split; [reflexivity|]. simpl.
      repeat split; try done. right. repeat split; done.
  - rewrite (remaining_of_infinite _ _ Hk). simpl.
    unfold Shop.on_player, stx_zoom, Player.spend_gold.
    destruct (Shop.i_price item <=? Player.gold (Shop.player (Shop.app s)))
      eqn:Hgold; simpl.
    + unfold Shop.on_inventory, Shop.on_player, stx_zoom. simpl.
      rewrite Hgrant. simpl.
      do 2 eexists. split; [reflexivity|]. simpl.
      repeat split; try done. left. repeat split; try done.
      * unfold holdings. simpl. rewrite Hcount. reflexivity.
      * rewrite Hk. reflexivity.
    + do 2 eexists. split; [reflexivity|]. simpl.
      repeat split; try done. right. repeat split; done.
Qed.

(** ** The name table of the resolver *)

Lemma dict_get_set {V} (k k' : string) (v : V) (d : list (string * V)) :
  Shop.dict_get k (Shop.dict_set k' v d)
  = if String.eqb k k' then Some v else Shop.dict_get k d.
Proof.
  induction d as [|[k0 v0] d IH]; simpl.
  - reflexivity.
  - destruct (String.eqb k' k0) eqn:E0; simpl.
    + apply String.eqb_eq in E0. subst k0.
      destruct (String.eqb k k'); reflexivity.
    + rewrite IH. destruct (String.eqb k k0) eqn:E1; [|reflexivity].
      apply String.eqb_eq in E1. subst k0.
      rewrite String.eqb_sym, E0. reflexivity.
Qed.

Lemma name_lookup_fold_sound (its : list Shop.Item)
    (l : list (nat * Shop.Item)) (d : list (string * (nat * Shop.Item))) :
  (∀ p, p ∈ l → its !! p.1 = Some p.2) →
  (∀ k p, Shop.dict_get k d = Some p
          → its !! p.1 = Some p.2 ∧ PyStr.lower (Shop.i_name p.2) = k) →
  ∀ k p,
    Shop.dict_get k
      (foldl (λ d '(idx, item),
                Shop.dict_set (PyStr.lower (Shop.i_name item)) (idx, item) d)
             d l) = Some p
    → its !! p.1 = Some p.2 ∧ PyStr.lower (Shop.i_name p.2) = k.
Proof.
  revert d. induction l as [|[idx item] l IH]; intros d Hl Hd k p; simpl.
  - apply Hd.
  - apply IH.
    + intros q Hq. apply Hl. by right.
    + intros k' q. rewrite dict_get_set.
      destruct (String.eqb k' (PyStr.lower (Shop.i_name item))) eqn:E.
      * intros [= <-]. apply String.eqb_eq in E. split; [|done].
        apply (Hl (idx, item)). by left.
      * apply Hd.
Qed.

Lemma name_lookup_sound (its : list Shop.Item) (k : string)
    (idx : nat) (item : Shop.Item) :
  Shop.dict_get k (Shop.name_lookup its) = Some (idx, item) →
  its !! idx = Some item ∧ PyStr.lower (Shop.i_name item) = k.
Proof.
  intros H.
  apply (name_lookup_fold_sound its (Shop.enumerate its) [] ) with (p := (idx, item)) in H;
    [done| |done].
  intros [i x] Hp. apply elem_of_lookup_imap in Hp as (i' & y & [= -> ->] & Hy).
  exact Hy.
Qed.

(** A resolved name denotes an entry of the catalog. *)
Lemma resolve_sound (raw : string) (s : Shop.Scene) (idx : nat) (item : Shop.Item) :
  Shop._resolve_item_name raw s = Some (idx, item) →
  Shop.items s !! idx = Some item.
Proof.
  unfold Shop._resolve_item_name.
  destruct (negb _); [done|].
  destruct (Shop.dict_get _ _) as [[i x]|] eqn:E.
  - intros [= -> ->]. by apply name_lookup_sound in E as [? _].
  - destruct (Difflib.get_close_matches _ _ _) as [|m ?]; [done|].
    intros H. by apply name_lookup_sound in H as [? _].
Qed.

(** The resolver on any raw name, for a catalog the inventory can take. *)
Lemma attempt_voice_purchase_spec (raw : option string) (s : Shop.Scene) :
  stocked s →
  ∃ o s', Shop.attempt_voice_purchase raw s = (Ok o, s')
    ∧ ((success o = true
        ∧ ∃ idx item, Shop.items s !! idx = Some item
            ∧ item_name o = Some (Shop.i_name item)
            ∧ price_paid o = Some (Shop.i_price item)
            ∧ purchase_applied item s s')
       ∨ (success o = false ∧ price_paid o = None ∧ untouched s s')).
Proof.
  intros Hst. unfold Shop.attempt_voice_purchase.
  destruct raw as [raw|]; simpl.
  2:{ do 2 eexists. split; [reflexivity|]. right. done. }
  destruct (negb (PyStr.truthy raw) || negb (PyStr.truthy (PyStr.strip raw))).
  { do 2 eexists. split; [reflexivity|]. right. done. }
  unfold mbind, stx_bind, stx_get.
  destruct (Shop._resolve_item_name raw s) as [[idx item]|] eqn:Hres.
  2:{ do 2 eexists. split; [reflexivity|]. right. done. }
  apply resolve_sound in Hres.
  assert (Hg : grantable (Player.inventory (Shop.player (Shop.app s))) item).
  { unfold stocked in Hst. rewrite Forall_forall in Hst. apply Hst.
    by eapply list_elem_of_lookup_2. }
  destruct (attempt_purchase_spec item s Hg)
    as (o & s1 & Hrun & Hname & Hitems & Hfb & Hcases).
  rewrite Hrun. simpl.
  do 2 eexists. split; [reflexivity|].
  destruct Hcases as [(Hs & Hp & Happ)|(Hs & Hp & Hun)].
  - left. split; [done|]. exists idx, item. repeat split; try done.
    + apply Happ.
    + apply Happ.
    + destruct Happ as (_ & _ & H). exact H.
  - right. repeat split; try done; apply Hun.
Qed.

(** ** The inventory keeps knowing the catalog *)

Lemma grantable_equipped_weapon (inv : InventoryManager.t)
    (e : option string) (item : Shop.Item) :
  grantable inv item → grantable (InventoryManager.set_equipped_weapon e inv) item.
Proof. intros H. exact H. Qed.

Lemma grantable_equipped_shield (inv : InventoryManager.t)
    (e : option string) (item : Shop.Item) :
  grantable inv item → grantable (InventoryManager.set_equipped_shield e inv) item.
Proof. intros H. exact H. Qed.

Lemma grantable_insert_weapon (inv : InventoryManager.t) (name : string)
    (n : Z) (item : Shop.Item) :
  0 ≤ n →
  grantable inv item →
  grantable (InventoryManager.set_weapons <[name := n]> inv) item.
Proof.
  intros Hn (m & Hm & Hpos). unfold grantable, bucket in *. simpl.
  destruct (String.eqb (Shop.i_type item) "weapon"); [|by eauto].
  destruct (decide (name = Shop.i_name item)) as [->|Hne].
  - exists n. by rewrite lookup_insert_eq.
  - exists m. by rewrite lookup_insert_ne.
Qed.

Lemma grantable_insert_shield (inv : InventoryManager.t) (name : string)
    (n : Z) (item : Shop.Item) :
  0 ≤ n →
  grantable inv item →
  grantable (InventoryManager.set_shields <[name := n]> inv) item.
Proof.
  intros Hn (m & Hm & Hpos). unfold grantable, bucket in *. simpl.
  destruct (String.eqb (Shop.i_type item) "weapon"); [by eauto|].
  destruct (String.eqb (Shop.i_type item) "shield"); [|by eauto].
  destruct (decide (name = Shop.i_name item)) as [->|Hne].
  - exists n. by rewrite lookup_insert_eq.
  - exists m. by rewrite lookup_insert_ne.
Qed.

Lemma grantable_insert_potion (inv : InventoryManager.t) (name : string)
    (n : Z) (item : Shop.Item) :
  0 ≤ n →
  grantable inv item →
  grantable (InventoryManager.set_potions <[name := n]> inv) item.
Proof.
  intros Hn (m & Hm & Hpos). unfold grantable, bucket in *. simpl.
  destruct (String.eqb (Shop.i_type item) "weapon"); [by eauto|].
  destruct (String.eqb (Shop.i_type item) "shield"); [by eauto|].
  destruct (decide (name = Shop.i_name item)) as [->|Hne].
  - exists n. by rewrite lookup_insert_eq.
  - exists m. by rewrite lookup_insert_ne.
Qed.

Lemma grant_preserves (item item' : Shop.Item) (inv : InventoryManager.t) :
  grantable inv item →
  grantable inv item' →
  grantable (Shop.grant item inv).2 item'.
Proof.
  intros (n & Hn & Hpos) Hg'. unfold Shop.grant, bucket in *.
  destruct (String.eqb (Shop.i_type item) "weapon") eqn:Hw.
  - unfold mbind, stx_bind, InventoryManager.add_weapon. rewrite Hn. simpl.
    destruct (InventoryManager.equipped_weapon inv) eqn:He; simpl.
    + apply grantable_insert_weapon; [lia|done].
    + unfold InventoryManager.equip_weapon. simpl. rewrite lookup_insert_eq.
      simpl. destruct (n + 1 <=? 0) eqn:Hle; [apply Z.leb_le in Hle; lia|].
      simpl. apply grantable_equipped_weapon.
      apply grantable_insert_weapon; [lia|done].
  - destruct (String.eqb (Shop.i_type item) "shield") eqn:Hs.
    + unfold mbind, stx_bind, InventoryManager.add_shield. rewrite Hn. simpl.
      destruct (InventoryManager.equipped_shield inv) eqn:He; simpl.
      * apply grantable_insert_shield; [lia|done].
      * unfold InventoryManager.equip_shield. simpl. rewrite lookup_insert_eq.
        simpl. destruct (n + 1 <=? 0) eqn:Hle; [apply Z.leb_le in Hle; lia|].
        simpl. apply grantable_equipped_shield.
        apply grantable_insert_shield; [lia|done].
    + unfold InventoryManager.add_potion. rewrite Hn. simpl.
      apply grantable_insert_potion; [lia|done].
Qed.

Lemma attempt_purchase_stocked (item : Shop.Item) (s : Shop.Scene) :
  stocked s →
  grantable (Player.inventory (Shop.player (Shop.app s))) item →
  stocked (Shop._attempt_purchase item s).2.
Proof.
  intros Hst Hg.
  destruct (grant_spec item _ Hg) as (inv' & Hgrant & _).
  assert (Hst' : Forall (grantable inv') (Shop.items s)).
  { unfold stocked in Hst. rewrite Forall_forall in Hst |- *. intros x Hx.
    replace inv' with
      (Shop.grant item (Player.inventory (Shop.player (Shop.app s)))).2
      by (by rewrite Hgrant).
    apply grant_preserves; [done|]. by apply Hst. }
  unfold Shop._attempt_purchase, mbind, stx_bind, stx_get.
  destruct (bool_decide _ && _); [exact Hst|].
  unfold Shop.on_player, stx_zoom, Player.spend_gold.
  destruct (Shop.i_price item <=? Player.gold (Shop.player (Shop.app s)));
    simpl; [|exact Hst].
  unfold Shop.on_inventory, Shop.on_player, stx_zoom. simpl.
  rewrite Hgrant. simpl.
  destruct (Shop.finite_stock_key item); exact Hst'.
Qed.

Lemma attempt_voice_purchase_stocked (raw : option string) (s : Shop.Scene) :
  stocked s → stocked (Shop.attempt_voice_purchase raw s).2.
Proof.
  intros Hst. unfold Shop.attempt_voice_purchase.
  destruct raw as [raw|]; simpl; [|exact Hst].
  destruct (negb (PyStr.truthy raw) || negb (PyStr.truthy (PyStr.strip raw)));
    [exact Hst|].
  unfold mbind, stx_bind, stx_get.
  destruct (Shop._resolve_item_name raw s) as [[idx item]|] eqn:Hres;
    [|exact Hst].
  apply resolve_sound in Hres.
  assert (Hg : grantable (Player.inventory (Shop.player (Shop.app s))) item).
  { unfold stocked in Hst. rewrite Forall_forall in Hst. apply Hst.
    by eapply list_elem_of_lookup_2. }
  pose proof (attempt_purchase_stocked item s Hst Hg) as H.
  destruct (Shop._attempt_purchase item s) as [[o|e] s1]; simpl in *; exact H.
Qed.

(** The catalog of the shop with the inventory of a new player. *)
Lemma fresh_scene_stocked (visitor : string) (gold : Z) (stock : gmap string Z) :
  stocked (fresh_scene visitor gold stock).
Proof.
  unfold stocked. simpl.
  repeat constructor; (exists 0; split; [vm_compute; reflexivity | lia]).
Qed.

(** * Purchase atomicity *)

(** C1. Every resolver call either succeeds, with the gold lowered by the
    price, the holdings of the item raised by one and a finite stock ledger
    lowered by one, or fails with gold, holdings and stock as they were; the
    catalog stays grantable, so this holds again at the next call.  With
    "Heal Potion" at 20 gold, stock 3 and 25 gold, resolving "heal potion"
    succeeds with price paid 20, stock 2 and gold 5. *)
Theorem C1_purchase_atomicity :
  (∀ (raw : option string) (s : Shop.Scene),
     stocked s →
     ∃ o s', Shop.attempt_voice_purchase raw s = (Ok o, s')
       ∧ stocked s'
       ∧ ((success o = true
           ∧ ∃ idx item, Shop.items s !! idx = Some item
               ∧ item_name o = Some (Shop.i_name item)
               ∧ price_paid o = Some (Shop.i_price item)
               ∧ purchase_applied item s s')
          ∨ (success o = false ∧ price_paid o = None ∧ untouched s s')))
  ∧ (∃ s', Shop.attempt_voice_purchase (Some "heal potion")
             (fresh_scene "Hero" 25 {["Heal Potion" := 3]})
           = (Ok {| success := true; item_name := Some "Heal Potion";
                    message := "Bought Heal Potion for 20g.";
                    price_paid := Some 20 |}, s')
           ∧ gold_of s' = 5 ∧ ledger s' "Heal Potion" = 2).
Proof.
  split.
  - intros raw s Hst.
    destruct (attempt_voice_purchase_spec raw s Hst) as (o & s' & Hrun & Hc).
    exists o, s'. split; [done|]. split; [|done].
    replace s' with (Shop.attempt_voice_purchase raw s).2 by (by rewrite Hrun).
    by apply attempt_voice_purchase_stocked.
  - eexists. split; [vm_compute; reflexivity|]. split; vm_compute; reflexivity.
Qed.

Lemma C1_purchase_atomicity_witness :
  stocked (fresh_scene "Hero" 25 {["Heal Potion" := 3]})
  ∧ ∃ o s', Shop.attempt_voice_purchase (Some "heal potion")
              (fresh_scene "Hero" 25 {["Heal Potion" := 3]}) = (Ok o, s')
       ∧ stocked s'
       ∧ ((success o = true
           ∧ ∃ idx item,
               Shop.items (fresh_scene "Hero" 25 {["Heal Potion" := 3]}) !! idx
               = Some item
               ∧ item_name o = Some (Shop.i_name item)
               ∧ price_paid o = Some (Shop.i_price item)
               ∧ purchase_applied item
                   (fresh_scene "Hero" 25 {["Heal Potion" := 3]}) s')
          ∨ (success o = false ∧ price_paid o = None
             ∧ untouched (fresh_scene "Hero" 25 {["Heal Potion" := 3]}) s')).
Proof.
  split.
  - apply fresh_scene_stocked.
  - apply (proj1 C1_purchase_atomicity). apply fresh_scene_stocked.
Defined.

(** * Stock exhaustion *)

Lemma lower_char_isspace (c : ascii) :
  PyStr.isspace (PyStr.lower_char c) = PyStr.isspace c.
Proof. destruct c as [[] [] [] [] [] [] [] []]; vm_compute; reflexivity. Qed.

Lemma lower_truthy (s : string) : PyStr.truthy (PyStr.lower s) = PyStr.truthy s.
Proof. destruct s; reflexivity. Qed.

Lemma lstrip_lower (s : string) :
  PyStr.lstrip (PyStr.lower s) = PyStr.lower (PyStr.lstrip s).
Proof.
  induction s as [|c s IH]; simpl; [reflexivity|].
  rewrite lower_char_isspace. destruct (PyStr.isspace c); [exact IH|reflexivity].
Qed.

Lemma rstrip_lower (s : string) :
  PyStr.rstrip (PyStr.lower s) = PyStr.lower (PyStr.rstrip s).
Proof.
  induction s as [|c s IH]; simpl; [reflexivity|].
  rewrite IH, lower_char_isspace.
  destruct (PyStr.rstrip s); simpl; [|reflexivity].
  destruct (PyStr.isspace c); reflexivity.
Qed.

Lemma strip_lower (s : string) :
  PyStr.strip (PyStr.lower s) = PyStr.lower (PyStr.strip s).
Proof. unfold PyStr.strip. by rewrite lstrip_lower, rstrip_lower. Qed.

Lemma strip_truthy_raw (s : string) :
  PyStr.truthy (PyStr.strip s) = true → PyStr.truthy s = true.
Proof. destruct s; [done|reflexivity]. Qed.

(** The resolver reads the catalog only. *)
Lemma resolve_items (raw : string) (s s' : Shop.Scene) :
  Shop.items s' = Shop.items s →
  Shop._resolve_item_name raw s' = Shop._resolve_item_name raw s.
Proof. intros H. unfold Shop._resolve_item_name. by rewrite H. Qed.

(** A name that resolves is not blank. *)
Lemma resolve_some_truthy (raw : string) (s : Shop.Scene) (hit : nat * Shop.Item) :
  Shop._resolve_item_name raw s = Some hit →
  PyStr.truthy raw = true ∧ PyStr.truthy (PyStr.strip raw) = true.
Proof.
  unfold Shop._resolve_item_name. rewrite strip_lower, lower_truthy.
  destruct (PyStr.truthy (PyStr.strip raw)) eqn:E; [|done].
  intros _. split; [|done]. by apply strip_truthy_raw.
Qed.

Lemma voice_purchase_out_of_stock (raw : string) (s : Shop.Scene)
    (idx : nat) (item : Shop.Item) (k : string) :
  Shop._resolve_item_name raw s = Some (idx, item) →
  Shop.finite_stock_key item = Some k →
  ledger s k ≤ 0 →
  ∃ s', Shop.attempt_voice_purchase (Some raw) s
        = (Ok (out_of_stock_outcome item), s')
        ∧ untouched s s'.
Proof.
  intros Hres Hk Hzero.
  destruct (resolve_some_truthy _ _ _ Hres) as [Ht Hts].
  unfold Shop.attempt_voice_purchase. rewrite Ht, Hts. simpl.
  unfold mbind, stx_bind, stx_get. rewrite Hres.
  rewrite (attempt_purchase_out_of_stock item s k Hk Hzero). simpl.
  eexists. split; [reflexivity|]. done.
Qed.

(** C6. Once the ledger of a finite-stock item is at 0, every further
    resolution attempt for that item, however many, returns the failure
    "<name> is out of stock!" and leaves gold, holdings and the ledger as
    they were. *)
Theorem C6_stock_exhaustion (raws : list string) (s : Shop.Scene)
    (item : Shop.Item) (k : string) :
  Shop.finite_stock_key item = Some k →
  ledger s k = 0 →
  Forall (λ raw, ∃ idx, Shop._resolve_item_name raw s = Some (idx, item)) raws →
  Forall (λ r, r = Ok (out_of_stock_outcome item))
         (resolve_all (Some <$> raws) s).1
  ∧ gold_of (resolve_all (Some <$> raws) s).2 = gold_of s
  ∧ ledger (resolve_all (Some <$> raws) s).2 k = 0
  ∧ untouched s (resolve_all (Some <$> raws) s).2.
Proof.
  intros Hk. revert s.
  induction raws as [|raw raws IH]; intros s Hzero Hall;
    rewrite ?fmap_cons; cbn [resolve_all].
  - repeat split; done.
  - apply Forall_cons in Hall as [[idx Hres] Hall].
    destruct (voice_purchase_out_of_stock raw s idx item k Hres Hk)
      as (s1 & Hrun & Hp & Hm & Hi); [lia|].
    rewrite Hrun.
    assert (Hzero1 : ledger s1 k = 0) by (unfold ledger; by rewrite Hm).
    assert (Hall1 : Forall (λ raw, ∃ idx,
              Shop._resolve_item_name raw s1 = Some (idx, item)) raws).
    { eapply Forall_impl; [exact Hall|]. intros r [i Hr]. exists i.
      by rewrite (resolve_items r s s1 Hi). }
    destruct (IH s1 Hzero1 Hall1) as (Hf & Hg & Hl & Hp' & Hm' & Hi').
    destruct (resolve_all (Some <$> raws) s1) as [rs s2]. simpl in *.
    repeat split.
    + by constructor.
    + rewrite Hg. unfold gold_of. by rewrite Hp.
    + exact Hl.
    + by rewrite Hp'.
    + by rewrite Hm'.
    + by rewrite Hi'.
Qed.

Lemma C6_stock_exhaustion_witness :
  let s := fresh_scene "Hero" 100 {["Heal Potion" := 0]} in
  let raws := ["heal potion"; "Heal Potion"; "heall poshun"] in
  Forall (λ r, r = Ok {| success := false; item_name := Some "Heal Potion";
                         message := "Heal Potion is out of stock!";
                         price_paid := None |})
         (resolve_all (Some <$> raws) s).1
  ∧ gold_of (resolve_all (Some <$> raws) s).2 = 100
  ∧ ledger (resolve_all (Some <$> raws) s).2 "Heal Potion" = 0
  ∧ untouched s (resolve_all (Some <$> raws) s).2.
Proof.
  intros s raws.
  refine (C6_stock_exhaustion raws s
            {| Shop.i_name := "Heal Potion"; Shop.i_type := "potion";
               Shop.i_price := 20; Shop.i_sprite := "heal_potion";
               Shop.i_stock_key := Some "Heal Potion";
               Shop.i_bonus := "Restores 40 HP" |} "Heal Potion" _ _ _).
  - reflexivity.
  - vm_compute. reflexivity.
  - repeat constructor; exists 4%nat; vm_compute; reflexivity.
Defined.

(** * The channel controller *)

(** C7. While a background task is outstanding, a start request changes
    nothing: the channel state, the status text, the log, the outstanding
    future and the work queue of the executor are all as before, whether
    [_start_listening] is called directly or through the Space key. *)
Theorem C7_single_flight (c : Channel.t) :
  Channel.outstanding c = true →
  Channel._start_listening c = (Ok tt, c)
  ∧ Channel.handle_input [Channel.K_SPACE] c = (Ok tt, c).
Proof.
  intros H.
  assert (Hs : Channel._start_listening c = (Ok tt, c)).
  { unfold Channel._start_listening. by rewrite H. }
  split; [exact Hs|].
  unfold Channel.handle_input.
  destruct (_ || _); [reflexivity|].
  simpl. unfold mbind, stx_bind. by rewrite Hs.
Qed.

(** * Draining the purchase bridge *)

Lemma process_request_fields (rq : Request) (c : Channel.t) :
  let c' := Channel.process_request rq c in
  Channel._purchase_requests c' = Channel._purchase_requests c
  ∧ Channel.signalled c' = (Channel.signalled c ++ [rq_event rq])%list
  ∧ Channel.events c' = <[rq_event rq := true]> (Channel.events c)
  ∧ Channel._scene c'
    = (Shop.attempt_voice_purchase (rq_item rq) (Channel._scene c)).2
  ∧ Channel.containers c'
    = <[rq_container rq :=
          <["outcome" := bridged_outcome rq (Channel._scene c)]>
            (default ∅ (Channel.containers c !! rq_container rq))]>
        (Channel.containers c).
Proof.
  unfold Channel.process_request, bridged_outcome.
  destruct (Shop.attempt_voice_purchase (rq_item rq) (Channel._scene c))
    as [r sc']. simpl. done.
Qed.

Lemma drain_frame (n : nat) (c : Channel.t) :
  (∀ e, Channel.events c !! e = Some true
        → Channel.events (Channel.drain n c) !! e = Some true)
  ∧ (∀ ct, ct ∉ rq_container <$> Channel._purchase_requests c
           → Channel.containers (Channel.drain n c) !! ct
             = Channel.containers c !! ct).
Proof.
  revert c. induction n as [|n IH]; intros c; simpl; [done|].
  destruct (Channel._purchase_requests c) as [|rq rest] eqn:Hq; [done|].
  set (c1 := Channel.process_request rq (Channel.with_purchase_requests rest c)).
  destruct (process_request_fields rq (Channel.with_purchase_requests rest c))
    as (Hq1 & _ & Hev & _ & Hct). fold c1 in Hq1, Hev, Hct. simpl in *.
  destruct (IH c1) as [IHe IHc]. split.
  - intros e He. apply IHe. rewrite Hev.
    destruct (decide (rq_event rq = e)) as [->|Hne].
    + by rewrite lookup_insert_eq.
    + by rewrite lookup_insert_ne.
  - intros ct Hnotin. rewrite ?fmap_cons in Hnotin.
    apply not_elem_of_cons in Hnotin as [Hne Hrest].
    rewrite IHc by (by rewrite Hq1). rewrite Hct.
    by rewrite lookup_insert_ne.
Qed.

Lemma drain_spec (q : list Request) (c : Channel.t) :
  Channel._purchase_requests c = q →
  NoDup (rq_container <$> q) →
  let c' := Channel.drain (length q) c in
  Channel._purchase_requests c' = []
  ∧ Channel.signalled c' = (Channel.signalled c ++ (rq_event <$> q))%list
  ∧ ∀ i rq, q !! i = Some rq →
      Channel.events c' !! rq_event rq = Some true
      ∧ ∃ sc, scenes_before q (Channel._scene c) !! i = Some sc
              ∧ stored_outcome c' (rq_container rq)
                = Some (bridged_outcome rq sc).
Proof.
  revert c. induction q as [|rq rest IH]; intros c Hq Hnd; simpl.
  - split; [done|]. split; [by rewrite app_nil_r|]. intros i rq Hi. done.
  - rewrite Hq.
    set (c1 := Channel.process_request rq (Channel.with_purchase_requests rest c)).
    destruct (process_request_fields rq (Channel.with_purchase_requests rest c))
      as (Hq1 & Hsg & Hev & Hsc & Hct).
    fold c1 in Hq1, Hsg, Hev, Hsc, Hct. simpl in Hq1, Hsg, Hev, Hsc, Hct.
    rewrite fmap_cons in Hnd. apply NoDup_cons in Hnd as [Hnotin Hnd].
    destruct (IH c1 Hq1 Hnd) as (IHq & IHs & IHi).
    destruct (drain_frame (length rest) c1) as [Hfe Hfc].
    split; [exact IHq|]. split.
    { rewrite IHs, Hsg, <- app_assoc. reflexivity. }
    intros i rq0 H. destruct i as [|i]; simpl in H.
    + injection H as <-. split.
      * apply Hfe. rewrite Hev. by rewrite lookup_insert_eq.
      * exists (Channel._scene c). split; [reflexivity|].
        unfold stored_outcome. rewrite Hfc by (by rewrite Hq1).
        rewrite Hct, lookup_insert_eq. simpl. by rewrite lookup_insert_eq.
    + destruct (IHi i rq0 H) as (Hev' & sc & Hsc' & Hst).
      split; [exact Hev'|].
      exists sc. split; [|exact Hst]. simpl. by rewrite <- Hsc.
Qed.

(** C10. One call of the per-frame drain empties the queue; for every
    request that was queued it sets the completion event (once: the calls
    of [set] made by the drain are the events of the queue, in order) and
    stores an outcome in its container, which is the outcome of the
    resolver on the scene as the earlier requests left it, or, when the
    resolver raises, the failure "Trade failed: ..." made from the
    exception.  The worker blocked on the event can then go on and read
    that outcome. *)
Theorem C10_drain_completes_requests (env : Channel.Env) (c : Channel.t) :
  NoDup (rq_container <$> Channel._purchase_requests c) →
  let q := Channel._purchase_requests c in
  let c' := Channel._process_purchase_requests c in
  Channel._purchase_requests c' = []
  ∧ Channel.signalled c' = (Channel.signalled c ++ (rq_event <$> q))%list
  ∧ ∀ i rq, q !! i = Some rq →
      ∃ sc, scenes_before q (Channel._scene c) !! i = Some sc
        ∧ stored_outcome c' (rq_container rq) = Some (bridged_outcome rq sc)
        ∧ (∀ exc sc', Shop.attempt_voice_purchase (rq_item rq) sc
                      = (Raised exc, sc')
             → bridged_outcome rq sc
               = {| success := false; item_name := rq_item rq;
                    message := "Trade failed: " ++ str_exn exc;
                    price_paid := None |})
        ∧ Channel.handle env (EEventWait (rq_event rq)) c' = Some (tt, c')
        ∧ Channel.handle env (EContainerGet (rq_container rq) "outcome") c'
          = Some (Ok (bridged_outcome rq sc), c').
Proof.
  intros Hnd q c'. subst q c'. unfold Channel._process_purchase_requests.
  destruct (drain_spec _ c eq_refl Hnd) as (Hq & Hs & Hi).
  split; [exact Hq|]. split; [exact Hs|].
  intros i rq Hrq. destruct (Hi i rq Hrq) as (Hev & sc & Hsc & Hst).
  exists sc. split; [exact Hsc|]. split; [exact Hst|]. split; [|split].
  - intros exc sc' Hraise. unfold bridged_outcome. by rewrite Hraise.
  - unfold Channel.handle. by rewrite Hev.
  - unfold Channel.handle. unfold stored_outcome in Hst. by rewrite Hst.
Qed.

Lemma C7_single_flight_witness :
  let c := after [Channel.Keys [Channel.K_SPACE]] demo_channel in
  Channel.outstanding c = true
  ∧ Channel._state c = "recording"
  ∧ Channel._start_listening c = (Ok tt, c)
  ∧ Channel.handle_input [Channel.K_SPACE] c = (Ok tt, c).
Proof.
  intros c.
  assert (H : Channel.outstanding c = true) by (vm_compute; reflexivity).
  split; [exact H|]. split; [vm_compute; reflexivity|].
  exact (C7_single_flight c H).
Defined.

Lemma C10_drain_completes_requests_witness :
  let c' := Channel._process_purchase_requests demo_queue_channel in
  Channel._purchase_requests c' = []
  ∧ Channel.signalled c' = [0; 2]%nat
  ∧ stored_outcome c' 1
    = Some {| success := true; item_name := Some "Heal Potion";
              message := "Bought Heal Potion for 20g."; price_paid := Some 20 |}
  ∧ stored_outcome c' 3
    = Some {| success := false; item_name := Some "steel sword";
              message := "Trade failed: 'Unknown weapon: Steel Sword'";
              price_paid := None |}.
Proof.
  intros c'.
  assert (Hnd : NoDup (rq_container <$> Channel._purchase_requests demo_queue_channel)).
  { apply (bool_decide_unpack _). vm_compute. exact I. }
  destruct (C10_drain_completes_requests
              (demo_env (Ok "rec.wav") trade (Ok "ok") (Ok "tts.mp3"))
              demo_queue_channel Hnd) as (Hq & Hs & Hi).
  split; [exact Hq|]. split; [exact Hs|]. split.
  - destruct (Hi 0%nat _ eq_refl) as (sc & Hsc & Hst & _).
    injection Hsc as <-. etrans; [exact Hst|]. vm_compute. reflexivity.
  - destruct (Hi 1%nat _ eq_refl) as (sc & Hsc & Hst & _).
    injection Hsc as <-. etrans; [exact Hst|]. vm_compute. reflexivity.
Defined.

(** * Completion of the background task *)

Lemma C9_counterexample :
  let env := demo_env (Raised (Exn RecordingError "Microphone unavailable"))
                      trade (Ok "ok") (Ok "tts.mp3") in
  let acts := [Channel.Keys [Channel.K_SPACE]; Channel.WorkerPickup;
               Channel.WorkerStep env; Channel.WorkerStep env] in
  ∃ c, Channel.steps acts demo_channel = Some c
    ∧ Channel._state c = "recording"
    ∧ Channel._current_future c = Some 0%nat
    ∧ Channel.futures c !! 0%nat
      = Some (FFinished (Channel.error_result "Microphone unavailable"))
    ∧ Channel._state (Channel._poll_future true c) = "idle"
    ∧ Channel._state (Channel._poll_future true c) ≠ "error"
    ∧ Channel._log (Channel._poll_future true c)
      = [("Mira", "Welcome, Hero! Tell me what you need or feel free to chat.");
         ("System", "Microphone unavailable")].
Proof.
  intros env acts. eexists. split; [vm_compute; reflexivity|].
  repeat split; try (vm_compute; reflexivity).
  vm_compute. discriminate.
Qed.

(** C9 (amended). When the future of the background task is done, polling
    clears the task slot and
    - if the task raised (or the future was cancelled), the controller goes
      to the error state with status "Voice error" and the text of the
      exception as error message;
    - if the task returned a result carrying an error text, the controller
      goes back to idle with status "Press Space to talk", keeps the text as
      error message and logs it as a "System" line. *)
Theorem C9_task_completion (sound_ok : bool) (c : Channel.t) (f : nat)
    (fu : Future) :
  Channel._current_future c = Some f →
  Channel.futures c !! f = Some fu →
  future_done fu = true →
  let c' := Channel._poll_future sound_ok c in
  Channel._current_future c' = None
  ∧ (∀ exc, future_result fu = Raised exc →
       Channel._state c' = "error"
       ∧ Channel._status_text c' = "Voice error"
       ∧ Channel._error_message c' = Some (str_exn exc)
       ∧ Channel._log c' = Channel._log c)
  ∧ (∀ r, future_result fu = Ok r → PyStr.truthy_opt (error r) = true →
       Channel._state c' = "idle"
       ∧ Channel._status_text c' = "Press Space to talk"
       ∧ Channel._error_message c' = error r
       ∧ Channel._log c'
         = Channel._log (Channel._append_log "System" (error r) c)).
Proof.
  intros Hf Hfu Hdone c'. subst c'. unfold Channel._poll_future.
  rewrite Hf, Hfu, Hdone. simpl.
  split; [reflexivity|]. split.
  - intros exc Hexc. rewrite Hexc. simpl. done.
  - intros r Hr Herr. rewrite Hr. simpl.
    unfold Channel._handle_task_result. rewrite Herr.
    unfold Channel._append_log. destruct (error r) as [m|]; [|done].
    destruct (negb _); simpl; done.
Qed.

Lemma C9_task_completion_witness :
  let c := after [Channel.Keys [Channel.K_SPACE]; Channel.WorkerPickup;
                  Channel.WorkerStep
                    (demo_env (Raised (Exn RecordingError "Microphone unavailable"))
                              trade (Ok "ok") (Ok "tts.mp3"));
                  Channel.WorkerStep
                    (demo_env (Raised (Exn RecordingError "Microphone unavailable"))
                              trade (Ok "ok") (Ok "tts.mp3"))] demo_channel in
  let c' := Channel._poll_future true c in
  Channel._current_future c' = None
  ∧ (∀ exc, future_result (FFinished (Channel.error_result "Microphone unavailable"))
            = Raised exc →
       Channel._state c' = "error"
       ∧ Channel._status_text c' = "Voice error"
       ∧ Channel._error_message c' = Some (str_exn exc)
       ∧ Channel._log c' = Channel._log c)
  ∧ (∀ r, future_result (FFinished (Channel.error_result "Microphone unavailable"))
          = Ok r → PyStr.truthy_opt (error r) = true →
       Channel._state c' = "idle"
       ∧ Channel._status_text c' = "Press Space to talk"
       ∧ Channel._error_message c' = error r
       ∧ Channel._log c'
         = Channel._log (Channel._append_log "System" (error r) c)).
Proof.
  intros c.
  apply (C9_task_completion true c 0%nat
           (FFinished (Channel.error_result "Microphone unavailable")));
    vm_compute; reflexivity.
Defined.

(** * Running worker programs *)

Lemma run_bind (env : Channel.Env) {A B} (p : prog A) (f : A → prog B)
    (c : Channel.t) :
  Channel.run env (p ≫= f) c
  = match Channel.run env p c with
    | Some (Ok a, c') => Channel.run env (f a) c'
    | Some (Raised e, c') => Some (Raised e, c')
    | None => None
    end.
Proof.
  revert c. induction p as [a|e|X eff k IH]; intros c; simpl; try reflexivity.
  destruct (Channel.handle env eff c) as [[x c']|].
  - apply IH.
  - destruct (Channel.handle env eff (Channel._process_purchase_requests c))
      as [[x c']|]; [apply IH|reflexivity].
Qed.

Lemma run_try_catch (env : Channel.Env) {A} (p : prog A) (h : exn → prog A)
    (c : Channel.t) :
  Channel.run env (try_catch p h) c
  = match Channel.run env p c with
    | Some (Ok a, c') => Some (Ok a, c')
    | Some (Raised e, c') => Channel.run env (h e) c'
    | None => None
    end.
Proof.
  revert c. induction p as [a|e|X eff k IH]; intros c; simpl; try reflexivity.
  destruct (Channel.handle env eff c) as [[x c']|].
  - apply IH.
  - destruct (Channel.handle env eff (Channel._process_purchase_requests c))
      as [[x c']|]; [apply IH|reflexivity].
Qed.

(** The task never lets an exception through: whatever the pipeline raises
    becomes an error result. *)
Lemma run_capture_boundary (env : Channel.Env) (c : Channel.t)
    (a : Assistant.t) (body : prog VoiceTaskResult) (exc : exn) (c' : Channel.t) :
  Channel.run env body c = Some (Raised exc, c') →
  Channel.run env
    (try_catch body
       (λ exc, match exn_cls exc with
               | RecordingError => Ret (Channel.error_result (str_exn exc))
               | _ => Ret (Channel.error_result
                             ("Voice interaction failed: " ++ str_exn exc))
               end)) c
  = Some (Ok (Channel.error_result (boundary_error exc)), c').
Proof.
  intros H. rewrite run_try_catch, H. unfold boundary_error.
  destruct (exn_cls exc); reflexivity.
Qed.

Lemma run_perform (env : Channel.Env) {X} (eff : effect X) (c : Channel.t)
    (x : X) (c' : Channel.t) :
  Channel.handle env eff c = Some (x, c') →
  Channel.run env (perform eff) c = Some (Ok x, c').
Proof. intros H. unfold perform. simpl. by rewrite H. Qed.

Lemma run_call (env : Channel.Env) {X} (eff : effect (result X))
    (c : Channel.t) (r : result X) (c' : Channel.t) :
  Channel.handle env eff c = Some (r, c') →
  Channel.run env (call eff) c = Some (r, c').
Proof. intros H. unfold call. simpl. rewrite H. by destruct r. Qed.

Lemma process_request_checkpoints (rq : Request) (c : Channel.t) :
  Channel.checkpoints (Channel.process_request rq c) = Channel.checkpoints c.
Proof.
  unfold Channel.process_request.
  by destruct (Shop.attempt_voice_purchase (rq_item rq) (Channel._scene c)).
Qed.

Lemma run_purchase_handler (env : Channel.Env) (cand : option string)
    (c : Channel.t) :
  Channel._purchase_requests c = [] →
  let rq := {| rq_item := cand; rq_event := Channel.next_id c;
               rq_container := S (Channel.next_id c) |} in
  ∃ c', Channel.run env (Channel._purchase_handler cand) c
        = Some (Ok (bridged_outcome rq (Channel._scene c)), c')
    ∧ Channel._scene c'
      = (Shop.attempt_voice_purchase cand (Channel._scene c)).2
    ∧ Channel._purchase_requests c' = []
    ∧ Channel.checkpoints c' = Channel.checkpoints c
    ∧ Channel.signalled c' = (Channel.signalled c ++ [Channel.next_id c])%list
    ∧ stored_outcome c' (S (Channel.next_id c))
      = Some (bridged_outcome rq (Channel._scene c)).
Proof.
  intros Hq rq. subst rq. destruct c. cbn in Hq. subst.
  cbn [Channel._purchase_handler Channel.run mbind prog_mbind prog_bind perform call Channel.handle
       Channel.events Channel.with_bridge Channel.next_id Channel.containers Channel.signalled
       Channel.with_purchase_requests Channel._purchase_requests app Channel._scene].
  rewrite lookup_insert_eq.
  cbn [Channel._process_purchase_requests Channel._purchase_requests length Channel.drain Channel.with_purchase_requests
    Channel.handle Channel.events].
  match goal with |- context [Channel.process_request ?r ?c0] =>
    set (cq := c0); set (rq := r) end.
  destruct (process_request_fields rq cq) as (Hq1 & Hsg & Hev & Hsc & Hct).
  rewrite Hev, lookup_insert_eq. rewrite Hct, lookup_insert_eq.
  cbn [mbind option_bind]. rewrite lookup_insert_eq. cbn [Channel.run].
  eexists. split; [reflexivity|].
  unfold stored_outcome.
  rewrite Hsc, Hq1, Hsg, Hct, process_request_checkpoints, lookup_insert_eq.
  cbn [mbind option_bind]. rewrite lookup_insert_eq.
  repeat split; reflexivity.
Qed.

Lemma run_record_and_transcribe (env : Channel.Env) (c : Channel.t)
    (d : Q) (path text : string) :
  Channel.env_record env d = Ok path →
  Channel.env_transcribe env path = Ok text →
  Channel.run env (VoiceEngine.record_and_transcribe d) c = Some (Ok text, c).
Proof.
  intros Hr Ht. unfold VoiceEngine.record_and_transcribe, VoiceEngine.record,
    VoiceEngine.transcribe.
  rewrite run_bind. erewrite run_call by reflexivity. rewrite Hr.
  unfold call, perform. cbn. rewrite Ht. reflexivity.
Qed.

Lemma run_classify_intent (env : Channel.Env) (a : Assistant.t)
    (st : MerchantState) (c : Channel.t) (pred : IntentPrediction) :
  Channel.env_intent env (default [] (messages st)) (Assistant._catalog_text a)
  = Ok pred →
  Channel.run env (Assistant._classify_intent a st) c
  = Some (Ok {| messages := messages st; user_input := user_input st;
                intent := Some (p_intent pred);
                candidate_item := Assistant.candidate_of pred;
                response_text := response_text st;
                trade_result := trade_result st |}, c).
Proof.
  intros H. unfold Assistant._classify_intent.
  rewrite run_bind. erewrite run_call by reflexivity. rewrite H. reflexivity.
Qed.

(** The trade node when the reply chain fails: the purchase has been made
    through the bridge, and the node raises. *)
Lemma run_respond_trade_fails (env : Channel.Env) (a : Assistant.t)
    (st : MerchantState) (c : Channel.t) (exc : exn) :
  Channel._purchase_requests c = [] →
  let rq := {| rq_item := candidate_item st; rq_event := Channel.next_id c;
               rq_container := S (Channel.next_id c) |} in
  Channel.env_trade env (default [] (messages st)) (Assistant._catalog_text a)
    (message (bridged_outcome rq (Channel._scene c))) (Assistant._visitor_name a)
  = Raised exc →
  ∃ c', Channel.run env
          (Assistant._respond_trade a Channel._purchase_handler st) c
        = Some (Raised exc, c')
    ∧ Channel._scene c'
      = (Shop.attempt_voice_purchase (candidate_item st) (Channel._scene c)).2
    ∧ Channel._purchase_requests c' = []
    ∧ Channel.checkpoints c' = Channel.checkpoints c
    ∧ Channel.signalled c' = (Channel.signalled c ++ [Channel.next_id c])%list
    ∧ stored_outcome c' (S (Channel.next_id c))
      = Some (bridged_outcome rq (Channel._scene c)).
Proof.
  intros Hq rq Hreply.
  destruct (run_purchase_handler env (candidate_item st) c Hq)
    as (c' & Hrun & Hrest).
  exists c'. split; [|exact Hrest].
  unfold Assistant._respond_trade. rewrite run_bind, Hrun.
  rewrite run_bind. erewrite run_call by reflexivity. fold rq.
  simpl in Hreply |- *. rewrite Hreply. reflexivity.
Qed.

(** * A trade whose reply is lost *)

Lemma C4_counterexample :
  let env := demo_env (Ok "rec.wav") trade
               (Raised (Exn (OtherError "APIError") "reply service down"))
               (Ok "tts.mp3") in
  ∃ r c',
    Channel.run env (Channel._capture_and_process demo_channel) demo_channel
    = Some (Ok r, c')
    ∧ gold_of (Channel._scene demo_channel) = 25
    ∧ gold_of (Channel._scene c') = 5
    ∧ stored_outcome c' 1
      = Some {| success := true; item_name := Some "Heal Potion";
                message := "Bought Heal Potion for 20g.";
                price_paid := Some 20 |}
    ∧ reported_trade r = None
    ∧ r = Channel.error_result "Voice interaction failed: reply service down".
Proof.
  intros env. do 2 eexists. split; [vm_compute; reflexivity|].
  repeat split; vm_compute; reflexivity.
Qed.

(** C4 (amended). When an utterance is classified as a trade, the purchase
    is executed through the bridge and the reply chain then fails, the task
    result carries only the error text made from the exception: no
    transcript, no assistant result and so no PurchaseOutcome.  The purchase
    stays applied to the scene (with the message of the outcome as its
    feedback when the item resolved), the outcome stays in the container of
    the consumed request, and the stored session state is the one saved
    after classification. *)
Theorem C4_trade_reply_failure (env : Channel.Env) (c : Channel.t)
    (a : Assistant.t) (path transcript : string) (pred : IntentPrediction)
    (exc : exn) :
  Channel._engine c = true →
  Channel._assistant c = Some a →
  Channel._purchase_requests c = [] →
  Channel.env_record env Channel.VOICE_RECORD_SECONDS = Ok path →
  Channel.env_transcribe env path = Ok transcript →
  PyStr.truthy (PyStr.strip transcript) = true →
  let key := Assistant.thread_key (Assistant._thread_namespace a)
                                  (Channel._thread_id c) in
  let st := Assistant.entry_state
              (MemorySaver.get key (Channel.checkpoints c)) transcript in
  let rq := {| rq_item := Assistant.candidate_of pred;
               rq_event := Channel.next_id c;
               rq_container := S (Channel.next_id c) |} in
  let outcome := bridged_outcome rq (Channel._scene c) in
  Channel.env_intent env (default [] (messages st)) (Assistant._catalog_text a)
  = Ok pred →
  p_intent pred = trade →
  Channel.env_trade env (default [] (messages st)) (Assistant._catalog_text a)
    (message outcome) (Assistant._visitor_name a) = Raised exc →
  ∃ c', Channel.run env (Channel._capture_and_process c) c
        = Some (Ok (Channel.error_result (boundary_error exc)), c')
    ∧ reported_trade (Channel.error_result (boundary_error exc)) = None
    ∧ Channel._scene c'
      = (Shop.attempt_voice_purchase (Assistant.candidate_of pred)
           (Channel._scene c)).2
    ∧ Channel._purchase_requests c' = []
    ∧ stored_outcome c' (S (Channel.next_id c)) = Some outcome
    ∧ (MemorySaver.get key (Channel.checkpoints c') ≫= trade_result)
      = trade_result st.
Proof.
  intros Heng Hass Hq Hrec Htrans Htruthy key st rq outcome Hint Htrade Hreply.
  set (st2 := {| messages := messages st; user_input := user_input st;
                 intent := Some (p_intent pred);
                 candidate_item := Assistant.candidate_of pred;
                 response_text := response_text st;
                 trade_result := trade_result st |}).
  set (c2 := Channel.with_checkpoints
               (MemorySaver.put key st2
                  (Channel.checkpoints
                     (Channel.with_checkpoints
                        (MemorySaver.put key st (Channel.checkpoints c)) c)))
               (Channel.with_checkpoints
                  (MemorySaver.put key st (Channel.checkpoints c)) c)).
  assert (Hq2 : Channel._purchase_requests c2 = []) by exact Hq.
  destruct (run_respond_trade_fails env a st2 c2 exc Hq2 Hreply)
    as (c' & Hrun & Hsc & Hq' & Hck & _ & Hst).
  exists c'. split.
  - unfold Channel._capture_and_process. rewrite Heng, Hass.
    apply (run_capture_boundary env c a).
    rewrite run_bind, (run_record_and_transcribe env c _ path transcript Hrec Htrans).
    rewrite Htruthy. cbn [negb].
    rewrite run_bind. unfold Assistant.process. rewrite Htruthy. cbn [negb].
    rewrite run_bind. unfold Assistant.graph_invoke.
    rewrite run_bind. erewrite run_perform by reflexivity.
    rewrite run_bind. erewrite run_perform by reflexivity.
    rewrite run_bind. fold key. fold st.
    rewrite (run_classify_intent env a st _ pred Hint). fold st2.
    rewrite run_bind. erewrite run_perform by reflexivity.
    rewrite run_bind.
    replace (Assistant._route_intent st2) with trade
      by (unfold Assistant._route_intent; simpl; by rewrite Htrade).
    fold c2. rewrite Hrun. reflexivity.
  - split; [reflexivity|]. split; [exact Hsc|]. split; [exact Hq'|].
    split; [exact Hst|].
    rewrite Hck. unfold c2, MemorySaver.get, MemorySaver.put. simpl.
    rewrite lookup_insert_eq. reflexivity.
Qed.

Lemma C4_trade_reply_failure_witness :
  let env := demo_env (Ok "rec.wav") trade
               (Raised (Exn (OtherError "APIError") "reply service down"))
               (Ok "tts.mp3") in
  ∃ c', Channel.run env (Channel._capture_and_process demo_channel) demo_channel
        = Some (Ok (Channel.error_result
                      "Voice interaction failed: reply service down"), c')
    ∧ gold_of (Channel._scene c') = 5.
Proof.
  intros env.
  destruct (C4_trade_reply_failure env demo_channel
              (default {| Assistant._items := []; Assistant._thread_namespace := "";
                          Assistant._visitor_name := "";
                          Assistant._catalog_text := "" |}
                       (Channel._assistant demo_channel))
              "rec.wav" " a heal potion please "
              {| p_intent := trade; p_item := Some "heal potion";
                 p_confidence := None; p_rationale := None |}
              (Exn (OtherError "APIError") "reply service down"))
    as (c' & Hrun & _ & Hsc & _); try reflexivity.
  exists c'. split; [exact Hrun|].
  rewrite Hsc. vm_compute. reflexivity.
Defined.

(** * A reply whose synthesis fails *)

Lemma C5_counterexample :
  let env := demo_env (Ok "rec.wav") smalltalk (Ok "Good day to you!")
               (Raised (Exn (OtherError "APIError") "speech service down")) in
  ∃ r c' a,
    Channel.run env (Channel._capture_and_process demo_channel) demo_channel
    = Some (Ok r, c')
    ∧ Channel._assistant demo_channel = Some a
    ∧ history a (Channel._thread_id demo_channel) c'
      = [HumanMessage "a heal potion please"; AIMessage "Good day to you!"]
    ∧ transcript r = None
    ∧ assistant r = None
    ∧ error r = Some "Voice interaction failed: speech service down".
Proof.
  intros env. do 3 eexists. split; [vm_compute; reflexivity|].
  split; [vm_compute; reflexivity|].
  repeat split; vm_compute; reflexivity.
Qed.

Lemma run_bind_ok (env : Channel.Env) {A B} (p : prog A) (f : A → prog B)
    (c c' : Channel.t) (b : B) :
  Channel.run env (p ≫= f) c = Some (Ok b, c') →
  ∃ a c1, Channel.run env p c = Some (Ok a, c1)
        ∧ Channel.run env (f a) c1 = Some (Ok b, c').
Proof.
  rewrite run_bind.
  destruct (Channel.run env p c) as [[[a|e] c1]|]; try discriminate.
  intros H. by exists a, c1.
Qed.

(** What the orchestrator has stored when it returns: the state it
    returns, whose last message is the reply. *)
Lemma graph_invoke_stores (env : Channel.Env) (a : Assistant.t)
    (handler : option string → prog PurchaseOutcome) (input thread : string)
    (c c2 : Channel.t) (st : MerchantState) :
  Channel.run env (Assistant.graph_invoke a handler input thread) c
  = Some (Ok st, c2) →
  MemorySaver.get thread (Channel.checkpoints c2) = Some st
  ∧ ∃ st0 response, st = Assistant._append_response st0 response.
Proof.
  unfold Assistant.graph_invoke. intros H.
  apply run_bind_ok in H as (saved & cA & _ & H).
  apply run_bind_ok in H as (? & cB & _ & H).
  apply run_bind_ok in H as (st1 & c1 & _ & H).
  apply run_bind_ok in H as (? & c1' & _ & H).
  apply run_bind_ok in H as (st2 & c3 & Hresp & H).
  apply run_bind_ok in H as (? & c4 & Hput & H).
  simpl in H, Hput. injection H as <- <-. injection Hput as _ <-. split.
  { simpl. unfold MemorySaver.get, MemorySaver.put. by rewrite lookup_insert_eq. }
  destruct (Assistant._route_intent st1).
  - unfold Assistant._respond_trade in Hresp.
    apply run_bind_ok in Hresp as (o & c5 & _ & Hresp).
    apply run_bind_ok in Hresp as (response & c6 & _ & Hresp).
    simpl in Hresp. injection Hresp as <- _. by eexists _, _.
  - unfold Assistant._respond_smalltalk in Hresp.
    apply run_bind_ok in Hresp as (response & c6 & _ & Hresp).
    simpl in Hresp. injection Hresp as <- _. by eexists _, _.
  - unfold Assistant._respond_unknown in Hresp.
    apply run_bind_ok in Hresp as (response & c6 & _ & Hresp).
    simpl in Hresp. injection Hresp as <- _. by eexists _, _.
Qed.

(** A reply that [process] returns is the last Turn of the session. *)
Lemma process_reply_stored (env : Channel.Env) (a : Assistant.t)
    (handler : option string → prog PurchaseOutcome) (input thread_id : string)
    (c c2 : Channel.t) (ar : AssistantResult) :
  Channel.run env (Assistant.process a handler input thread_id) c
  = Some (Ok ar, c2) →
  ∃ earlier,
    history a thread_id c2 = (earlier ++ [AIMessage (r_text ar)])%list.
Proof.
  unfold Assistant.process. destruct (negb _); [discriminate|].
  rewrite run_bind.
  destruct (Channel.run env (Assistant.graph_invoke _ _ _ _) c)
    as [[[st|e] c1]|] eqn:Hrun; try discriminate.
  simpl. intros [= <- <-].
  apply graph_invoke_stores in Hrun as (Hget & st0 & response & ->).
  unfold history. rewrite Hget. simpl. by eexists.
Qed.

(** A synthesis that fails leaves the channel as it is. *)
Lemma run_synthesize_fails (env : Channel.Env) (text : string)
    (c c' : Channel.t) (exc : exn) :
  Channel.run env (VoiceEngine.synthesize text) c = Some (Raised exc, c') →
  c' = c.
Proof.
  unfold VoiceEngine.synthesize. destruct (negb _); simpl.
  - by intros [= _ <-].
  - destruct (Channel.env_tts env text); simpl; [discriminate|].
    by intros [= _ <-].
Qed.

(** C5 (amended). When the pipeline has produced a non-empty reply text and
    the synthesis step fails, the task result carries only the error text
    made from the exception; the transcript, the assistant result with the
    reply text and the audio handle are all absent from it.  The channel is
    left as the orchestrator left it, and the reply is the last Turn of the
    session history that the orchestrator stored. *)
Theorem C5_synthesis_failure (env : Channel.Env) (c c1 c2 c3 : Channel.t)
    (a : Assistant.t) (transcript : string) (ar : AssistantResult) (exc : exn) :
  Channel._engine c = true →
  Channel._assistant c = Some a →
  Channel.run env (VoiceEngine.record_and_transcribe Channel.VOICE_RECORD_SECONDS) c
  = Some (Ok transcript, c1) →
  PyStr.truthy (PyStr.strip transcript) = true →
  Channel.run env (Assistant.process a Channel._purchase_handler transcript
                     (Channel._thread_id c)) c1 = Some (Ok ar, c2) →
  PyStr.truthy (r_text ar) = true →
  Channel.run env (VoiceEngine.synthesize (r_text ar)) c2 = Some (Raised exc, c3) →
  Channel.run env (Channel._capture_and_process c) c
  = Some (Ok {| transcript := None; assistant := None; audio_path := None;
                error := Some (boundary_error exc) |}, c3)
  ∧ c3 = c2
  ∧ ∃ earlier,
      history a (Channel._thread_id c) c3
      = (earlier ++ [AIMessage (r_text ar)])%list.
Proof.
  intros Heng Hass Hrec Htruthy Hproc Htext Hsyn. split; [|split].
  - unfold Channel._capture_and_process. rewrite Heng, Hass.
    apply (run_capture_boundary env c a).
    rewrite run_bind, Hrec, Htruthy. cbn [negb].
    rewrite run_bind, Hproc, Htext.
    rewrite run_bind, run_bind, Hsyn. reflexivity.
  - by eapply run_synthesize_fails.
  - rewrite (run_synthesize_fails _ _ _ _ _ Hsyn).
    by eapply process_reply_stored.
Qed.

Lemma C5_synthesis_failure_witness :
  let env := demo_env (Ok "rec.wav") smalltalk (Ok "Good day to you!")
               (Raised (Exn (OtherError "APIError") "speech service down")) in
  ∃ c3, Channel.run env (Channel._capture_and_process demo_channel) demo_channel
        = Some (Ok {| transcript := None; assistant := None; audio_path := None;
                      error := Some "Voice interaction failed: speech service down" |},
                c3)
      ∧ ∃ earlier,
          history demo_assistant (Channel._thread_id demo_channel) c3
          = (earlier ++ [AIMessage "Good day to you!"])%list.
Proof.
  intros env.
  set (c2 := (default (Raised (Exn ValueError ""), demo_channel)
               (Channel.run env
                  (Assistant.process demo_assistant Channel._purchase_handler
                     " a heal potion please " (Channel._thread_id demo_channel))
                  demo_channel)).2).
  set (ar := {| r_intent := smalltalk; r_text := "Good day to you!";
                r_candidate_item := Some "heal potion"; r_trade_result := None;
                r_raw_state :=
                  {| messages := Some [HumanMessage "a heal potion please";
                                       AIMessage "Good day to you!"];
                     user_input := Some " a heal potion please ";
                     intent := Some smalltalk;
                     candidate_item := Some "heal potion";
                     response_text := Some "Good day to you!";
                     trade_result := None |} |}).
  exists c2.
  destruct (C5_synthesis_failure env demo_channel demo_channel c2 c2
              demo_assistant " a heal potion please " ar
              (Exn (OtherError "APIError") "speech service down"))
    as (Hrun & _ & Hhist); try (vm_compute; reflexivity).
  split; [exact Hrun|exact Hhist].
Defined.

(** * Session isolation *)

Lemma string_app_inv_head (p x y : string) : p ++ x = p ++ y → x = y.
Proof.
  induction p as [|ch p IH]; simpl; [done|].
  intros H. injection H as H. by apply IH.
Qed.

Lemma thread_key_inj (ns a b : string) :
  Assistant.thread_key ns a = Assistant.thread_key ns b → a = b.
Proof.
  unfold Assistant.thread_key. intros H.
  apply string_app_inv_head in H. by apply (string_app_inv_head ":") in H.
Qed.

Lemma saves_only_bind (thread : string) {A B} (p : prog A) (f : A → prog B) :
  saves_only thread p → (∀ a, saves_only thread (f a)) →
  saves_only thread (p ≫= f).
Proof.
  induction p as [a|e|X eff k IH]; simpl; [by auto|done|].
  intros [Heff Hk] Hf. split; [done|]. intros x. by apply IH.
Qed.

Lemma saves_only_call (thread : string) {X} (eff : effect (result X)) :
  match eff with ECheckpointPut th _ => th = thread | _ => True end →
  saves_only thread (call eff).
Proof. intros H. simpl. split; [done|]. by intros [x|e]. Qed.

Lemma purchase_handler_saves_only (thread : string) (item_name : option string) :
  saves_only thread (Channel._purchase_handler item_name).
Proof. simpl. repeat (split; [done|]; intros ?). by case_match. Qed.

(** [process] saves under the thread of its session only. *)
Lemma process_saves_only (a : Assistant.t) (input thread_id : string) :
  saves_only (Assistant.thread_key (Assistant._thread_namespace a) thread_id)
    (Assistant.process a Channel._purchase_handler input thread_id).
Proof.
  unfold Assistant.process. destruct (negb _); [done|].
  apply saves_only_bind; [|done].
  unfold Assistant.graph_invoke.
  apply saves_only_bind; [done|]. intros saved.
  apply saves_only_bind; [done|]. intros _.
  apply saves_only_bind.
  { unfold Assistant._classify_intent.
    apply saves_only_bind; [by apply saves_only_call|done]. }
  intros st. apply saves_only_bind; [done|]. intros _.
  apply saves_only_bind.
  - destruct (Assistant._route_intent st).
    + unfold Assistant._respond_trade.
      apply saves_only_bind; [apply purchase_handler_saves_only|]. intros o.
      apply saves_only_bind; [by apply saves_only_call|done].
    + unfold Assistant._respond_smalltalk.
      apply saves_only_bind; [by apply saves_only_call|done].
    + unfold Assistant._respond_unknown.
      apply saves_only_bind; [by apply saves_only_call|done].
  - intros st'. apply saves_only_bind; done.
Qed.

Lemma drain_checkpoints (n : nat) (c : Channel.t) :
  Channel.checkpoints (Channel.drain n c) = Channel.checkpoints c.
Proof.
  revert c. induction n as [|n IH]; intros c; simpl; [done|].
  destruct (Channel._purchase_requests c) as [|rq rest]; [done|].
  by rewrite IH, process_request_checkpoints.
Qed.

Lemma handle_checkpoints (env : Channel.Env) (thread k : string) {X}
    (eff : effect X) (c c' : Channel.t) (x : X) :
  match eff with ECheckpointPut th _ => th = thread | _ => True end →
  k ≠ thread →
  Channel.handle env eff c = Some (x, c') →
  Channel.checkpoints c' !! k = Channel.checkpoints c !! k.
Proof.
  intros Heff Hk.
  destruct eff; simpl; intros Hh;
    try (injection Hh as <- <-; reflexivity).
  - injection Hh as Hc. subst c' thread0. simpl. unfold MemorySaver.put.
    by rewrite lookup_insert_ne.
  - destruct (Channel.events c !! event) as [[]|]; try discriminate Hh.
    injection Hh as Hc. by subst c'.
Qed.

(** A program that saves under one thread leaves the others as stored. *)
Lemma run_saves_only (env : Channel.Env) (thread k : string) {A}
    (p : prog A) (c c' : Channel.t) (r : result A) :
  saves_only thread p → k ≠ thread →
  Channel.run env p c = Some (r, c') →
  Channel.checkpoints c' !! k = Channel.checkpoints c !! k.
Proof.
  intros Hp Hk. revert c.
  induction p as [a|e|X eff kk IH]; intros c; simpl.
  - by intros [= <- <-].
  - by intros [= <- <-].
  - destruct Hp as [Heff Hkk].
    destruct (Channel.handle env eff c) as [[x c1]|] eqn:Hh.
    + intros Hrun. rewrite (IH x (Hkk x) c1 Hrun).
      by eapply handle_checkpoints.
    + destruct (Channel.handle env eff (Channel._process_purchase_requests c))
        as [[x c1]|] eqn:Hh'; [|done].
      intros Hrun. rewrite (IH x (Hkk x) c1 Hrun).
      rewrite (handle_checkpoints env thread k eff _ c1 x Heff Hk Hh').
      unfold Channel._process_purchase_requests. by rewrite drain_checkpoints.
Qed.

(** Turns appended by an utterance processed under session A do not reach
    the Turn sequence of another session B. *)
Lemma process_keeps_other_sessions (a : Assistant.t) (A B : string)
    (env : Channel.Env) (input : string) (r : result AssistantResult)
    (c c1 : Channel.t) :
  A ≠ B →
  Channel.run env (Assistant.process a Channel._purchase_handler input A) c
  = Some (r, c1) →
  history a B c1 = history a B c.
Proof.
  intros Hne Hrun.
  assert (Hkey : Assistant.thread_key (Assistant._thread_namespace a) B
                 ≠ Assistant.thread_key (Assistant._thread_namespace a) A).
  { intros H. apply thread_key_inj in H. by destruct Hne. }
  unfold history, MemorySaver.get.
  by rewrite (run_saves_only env _ _ _ c c1 r (process_saves_only a input A)
                Hkey Hrun).
Qed.

(** C8 (defect of the code). [reset_conversation] clears nothing: for every
    assistant, session and state its call of [delete] on the checkpointer
    raises [AttributeError] and the session store is left as it is.  With
    the two sessions "shop:alice" and "shop:bob" stored, resetting
    "shop:alice" leaves her Turn sequence in the store, where the claim and
    the docstring of the method ("Clear stored chat history for a specific
    thread") have it removed; the Turn sequence of "shop:bob" is
    unchanged. *)
Theorem C8_reset_removes_nothing :
  (∀ (a : Assistant.t) (A : string) (c : Channel.t),
     Channel.reset_conversation a A c = (Raised MemorySaver.no_delete, c))
  ∧ exn_cls MemorySaver.no_delete = AttributeError
  ∧ let c' := (Channel.reset_conversation demo_assistant "shop:alice"
                 two_sessions).2 in
    history demo_assistant "shop:alice" two_sessions
    = [HumanMessage "hello"; AIMessage "Good day to you!"]
    ∧ history demo_assistant "shop:alice" c'
      = [HumanMessage "hello"; AIMessage "Good day to you!"]
    ∧ history demo_assistant "shop:bob" c'
      = [HumanMessage "any news?"; AIMessage "Good day to you!"].
Proof.
  split; [done|]. split; [done|].
  repeat split; vm_compute; reflexivity.
Qed.

(** * The bridge holds at most one request *)

Lemma quiet_disciplined {A} (p : prog A) (ph : phase) :
  quiet p → not_queued ph → disciplined ph p.
Proof.
  induction p as [a|e|X eff k IH]; simpl; [done|done|].
  intros [Hfree Hk] Hph.
  destruct eff; try discriminate; destruct ph; simpl in *; try done;
    intros x; by apply IH.
Qed.

Lemma quiet_bind {A B} (p : prog A) (f : A → prog B) :
  quiet p → (∀ a, quiet (f a)) → quiet (p ≫= f).
Proof.
  induction p as [a|e|X eff k IH]; simpl; [by auto|done|].
  intros [Hfree Hk] Hf. split; [done|]. intros x. by apply IH.
Qed.

Lemma quiet_try_finally {A} (p : prog A) (fin : prog unit) :
  quiet p → quiet fin → quiet (try_finally p fin).
Proof.
  induction p as [a|e|X eff k IH]; simpl; intros Hp Hfin.
  - by apply quiet_bind.
  - by apply quiet_bind.
  - destruct Hp as [Hfree Hk]. split; [done|]. intros x. by apply IH.
Qed.

Lemma quiet_call {X} (eff : effect (result X)) :
  bridge_free eff = true → quiet (call eff).
Proof. intros H. simpl. split; [done|]. by intros [x|e]. Qed.

Lemma quiet_perform {X} (eff : effect X) :
  bridge_free eff = true → quiet (perform eff).
Proof. intros H. simpl. done. Qed.

(** A quiet prefix keeps the phase. *)
Lemma disciplined_after_quiet {A B} (p : prog A) (f : A → prog B) (ph : phase) :
  quiet p → not_queued ph → (∀ a, disciplined ph (f a)) →
  disciplined ph (p ≫= f).
Proof.
  induction p as [a|e|X eff k IH]; simpl; [by auto|done|].
  intros [Hfree Hk] Hph Hf.
  destruct eff; try discriminate; destruct ph; simpl in *; try done;
    intros x; by apply IH.
Qed.

(** A quiet continuation fits whatever phase the prefix ends in. *)
Lemma disciplined_then_quiet {A B} (p : prog A) (f : A → prog B) (ph : phase) :
  disciplined ph p → (∀ a, quiet (f a)) → disciplined ph (p ≫= f).
Proof.
  revert ph. induction p as [a|e|X eff k IH]; intros ph; simpl.
  - intros Hph Hf. by apply quiet_disciplined.
  - done.
  - intros Hd Hf. destruct (next_phase eff ph) as [g|]; [|done].
    intros x. by apply IH.
Qed.

Lemma disciplined_try_catch {A} (p : prog A) (h : exn → prog A) (ph : phase) :
  disciplined ph p → (∀ e, quiet (h e)) → disciplined ph (try_catch p h).
Proof.
  revert ph. induction p as [a|e|X eff k IH]; intros ph; simpl.
  - done.
  - intros Hph Hh. by apply quiet_disciplined.
  - intros Hd Hh. destruct (next_phase eff ph) as [g|]; [|done].
    intros x. by apply IH.
Qed.

Lemma purchase_handler_disciplined {B} (item_name : option string)
    (f : PurchaseOutcome → prog B) :
  (∀ o, disciplined Spent (f o)) →
  disciplined Fresh (Channel._purchase_handler item_name ≫= f).
Proof.
  intros Hf. simpl. intros ev ct.
  rewrite decide_True by done. intros _. rewrite decide_True by done.
  intros _ [o|e]; simpl; [apply Hf|done].
Qed.

Lemma respond_trade_disciplined (a : Assistant.t) (st : MerchantState) :
  disciplined Fresh (Assistant._respond_trade a Channel._purchase_handler st).
Proof.
  unfold Assistant._respond_trade. apply purchase_handler_disciplined.
  intros o. apply quiet_disciplined; [|done].
  apply quiet_bind; [by apply quiet_call|done].
Qed.

Lemma graph_invoke_disciplined (a : Assistant.t) (input thread : string) :
  disciplined Fresh
    (Assistant.graph_invoke a Channel._purchase_handler input thread).
Proof.
  unfold Assistant.graph_invoke.
  apply disciplined_after_quiet; [by apply quiet_perform|done|]. intros saved.
  apply disciplined_after_quiet; [by apply quiet_perform|done|]. intros _.
  apply disciplined_after_quiet; [|done|].
  { unfold Assistant._classify_intent.
    apply quiet_bind; [by apply quiet_call|done]. }
  intros st.
  apply disciplined_after_quiet; [by apply quiet_perform|done|]. intros _.
  apply disciplined_then_quiet.
  - destruct (Assistant._route_intent st).
    + apply respond_trade_disciplined.
    + apply quiet_disciplined; [|done]. unfold Assistant._respond_smalltalk.
      apply quiet_bind; [by apply quiet_call|done].
    + apply quiet_disciplined; [|done]. unfold Assistant._respond_unknown.
      apply quiet_bind; [by apply quiet_call|done].
  - intros st'. apply quiet_bind; [by apply quiet_perform|done].
Qed.

Lemma process_disciplined (a : Assistant.t) (input thread_id : string) :
  disciplined Fresh
    (Assistant.process a Channel._purchase_handler input thread_id).
Proof.
  unfold Assistant.process. destruct (negb _); [done|].
  apply disciplined_then_quiet; [apply graph_invoke_disciplined|done].
Qed.

Lemma synthesize_quiet (text : string) : quiet (VoiceEngine.synthesize text).
Proof.
  unfold VoiceEngine.synthesize. destruct (negb _); [done|].
  by apply quiet_call.
Qed.

(** The task of the worker follows the discipline of the bridge. *)
Lemma capture_and_process_disciplined (c : Channel.t) :
  disciplined Fresh (Channel._capture_and_process c).
Proof.
  unfold Channel._capture_and_process.
  destruct (Channel._engine c); [|done].
  destruct (Channel._assistant c) as [a|]; [|done].
  apply disciplined_try_catch.
  2:{ intros e. by destruct (exn_cls e). }
  apply disciplined_after_quiet; [|done|].
  { unfold VoiceEngine.record_and_transcribe, VoiceEngine.record,
      VoiceEngine.transcribe.
    apply quiet_bind; [by apply quiet_call|]. intros path.
    apply quiet_try_finally; [by apply quiet_call|by apply quiet_perform]. }
  intros transcript. destruct (negb _); [done|].
  apply disciplined_then_quiet; [apply process_disciplined|].
  intros ar. apply quiet_bind; [|done].
  destruct (PyStr.truthy (r_text ar)); [|done].
  apply quiet_bind; [apply synthesize_quiet|done].
Qed.

(** ** Frames of the moves of the game loop *)

Lemma same_bridge_refl (c : Channel.t) : same_bridge c c.
Proof. done. Qed.

Lemma same_bridge_trans (c1 c2 c3 : Channel.t) :
  same_bridge c1 c2 → same_bridge c2 c3 → same_bridge c1 c3.
Proof.
  intros (Hw & Hq & He) (Hw' & Hq' & He'). repeat split; congruence.
Qed.

Lemma bridge_inv_same (c c' : Channel.t) :
  same_bridge c c' → bridge_inv c → bridge_inv c'.
Proof.
  intros (Hw & Hq & He). unfold bridge_inv. by rewrite Hw, Hq, He.
Qed.

Lemma append_log_same (speaker : string) (msg : option string) (c : Channel.t) :
  same_bridge c (Channel._append_log speaker msg c).
Proof.
  unfold Channel._append_log. destruct msg; [|done]. by destruct (negb _).
Qed.

Lemma start_listening_same (c : Channel.t) :
  same_bridge c (Channel._start_listening c).2.
Proof.
  unfold Channel._start_listening.
  destruct (Channel.outstanding c); [done|].
  destruct (String.eqb _ _); [done|].
  destruct (_ || _); [done|].
  unfold mbind, stx_bind, Channel.submit. simpl.
  by destruct (Channel.executor_shutdown c).
Qed.

(** The R key and [close] on a channel that has an assistant: the reset
    raises before anything is changed. *)
Lemma reset_conversation_run (c : Channel.t) :
  Channel._reset_conversation c
  = (match Channel._assistant c with
     | Some _ => Raised MemorySaver.no_delete
     | None => Ok tt
     end, c).
Proof. unfold Channel._reset_conversation. by destruct (Channel._assistant c). Qed.

Lemma close_raises (c : Channel.t) (a : Assistant.t) :
  Channel._assistant c = Some a →
  Channel.close c = (Raised MemorySaver.no_delete, c).
Proof. intros H. unfold Channel.close. by rewrite H. Qed.

Lemma handle_keys_same (keys : list Channel.Key) (c : Channel.t) :
  same_bridge c (Channel.handle_keys keys c).2.
Proof.
  revert c. induction keys as [|k keys IH]; intros c; simpl; [done|].
  destruct k; unfold mbind, stx_bind.
  - pose proof (start_listening_same c) as H.
    destruct (Channel._start_listening c) as [[[]|e] c1]; simpl in *; [|done].
    eapply same_bridge_trans; [exact H|apply IH].
  - rewrite reset_conversation_run.
    destruct (Channel._assistant c); simpl; [done|apply IH].
  - apply IH.
Qed.

Lemma handle_input_same (keys : list Channel.Key) (c : Channel.t) :
  same_bridge c (Channel.handle_input keys c).2.
Proof.
  unfold Channel.handle_input. destruct (_ || _); [done|]. apply handle_keys_same.
Qed.

Lemma poll_future_same (sound_ok : bool) (c : Channel.t) :
  same_bridge c (Channel._poll_future sound_ok c).
Proof.
  unfold Channel._poll_future.
  destruct (Channel._current_future c) as [f|]; [|done].
  destruct (Channel.futures c !! f) as [fu|]; [|done].
  destruct (negb _); [done|].
  destruct (future_result fu) as [r|e]; [|done].
  unfold Channel._handle_task_result.
  destruct (PyStr.truthy_opt (error r)).
  { pose proof (append_log_same "System" (error r)
       (Channel.with_status "idle" "Press Space to talk" (error r) c)) as H.
    exact H. }
  set (c1 := Channel.with_status _ _ _ c).
  assert (H1 : same_bridge c c1) by done.
  set (c2 := if PyStr.truthy_opt (transcript r) then _ else c1).
  assert (H2 : same_bridge c c2).
  { unfold c2. destruct (PyStr.truthy_opt _); [|done].
    eapply same_bridge_trans; [exact H1|apply append_log_same]. }
  set (c3 := match assistant r with Some _ => _ | None => c2 end).
  assert (H3 : same_bridge c c3).
  { unfold c3. destruct (assistant r) as [ar|]; [|done].
    destruct (PyStr.truthy _); [|done].
    eapply same_bridge_trans; [exact H2|apply append_log_same]. }
  destruct (audio_path r) as [p|]; simpl.
  - unfold Channel._play_audio. destruct (negb sound_ok); simpl; exact H3.
  - exact H3.
Qed.

Lemma close_same (c : Channel.t) : same_bridge c (Channel.close c).2.
Proof.
  destruct (Channel._assistant c) as [a|] eqn:E.
  { by rewrite (close_raises c a E). }
  unfold Channel.close, same_bridge. rewrite E.
  unfold mbind, stx_bind, stx_modify. simpl.
  repeat case_match; simpl; done.
Qed.

(** ** The invariant along the moves *)

Lemma process_request_worker (rq : Request) (c : Channel.t) :
  Channel.worker (Channel.process_request rq c) = Channel.worker c.
Proof.
  unfold Channel.process_request.
  by destruct (Shop.attempt_voice_purchase (rq_item rq) (Channel._scene c)).
Qed.

Lemma drain_empty (c : Channel.t) :
  Channel._purchase_requests c = [] → Channel._process_purchase_requests c = c.
Proof. intros H. unfold Channel._process_purchase_requests. by rewrite H. Qed.

Lemma drain_single (c : Channel.t) (rq : Request) :
  Channel._purchase_requests c = [rq] →
  Channel._process_purchase_requests c
  = Channel.process_request rq (Channel.with_purchase_requests [] c).
Proof.
  intros H. unfold Channel._process_purchase_requests. rewrite H. simpl.
  by rewrite H.
Qed.

Lemma drain_inv (c : Channel.t) :
  bridge_inv c → bridge_inv (Channel._process_purchase_requests c).
Proof.
  intros Hinv.
  destruct (Channel._purchase_requests c) as [|rq q] eqn:Hq.
  { by rewrite drain_empty. }
  unfold bridge_inv in *.
  destruct (Channel.worker c) as [[f p]|] eqn:Hw; [|congruence].
  destruct Hinv as (ph & Hd & Hph).
  destruct ph as [|ev|ev|]; try (destruct Hph; congruence); try congruence.
  destruct Hph as [Hph|(rq' & Hq' & Hev & Hfalse)]; [congruence|].
  rewrite (drain_single c rq') by done.
  rewrite process_request_worker. simpl. rewrite Hw.
  exists (Queued ev). split; [done|]. left.
  by destruct (process_request_fields rq' (Channel.with_purchase_requests [] c))
    as (-> & _).
Qed.

Lemma worker_pickup_inv (c c' : Channel.t) :
  bridge_inv c → Channel.worker_pickup c = Some c' → bridge_inv c'.
Proof.
  unfold Channel.worker_pickup, bridge_inv.
  destruct (Channel.worker c) as [[f p]|] eqn:Hw; [done|].
  intros Hq. destruct (Channel.work_queue c) as [|f q]; [done|].
  destruct (Channel.futures c !! f) as [[]|];
    intros [= <-]; simpl; rewrite ?Hw; try done.
  exists Fresh. split; [apply capture_and_process_disciplined|done].
Qed.

Lemma handle_free_frame (env : Channel.Env) {X} (eff : effect X)
    (c c' : Channel.t) (x : X) :
  bridge_free eff = true →
  Channel.handle env eff c = Some (x, c') →
  Channel._purchase_requests c' = Channel._purchase_requests c
  ∧ Channel.events c' = Channel.events c.
Proof.
  destruct eff; simpl; try discriminate; intros _ [= <- <-]; done.
Qed.

Lemma worker_step_inv (env : Channel.Env) (c c' : Channel.t) :
  bridge_inv c → Channel.worker_step env c = Some c' → bridge_inv c'.
Proof.
  unfold Channel.worker_step, bridge_inv.
  destruct (Channel.worker c) as [[f p]|] eqn:Hw; [|done].
  intros (ph & Hd & Hph).
  destruct p as [a|e|X eff k].
  - intros [= <-]. simpl. simpl in Hd.
    destruct ph; try done. by destruct Hph.
  - intros [= <-]. simpl. simpl in Hd.
    destruct ph; try done. by destruct Hph.
  - destruct (Channel.handle env eff c) as [[x c1]|] eqn:Hh; [|done].
    intros [= <-]. simpl. simpl in Hd.
    destruct (next_phase eff ph) as [g|] eqn:Hn; [|done].
    exists (g x). split; [apply Hd|].
    destruct (bridge_free eff) eqn:Hfree.
    + destruct (handle_free_frame env eff c c1 x Hfree Hh) as [Hq He].
      rewrite Hq, He.
      assert (g x = ph ∧ not_queued ph) as [-> _].
      { destruct eff; try discriminate; destruct ph; simpl in Hn;
          try discriminate; injection Hn as <-; done. }
      exact Hph.
    + destruct eff; try discriminate; simpl in Hn, Hh.
      * (* a new event *)
        destruct ph; try discriminate. injection Hn as <-.
        injection Hh as <- <-. simpl. split; [done|].
        by rewrite lookup_insert_eq.
      * (* the request is queued *)
        destruct ph as [|ev|ev|]; try discriminate.
        destruct (decide (event = ev)) as [->|]; [|discriminate].
        injection Hn as <-. destruct Hph as [Hq Hev].
        rewrite Hq in Hh. injection Hh as Hc. subst c1. simpl.
        right. eexists. split; [reflexivity|]. done.
      * (* the worker is woken *)
        destruct ph as [|ev|ev|]; try discriminate.
        destruct (decide (event = ev)) as [->|]; [|discriminate].
        injection Hn as <-.
        destruct (Channel.events c !! ev) as [[]|] eqn:Hev; try discriminate.
        injection Hh as Hc. subst c1. simpl.
        destruct Hph as [Hq|(rq & _ & _ & Hfalse)]; [done|congruence].
Qed.

Lemma step_inv (a : Channel.action) (c c' : Channel.t) :
  bridge_inv c → Channel.step a c = Some c' → bridge_inv c'.
Proof.
  intros Hinv. destruct a; simpl.
  - destruct (Channel.executor_shutdown c); [done|]. intros [= <-].
    eapply bridge_inv_same; [apply handle_input_same|done].
  - destruct (Channel.executor_shutdown c); [done|]. intros [= <-].
    eapply bridge_inv_same; [|exact Hinv]. done.
  - destruct (Channel.executor_shutdown c); [done|]. intros [= <-].
    by apply drain_inv.
  - destruct (Channel.executor_shutdown c); [done|]. intros [= <-].
    eapply bridge_inv_same; [apply poll_future_same|done].
  - destruct (Channel.executor_shutdown c); [done|]. intros [= <-].
    eapply bridge_inv_same; [apply close_same|done].
  - by apply worker_pickup_inv.
  - by apply worker_step_inv.
Qed.

Lemma reachable_inv (c0 c : Channel.t) :
  bridge_inv c0 → Channel.reachable c0 c → bridge_inv c.
Proof.
  intros H0 Hr. induction Hr as [|c a c' _ IH Hstep]; [done|].
  by eapply step_inv.
Qed.

Lemma init_inv (scene : Shop.Scene) (engine : result unit) (api_key_set : bool) :
  bridge_inv (Channel.init scene engine api_key_set).
Proof.
  unfold Channel.init, bridge_inv.
  destruct engine; [|done].
  destruct (Assistant.init _ _ _ _); [|done].
  unfold Channel._append_log. by destruct (negb _).
Qed.

Lemma bridge_inv_single_slot (c : Channel.t) :
  bridge_inv c → (length (Channel._purchase_requests c) ≤ 1)%nat.
Proof.
  unfold bridge_inv.
  destruct (Channel.worker c) as [[f p]|]; [|intros ->; simpl; lia].
  intros (ph & _ & Hph). destruct ph.
  - rewrite Hph. simpl. lia.
  - destruct Hph as [-> _]. simpl. lia.
  - destruct Hph as [->|(rq & -> & _)]; simpl; lia.
  - rewrite Hph. simpl. lia.
Qed.

Lemma steps_reachable (acts : list Channel.action) (c0 c : Channel.t) :
  Channel.steps acts c0 = Some c → Channel.reachable c0 c.
Proof.
  assert (H : ∀ c1, Channel.reachable c0 c1 →
                    Channel.steps acts c1 = Some c → Channel.reachable c0 c).
  { induction acts as [|a acts IH]; simpl; intros c1 Hr.
    - by intros [= <-].
    - destruct (Channel.step a c1) as [c2|] eqn:Hs; simpl; [|done].
      apply IH. by eapply Channel.reach_step. }
  apply H. constructor.
Qed.

(** C2. In every state the system can reach from the creation of the
    channel, under any interleaving of the moves of the game loop (keys,
    buttons, drain, poll, close) with the steps of the worker and any
    answers of the services, the purchase queue of the bridge holds at most
    one request; and whenever the worker is about to queue a request, the
    queue is empty. *)
Theorem C2_single_slot (scene : Shop.Scene) (engine : result unit)
    (api_key_set : bool) (c : Channel.t) :
  Channel.reachable (Channel.init scene engine api_key_set) c →
  (length (Channel._purchase_requests c) ≤ 1)%nat
  ∧ ∀ f it ev ct k,
      Channel.worker c = Some (f, Vis (EQueuePut it ev ct) k) →
      Channel._purchase_requests c = [].
Proof.
  intros Hr.
  pose proof (reachable_inv _ _ (init_inv scene engine api_key_set) Hr) as Hinv.
  split; [by apply bridge_inv_single_slot|].
  intros f it ev ct k Hw. unfold bridge_inv in Hinv. rewrite Hw in Hinv.
  destruct Hinv as (ph & Hd & Hph). simpl in Hd.
  destruct ph; try done. by destruct Hph.
Qed.

Lemma C2_single_slot_witness :
  let env := demo_env (Ok "rec.wav") trade (Ok "Here you go.") (Ok "tts.mp3") in
  let acts := ([Channel.Keys [Channel.K_SPACE]; Channel.WorkerPickup]
               ++ replicate 10 (Channel.WorkerStep env))%list in
  let c := after acts demo_channel in
  Channel._purchase_requests c
  = [{| rq_item := Some "heal potion"; rq_event := 1; rq_container := 2 |}]
  ∧ (length (Channel._purchase_requests c) ≤ 1)%nat.
Proof.
  intros env acts c.
  assert (Hsteps : Channel.steps acts demo_channel = Some c).
  { unfold c, after. destruct (Channel.steps acts demo_channel) eqn:E;
      [reflexivity|]. vm_compute in E. discriminate E. }
  split; [vm_compute; reflexivity|].
  apply (C2_single_slot (fresh_scene "Hero" 25 {["Heal Potion" := 3]})
           (Ok tt) true c).
  exact (steps_reachable acts demo_channel c Hsteps).
Defined.

(** * The closest-match search: the quick ratios bound the ratio *)

Lemma valid_block_prefix (adone ext b : list ascii) (m : Difflib.Match) :
  valid_block adone b m → valid_block (adone ++ ext) b m.
Proof.
  intros (Hi & Hj & Heq). split; [|split; [done|]].
  - rewrite length_app. lia.
  - intros d Hd. rewrite lookup_app_l by lia. by apply Heq.
Qed.

Lemma row_ok_init (b : list ascii) : row_ok [] b (replicate (length b) O).
Proof.
  split; [by rewrite length_replicate|].
  intros j k [-> _]%lookup_replicate. simpl.
  split; [lia|]. split; [lia|]. intros d Hd. lia.
Qed.

Lemma row_ok_next (pop : ascii → bool) (adone b : list ascii) (ai : ascii)
    (row : list nat) :
  row_ok adone b row →
  row_ok (adone ++ [ai]) b (Difflib.next_j2len pop ai b row).
Proof.
  intros [Hlen Hrow]. unfold Difflib.next_j2len. split.
  { rewrite length_zip_with. simpl. lia. }
  intros j k Hk. apply lookup_zip_with_Some in Hk as (bj & p & -> & Hbj & Hp).
  rewrite length_app. simpl.
  destruct (Ascii.eqb bj ai && negb (pop ai)) eqn:Hmatch.
  2:{ split; [lia|]. split; [lia|]. intros d Hd. lia. }
  apply andb_prop in Hmatch as [Heq%Ascii.eqb_eq _]. subst bj.
  destruct j as [|j']; simpl in Hp.
  - injection Hp as <-. split; [lia|]. split; [lia|].
    intros d Hd. assert (d = 0)%nat as -> by lia.
    replace (length adone + 1 - 1 + 0)%nat with (length adone) by lia.
    rewrite lookup_app_r by lia. rewrite Nat.sub_diag. simpl. by rewrite Hbj.
  - destruct (Hrow j' p Hp) as (Hp1 & Hp2 & Hseg).
    split; [lia|]. split; [lia|].
    intros d Hd.
    destruct (decide (d < p)%nat) as [Hlt|Hge].
    + rewrite lookup_app_l by lia.
      replace (length adone + 1 - S p + d)%nat with (length adone - p + d)%nat
        by lia.
      replace (S j' + 1 - S p + d)%nat with (j' + 1 - p + d)%nat by lia.
      by apply Hseg.
    + assert (d = p) as -> by lia.
      replace (length adone + 1 - S p + p)%nat with (length adone) by lia.
      replace (S j' + 1 - S p + p)%nat with (S j') by lia.
      rewrite lookup_app_r by lia. rewrite Nat.sub_diag. simpl. by rewrite Hbj.
Qed.

Lemma scan_row_valid (adone b : list ascii) (i : nat) (rest : list nat)
    (j0 : nat) (best : Difflib.Match) :
  S i = length adone →
  (∀ idx k, rest !! idx = Some k →
     (k ≤ length adone)%nat ∧ (k ≤ j0 + idx + 1)%nat
     ∧ (j0 + idx < length b)%nat
     ∧ ∀ d, (d < k)%nat →
         adone !! (length adone - k + d)%nat
         = b !! (j0 + idx + 1 - k + d)%nat) →
  valid_block adone b best →
  valid_block adone b (Difflib.scan_row i j0 rest best).
Proof.
  intros Hi. revert j0 best.
  induction rest as [|k rest IH]; intros j0 best Hrest Hbest; simpl; [done|].
  apply IH.
  - intros idx k' Hk'. specialize (Hrest (S idx) k' Hk').
    replace (S j0 + idx)%nat with (j0 + S idx)%nat by lia. exact Hrest.
  - destruct (Difflib.msize best <? k)%nat; [|done].
    destruct (Hrest O k eq_refl) as (H1 & H2 & H3 & H4).
    rewrite Nat.add_0_r in *.
    split; [|split]; simpl.
    + lia.
    + lia.
    + intros d Hd. rewrite Hi.
      replace (S j0 - k + d)%nat with (j0 + 1 - k + d)%nat by lia.
      by apply H4.
Qed.

Lemma longest_loop_valid (pop : ascii → bool) (b : list ascii)
    (a_rest adone : list ascii) (row : list nat) (best : Difflib.Match) :
  row_ok adone b row →
  valid_block adone b best →
  valid_block (adone ++ a_rest) b
    (Difflib.longest_loop pop (length adone) a_rest b row best).
Proof.
  revert adone row best.
  induction a_rest as [|ai a' IH]; intros adone row best Hrow Hbest; simpl.
  - by rewrite app_nil_r.
  - pose proof (row_ok_next pop adone b ai row Hrow) as Hrow'.
    replace (adone ++ ai :: a')%list with ((adone ++ [ai]) ++ a')%list
      by (by rewrite <- app_assoc).
    replace (S (length adone)) with (length (adone ++ [ai]))
      by (rewrite length_app; simpl; lia).
    apply IH; [done|].
    apply scan_row_valid.
    + rewrite length_app. simpl. lia.
    + intros idx k Hk. destruct Hrow' as [Hlen Hrow'].
      destruct (Hrow' idx k Hk) as (H1 & H2 & H3).
      apply lookup_lt_Some in Hk. simpl.
      split; [lia|]. split; [lia|]. split; [lia|]. exact H3.
    + by apply valid_block_prefix.
Qed.

Lemma extend_left_valid (fuel : nat) (a b : list ascii) (m : Difflib.Match) :
  valid_block a b m → valid_block a b (Difflib.extend_left fuel a b m).
Proof.
  revert m. induction fuel as [|fuel IH]; intros [[i j] k] Hm; simpl; [done|].
  destruct ((0 <? i)%nat && (0 <? j)%nat
            && bool_decide (a !! (i - 1)%nat = b !! (j - 1)%nat)) eqn:Hc; [|done].
  apply andb_prop in Hc as [[Hi%Nat.ltb_lt Hj%Nat.ltb_lt]%andb_prop
                            Heq%bool_decide_eq_true].
  apply IH. destruct Hm as (H1 & H2 & H3). simpl in *.
  split; [|split]; simpl; [lia|lia|].
  intros d Hd. destruct d as [|d].
  - by rewrite !Nat.add_0_r.
  - replace (i - 1 + S d)%nat with (i + d)%nat by lia.
    replace (j - 1 + S d)%nat with (j + d)%nat by lia.
    apply H3. lia.
Qed.

Lemma extend_right_valid (fuel : nat) (a b : list ascii) (m : Difflib.Match) :
  valid_block a b m → valid_block a b (Difflib.extend_right fuel a b m).
Proof.
  revert m. induction fuel as [|fuel IH]; intros [[i j] k] Hm; simpl; [done|].
  destruct ((i + k <? length a)%nat && (j + k <? length b)%nat
            && bool_decide (a !! (i + k)%nat = b !! (j + k)%nat)) eqn:Hc; [|done].
  apply andb_prop in Hc as [[Hi%Nat.ltb_lt Hj%Nat.ltb_lt]%andb_prop
                            Heq%bool_decide_eq_true].
  apply IH. destruct Hm as (H1 & H2 & H3). simpl in *.
  split; [|split]; simpl; [lia|lia|].
  intros d Hd. destruct (decide (d < k)%nat) as [Hlt|Hge].
  - by apply H3.
  - by assert (d = k) as -> by lia.
Qed.

(** [find_longest_match] returns a block of equal elements. *)
Lemma find_longest_match_valid (pop : ascii → bool) (a b : list ascii) :
  valid_block a b (Difflib.find_longest_match pop a b).
Proof.
  unfold Difflib.find_longest_match.
  apply extend_right_valid, extend_left_valid.
  apply (longest_loop_valid pop b a [] _ (O, O, O)).
  - apply row_ok_init.
  - split; [simpl; lia|]. split; [simpl; lia|]. simpl. intros d Hd. lia.
Qed.

(** ** Counting common elements *)

Lemma alphabet_count (c : ascii) : count_occ ascii_dec alphabet c = 1%nat.
Proof. destruct c as [[] [] [] [] [] [] [] []]; vm_compute; reflexivity. Qed.

Lemma sum_map_le (f g : ascii → nat) (l : list ascii) :
  (∀ c, f c ≤ g c)%nat → (sum_map f l ≤ sum_map g l)%nat.
Proof.
  intros H. induction l as [|x l IH]; simpl; [lia|]. specialize (H x). lia.
Qed.

Lemma sum_over_le (f g : ascii → nat) :
  (∀ c, f c ≤ g c)%nat → (sum_over f ≤ sum_over g)%nat.
Proof. apply sum_map_le. Qed.

Lemma sum_over_ext (f g : ascii → nat) :
  (∀ c, f c = g c) → sum_over f = sum_over g.
Proof.
  intros H. unfold sum_over.
  induction alphabet as [|x l IH]; simpl; [done|]. by rewrite H, IH.
Qed.

Lemma sum_over_add (f g : ascii → nat) :
  sum_over (λ c, f c + g c)%nat = (sum_over f + sum_over g)%nat.
Proof.
  unfold sum_over. induction alphabet as [|x l IH]; simpl; [done|]. lia.
Qed.

Lemma sum_map_indicator (x : ascii) (n : nat) (l : list ascii) :
  sum_map (λ c, if ascii_dec x c then n else O) l
  = (n * count_occ ascii_dec l x)%nat.
Proof.
  induction l as [|y l IH]; simpl; [lia|].
  rewrite IH. destruct (ascii_dec x y) as [->|Hne].
  - destruct (ascii_dec y y); [lia|done].
  - destruct (ascii_dec y x); [by subst|lia].
Qed.

Lemma sum_over_indicator (x : ascii) (n : nat) :
  sum_over (λ c, if ascii_dec x c then n else O) = n.
Proof.
  unfold sum_over. rewrite sum_map_indicator, alphabet_count. lia.
Qed.

Lemma sum_over_count (m : list ascii) :
  sum_over (λ c, count_occ ascii_dec m c) = length m.
Proof.
  induction m as [|x m IH].
  - unfold sum_over. simpl. induction alphabet as [|y l IHl]; simpl; [done|]. lia.
  - transitivity (sum_over (λ c, (if ascii_dec x c then 1 else 0)
                                 + count_occ ascii_dec m c)%nat).
    + apply sum_over_ext. intros c. simpl. destruct (ascii_dec x c); lia.
    + rewrite sum_over_add, sum_over_indicator. simpl. f_equal. exact IH.
Qed.

Lemma common_le_length (a b : list ascii) :
  (common a b ≤ min (length a) (length b))%nat.
Proof.
  unfold common. apply Nat.min_glb.
  - rewrite <- (sum_over_count a). apply sum_over_le. intros c. lia.
  - rewrite <- (sum_over_count b). apply sum_over_le. intros c. lia.
Qed.

Lemma common_split (a1 a2 b1 b2 m : list ascii) :
  (common a1 b1 + length m + common a2 b2
   ≤ common (a1 ++ m ++ a2) (b1 ++ m ++ b2))%nat.
Proof.
  unfold common. rewrite <- (sum_over_count m), <- !sum_over_add.
  apply sum_over_le. intros c. rewrite !count_occ_app. lia.
Qed.

(** The split of a sequence around a block. *)
Lemma split_around (a : list ascii) (i k : nat) :
  a = (take i a ++ take k (drop i a) ++ drop (i + k) a)%list.
Proof.
  rewrite <- (take_drop i a) at 1. f_equal.
  rewrite <- (take_drop k (drop i a)) at 1. f_equal.
  by rewrite drop_drop.
Qed.

Lemma valid_block_segment (a b : list ascii) (i j k : nat) :
  valid_block a b (i, j, k) → take k (drop i a) = take k (drop j b).
Proof.
  intros (Hi & Hj & Heq). simpl in *. apply list_eq. intros d.
  destruct (decide (d < k)%nat) as [Hlt|Hge].
  - rewrite !lookup_take_lt, !lookup_drop by lia. by apply Heq.
  - rewrite !lookup_take_ge by lia. done.
Qed.

(** The matching blocks pair off common elements. *)
Lemma matches_in_le_common (fuel : nat) (pop : ascii → bool) (a b : list ascii) :
  (Difflib.matches_in fuel pop a b ≤ common a b)%nat.
Proof.
  revert a b. induction fuel as [|fuel IH]; intros a b; simpl; [lia|].
  pose proof (find_longest_match_valid pop a b) as Hv.
  destruct (Difflib.find_longest_match pop a b) as [[i j] k].
  destruct (k =? 0)%nat; [lia|].
  pose proof (valid_block_segment a b i j k Hv) as Hseg.
  destruct Hv as (Hi & _ & _). simpl in Hi.
  rewrite (split_around a i k) at 3. rewrite (split_around b j k) at 3.
  rewrite <- Hseg.
  etrans; [|apply common_split].
  rewrite length_take, length_drop.
  pose proof (IH (take i a) (take j b)).
  pose proof (IH (drop (i + k) a) (drop (j + k) b)). lia.
Qed.

(** ** [quick_ratio] counts the common elements *)

Lemma fullbcount_lookup (b : list ascii) (c : ascii) :
  default 0 (Difflib.fullbcount b !! c) = Z.of_nat (count_occ ascii_dec b c).
Proof.
  unfold Difflib.fullbcount.
  assert (H : ∀ m0 : gmap ascii Z,
            default 0 (foldl (λ m elt, <[elt := default 0 (m !! elt) + 1]> m) m0 b !! c)
            = default 0 (m0 !! c) + Z.of_nat (count_occ ascii_dec b c)).
  { induction b as [|x b IH]; intros m0; simpl; [lia|].
    rewrite IH. destruct (ascii_dec x c) as [->|Hne].
    - rewrite lookup_insert_eq. simpl. lia.
    - rewrite lookup_insert_ne by done. lia. }
  rewrite H, lookup_empty. simpl. lia.
Qed.

Lemma common_snoc (a1 b : list ascii) (x : ascii) :
  common (a1 ++ [x]) b
  = (common a1 b
     + if (count_occ ascii_dec a1 x <? count_occ ascii_dec b x)%nat
       then 1 else 0)%nat.
Proof.
  unfold common.
  transitivity
    (sum_over (λ c, min (count_occ ascii_dec a1 c) (count_occ ascii_dec b c)
                    + (if ascii_dec x c
                       then (if (count_occ ascii_dec a1 x
                                 <? count_occ ascii_dec b x)%nat
                             then 1 else 0)
                       else 0))%nat).
  - apply sum_over_ext. intros c. rewrite count_occ_app. simpl.
    destruct (ascii_dec x c) as [->|Hne]; [|lia].
    destruct (count_occ ascii_dec a1 c <? count_occ ascii_dec b c)%nat eqn:E.
    + apply Nat.ltb_lt in E. lia.
    + apply Nat.ltb_ge in E. lia.
  - by rewrite sum_over_add, sum_over_indicator.
Qed.

Lemma quick_step_inv (b a1 : list ascii) (x : ascii) (st : gmap ascii Z * nat) :
  quick_inv b a1 st →
  quick_inv b (a1 ++ [x]) (Difflib.quick_step (Difflib.fullbcount b) st x).
Proof.
  destruct st as [avail m]. intros [Havail Hm]. simpl in *.
  assert (Hnumb : match avail !! x with
                  | Some n => n
                  | None => default 0 (Difflib.fullbcount b !! x)
                  end
                  = Z.of_nat (count_occ ascii_dec b x)
                    - Z.of_nat (count_occ ascii_dec a1 x)).
  { rewrite Havail, fullbcount_lookup. case_decide; lia. }
  unfold Difflib.quick_step. rewrite Hnumb. split; simpl.
  - intros c. rewrite count_occ_app. simpl.
    destruct (ascii_dec x c) as [->|Hne].
    + rewrite lookup_insert_eq. rewrite decide_True by lia. f_equal. lia.
    + rewrite lookup_insert_ne by done. rewrite Havail.
      replace (count_occ ascii_dec a1 c + 0)%nat
        with (count_occ ascii_dec a1 c) by lia.
      done.
  - rewrite common_snoc, Hm.
    destruct (count_occ ascii_dec a1 x <? count_occ ascii_dec b x)%nat eqn:E.
    + apply Nat.ltb_lt in E.
      destruct (0 <? _) eqn:E'; [lia|]. apply Z.ltb_ge in E'. lia.
    + apply Nat.ltb_ge in E.
      destruct (0 <? _) eqn:E'; [|lia]. apply Z.ltb_lt in E'. lia.
Qed.

Lemma quick_matches_common (a b : list ascii) :
  Difflib.quick_matches a b = common a b.
Proof.
  unfold Difflib.quick_matches.
  assert (H : ∀ a2 a1 st, quick_inv b a1 st →
            quick_inv b (a1 ++ a2)
              (foldl (Difflib.quick_step (Difflib.fullbcount b)) st a2)).
  { induction a2 as [|x a2 IH]; intros a1 st Hst; simpl.
    - by rewrite app_nil_r.
    - replace (a1 ++ x :: a2)%list with ((a1 ++ [x]) ++ a2)%list
        by (by rewrite <- app_assoc).
      apply IH. by apply quick_step_inv. }
  destruct (H a [] (∅, O)) as [_ Hm]; [|exact Hm].
  split; simpl.
  - intros c. rewrite lookup_empty. done.
  - unfold common. rewrite (sum_over_ext _ (λ _, O)) by (intros c; simpl; lia).
    unfold sum_over. by induction alphabet.
Qed.

(** ** The three ratios *)

Lemma calculate_ratio_mono (m1 m2 total : nat) :
  (m1 ≤ m2)%nat →
  (Difflib._calculate_ratio m1 total <= Difflib._calculate_ratio m2 total)%Q.
Proof.
  intros H. unfold Difflib._calculate_ratio.
  destruct (total =? 0)%nat; [apply Qle_refl|].
  unfold Qle. simpl. nia.
Qed.

(** [quick_ratio] and [real_quick_ratio] are upper bounds on [ratio]. *)
Lemma ratio_le_quick_ratio (a b : list ascii) :
  (Difflib.ratio a b <= Difflib.quick_ratio a b)%Q.
Proof.
  apply calculate_ratio_mono. rewrite quick_matches_common.
  apply matches_in_le_common.
Qed.

Lemma ratio_le_real_quick_ratio (a b : list ascii) :
  (Difflib.ratio a b <= Difflib.real_quick_ratio a b)%Q.
Proof.
  apply calculate_ratio_mono.
  etrans; [apply matches_in_le_common|apply common_le_length].
Qed.

(** So a possibility passes the three tests exactly when its ratio reaches
    the cutoff. *)
Lemma passes_ratio (cutoff : Q) (word x : string) :
  Difflib.passes cutoff word x = true ↔ (cutoff <= score word x)%Q.
Proof.
  unfold Difflib.passes, score. rewrite !andb_true_iff, !Qle_bool_iff.
  split; [by intros [_ ?]|]. intros H. split; [split|]; [| |done].
  - eapply Qle_trans; [exact H|apply ratio_le_real_quick_ratio].
  - eapply Qle_trans; [exact H|apply ratio_le_quick_ratio].
Qed.

(** The rounds given to [matches_in] reach every region: more rounds give
    the same count. *)
Lemma matches_in_enough (fuel1 fuel2 : nat) (pop : ascii → bool)
    (a b : list ascii) :
  (length a < fuel1)%nat → (length a < fuel2)%nat →
  Difflib.matches_in fuel1 pop a b = Difflib.matches_in fuel2 pop a b.
Proof.
  revert fuel2 a b. induction fuel1 as [|f1 IH]; intros [|f2] a b H1 H2;
    try lia. simpl.
  pose proof (find_longest_match_valid pop a b) as (Hi & _ & _).
  destruct (Difflib.find_longest_match pop a b) as [[i j] k]. simpl in Hi.
  destruct (k =? 0)%nat eqn:Hk; [done|]. apply Nat.eqb_neq in Hk.
  rewrite (IH f2 (take i a) (take j b)), (IH f2 (drop (i + k) a) (drop (j + k) b));
    rewrite ?length_take, ?length_drop; try lia.
Qed.

(** * Fuzzy resolution *)

Lemma ascii_compare_lt_trans (a b c : ascii) :
  Ascii.compare a b = Lt → Ascii.compare b c = Lt → Ascii.compare a c = Lt.
Proof.
  unfold Ascii.compare. rewrite !N.compare_lt_iff. lia.
Qed.

Lemma ascii_compare_refl (a : ascii) : Ascii.compare a a = Eq.
Proof. unfold Ascii.compare. apply N.compare_refl. Qed.

Lemma string_compare_refl (a : string) : String.compare a a = Eq.
Proof.
  induction a as [|x a IH]; simpl; [done|]. by rewrite ascii_compare_refl.
Qed.

Lemma string_compare_lt_trans (a b c : string) :
  String.compare a b = Lt → String.compare b c = Lt → String.compare a c = Lt.
Proof.
  revert b c. induction a as [|x a IH]; intros [|y b] [|z c]; simpl; try done.
  destruct (Ascii.compare x y) eqn:Hxy; try done;
    destruct (Ascii.compare y z) eqn:Hyz; try done.
  - apply Ascii.compare_eq_iff in Hxy, Hyz. subst.
    rewrite ascii_compare_refl.
    apply IH.
  - apply Ascii.compare_eq_iff in Hxy. subst. by rewrite Hyz.
  - apply Ascii.compare_eq_iff in Hyz. subst. by rewrite Hxy.
  - by rewrite (ascii_compare_lt_trans x y z).
Qed.

Lemma string_ltb_trans (a b c : string) :
  String.ltb a b = true → String.ltb b c = true → String.ltb a c = true.
Proof.
  unfold String.ltb.
  destruct (String.compare a b) eqn:Hab; try done.
  destruct (String.compare b c) eqn:Hbc; try done.
  by rewrite (string_compare_lt_trans a b c).
Qed.

Lemma string_ltb_irrefl (a : string) : String.ltb a a = false.
Proof.
  unfold String.ltb.
  rewrite string_compare_refl.
  done.
Qed.

(** When [a] is not below [b], then [b] is [a] or below it. *)
Lemma string_ltb_total (a b : string) :
  String.ltb a b = false → a = b ∨ String.ltb b a = true.
Proof.
  unfold String.ltb. rewrite (String.compare_antisym b a).
  destruct (String.compare a b) eqn:H; simpl; try done.
  - left. by apply String.compare_eq_iff.
  - by right.
Qed.

Lemma tuple_lt_spec (x y : Q * string) :
  Difflib.tuple_lt x y = true
  ↔ (x.1 < y.1)%Q ∨ ((x.1 == y.1)%Q ∧ String.ltb x.2 y.2 = true).
Proof.
  unfold Difflib.tuple_lt.
  destruct (x.1 ?= y.1)%Q eqn:H.
  - apply Qeq_alt in H. split; [by right|].
    intros [Hlt|[_ ?]]; [|done]. rewrite H in Hlt. by apply Qlt_irrefl in Hlt.
  - apply Qlt_alt in H. split; [by left|done].
  - apply Qgt_alt in H. split; [done|].
    intros [Hlt|[Heq _]].
    + exfalso. apply (Qlt_irrefl x.1). exact (Qlt_trans _ _ _ Hlt H).
    + rewrite Heq in H. by apply Qlt_irrefl in H.
Qed.

Lemma tuple_lt_trans (x y z : Q * string) :
  Difflib.tuple_lt x y = true → Difflib.tuple_lt y z = true →
  Difflib.tuple_lt x z = true.
Proof.
  rewrite !tuple_lt_spec.
  intros [Hxy|[Hxy Hs]] [Hyz|[Hyz Hs']].
  - left. exact (Qlt_trans _ _ _ Hxy Hyz).
  - left. by rewrite <- Hyz.
  - left. by rewrite Hxy.
  - right. split; [exact (Qeq_trans _ _ _ Hxy Hyz)|]. by eapply string_ltb_trans.
Qed.

Lemma tuple_lt_irrefl (x : Q * string) : Difflib.tuple_lt x x = false.
Proof.
  destruct (Difflib.tuple_lt x x) eqn:H; [|done].
  apply tuple_lt_spec in H as [H|[_ H]].
  - by apply Qlt_irrefl in H.
  - by rewrite string_ltb_irrefl in H.
Qed.

(** [max] returns an element that no element of the list exceeds. *)
Lemma py_max_spec (l : list (Q * string)) (m : Q * string) :
  Difflib.py_max l = Some m →
  m ∈ l ∧ ∀ y, y ∈ l → Difflib.tuple_lt m y = false.
Proof.
  destruct l as [|x r]; [done|]. simpl. intros [= <-].
  assert (H : ∀ (seen : list (Q * string)) best,
            best ∈ seen → (∀ y, y ∈ seen → Difflib.tuple_lt best y = false) →
            let m := foldl (λ best y, if Difflib.tuple_lt best y then y else best)
                           best r in
            m ∈ (seen ++ r)%list
            ∧ ∀ y, y ∈ (seen ++ r)%list → Difflib.tuple_lt m y = false).
  { induction r as [|z r IH]; intros seen best Hin Hmax; simpl.
    - rewrite app_nil_r. done.
    - replace (seen ++ z :: r)%list with ((seen ++ [z]) ++ r)%list
        by (by rewrite <- app_assoc).
      apply IH.
      + destruct (Difflib.tuple_lt best z);
          [apply elem_of_app; right; by left
          |apply elem_of_app; by left].
      + intros y Hy. apply elem_of_app in Hy as [Hy|Hy].
        * destruct (Difflib.tuple_lt best z) eqn:Hbz; [|by apply Hmax].
          destruct (Difflib.tuple_lt z y) eqn:Hzy; [|done].
          rewrite <- (Hmax y Hy). symmetry. by eapply tuple_lt_trans.
        * apply list_elem_of_singleton in Hy as ->.
          destruct (Difflib.tuple_lt best z) eqn:Hbz; [|done].
          apply tuple_lt_irrefl. }
  apply (H [x] x); [by left|].
  intros y Hy. apply list_elem_of_singleton in Hy as ->. apply tuple_lt_irrefl.
Qed.

Lemma scored_spec (cutoff : Q) (word : string) (ps : list string)
    (q : Q) (x : string) :
  (q, x) ∈ Difflib.scored cutoff word ps
  ↔ x ∈ ps ∧ Difflib.passes cutoff word x = true ∧ q = score word x.
Proof.
  unfold Difflib.scored. rewrite list_elem_of_omap. split.
  - intros (y & Hy & Hp). destruct (Difflib.passes cutoff word y) eqn:E; [|done].
    injection Hp as <- <-. done.
  - intros (Hx & Hp & ->). exists x. split; [done|]. by rewrite Hp.
Qed.

(** The closest-match search: nothing when no possibility clears the
    cutoff, otherwise the possibility that clears it and ranks highest. *)
Lemma get_close_matches_spec (word : string) (ps : list string) :
  (Difflib.get_close_matches word ps Shop.cutoff = []
   ∧ ∀ x, x ∈ ps → ¬ clears word x)
  ∨ (∃ best, Difflib.get_close_matches word ps Shop.cutoff = [best]
       ∧ best ∈ ps ∧ clears word best
       ∧ ∀ y, y ∈ ps → clears word y → y = best ∨ ranks_below word y best).
Proof.
  unfold Difflib.get_close_matches.
  destruct (Difflib.py_max _) as [[q best]|] eqn:Hmax.
  - right. exists best. split; [done|].
    apply py_max_spec in Hmax as [Hin Hle].
    apply scored_spec in Hin as (Hin & Hp%passes_ratio & ->).
    split; [done|]. split; [done|].
    intros y Hy Hc%passes_ratio.
    assert (Hs : (score word y, y) ∈ Difflib.scored Shop.cutoff word ps)
      by (by apply scored_spec).
    specialize (Hle _ Hs). unfold Difflib.tuple_lt in Hle. simpl in Hle.
    unfold ranks_below.
    destruct (score word best ?= score word y)%Q eqn:Hcmp; [|done|].
    + apply Qeq_alt in Hcmp.
      destruct (string_ltb_total best y Hle) as [->|Hlt]; [by left|].
      right. right. split; [by symmetry|done].
    + apply Qgt_alt in Hcmp. right. by left.
  - left. destruct (Difflib.scored Shop.cutoff word ps) as [|p r] eqn:Hs; [|done].
    split; [done|]. intros x Hx Hc%passes_ratio.
    assert (Hin : (score word x, x) ∈ Difflib.scored Shop.cutoff word ps)
      by (by apply scored_spec).
    rewrite Hs in Hin. by apply not_elem_of_nil in Hin.
Qed.

Lemma dict_get_is_some {V} (k : string) (d : list (string * V)) :
  k ∈ d.*1 → is_Some (Shop.dict_get k d).
Proof.
  induction d as [|[k' v] d IH]; simpl; [by intros ?%not_elem_of_nil|].
  intros [->|Hin]%elem_of_cons.
  - rewrite String.eqb_refl. by eexists.
  - destruct (String.eqb k k'); [by eexists|by apply IH].
Qed.

Lemma C3_counterexample :
  let s := fresh_scene "Hero" 200 {["Heal Potion" := 3]} in
  let keys := (Shop.name_lookup (Shop.items s)).*1 in
  "short sword" ∈ keys ∧ "steel sword" ∈ keys
  ∧ "short sword" ≠ "steel sword"
  ∧ clears "sword" "short sword" ∧ clears "sword" "steel sword"
  ∧ (score "sword" "short sword" == score "sword" "steel sword")%Q
  ∧ Forall (λ x, (score "sword" x <= score "sword" "short sword")%Q) keys
  ∧ Shop._resolve_item_name "Sword" s
    = Some (1%nat, {| Shop.i_name := "Steel Sword"; Shop.i_type := "weapon";
                      Shop.i_price := 120; Shop.i_sprite := "steel_sword";
                      Shop.i_stock_key := None; Shop.i_bonus := "+12 ATK" |})
  ∧ Shop._resolve_item_name "Sword" s ≠ None
  ∧ (Shop.attempt_voice_purchase (Some "Sword") s).1
    = Ok {| success := true; item_name := Some "Steel Sword";
            message := "Bought Steel Sword for 120g."; price_paid := Some 120 |}
  ∧ gold_of (Shop.attempt_voice_purchase (Some "Sword") s).2 = 80.
Proof.
  intros s keys.
  assert (Hkeys : keys = ["short sword"; "steel sword"; "wooden shield";
                          "iron shield"; "heal potion"; "mana potion"])
    by (vm_compute; reflexivity).
  split; [rewrite Hkeys; by left|].
  split; [rewrite Hkeys; right; by left|].
  split; [discriminate|].
  split; [vm_compute; discriminate|].
  split; [vm_compute; discriminate|].
  split; [vm_compute; reflexivity|].
  split.
  { rewrite Hkeys. repeat constructor; vm_compute; discriminate. }
  split; [vm_compute; reflexivity|].
  split; [vm_compute; discriminate|].
  split; vm_compute; reflexivity.
Qed.

(** C3 (amended). For every raw item name whose lower-cased, trimmed form
    [lowered] is not empty, and every catalog:
    - if [lowered] is the lower-cased name of a catalog entry, that entry is
      returned;
    - otherwise, if no catalog name clears the cutoff (a similarity ratio of
      at least 0.6), the name is unresolved and the resolver returns the
      failure "I do not have '<raw>' in stock." without touching gold,
      holdings or stock;
    - otherwise the entry is returned whose lower-cased name clears the
      cutoff and ranks highest: every other name that clears the cutoff has
      a lower ratio, or the same ratio and a smaller string.  So a name
      within the cutoff of exactly one catalog name resolves to that item,
      and a name equally close to two items resolves to the one with the
      greater lower-cased name. *)
Theorem C3_fuzzy_resolution (raw : string) (s : Shop.Scene) :
  let lowered := PyStr.strip (PyStr.lower raw) in
  let table := Shop.name_lookup (Shop.items s) in
  PyStr.truthy lowered = true →
  (∀ hit, Shop.dict_get lowered table = Some hit →
          Shop._resolve_item_name raw s = Some hit)
  ∧ (Shop.dict_get lowered table = None →
     (∀ x, x ∈ table.*1 → ¬ clears lowered x) →
     Shop._resolve_item_name raw s = None
     ∧ ∃ s', Shop.attempt_voice_purchase (Some raw) s
             = (Ok (not_in_stock_outcome raw), s')
             ∧ untouched s s')
  ∧ (Shop.dict_get lowered table = None →
     ∀ x, x ∈ table.*1 → clears lowered x →
     ∃ best idx item,
       best ∈ table.*1 ∧ clears lowered best
       ∧ Shop._resolve_item_name raw s = Some (idx, item)
       ∧ Shop.items s !! idx = Some item
       ∧ PyStr.lower (Shop.i_name item) = best
       ∧ (∀ y, y ∈ table.*1 → clears lowered y →
               y = best ∨ ranks_below lowered y best)
       ∧ ((∀ y, y ∈ table.*1 → clears lowered y → y = x) → best = x)).
Proof.
  intros lowered table Htruthy.
  assert (Hres : Shop._resolve_item_name raw s
                 = match Shop.dict_get lowered table with
                   | Some hit => Some hit
                   | None =>
                       match Difflib.get_close_matches lowered table.*1
                               Shop.cutoff with
                       | m :: _ => Shop.dict_get m table
                       | [] => None
                       end
                   end).
  { unfold Shop._resolve_item_name. fold lowered. rewrite Htruthy. reflexivity. }
  split; [|split].
  - intros hit Hhit. by rewrite Hres, Hhit.
  - intros Hnone Hno.
    destruct (get_close_matches_spec lowered table.*1)
      as [[Hg _]|(best & _ & Hin & Hc & _)]; [|by destruct (Hno best Hin)].
    assert (Hr : Shop._resolve_item_name raw s = None)
      by (by rewrite Hres, Hnone, Hg).
    split; [exact Hr|].
    unfold Shop.attempt_voice_purchase.
    assert (Ht : PyStr.truthy (PyStr.strip raw) = true).
    { unfold lowered in Htruthy. by rewrite strip_lower, lower_truthy in Htruthy. }
    rewrite Ht, (strip_truthy_raw raw Ht). simpl.
    unfold mbind, stx_bind, stx_get. rewrite Hr. simpl.
    eexists. split; [reflexivity|]. done.
  - intros Hnone x Hx Hcx.
    destruct (get_close_matches_spec lowered table.*1)
      as [[_ Hno]|(best & Hg & Hin & Hc & Hrank)]; [by destruct (Hno x Hx)|].
    destruct (dict_get_is_some best table Hin) as [[idx item] Hhit].
    destruct (name_lookup_sound _ _ _ _ Hhit) as [Hitem Hname].
    exists best, idx, item. repeat split; try done.
    + by rewrite Hres, Hnone, Hg.
    + intros Huniq. by apply Huniq.
Qed.

Lemma C3_fuzzy_resolution_witness :
  let s := fresh_scene "Hero" 200 {["Heal Potion" := 3]} in
  ∃ idx item,
    Shop._resolve_item_name "Heall Poshun" s = Some (idx, item)
    ∧ Shop.items s !! idx = Some item
    ∧ PyStr.lower (Shop.i_name item) = "heal potion".
Proof.
  intros s.
  assert (Ht : PyStr.truthy (PyStr.strip (PyStr.lower "Heall Poshun")) = true)
    by (vm_compute; reflexivity).
  assert (Hn : Shop.dict_get (PyStr.strip (PyStr.lower "Heall Poshun"))
                 (Shop.name_lookup (Shop.items s)) = None)
    by (vm_compute; reflexivity).
  assert (Hkeys : (Shop.name_lookup (Shop.items s)).*1
                  = ["short sword"; "steel sword"; "wooden shield";
                     "iron shield"; "heal potion"; "mana potion"])
    by (vm_compute; reflexivity).
  assert (Hin : "heal potion" ∈ (Shop.name_lookup (Shop.items s)).*1).
  { rewrite Hkeys. do 4 right. by left. }
  assert (Hc : clears (PyStr.strip (PyStr.lower "Heall Poshun")) "heal potion")
    by (vm_compute; discriminate).
  destruct (C3_fuzzy_resolution "Heall Poshun" s Ht) as (_ & _ & H).
  destruct (H Hn "heal potion" Hin Hc)
    as (best & idx & item & _ & _ & Hres & Hitem & Hname & _ & Hu).
  exists idx, item. split; [exact Hres|]. split; [exact Hitem|].
  rewrite Hname. apply Hu. intros y Hy Hcy.
  rewrite Hkeys in Hy. apply passes_ratio in Hcy.
  repeat (apply elem_of_cons in Hy as [->|Hy];
          [first [reflexivity
                 | exfalso; revert Hcy;
                   match goal with
                   | |- ?x = true → False =>
                       assert (E : x = false) by (vm_compute; reflexivity);
                       rewrite E; discriminate
                   end]|]).
  inversion Hy.
Defined.

(** * The inventory *)

Lemma weapons_table (k : string) (x : Items.Weapon) :
  Items.WEAPONS !! k = Some x → Items.weapon_name x = k ∧ PyStr.truthy k = true.
Proof.
  unfold Items.WEAPONS. intros H.
  apply lookup_insert_Some in H as [[<- <-]|[_ H]]; [done|].
  apply lookup_insert_Some in H as [[<- <-]|[_ H]]; [done|].
  by rewrite lookup_empty in H.
Qed.

Lemma shields_table (k : string) (x : Items.Shield) :
  Items.SHIELDS !! k = Some x → Items.shield_name x = k ∧ PyStr.truthy k = true.
Proof.
  unfold Items.SHIELDS. intros H.
  apply lookup_insert_Some in H as [[<- <-]|[_ H]]; [done|].
  apply lookup_insert_Some in H as [[<- <-]|[_ H]]; [done|].
  by rewrite lookup_empty in H.
Qed.

Lemma counted_insert (d : gmap string Z) (k : string) (n : Z) :
  counted d → 0 ≤ n → counted (<[k := n]> d).
Proof.
  intros Hd Hn k' n' H. apply lookup_insert_Some in H as [[_ <-]|[_ H]]; [done|].
  by eapply Hd.
Qed.

Lemma owned_insert (d : gmap string Z) (e : option string) (k : string) (m n : Z) :
  owned d e → d !! k = Some m → m ≤ n → owned (<[k := n]> d) e.
Proof.
  intros He Hk Hle w Hw. destruct (He w Hw) as (c & Hc & Hpos).
  destruct (decide (k = w)) as [->|Hne].
  - rewrite lookup_insert_eq. exists n. split; [done|]. simplify_eq. lia.
  - rewrite lookup_insert_ne by done. by exists c.
Qed.

Lemma inventory_init_ok : inventory_ok InventoryManager.init.
Proof.
  unfold inventory_ok, InventoryManager.init. simpl.
  rewrite !dom_fmap_L. repeat split; try done.
  all: try (intros k n H; apply lookup_fmap_Some in H as (? & <- & _); done).
Qed.

Lemma inventory_step_ok (inv : InventoryManager.t) (call : inventory_call) :
  inventory_ok inv → adds_some call → inventory_ok (inventory_step inv call).
Proof.
  intros (Hdw & Hds & Hdp & Hcw & Hcs & Hcp & How & Hos) Hadd.
  destruct call as [name|name|name amount|name|name|name]; simpl.
  - unfold InventoryManager.add_weapon.
    destruct (InventoryManager.weapons inv !! name) as [n|] eqn:E; simpl;
      [|by repeat split].
    repeat split; simpl; try done.
    + rewrite dom_insert_lookup_L; [done|by eexists].
    + apply counted_insert; [done|]. specialize (Hcw _ _ E). lia.
    + eapply owned_insert; [done|exact E|lia].
  - unfold InventoryManager.add_shield.
    destruct (InventoryManager.shields inv !! name) as [n|] eqn:E; simpl;
      [|by repeat split].
    repeat split; simpl; try done.
    + rewrite dom_insert_lookup_L; [done|by eexists].
    + apply counted_insert; [done|]. specialize (Hcs _ _ E). lia.
    + eapply owned_insert; [done|exact E|lia].
  - unfold InventoryManager.add_potion.
    destruct (InventoryManager.potions inv !! name) as [n|] eqn:E; simpl;
      [|by repeat split].
    repeat split; simpl; try done.
    + rewrite dom_insert_lookup_L; [done|by eexists].
    + apply counted_insert; [done|]. specialize (Hcp _ _ E). simpl in Hadd. lia.
  - unfold Inventory.consume_potion.
    destruct (InventoryManager.potions inv !! name) as [n|] eqn:E; simpl;
      [|by repeat split].
    destruct (n <=? 0) eqn:Hn; simpl; [by repeat split|].
    apply Z.leb_gt in Hn.
    assert (inventory_ok (InventoryManager.set_potions <[name := n - 1]> inv)).
    { repeat split; simpl; try done.
      - rewrite dom_insert_lookup_L; [done|by eexists].
      - apply counted_insert; [done|lia]. }
    by destruct (Items.POTIONS !! name).
  - unfold InventoryManager.equip_weapon.
    destruct (default 0 (InventoryManager.weapons inv !! name) <=? 0) eqn:Hn;
      simpl; [by repeat split|].
    apply Z.leb_gt in Hn. repeat split; simpl; try done.
    intros w [= <-].
    destruct (InventoryManager.weapons inv !! name) as [n|]; simpl in Hn; [|lia].
    by exists n.
  - unfold InventoryManager.equip_shield.
    destruct (default 0 (InventoryManager.shields inv !! name) <=? 0) eqn:Hn;
      simpl; [by repeat split|].
    apply Z.leb_gt in Hn. repeat split; simpl; try done.
    intros w [= <-].
    destruct (InventoryManager.shields inv !! name) as [n|]; simpl in Hn; [|lia].
    by exists n.
Qed.

Lemma inventory_run_ok (calls : list inventory_call) (inv : InventoryManager.t) :
  inventory_ok inv → Forall adds_some calls →
  inventory_ok (foldl inventory_step inv calls).
Proof.
  revert inv. induction calls as [|call calls IH]; intros inv Hok Hall; [done|].
  inversion Hall; subst. simpl. apply IH; [|done]. by apply inventory_step_ok.
Qed.

Lemma equipped_weapon_found (inv : InventoryManager.t) :
  inventory_ok inv →
  match InventoryManager.equipped_weapon inv with
  | Some w =>
      ∃ x, Items.WEAPONS !! w = Some x
         ∧ Items.weapon_name x = w
         ∧ Inventory.get_equipped_weapon inv = Ok (Some x)
         ∧ 0 < default 0 (InventoryManager.weapons inv !! w)
  | None => Inventory.get_equipped_weapon inv = Ok None
  end.
Proof.
  intros (Hdw & _ & _ & _ & _ & _ & How & _).
  unfold Inventory.get_equipped_weapon.
  destruct (InventoryManager.equipped_weapon inv) as [w|] eqn:E; [|done].
  destruct (How w eq_refl) as (n & Hn & Hpos).
  assert (Hin : w ∈ dom Items.WEAPONS).
  { rewrite <- Hdw. apply elem_of_dom. by eexists. }
  apply elem_of_dom in Hin as [x Hx].
  destruct (weapons_table _ _ Hx) as [Hname Htruthy].
  rewrite Htruthy, Hx, Hn. by exists x.
Qed.

Lemma equipped_shield_found (inv : InventoryManager.t) :
  inventory_ok inv →
  match InventoryManager.equipped_shield inv with
  | Some w =>
      ∃ x, Items.SHIELDS !! w = Some x
         ∧ Items.shield_name x = w
         ∧ Inventory.get_equipped_shield inv = Ok (Some x)
         ∧ 0 < default 0 (InventoryManager.shields inv !! w)
  | None => Inventory.get_equipped_shield inv = Ok None
  end.
Proof.
  intros (_ & Hds & _ & _ & _ & _ & _ & Hos).
  unfold Inventory.get_equipped_shield.
  destruct (InventoryManager.equipped_shield inv) as [w|] eqn:E; [|done].
  destruct (Hos w eq_refl) as (n & Hn & Hpos).
  assert (Hin : w ∈ dom Items.SHIELDS).
  { rewrite <- Hds. apply elem_of_dom. by eexists. }
  apply elem_of_dom in Hin as [x Hx].
  destruct (shields_table _ _ Hx) as [Hname Htruthy].
  rewrite Htruthy, Hx, Hn. by exists x.
Qed.

(** X1. From a new inventory, after any sequence of calls of [add_weapon],
    [add_shield], [add_potion] (with amounts that are not negative),
    [consume_potion], [equip_weapon] and [equip_shield], whether they return
    or raise: the dictionaries still have exactly the keys of the item
    tables, no count is negative, and the equipped weapon and shield are
    owned.  [get_equipped_weapon] and [get_equipped_shield] then return
    without a [KeyError]: when a name is equipped, the entry of the item
    table under that name, which bears the name and has a positive count;
    when nothing is equipped, [None]. *)
Theorem X1_equipment_is_owned (calls : list inventory_call) :
  Forall adds_some calls →
  let inv := foldl inventory_step InventoryManager.init calls in
  inventory_ok inv
  ∧ match InventoryManager.equipped_weapon inv with
    | Some w =>
        ∃ x, Items.WEAPONS !! w = Some x
           ∧ Items.weapon_name x = w
           ∧ Inventory.get_equipped_weapon inv = Ok (Some x)
           ∧ 0 < default 0 (InventoryManager.weapons inv !! w)
    | None => Inventory.get_equipped_weapon inv = Ok None
    end
  ∧ match InventoryManager.equipped_shield inv with
    | Some w =>
        ∃ x, Items.SHIELDS !! w = Some x
           ∧ Items.shield_name x = w
           ∧ Inventory.get_equipped_shield inv = Ok (Some x)
           ∧ 0 < default 0 (InventoryManager.shields inv !! w)
    | None => Inventory.get_equipped_shield inv = Ok None
    end.
Proof.
  intros Hall inv.
  assert (Hok : inventory_ok inv)
    by (apply inventory_run_ok; [apply inventory_init_ok|done]).
  split; [done|]. split.
  - by apply equipped_weapon_found.
  - by apply equipped_shield_found.
Qed.

Lemma X1_equipment_is_owned_witness :
  let calls := [EquipWeapon "Steel Sword"; AddWeapon "Steel Sword";
                EquipWeapon "Steel Sword"; AddPotion "Heal Potion" 1;
                ConsumePotion "Heal Potion"; ConsumePotion "Heal Potion";
                AddShield "Tower Shield"] in
  Forall adds_some calls
  ∧ Inventory.get_equipped_weapon (foldl inventory_step InventoryManager.init calls)
    = Ok (Some {| Items.weapon_name := "Steel Sword"; Items.attack_bonus := 12;
                  Items.weapon_price := 120 |})
  ∧ inventory_ok (foldl inventory_step InventoryManager.init calls).
Proof.
  intros calls.
  assert (Hall : Forall adds_some calls).
  { subst calls. repeat constructor. simpl. lia. }
  split; [exact Hall|]. split; [vm_compute; reflexivity|].
  exact (proj1 (X1_equipment_is_owned calls Hall)).
Defined.

(** X2. Adding one potion and then consuming it gives back the potion of
    the table and leaves the inventory exactly as it was. *)
Theorem X2_potion_round_trip (inv : InventoryManager.t) (name : string)
    (n : Z) (p : Items.Potion) :
  InventoryManager.potions inv !! name = Some n →
  0 ≤ n →
  Items.POTIONS !! name = Some p →
  ∃ inv1, InventoryManager.add_potion name 1 inv = (Ok tt, inv1)
    ∧ Inventory.consume_potion name inv1 = (Ok p, inv).
Proof.
  intros Hn Hpos Hp. unfold InventoryManager.add_potion. rewrite Hn.
  eexists. split; [reflexivity|].
  unfold Inventory.consume_potion. simpl. rewrite lookup_insert_eq.
  destruct (n + 1 <=? 0) eqn:E; [apply Z.leb_le in E; lia|].
  rewrite Hp. f_equal. destruct inv as [w s po ew es]; simpl in *.
  unfold InventoryManager.set_potions. simpl. f_equal.
  rewrite insert_insert_eq. replace (n + 1 - 1) with n by lia.
  by apply insert_id.
Qed.

Lemma X2_potion_round_trip_witness :
  ∃ inv1, InventoryManager.add_potion "Mana Potion" 1 InventoryManager.init
          = (Ok tt, inv1)
    ∧ Inventory.consume_potion "Mana Potion" inv1
      = (Ok {| Items.potion_name := "Mana Potion"; Items.restore_amount := 40;
               Items.potion_price := 20; Items.resource := "mp" |},
         InventoryManager.init).
Proof.
  apply (X2_potion_round_trip InventoryManager.init "Mana Potion" 0);
    [vm_compute; reflexivity | lia | vm_compute; reflexivity].
Defined.

(** * Experience and vitals *)

Example new_players :
  PlayerStats.init "Fighter" = Ok fighter
  ∧ PlayerStats.init "Sorcerer" = Ok sorcerer
  ∧ PlayerStats.init "Rogue"
    = Raised (Exn ValueError "Unknown player class: Rogue").
Proof. repeat split; vm_compute; reflexivity. Qed.

Lemma total_xp_level_up (p : PlayerStats.t) :
  total_xp (PlayerStats.level_up p) = total_xp p.
Proof. unfold total_xp, PlayerStats.level_up, required_xp. simpl. lia. Qed.

Lemma gain_xp_loop_spec (fuel : nat) (p : PlayerStats.t) (b : bool) :
  1 ≤ PlayerStats.level p →
  PlayerStats.xp p ≤ Z.of_nat fuel →
  ∃ b' p', PlayerStats.gain_xp_loop fuel p b = Some (b', p')
    ∧ PlayerStats.xp p' < required_xp (PlayerStats.level p')
    ∧ PlayerStats.level p ≤ PlayerStats.level p'
    ∧ b' = b || (PlayerStats.level p <? PlayerStats.level p')
    ∧ total_xp p' = total_xp p
    ∧ PlayerStats.data p' = PlayerStats.data p
    ∧ PlayerStats.player_class p' = PlayerStats.player_class p
    ∧ PlayerStats.max_hp p'
      = PlayerStats.max_hp p
        + (PlayerStats.level p' - PlayerStats.level p)
          * PlayerClassData.hp_per_level (PlayerStats.data p)
    ∧ PlayerStats.max_mp p'
      = PlayerStats.max_mp p
        + (PlayerStats.level p' - PlayerStats.level p)
          * PlayerClassData.mp_per_level (PlayerStats.data p)
    ∧ PlayerStats.base_atk p'
      = PlayerStats.base_atk p
        + (PlayerStats.level p' - PlayerStats.level p)
          * PlayerClassData.atk_per_level (PlayerStats.data p)
    ∧ PlayerStats.base_def p'
      = PlayerStats.base_def p
        + (PlayerStats.level p' - PlayerStats.level p)
          * PlayerClassData.def_per_level (PlayerStats.data p)
    ∧ (if PlayerStats.level p <? PlayerStats.level p'
       then PlayerStats.hp p' = PlayerStats.max_hp p'
            ∧ PlayerStats.mp p' = PlayerStats.max_mp p'
       else PlayerStats.hp p' = PlayerStats.hp p
            ∧ PlayerStats.mp p' = PlayerStats.mp p).
Proof.
  revert p b. induction fuel as [|fuel IH]; intros p b Hlevel Hxp.
  - simpl. destruct (required_xp (PlayerStats.level p) <=? PlayerStats.xp p) eqn:E.
    { apply Z.leb_le in E. unfold required_xp in E. lia. }
    apply Z.leb_gt in E. exists b, p.
    rewrite Z.ltb_irrefl, orb_false_r.
    repeat split; try done; lia.
  - cbn [PlayerStats.gain_xp_loop].
    destruct (required_xp (PlayerStats.level p) <=? PlayerStats.xp p) eqn:E.
    + apply Z.leb_le in E.
      destruct (IH (PlayerStats.level_up p) true) as (b' & p' & Hrun & Hexit
        & Hlv & Hb & Htot & Hdata & Hcls & Hhp & Hmp & Hat & Hdf & Hfull).
      { simpl. lia. }
      { simpl. unfold required_xp in *. lia. }
      exists b', p'. simpl in Hlv, Hdata, Hcls, Hhp, Hmp, Hat, Hdf, Hfull.
      rewrite Hrun. rewrite total_xp_level_up in Htot.
      assert (Hlt : (PlayerStats.level p <? PlayerStats.level p') = true)
        by (apply Z.ltb_lt; lia).
      rewrite Hlt, orb_true_r.
      repeat split; try done; try lia.
      * destruct (PlayerStats.level p + 1 <? PlayerStats.level p') eqn:E2;
          destruct Hfull as [H1 H2]; [done|]. apply Z.ltb_ge in E2.
        assert (Hl : PlayerStats.level p' = PlayerStats.level p + 1) by lia.
        rewrite H1, Hhp, Hl. lia.
      * destruct (PlayerStats.level p + 1 <? PlayerStats.level p') eqn:E2;
          destruct Hfull as [H1 H2]; [done|]. apply Z.ltb_ge in E2.
        assert (Hl : PlayerStats.level p' = PlayerStats.level p + 1) by lia.
        rewrite H2, Hmp, Hl. lia.
    + apply Z.leb_gt in E. exists b, p.
      rewrite Z.ltb_irrefl, orb_false_r.
      repeat split; try done; lia.
Qed.

(** X3. [gain_xp] on a player of level 1 or more ends, with the experience
    below the threshold of the level reached; the level does not go down
    and the returned flag tells whether it went up; no experience is lost
    (the experience gathered since level 1 grows by exactly the amount);
    each level gained adds the increments of the class to the maxima and to
    the base attack and defence; hit points and mana are refilled when a
    level was gained and untouched otherwise. *)
Theorem X3_gain_xp_levels (amount : Z) (p : PlayerStats.t) :
  1 ≤ PlayerStats.level p →
  ∃ leveled p', PlayerStats.gain_xp amount p = Some (leveled, p')
    ∧ PlayerStats.xp p' < required_xp (PlayerStats.level p')
    ∧ PlayerStats.level p ≤ PlayerStats.level p'
    ∧ (leveled = true ↔ PlayerStats.level p < PlayerStats.level p')
    ∧ total_xp p' = total_xp p + amount
    ∧ PlayerStats.max_hp p'
      = PlayerStats.max_hp p
        + (PlayerStats.level p' - PlayerStats.level p)
          * PlayerClassData.hp_per_level (PlayerStats.data p)
    ∧ PlayerStats.max_mp p'
      = PlayerStats.max_mp p
        + (PlayerStats.level p' - PlayerStats.level p)
          * PlayerClassData.mp_per_level (PlayerStats.data p)
    ∧ PlayerStats.base_atk p'
      = PlayerStats.base_atk p
        + (PlayerStats.level p' - PlayerStats.level p)
          * PlayerClassData.atk_per_level (PlayerStats.data p)
    ∧ PlayerStats.base_def p'
      = PlayerStats.base_def p
        + (PlayerStats.level p' - PlayerStats.level p)
          * PlayerClassData.def_per_level (PlayerStats.data p)
    ∧ (if leveled
       then PlayerStats.hp p' = PlayerStats.max_hp p'
            ∧ PlayerStats.mp p' = PlayerStats.max_mp p'
       else PlayerStats.hp p' = PlayerStats.hp p
            ∧ PlayerStats.mp p' = PlayerStats.mp p).
Proof.
  intros Hlevel. unfold PlayerStats.gain_xp.
  set (q := PlayerStats.set_xp (PlayerStats.xp p + amount) p).
  destruct (gain_xp_loop_spec (Z.to_nat (PlayerStats.xp q)) q false)
    as (b & p' & Hrun & Hexit & Hlv & Hb & Htot & _ & _ & Hhp & Hmp & Hat
        & Hdf & Hfull).
  { exact Hlevel. }
  { lia. }
  exists b, p'. simpl in Hlv, Hb, Hhp, Hmp, Hat, Hdf, Hfull.
  split; [exact Hrun|]. split; [exact Hexit|]. split; [exact Hlv|].
  split.
  { rewrite Hb. simpl. apply Z.ltb_lt. }
  split.
  { rewrite Htot. unfold total_xp, q. simpl. lia. }
  repeat split; try done.
  by rewrite Hb.
Qed.

Lemma X3_gain_xp_levels_witness :
  1 ≤ PlayerStats.level fighter
  ∧ ∃ leveled p', PlayerStats.gain_xp 260 fighter = Some (leveled, p')
      ∧ PlayerStats.xp p' < required_xp (PlayerStats.level p')
      ∧ (leveled = true ↔ PlayerStats.level fighter < PlayerStats.level p')
      ∧ total_xp p' = total_xp fighter + 260.
Proof.
  split; [simpl; lia|].
  destruct (X3_gain_xp_levels 260 fighter)
    as (b & p' & Hrun & Hexit & _ & Hb & Htot & _); [simpl; lia|].
  by exists b, p'.
Defined.

Lemma vitals_step_ok (call : vitals_call) (p : PlayerStats.t) :
  vitals_ok p → growing (PlayerStats.data p) → 0 ≤ vitals_amount call →
  ∃ p', vitals_step call p = Some p' ∧ vitals_ok p'
    ∧ PlayerStats.data p' = PlayerStats.data p.
Proof.
  intros (Hhp & Hmp & Hlv & Hxp) [Hgh Hgm] Ha.
  destruct call as [a|a|a|a|a]; simpl in Ha |- *.
  - eexists. split; [reflexivity|]. split; [|done].
    unfold vitals_ok, PlayerStats.take_damage. simpl. lia.
  - eexists. split; [reflexivity|]. split; [|done].
    unfold vitals_ok, PlayerStats.heal. simpl. lia.
  - eexists. split; [reflexivity|]. split; [|done].
    unfold vitals_ok, PlayerStats.restore_mana. simpl. lia.
  - eexists. split; [reflexivity|]. unfold PlayerStats.spend_mp.
    destruct (a <=? PlayerStats.mp p) eqn:E; simpl; [|done].
    apply Z.leb_le in E. split; [|done]. unfold vitals_ok. simpl. lia.
  - unfold PlayerStats.gain_xp.
    set (q := PlayerStats.set_xp (PlayerStats.xp p + a) p).
    destruct (gain_xp_loop_spec (Z.to_nat (PlayerStats.xp q)) q false)
      as (b & p' & Hrun & Hexit & Hlv' & Hb & Htot & Hdata & _ & Hmhp & Hmmp
          & _ & _ & Hfull).
    { exact Hlv. }
    { lia. }
    rewrite Hrun. simpl. exists p'. split; [done|]. split; [|done].
    simpl in Hlv', Hmhp, Hmmp, Hfull.
    assert (0 ≤ (PlayerStats.level p' - PlayerStats.level p)
                * PlayerClassData.hp_per_level (PlayerStats.data p)) by nia.
    assert (0 ≤ (PlayerStats.level p' - PlayerStats.level p)
                * PlayerClassData.mp_per_level (PlayerStats.data p)) by nia.
    unfold vitals_ok.
    destruct (PlayerStats.level p <? PlayerStats.level p');
      destruct Hfull as [-> ->]; lia.
Qed.

(** X4. Under any sequence of [take_damage], [heal], [restore_mana],
    [spend_mp] and [gain_xp] with amounts that are not negative, for a class
    whose increments per level are not negative: hit points stay between 0
    and the maximum, mana stays between 0 and its maximum, the level stays
    at least 1 and the experience stays below the threshold of the level. *)
Theorem X4_vitals_stay_in_range (calls : list vitals_call) (p : PlayerStats.t) :
  vitals_ok p →
  growing (PlayerStats.data p) →
  Forall (λ call, 0 ≤ vitals_amount call) calls →
  ∃ p', vitals_run calls p = Some p' ∧ vitals_ok p'.
Proof.
  revert p. induction calls as [|call calls IH]; intros p Hok Hg Hall.
  - by exists p.
  - inversion Hall as [|? ? Ha Hrest]; subst.
    destruct (vitals_step_ok call p Hok Hg Ha) as (p1 & Hstep & Hok1 & Hdata).
    destruct (IH p1 Hok1) as (p' & Hrun & Hok'); [by rewrite Hdata|done|].
    exists p'. simpl. rewrite Hstep. simpl. done.
Qed.

Lemma X4_vitals_stay_in_range_witness :
  ∃ p', vitals_run [TakeDamage 500; Heal 30; SpendMp 5; GainXp 100;
                    RestoreMana 1000; TakeDamage 7] sorcerer = Some p'
    ∧ vitals_ok p'.
Proof.
  apply X4_vitals_stay_in_range.
  - unfold vitals_ok. simpl. unfold required_xp. lia.
  - unfold growing. simpl. lia.
  - repeat constructor; simpl; lia.
Defined.

(** * The shop: buttons, sounds and balances *)

(** The three ways [_attempt_purchase] ends on an item the inventory can
    take. *)
Lemma attempt_purchase_shape (item : Shop.Item) (s : Shop.Scene) :
  grantable (Player.inventory (Shop.player (Shop.app s))) item →
  ∃ o s' vol, Shop._attempt_purchase item s = (Ok o, s')
    ∧ success o = ShopView.button_enabled item s
    ∧ Shop.sounds (Shop.app s')
      = (Shop.sounds (Shop.app s)
         ++ [(if success o then "gold" else "error", vol)])%list
    ∧ Shop.items s' = Shop.items s
    ∧ Shop.feedback s' = Shop.feedback s
    ∧ (if success o
       then gold_of s' = gold_of s - Shop.i_price item
            ∧ Player.inventory (Shop.player (Shop.app s'))
              = (Shop.grant item
                   (Player.inventory (Shop.player (Shop.app s)))).2
       else Shop.player (Shop.app s') = Shop.player (Shop.app s)
            ∧ Shop.merchant_stock (Shop.app s')
              = Shop.merchant_stock (Shop.app s)).
Proof.
  intros Hg.
  destruct (grant_spec item _ Hg) as (inv' & Hgrant & _).
  unfold Shop._attempt_purchase, mbind, stx_bind, stx_get,
    ShopView.button_enabled, ShopView.out_of_stock.
  destruct (Shop.finite_stock_key item) as [k|] eqn:Hk.
  - rewrite (remaining_of_finite _ _ _ Hk). simpl. unfold ledger.
    destruct (default 0 (Shop.merchant_stock (Shop.app s) !! k) <=? 0)
      eqn:Hstock.
    { do 3 eexists. split; [reflexivity|]. simpl. by repeat split. }
    unfold Shop.on_player, stx_zoom, Player.spend_gold.
    destruct (Shop.i_price item <=? Player.gold (Shop.player (Shop.app s)))
      eqn:Hgold; simpl.
    + unfold Shop.on_inventory, Shop.on_player, stx_zoom. simpl.
      rewrite Hgrant. simpl.
      do 3 eexists. split; [reflexivity|]. simpl. by repeat split.
    + do 3 eexists. split; [reflexivity|]. simpl. by repeat split.
  - rewrite (remaining_of_infinite _ _ Hk). simpl.
    unfold Shop.on_player, stx_zoom, Player.spend_gold.
    destruct (Shop.i_price item <=? Player.gold (Shop.player (Shop.app s)))
      eqn:Hgold; simpl.
    + unfold Shop.on_inventory, Shop.on_player, stx_zoom. simpl.
      rewrite Hgrant. simpl.
      do 3 eexists. split; [reflexivity|]. simpl. by repeat split.
    + do 3 eexists. split; [reflexivity|]. simpl. by repeat split.
Qed.

(** X5. The "Buy" button of a row is enabled exactly when the purchase of
    its item would succeed: for an item the inventory can take,
    [_attempt_purchase] returns an outcome whose [success] is the [enabled]
    flag that [_render_ui] computes for the row. *)
Theorem X5_button_enabled_iff_purchase_succeeds (item : Shop.Item)
    (s : Shop.Scene) :
  grantable (Player.inventory (Shop.player (Shop.app s))) item →
  ∃ o s', Shop._attempt_purchase item s = (Ok o, s')
    ∧ success o = ShopView.button_enabled item s.
Proof.
  intros Hg.
  destruct (attempt_purchase_shape item s Hg) as (o & s' & vol & Hrun & Hs & _).
  by exists o, s'.
Qed.

Lemma X5_button_enabled_iff_purchase_succeeds_witness :
  let s := fresh_scene "Hero" 25 {["Heal Potion" := 3]} in
  let item := {| Shop.i_name := "Steel Sword"; Shop.i_type := "weapon";
                 Shop.i_price := 120; Shop.i_sprite := "steel_sword";
                 Shop.i_stock_key := None; Shop.i_bonus := "+12 ATK" |} in
  ShopView.button_enabled item s = false
  ∧ ∃ o s', Shop._attempt_purchase item s = (Ok o, s')
      ∧ success o = ShopView.button_enabled item s.
Proof.
  intros s item. split; [vm_compute; reflexivity|].
  apply X5_button_enabled_iff_purchase_succeeds.
  exists 0. split; [vm_compute; reflexivity|lia].
Defined.

Lemma stocked_grantable (s : Shop.Scene) (idx : nat) (item : Shop.Item) :
  stocked s → Shop.items s !! idx = Some item →
  grantable (Player.inventory (Shop.player (Shop.app s))) item.
Proof.
  intros Hst Hi. unfold stocked in Hst. rewrite Forall_forall in Hst.
  apply Hst. by eapply list_elem_of_lookup_2.
Qed.

(** X6. Every spoken purchase attempt on a catalog the inventory can take
    plays exactly one sound: "gold" when the purchase succeeded and "error"
    when it did not. *)
Theorem X6_one_sound_per_attempt (raw : option string) (s : Shop.Scene) :
  stocked s →
  ∃ o s' vol, Shop.attempt_voice_purchase raw s = (Ok o, s')
    ∧ Shop.sounds (Shop.app s')
      = (Shop.sounds (Shop.app s)
         ++ [(if success o then "gold" else "error", vol)])%list.
Proof.
  intros Hst. unfold Shop.attempt_voice_purchase.
  destruct raw as [raw|]; simpl.
  2:{ do 3 eexists. split; reflexivity. }
  destruct (negb (PyStr.truthy raw) || negb (PyStr.truthy (PyStr.strip raw))).
  { do 3 eexists. split; reflexivity. }
  unfold mbind, stx_bind, stx_get.
  destruct (Shop._resolve_item_name raw s) as [[idx item]|] eqn:Hres.
  2:{ do 3 eexists. split; reflexivity. }
  apply resolve_sound in Hres.
  destruct (attempt_purchase_shape item s (stocked_grantable _ _ _ Hst Hres))
    as (o & s1 & vol & Hrun & _ & Hsound & _).
  rewrite Hrun. simpl. exists o, (Shop.set_feedback (message o) s1), vol.
  split; [reflexivity|]. exact Hsound.
Qed.

Lemma X6_one_sound_per_attempt_witness :
  let s := fresh_scene "Hero" 25 {["Heal Potion" := 3]} in
  stocked s
  ∧ ∃ o s' vol, Shop.attempt_voice_purchase (Some "a dragon") s = (Ok o, s')
      ∧ Shop.sounds (Shop.app s')
        = (Shop.sounds (Shop.app s)
           ++ [(if success o then "gold" else "error", vol)])%list.
Proof.
  intros s. split; [apply fresh_scene_stocked|].
  apply X6_one_sound_per_attempt. apply fresh_scene_stocked.
Defined.

(** ** Gold and stock *)

Lemma attempt_purchase_gold (item : Shop.Item) (s : Shop.Scene) :
  0 ≤ gold_of s → 0 ≤ gold_of (Shop._attempt_purchase item s).2.
Proof.
  intros Hg. unfold Shop._attempt_purchase, mbind, stx_bind, stx_get.
  destruct (bool_decide _ && _); simpl; [done|].
  unfold Shop.on_player, stx_zoom, Player.spend_gold.
  destruct (Shop.i_price item <=? Player.gold (Shop.player (Shop.app s)))
    eqn:E; simpl; [|done].
  apply Z.leb_le in E.
  unfold Shop.on_inventory, Shop.on_player, stx_zoom. simpl.
  destruct (Shop.grant item _) as [[[]|e] inv']; simpl;
    destruct (Shop.finite_stock_key item); simpl; unfold gold_of; simpl; lia.
Qed.

Lemma voice_purchase_gold (raw : option string) (s : Shop.Scene) :
  0 ≤ gold_of s → 0 ≤ gold_of (Shop.attempt_voice_purchase raw s).2.
Proof.
  intros Hg. unfold Shop.attempt_voice_purchase.
  destruct raw as [raw|]; simpl; [|done].
  destruct (negb (PyStr.truthy raw) || negb (PyStr.truthy (PyStr.strip raw)));
    [done|].
  unfold mbind, stx_bind, stx_get.
  destruct (Shop._resolve_item_name raw s) as [[idx item]|]; [|done].
  pose proof (attempt_purchase_gold item s Hg) as H.
  destruct (Shop._attempt_purchase item s) as [[o|e] s1]; simpl in *; exact H.
Qed.

Lemma button_purchase_gold (index : nat) (s : Shop.Scene) :
  0 ≤ gold_of s → 0 ≤ gold_of (Shop._purchase index s).2.
Proof.
  intros Hg. unfold Shop._purchase, mbind, stx_bind, stx_get.
  destruct (Shop.items s !! index) as [item|]; [|done].
  pose proof (attempt_purchase_gold item s Hg) as H.
  destruct (Shop._attempt_purchase item s) as [[o|e] s1]; simpl in *; exact H.
Qed.

(** X7. The player cannot go into debt: whatever is said or clicked in the
    shop, on any catalog and with any prices, a purse that is not negative
    stays so, also when an attempt raises. *)
Theorem X7_gold_never_negative (acts : list shop_action) (s : Shop.Scene) :
  0 ≤ gold_of s → 0 ≤ gold_of (shop_run acts s).
Proof.
  unfold shop_run. revert s.
  induction acts as [|a acts IH]; intros s Hg; [done|].
  simpl. apply IH. destruct a as [raw|index]; simpl.
  - by apply voice_purchase_gold.
  - by apply button_purchase_gold.
Qed.

Lemma X7_gold_never_negative_witness :
  let s := fresh_scene "Hero" 130 {["Heal Potion" := 3]} in
  let acts := [Click 1%nat; Say (Some "heal potion"); Click 0%nat; Click 9%nat] in
  gold_of (shop_run acts s) = 10 ∧ 0 ≤ gold_of (shop_run acts s).
Proof.
  intros s acts. split; [vm_compute; reflexivity|].
  apply X7_gold_never_negative. vm_compute. discriminate.
Defined.

Lemma attempt_purchase_ledger (item : Shop.Item) (s : Shop.Scene) (k : string) :
  ledger (Shop._attempt_purchase item s).2 k ≤ ledger s k
  ∧ Z.min 0 (ledger s k) ≤ ledger (Shop._attempt_purchase item s).2 k.
Proof.
  unfold Shop._attempt_purchase, mbind, stx_bind, stx_get.
  destruct (Shop.finite_stock_key item) as [k0|] eqn:Hk.
  - rewrite (remaining_of_finite _ _ _ Hk). simpl.
    destruct (ledger s k0 <=? 0) eqn:Hstock; simpl; [unfold ledger; simpl; lia|].
    apply Z.leb_gt in Hstock.
    unfold Shop.on_player, stx_zoom, Player.spend_gold.
    destruct (Shop.i_price item <=? Player.gold (Shop.player (Shop.app s)));
      simpl; [|unfold ledger; simpl; lia].
    unfold Shop.on_inventory, Shop.on_player, stx_zoom. simpl.
    destruct (Shop.grant item _) as [[[]|e] inv']; simpl;
      [|unfold ledger; simpl; lia].
    unfold ledger in *. simpl.
    destruct (decide (k0 = k)) as [->|Hne].
    + rewrite lookup_insert_eq. simpl. lia.
    + rewrite lookup_insert_ne by done. lia.
  - rewrite (remaining_of_infinite _ _ Hk). simpl.
    unfold Shop.on_player, stx_zoom, Player.spend_gold.
    destruct (Shop.i_price item <=? Player.gold (Shop.player (Shop.app s)));
      simpl; [|unfold ledger; simpl; lia].
    unfold Shop.on_inventory, Shop.on_player, stx_zoom. simpl.
    destruct (Shop.grant item _) as [[[]|e] inv']; simpl; unfold ledger; simpl; lia.
Qed.

Lemma shop_step_ledger (a : shop_action) (s : Shop.Scene) (k : string) :
  ledger (shop_step s a) k ≤ ledger s k
  ∧ Z.min 0 (ledger s k) ≤ ledger (shop_step s a) k.
Proof.
  destruct a as [raw|index]; simpl.
  - unfold Shop.attempt_voice_purchase.
    destruct raw as [raw|]; simpl; [|unfold ledger; simpl; lia].
    destruct (negb (PyStr.truthy raw) || negb (PyStr.truthy (PyStr.strip raw)));
      [simpl; unfold ledger; simpl; lia|].
    unfold mbind, stx_bind, stx_get.
    destruct (Shop._resolve_item_name raw s) as [[idx item]|];
      [|simpl; unfold ledger; simpl; lia].
    pose proof (attempt_purchase_ledger item s k) as H.
    destruct (Shop._attempt_purchase item s) as [[o|e] s1]; simpl in *; exact H.
  - unfold Shop._purchase, mbind, stx_bind, stx_get.
    destruct (Shop.items s !! index) as [item|]; [|simpl; lia].
    pose proof (attempt_purchase_ledger item s k) as H.
    destruct (Shop._attempt_purchase item s) as [[o|e] s1]; simpl in *; exact H.
Qed.

(** X8. The stock of the merchant is never refilled and never driven below
    zero: whatever is said or clicked, the ledger value of every key is at
    most what it was, and at least zero (or at least what it was, had it
    been negative). *)
Theorem X8_stock_only_shrinks (acts : list shop_action) (s : Shop.Scene)
    (k : string) :
  ledger (shop_run acts s) k ≤ ledger s k
  ∧ Z.min 0 (ledger s k) ≤ ledger (shop_run acts s) k.
Proof.
  unfold shop_run. revert s.
  induction acts as [|a acts IH]; intros s; simpl; [lia|].
  pose proof (shop_step_ledger a s k). pose proof (IH (shop_step s a)). lia.
Qed.

(** ** The button path and the spoken path *)

Lemma name_lookup_fold_skip (l : list (nat * Shop.Item))
    (d : list (string * (nat * Shop.Item))) (k : string) :
  k ∉ (λ p : nat * Shop.Item, PyStr.lower (Shop.i_name p.2)) <$> l →
  Shop.dict_get k
    (foldl (λ d '(idx, item),
              Shop.dict_set (PyStr.lower (Shop.i_name item)) (idx, item) d)
           d l)
  = Shop.dict_get k d.
Proof.
  revert d. induction l as [|[idx item] l IH]; intros d Hk; simpl; [done|].
  rewrite fmap_cons in Hk. apply not_elem_of_cons in Hk as [Hne Hk].
  rewrite IH by done. rewrite dict_get_set.
  destruct (String.eqb k (PyStr.lower (Shop.i_name item))) eqn:E; [|done].
  apply String.eqb_eq in E. done.
Qed.

Lemma name_lookup_fold_complete (l : list (nat * Shop.Item))
    (d : list (string * (nat * Shop.Item))) (p : nat * Shop.Item) :
  NoDup ((λ p : nat * Shop.Item, PyStr.lower (Shop.i_name p.2)) <$> l) →
  p ∈ l →
  Shop.dict_get (PyStr.lower (Shop.i_name p.2))
    (foldl (λ d '(idx, item),
              Shop.dict_set (PyStr.lower (Shop.i_name item)) (idx, item) d)
           d l)
  = Some p.
Proof.
  revert d. induction l as [|[idx item] l IH]; intros d Hnd Hp.
  { by apply elem_of_nil in Hp. }
  rewrite fmap_cons in Hnd. apply NoDup_cons in Hnd as [Hfresh Hnd].
  apply elem_of_cons in Hp as [->|Hp]; simpl.
  - rewrite name_lookup_fold_skip by done.
    rewrite dict_get_set, String.eqb_refl. done.
  - by apply IH.
Qed.

Lemma enumerate_names_from (h : nat → nat) (its : list Shop.Item) :
  (λ p : nat * Shop.Item, PyStr.lower (Shop.i_name p.2))
    <$> imap (λ i x, (h i, x)) its
  = (λ item, PyStr.lower (Shop.i_name item)) <$> its.
Proof.
  revert h. induction its as [|x its IH]; intros h; simpl; [done|].
  f_equal. apply (IH (h ∘ S)).
Qed.

Lemma enumerate_names (its : list Shop.Item) :
  (λ p : nat * Shop.Item, PyStr.lower (Shop.i_name p.2)) <$> Shop.enumerate its
  = (λ item, PyStr.lower (Shop.i_name item)) <$> its.
Proof. apply (enumerate_names_from id). Qed.

(** With names that differ after lower-casing, the table of the resolver
    holds every entry of the catalog under its lower-cased name. *)
Lemma name_lookup_complete (its : list Shop.Item) (idx : nat) (item : Shop.Item) :
  NoDup ((λ item, PyStr.lower (Shop.i_name item)) <$> its) →
  its !! idx = Some item →
  Shop.dict_get (PyStr.lower (Shop.i_name item)) (Shop.name_lookup its)
  = Some (idx, item).
Proof.
  intros Hnd Hi. unfold Shop.name_lookup.
  apply (name_lookup_fold_complete (Shop.enumerate its) [] (idx, item)).
  - by rewrite enumerate_names.
  - unfold Shop.enumerate. apply elem_of_lookup_imap. by exists idx, item.
Qed.

(** X9. Saying the name of a catalog entry, in any letter case and with
    white space around it, runs what the "Buy" button of that entry runs:
    the spoken attempt returns the outcome of [_attempt_purchase] on the
    entry and leaves the scene that the callback [_purchase] of the row
    leaves (gold, inventory, stock, sounds and feedback line).  A click
    reaches that callback only through the button: when [_render_ui] has
    enabled the button on this scene, the click leaves the scene that the
    spoken attempt leaves; when it has disabled it, the click does nothing,
    while the spoken attempt is still made.  The names of the catalog must
    differ after lower-casing. *)
Theorem X9_said_name_equals_enabled_button (s : Shop.Scene) (idx : nat)
    (item : Shop.Item) (raw : string) :
  NoDup ((λ item, PyStr.lower (Shop.i_name item)) <$> Shop.items s) →
  Shop.items s !! idx = Some item →
  PyStr.truthy (Shop.i_name item) = true →
  PyStr.strip (PyStr.lower raw) = PyStr.lower (Shop.i_name item) →
  (Shop.attempt_voice_purchase (Some raw) s).1
  = (Shop._attempt_purchase item s).1
  ∧ (Shop.attempt_voice_purchase (Some raw) s).2 = (Shop._purchase idx s).2
  ∧ (ShopView.button_enabled item s = true →
     (ShopView.click (ShopView.render_buttons s) idx s).2
     = (Shop.attempt_voice_purchase (Some raw) s).2)
  ∧ (ShopView.button_enabled item s = false →
     ShopView.click (ShopView.render_buttons s) idx s = (Ok tt, s)).
Proof.
  intros Hnd Hi Hname Hraw.
  assert (Hts : PyStr.truthy (PyStr.strip raw) = true).
  { rewrite <- lower_truthy, <- strip_lower, Hraw, lower_truthy. done. }
  assert (Ht : PyStr.truthy raw = true) by (by apply strip_truthy_raw).
  assert (Hres : Shop._resolve_item_name raw s = Some (idx, item)).
  { unfold Shop._resolve_item_name. rewrite Hraw, lower_truthy, Hname. simpl.
    by rewrite (name_lookup_complete _ idx item). }
  assert (Hsay : (Shop.attempt_voice_purchase (Some raw) s).1
                 = (Shop._attempt_purchase item s).1
                 ∧ (Shop.attempt_voice_purchase (Some raw) s).2
                   = (Shop._purchase idx s).2).
  { unfold Shop.attempt_voice_purchase, Shop._purchase.
    rewrite Ht, Hts. simpl. unfold mbind, stx_bind, stx_get.
    rewrite Hres, Hi.
    destruct (Shop._attempt_purchase item s) as [[o|e] s1]; done. }
  destruct Hsay as [Hout Hscene]. split; [done|]. split; [done|].
  assert (Hbutton : ShopView.render_buttons s !! idx
                    = Some {| Button.enabled := ShopView.button_enabled item s;
                              Button.is_focused := false |}).
  { unfold ShopView.render_buttons. by rewrite list_lookup_fmap, Hi. }
  unfold ShopView.click. rewrite Hbutton. unfold Button.handle_events.
  cbn [Button.enabled]. split; intros ->.
  - cbn [Button.handle_loop Z.eqb Pos.eqb andb]. unfold mbind, stx_bind.
    rewrite Hscene.
    by destruct (Shop._purchase idx s) as [[[]|e] s1].
  - done.
Qed.

Lemma X9_said_name_equals_enabled_button_witness :
  let s := fresh_scene "Hero" 25 {["Heal Potion" := 3]} in
  let item := {| Shop.i_name := "Heal Potion"; Shop.i_type := "potion";
                 Shop.i_price := 20; Shop.i_sprite := "heal_potion";
                 Shop.i_stock_key := Some "Heal Potion";
                 Shop.i_bonus := "Restores 40 HP" |} in
  ShopView.button_enabled item s = true
  ∧ (Shop.attempt_voice_purchase (Some "  HEAL potion ") s).1
    = (Shop._attempt_purchase item s).1
  ∧ (ShopView.click (ShopView.render_buttons s) 4 s).2
    = (Shop.attempt_voice_purchase (Some "  HEAL potion ") s).2.
Proof.
  intros s item.
  destruct (X9_said_name_equals_enabled_button s 4 item "  HEAL potion ")
    as (Hout & _ & Hon & _).
  - apply (bool_decide_unpack _). vm_compute. exact I.
  - vm_compute. reflexivity.
  - reflexivity.
  - vm_compute. reflexivity.
  - split; [vm_compute; reflexivity|]. split; [exact Hout|].
    apply Hon. vm_compute. reflexivity.
Defined.

(** ** Conservation of wealth *)

Lemma grant_other (item : Shop.Item) (inv : InventoryManager.t) (k : string) :
  k ≠ Shop.i_name item →
  InventoryManager.weapons (Shop.grant item inv).2 !! k
  = InventoryManager.weapons inv !! k
  ∧ InventoryManager.shields (Shop.grant item inv).2 !! k
    = InventoryManager.shields inv !! k
  ∧ InventoryManager.potions (Shop.grant item inv).2 !! k
    = InventoryManager.potions inv !! k.
Proof.
  intros Hne. unfold Shop.grant.
  destruct (String.eqb (Shop.i_type item) "weapon").
  - unfold mbind, stx_bind, InventoryManager.add_weapon.
    destruct (InventoryManager.weapons inv !! Shop.i_name item); simpl; [|done].
    destruct (InventoryManager.equipped_weapon inv); simpl.
    + rewrite lookup_insert_ne by done. done.
    + unfold InventoryManager.equip_weapon. simpl.
      destruct (default 0 _ <=? 0); simpl; rewrite lookup_insert_ne by done; done.
  - destruct (String.eqb (Shop.i_type item) "shield").
    + unfold mbind, stx_bind, InventoryManager.add_shield.
      destruct (InventoryManager.shields inv !! Shop.i_name item); simpl; [|done].
      destruct (InventoryManager.equipped_shield inv); simpl.
      * rewrite lookup_insert_ne by done. done.
      * unfold InventoryManager.equip_shield. simpl.
        destruct (default 0 _ <=? 0); simpl; rewrite lookup_insert_ne by done; done.
    + unfold InventoryManager.add_potion.
      destruct (InventoryManager.potions inv !! Shop.i_name item); simpl; [|done].
      rewrite lookup_insert_ne by done. done.
Qed.

Lemma holdings_inventory (item : Shop.Item) (s s' : Shop.Scene) :
  Player.inventory (Shop.player (Shop.app s'))
  = Player.inventory (Shop.player (Shop.app s)) →
  holdings item s' = holdings item s.
Proof. intros H. unfold holdings. by rewrite H. Qed.

Lemma goods_value_inventory (its : list Shop.Item) (s s' : Shop.Scene) :
  Player.inventory (Shop.player (Shop.app s'))
  = Player.inventory (Shop.player (Shop.app s)) →
  goods_value its s' = goods_value its s.
Proof.
  intros H. induction its as [|item its IH]; simpl; [done|].
  by rewrite IH, (holdings_inventory item s s').
Qed.

Lemma goods_value_app (l1 l2 : list Shop.Item) (s : Shop.Scene) :
  goods_value (l1 ++ l2) s = goods_value l1 s + goods_value l2 s.
Proof. induction l1 as [|x l1 IH]; simpl; [done|]. rewrite IH. lia. Qed.

Lemma goods_value_frame (its : list Shop.Item) (s s' : Shop.Scene) (name : string) :
  (∀ item, Shop.i_name item ≠ name → holdings item s' = holdings item s) →
  name ∉ Shop.i_name <$> its →
  goods_value its s' = goods_value its s.
Proof.
  intros Hframe. induction its as [|item its IH]; intros Hnot; simpl; [done|].
  rewrite fmap_cons in Hnot. apply not_elem_of_cons in Hnot as [Hne Hnot].
  rewrite IH by done. rewrite Hframe by done. done.
Qed.

(** A successful purchase raises the value of the goods by the price. *)
Lemma goods_value_bought (its : list Shop.Item) (s s' : Shop.Scene)
    (item : Shop.Item) :
  NoDup (Shop.i_name <$> its) →
  item ∈ its →
  (∀ x, Shop.i_name x ≠ Shop.i_name item → holdings x s' = holdings x s) →
  holdings item s' = holdings item s + 1 →
  goods_value its s' = goods_value its s + Shop.i_price item.
Proof.
  intros Hnd Hin Hframe Hitem.
  apply list_elem_of_split in Hin as (l1 & l2 & ->).
  rewrite fmap_app, fmap_cons in Hnd.
  apply NoDup_app in Hnd as (_ & Hsep & Hnd2).
  apply NoDup_cons in Hnd2 as [Hnot2 _].
  assert (Hnot1 : Shop.i_name item ∉ Shop.i_name <$> l1).
  { intros H. apply (Hsep _ H). by left. }
  rewrite !goods_value_app. simpl.
  rewrite (goods_value_frame l1 s s' (Shop.i_name item)) by done.
  rewrite (goods_value_frame l2 s s' (Shop.i_name item)) by done.
  rewrite Hitem. lia.
Qed.

Lemma holdings_granted_other (item x : Shop.Item) (s s' : Shop.Scene) :
  Player.inventory (Shop.player (Shop.app s'))
  = (Shop.grant item (Player.inventory (Shop.player (Shop.app s)))).2 →
  Shop.i_name x ≠ Shop.i_name item →
  holdings x s' = holdings x s.
Proof.
  intros Hinv Hne. unfold holdings, bucket. rewrite Hinv.
  destruct (grant_other item (Player.inventory (Shop.player (Shop.app s)))
              (Shop.i_name x) Hne) as (Hw & Hs & Hp).
  destruct (String.eqb (Shop.i_type x) "weapon"); [by rewrite Hw|].
  destruct (String.eqb (Shop.i_type x) "shield"); [by rewrite Hs|].
  by rewrite Hp.
Qed.

Lemma attempt_purchase_wealth (item : Shop.Item) (s : Shop.Scene) :
  stocked s →
  NoDup (Shop.i_name <$> Shop.items s) →
  item ∈ Shop.items s →
  wealth (Shop._attempt_purchase item s).2 = wealth s
  ∧ Shop.items (Shop._attempt_purchase item s).2 = Shop.items s.
Proof.
  intros Hst Hnd Hin.
  assert (Hg : grantable (Player.inventory (Shop.player (Shop.app s))) item).
  { unfold stocked in Hst. rewrite Forall_forall in Hst. by apply Hst. }
  destruct (attempt_purchase_shape item s Hg)
    as (o & s' & vol & Hrun & _ & _ & Hitems & _ & Hcase).
  rewrite Hrun. simpl. split; [|done]. unfold wealth. rewrite Hitems.
  destruct (success o).
  - destruct Hcase as [Hgold Hinv].
    destruct (grant_spec item _ Hg) as (inv' & Hgrant & Hcount).
    rewrite (goods_value_bought (Shop.items s) s s' item); try done.
    + lia.
    + intros x Hx. by apply (holdings_granted_other item).
    + unfold holdings. rewrite Hinv, Hgrant. simpl. by rewrite Hcount.
  - destruct Hcase as [Hplayer _].
    rewrite (goods_value_inventory _ s s') by (by rewrite Hplayer).
    unfold gold_of. by rewrite Hplayer.
Qed.

Lemma wealth_same (s s' : Shop.Scene) :
  Shop.player (Shop.app s') = Shop.player (Shop.app s) →
  Shop.items s' = Shop.items s →
  wealth s' = wealth s.
Proof.
  intros Hp Hi. unfold wealth, gold_of. rewrite Hi, Hp. f_equal.
  apply goods_value_inventory. by rewrite Hp.
Qed.

Lemma wealth_feedback (f : string) (s : Shop.Scene) :
  wealth (Shop.set_feedback f s) = wealth s.
Proof. by apply wealth_same. Qed.

Lemma shop_step_wealth (a : shop_action) (s : Shop.Scene) :
  stocked s →
  NoDup (Shop.i_name <$> Shop.items s) →
  wealth (shop_step s a) = wealth s
  ∧ Shop.items (shop_step s a) = Shop.items s
  ∧ stocked (shop_step s a).
Proof.
  intros Hst Hnd. destruct a as [raw|index]; simpl.
  - split; [|split; [|by apply attempt_voice_purchase_stocked]].
    + unfold Shop.attempt_voice_purchase.
      destruct raw as [raw|]; simpl; [|by apply wealth_same].
      destruct (negb (PyStr.truthy raw) || negb (PyStr.truthy (PyStr.strip raw)));
        [by apply wealth_same|].
      unfold mbind, stx_bind, stx_get.
      destruct (Shop._resolve_item_name raw s) as [[idx item]|] eqn:Hres;
        [|by apply wealth_same].
      apply resolve_sound in Hres.
      destruct (attempt_purchase_wealth item s Hst Hnd) as [Hw _].
      { by eapply list_elem_of_lookup_2. }
      destruct (attempt_purchase_spec item s (stocked_grantable _ _ _ Hst Hres))
        as (o & s1 & Hrun & _).
      rewrite Hrun in Hw |- *. simpl in *. by rewrite wealth_feedback.
    + unfold Shop.attempt_voice_purchase.
      destruct raw as [raw|]; simpl; [|done].
      destruct (negb (PyStr.truthy raw) || negb (PyStr.truthy (PyStr.strip raw)));
        [done|].
      unfold mbind, stx_bind, stx_get.
      destruct (Shop._resolve_item_name raw s) as [[idx item]|] eqn:Hres;
        [|done].
      apply resolve_sound in Hres.
      destruct (attempt_purchase_spec item s (stocked_grantable _ _ _ Hst Hres))
        as (o & s1 & Hrun & _ & Hitems & _).
      rewrite Hrun. simpl. exact Hitems.
  - unfold Shop._purchase, mbind, stx_bind, stx_get.
    destruct (Shop.items s !! index) as [item|] eqn:Hi; [|done].
    pose proof (stocked_grantable _ _ _ Hst Hi) as Hg.
    destruct (attempt_purchase_wealth item s Hst Hnd) as [Hw Hitems].
    { by eapply list_elem_of_lookup_2. }
    pose proof (attempt_purchase_stocked item s Hst Hg) as Hst'.
    destruct (attempt_purchase_spec item s Hg) as (o & s1 & Hrun & _).
    rewrite Hrun in Hw, Hitems, Hst' |- *. simpl in *.
    rewrite wealth_feedback. done.
Qed.

(** X10. Purchases convert gold into goods at their price and nothing else:
    on a catalog with distinct names that the inventory can take, whatever
    is said or clicked, the gold of the player plus the price of every
    catalog item held stays what it was. *)
Theorem X10_wealth_is_conserved (acts : list shop_action) (s : Shop.Scene) :
  stocked s →
  NoDup (Shop.i_name <$> Shop.items s) →
  wealth (shop_run acts s) = wealth s.
Proof.
  unfold shop_run. revert s.
  induction acts as [|a acts IH]; intros s Hst Hnd; [done|].
  simpl. destruct (shop_step_wealth a s Hst Hnd) as (Hw & Hitems & Hst').
  rewrite IH; [done|done|by rewrite Hitems].
Qed.

Lemma X10_wealth_is_conserved_witness :
  let s := fresh_scene "Hero" 130 {["Heal Potion" := 3]} in
  let acts := [Click 1%nat; Say (Some "heal potion"); Click 0%nat;
               Say (Some "mana"); Click 9%nat] in
  gold_of (shop_run acts s) = 10
  ∧ wealth (shop_run acts s) = wealth s.
Proof.
  intros s acts. split; [vm_compute; reflexivity|].
  apply X10_wealth_is_conserved.
  - apply fresh_scene_stocked.
  - apply (bool_decide_unpack _). vm_compute. exact I.
Defined.

(** * The voice channel *)

(** ** Strings *)

Lemma lstrip_headed (s : string) : headed (PyStr.lstrip s).
Proof.
  induction s as [|c s IH]; simpl; [done|].
  destruct (PyStr.isspace c) eqn:E; [exact IH|exact E].
Qed.

Lemma lstrip_id (s : string) : headed s → PyStr.lstrip s = s.
Proof. destruct s as [|c s]; simpl; [done|]. by intros ->. Qed.

Lemma rstrip_headed (s : string) : headed s → headed (PyStr.rstrip s).
Proof.
  destruct s as [|c s]; simpl; [done|]. intros Hc.
  destruct (PyStr.rstrip s); simpl; [by rewrite Hc|done].
Qed.

Lemma rstrip_idemp (s : string) : PyStr.rstrip (PyStr.rstrip s) = PyStr.rstrip s.
Proof.
  induction s as [|c s IH]; simpl; [done|].
  destruct (PyStr.rstrip s) as [|d r] eqn:E.
  - destruct (PyStr.isspace c) eqn:Hc; simpl; [done|]. by rewrite Hc.
  - cbn [PyStr.rstrip] in IH |- *. by rewrite IH.
Qed.

Lemma strip_idemp (s : string) : PyStr.strip (PyStr.strip s) = PyStr.strip s.
Proof.
  unfold PyStr.strip.
  rewrite (lstrip_id (PyStr.rstrip (PyStr.lstrip s)))
    by apply rstrip_headed, lstrip_headed.
  apply rstrip_idemp.
Qed.

Lemma has_char_lstrip (c : ascii) (s : string) :
  PyStr.has_char c s = false → PyStr.has_char c (PyStr.lstrip s) = false.
Proof.
  induction s as [|d s IH]; simpl; [done|].
  destruct (Ascii.eqb c d) eqn:E; [done|]. intros H.
  destruct (PyStr.isspace d); [by apply IH|]. simpl. by rewrite E.
Qed.

Lemma has_char_rstrip (c : ascii) (s : string) :
  PyStr.has_char c s = false → PyStr.has_char c (PyStr.rstrip s) = false.
Proof.
  induction s as [|d s IH]; simpl; [done|].
  destruct (Ascii.eqb c d) eqn:E; [done|]. intros H. specialize (IH H).
  destruct (PyStr.rstrip s); simpl.
  - destruct (PyStr.isspace d); simpl; [done|]. by rewrite E.
  - simpl in IH. by rewrite E.
Qed.

Lemma has_char_strip (c : ascii) (s : string) :
  PyStr.has_char c s = false → PyStr.has_char c (PyStr.strip s) = false.
Proof. intros H. by apply has_char_rstrip, has_char_lstrip. Qed.

Lemma replace_newlines_clean (s : string) :
  PyStr.has_char LF (PyStr.replace_newlines s) = false.
Proof.
  induction s as [|c s IH]; simpl; [done|]. rewrite IH.
  destruct c as [[] [] [] [] [] [] [] []]; vm_compute; reflexivity.
Qed.

(** ** The log *)

Lemma deque_append_length {A} (maxlen : nat) (x : A) (d : list A) :
  (1 ≤ maxlen)%nat → (length d ≤ maxlen)%nat →
  (length (Channel.deque_append maxlen x d) ≤ maxlen)%nat.
Proof.
  intros H1 H2. unfold Channel.deque_append.
  destruct (maxlen <=? length d)%nat eqn:E.
  - apply Nat.leb_le in E. rewrite length_app, length_drop. simpl. lia.
  - apply Nat.leb_gt in E. rewrite length_app. simpl. lia.
Qed.

Lemma deque_append_Forall {A} (P : A → Prop) (maxlen : nat) (x : A) (d : list A) :
  P x → Forall P d → Forall P (Channel.deque_append maxlen x d).
Proof.
  intros Hx Hd. unfold Channel.deque_append.
  destruct (maxlen <=? length d)%nat;
    apply Forall_app; split; try (by apply Forall_drop); try done;
    by constructor.
Qed.

Lemma append_log_ok (speaker : string) (msg : option string) (c : Channel.t) :
  log_ok c → log_ok (Channel._append_log speaker msg c).
Proof.
  intros [Hlen Htidy]. unfold Channel._append_log.
  destruct msg as [m|]; [|done].
  destruct (PyStr.truthy (PyStr.strip (PyStr.replace_newlines m))) eqn:E;
    simpl; [|done].
  split; simpl.
  - apply deque_append_length; [unfold Channel.MAX_LOG_LINES; lia|done].
  - apply deque_append_Forall; [|done]. simpl. split; [done|]. split.
    + apply strip_idemp.
    + apply has_char_strip, replace_newlines_clean.
Qed.

Lemma log_ok_same (c c' : Channel.t) :
  Channel._log c' = Channel._log c → log_ok c → log_ok c'.
Proof. intros H. unfold log_ok. by rewrite H. Qed.

(** ** Moves that leave the face alone *)

Lemma same_face_refl (c : Channel.t) : same_face c c.
Proof. done. Qed.

Lemma same_face_trans (c1 c2 c3 : Channel.t) :
  same_face c1 c2 → same_face c2 c3 → same_face c1 c3.
Proof.
  intros (?&?&?&?&?&?&?&?) (?&?&?&?&?&?&?&?). repeat split; congruence.
Qed.

Lemma process_request_face (rq : Request) (c : Channel.t) :
  same_face c (Channel.process_request rq c).
Proof.
  unfold Channel.process_request.
  by destruct (Shop.attempt_voice_purchase (rq_item rq) (Channel._scene c)).
Qed.

Lemma drain_face (n : nat) (c : Channel.t) : same_face c (Channel.drain n c).
Proof.
  revert c. induction n as [|n IH]; intros c; simpl; [done|].
  destruct (Channel._purchase_requests c) as [|rq rest]; [done|].
  eapply same_face_trans; [|apply IH].
  eapply same_face_trans; [|apply process_request_face]. done.
Qed.

Lemma handle_face (env : Channel.Env) {X} (eff : effect X)
    (c c' : Channel.t) (x : X) :
  Channel.handle env eff c = Some (x, c') → same_face c c'.
Proof.
  destruct eff; simpl; try (intros [= <- <-]; done).
  destruct (Channel.events c !! event) as [[]|]; [|done..].
  by intros [= <- <-].
Qed.

Lemma worker_pickup_face (c c' : Channel.t) :
  Channel.worker_pickup c = Some c' → same_face c c'.
Proof.
  unfold Channel.worker_pickup.
  destruct (Channel.worker c); [done|].
  destruct (Channel.work_queue c) as [|f q]; [done|].
  destruct (Channel.futures c !! f) as [[]|]; intros [= <-]; done.
Qed.

Lemma worker_step_face (env : Channel.Env) (c c' : Channel.t) :
  Channel.worker_step env c = Some c' → same_face c c'.
Proof.
  unfold Channel.worker_step.
  destruct (Channel.worker c) as [[f [r|e|X eff k]]|]; try done;
    try (intros [= <-]; done).
  destruct (Channel.handle env eff c) as [[x c1]|] eqn:H; [|done].
  intros [= <-]. apply handle_face in H.
  eapply same_face_trans; [exact H|done].
Qed.

Lemma start_listening_log (c : Channel.t) :
  Channel._log (Channel._start_listening c).2 = Channel._log c.
Proof.
  unfold Channel._start_listening.
  destruct (Channel.outstanding c); [done|].
  destruct (String.eqb _ _); [done|].
  destruct (_ || _); [done|].
  unfold mbind, stx_bind, Channel.submit. simpl.
  by destruct (Channel.executor_shutdown c).
Qed.

Lemma reset_conversation_log_ok (c : Channel.t) :
  log_ok c → log_ok (Channel._reset_conversation c).2.
Proof. intros Hok. by rewrite reset_conversation_run. Qed.

Lemma handle_keys_log_ok (keys : list Channel.Key) (c : Channel.t) :
  log_ok c → log_ok (Channel.handle_keys keys c).2.
Proof.
  revert c. induction keys as [|k keys IH]; intros c Hok; simpl; [done|].
  destruct k; unfold mbind, stx_bind.
  - pose proof (start_listening_log c) as H.
    destruct (Channel._start_listening c) as [[[]|e] c1]; simpl in *.
    + apply IH. by eapply log_ok_same.
    + by eapply log_ok_same.
  - rewrite reset_conversation_run.
    destruct (Channel._assistant c); simpl; [done|by apply IH].
  - by apply IH.
Qed.

Lemma handle_task_result_log_ok (r : VoiceTaskResult) (sound_ok : bool)
    (c : Channel.t) :
  log_ok c → log_ok (Channel._handle_task_result r sound_ok c).
Proof.
  intros Hok. unfold Channel._handle_task_result.
  destruct (PyStr.truthy_opt (error r)).
  { apply append_log_ok. by eapply log_ok_same. }
  set (c1 := Channel.with_status _ _ _ c).
  assert (H1 : log_ok c1) by (by eapply log_ok_same).
  set (c2 := if PyStr.truthy_opt (transcript r) then _ else c1).
  assert (H2 : log_ok c2).
  { subst c2. destruct (PyStr.truthy_opt (transcript r)); [|done].
    by apply append_log_ok. }
  set (c3 := match assistant r with Some _ => _ | None => c2 end).
  assert (H3 : log_ok c3).
  { subst c3. destruct (assistant r) as [ar|]; [|done].
    destruct (PyStr.truthy (r_text ar)); [|done]. by apply append_log_ok. }
  destruct (audio_path r) as [path|]; [|done].
  unfold Channel._play_audio. destruct (negb sound_ok); [done|].
  by eapply log_ok_same.
Qed.

Lemma poll_future_log_ok (sound_ok : bool) (c : Channel.t) :
  log_ok c → log_ok (Channel._poll_future sound_ok c).
Proof.
  intros Hok. unfold Channel._poll_future.
  destruct (Channel._current_future c) as [f|]; [|done].
  destruct (Channel.futures c !! f) as [fu|]; [|done].
  destruct (negb (future_done fu)); [done|].
  destruct (future_result fu) as [r|e].
  - eapply log_ok_same; [|by apply (handle_task_result_log_ok r sound_ok)].
    done.
  - by eapply log_ok_same.
Qed.

Lemma close_log (c : Channel.t) :
  Channel._log (Channel.close c).2 = Channel._log c.
Proof.
  destruct (Channel._assistant c) as [a|] eqn:E.
  { by rewrite (close_raises c a E). }
  unfold Channel.close. rewrite E. unfold mbind, stx_bind, stx_modify. simpl.
  repeat case_match; simpl; done.
Qed.

Lemma step_log_ok (a : Channel.action) (c c' : Channel.t) :
  log_ok c → Channel.step a c = Some c' → log_ok c'.
Proof.
  intros Hok. destruct a as [keys|index| |sound_ok| | |env]; simpl.
  - destruct (Channel.executor_shutdown c); [done|]. intros [= <-].
    unfold Channel.handle_input. destruct (_ || _); [done|].
    by apply handle_keys_log_ok.
  - destruct (Channel.executor_shutdown c); [done|]. intros [= <-]. done.
  - destruct (Channel.executor_shutdown c); [done|]. intros [= <-].
    eapply log_ok_same; [|done]. apply drain_face.
  - destruct (Channel.executor_shutdown c); [done|]. intros [= <-].
    by apply poll_future_log_ok.
  - destruct (Channel.executor_shutdown c); [done|]. intros [= <-].
    eapply log_ok_same; [|done]. apply close_log.
  - intros H. apply worker_pickup_face in H. eapply log_ok_same; [|done].
    apply H.
  - intros H. apply worker_step_face in H. eapply log_ok_same; [|done].
    apply H.
Qed.

Lemma init_log_ok (scene : Shop.Scene) (engine : result unit) (key : bool) :
  log_ok (Channel.init scene engine key).
Proof.
  assert (Hnil : ∀ c, Channel._log c = [] → log_ok c).
  { intros c H. unfold log_ok. rewrite H. split; [simpl; lia|constructor]. }
  unfold Channel.init. destruct engine as [[]|e]; [|by apply Hnil].
  destruct (Assistant.init _ _ _ _); [|by apply Hnil].
  apply append_log_ok. by apply Hnil.
Qed.

(** X11. In every state the channel can reach from its creation, under any
    interleaving of key presses, clicks, frames, closing and worker steps,
    the log holds at most [MAX_LOG_LINES] (10) lines, and every logged
    message is tidy: not empty, without white space at either end, and
    without a line feed. *)
Theorem X11_log_is_bounded_and_tidy (scene : Shop.Scene) (engine : result unit)
    (api_key_set : bool) (c : Channel.t) :
  Channel.reachable (Channel.init scene engine api_key_set) c →
  (length (Channel._log c) ≤ Channel.MAX_LOG_LINES)%nat
  ∧ Forall (λ line : string * string, tidy line.2) (Channel._log c).
Proof.
  intros Hreach. change (log_ok c).
  induction Hreach as [|c a c' _ IH Hstep]; [apply init_log_ok|].
  by eapply step_log_ok.
Qed.

Lemma X11_log_is_bounded_and_tidy_witness :
  let c := after [Channel.Keys [Channel.K_SPACE]; Channel.WorkerPickup]
                 demo_channel in
  (length (Channel._log c) ≤ Channel.MAX_LOG_LINES)%nat
  ∧ Forall (λ line : string * string, tidy line.2) (Channel._log c).
Proof.
  intros c.
  apply (X11_log_is_bounded_and_tidy
           (fresh_scene "Hero" 25 {["Heal Potion" := 3]}) (Ok tt) true).
  apply (steps_reachable [Channel.Keys [Channel.K_SPACE]; Channel.WorkerPickup]).
  vm_compute. reflexivity.
Defined.

(** ** The error state *)

Lemma start_listening_error_inv (c : Channel.t) :
  error_inv c → error_inv (Channel._start_listening c).2.
Proof.
  intros Hinv. unfold Channel._start_listening.
  destruct (Channel.outstanding c); [done|].
  destruct (String.eqb _ _); [done|].
  destruct (_ || _); [done|].
  unfold mbind, stx_bind, Channel.submit. simpl.
  destruct (Channel.executor_shutdown c); simpl; intros H; discriminate H.
Qed.

Lemma reset_conversation_error_inv (c : Channel.t) :
  error_inv c → error_inv (Channel._reset_conversation c).2.
Proof. intros Hinv. by rewrite reset_conversation_run. Qed.

Lemma handle_keys_error_inv (keys : list Channel.Key) (c : Channel.t) :
  error_inv c → error_inv (Channel.handle_keys keys c).2.
Proof.
  revert c. induction keys as [|k keys IH]; intros c Hinv; simpl; [done|].
  destruct k; unfold mbind, stx_bind.
  - pose proof (start_listening_error_inv c Hinv) as H.
    destruct (Channel._start_listening c) as [[[]|e] c1]; simpl in *;
      [by apply IH|done].
  - rewrite reset_conversation_run.
    destruct (Channel._assistant c); simpl; [done|by apply IH].
  - by apply IH.
Qed.

Lemma append_log_face (speaker : string) (msg : option string) (c : Channel.t) :
  Channel._state (Channel._append_log speaker msg c) = Channel._state c
  ∧ Channel._current_future (Channel._append_log speaker msg c)
    = Channel._current_future c.
Proof.
  unfold Channel._append_log. destruct msg; [|done]. by destruct (negb _).
Qed.

Lemma poll_future_error_inv (sound_ok : bool) (c : Channel.t) :
  error_inv c → error_inv (Channel._poll_future sound_ok c).
Proof.
  intros Hinv. unfold Channel._poll_future.
  destruct (Channel._current_future c) as [f|] eqn:Hf; [|done].
  destruct (Channel.futures c !! f) as [fu|]; [|done].
  destruct (negb (future_done fu)); [done|]. intros _. done.
Qed.

Lemma error_inv_face (c c' : Channel.t) :
  same_face c c' → error_inv c → error_inv c'.
Proof.
  intros (_ & Hs & _ & _ & Hf & _). unfold error_inv. by rewrite Hs, Hf.
Qed.

Lemma close_face (c : Channel.t) :
  Channel._state (Channel.close c).2 = Channel._state c
  ∧ Channel._current_future (Channel.close c).2 = Channel._current_future c
  ∧ Channel._status_text (Channel.close c).2 = Channel._status_text c
  ∧ Channel._error_message (Channel.close c).2 = Channel._error_message c
  ∧ Channel._assistant (Channel.close c).2 = Channel._assistant c
  ∧ Channel.worker (Channel.close c).2 = Channel.worker c.
Proof.
  destruct (Channel._assistant c) as [a|] eqn:E.
  { by rewrite (close_raises c a E). }
  unfold Channel.close. rewrite E. unfold mbind, stx_bind, stx_modify. simpl.
  repeat case_match; simpl; done.
Qed.

Lemma step_error_inv (a : Channel.action) (c c' : Channel.t) :
  error_inv c → Channel.step a c = Some c' → error_inv c'.
Proof.
  intros Hinv. destruct a as [keys|index| |sound_ok| | |env]; simpl.
  - destruct (Channel.executor_shutdown c); [done|]. intros [= <-].
    unfold Channel.handle_input. destruct (_ || _); [done|].
    by apply handle_keys_error_inv.
  - destruct (Channel.executor_shutdown c); [done|]. intros [= <-]. done.
  - destruct (Channel.executor_shutdown c); [done|]. intros [= <-].
    eapply error_inv_face; [apply drain_face|done].
  - destruct (Channel.executor_shutdown c); [done|]. intros [= <-].
    by apply poll_future_error_inv.
  - destruct (Channel.executor_shutdown c); [done|]. intros [= <-].
    destruct (close_face c) as (Hs & Hf & _). unfold error_inv.
    by rewrite Hs, Hf.
  - intros H. apply worker_pickup_face in H. by eapply error_inv_face.
  - intros H. apply worker_step_face in H. by eapply error_inv_face.
Qed.

Lemma init_error_inv (scene : Shop.Scene) (engine : result unit) (key : bool) :
  error_inv (Channel.init scene engine key).
Proof.
  unfold Channel.init, error_inv. destruct engine as [[]|e]; [|done].
  destruct (Assistant.init _ _ _ _) as [a|e]; [|done].
  match goal with |- context [Channel._append_log ?sp ?m ?c0] =>
    destruct (append_log_face sp m c0) as [-> ->] end.
  done.
Qed.

Lemma reachable_error_inv (c0 c : Channel.t) :
  error_inv c0 → Channel.reachable c0 c → error_inv c.
Proof.
  intros H0 Hreach. induction Hreach as [|c a c' _ IH Hstep]; [done|].
  by eapply step_error_inv.
Qed.

(** X12. The error state is final.  Once a channel that was created by
    [VoiceChannel.__init__] is in the state "error", every further move
    (key presses, clicks, frames, closing, worker steps) leaves it there:
    the state stays "error", no task is attached to the channel, and the
    log, the status line and the error message stay as they are.  Space
    and R do nothing. *)
Theorem X12_error_state_is_final (scene : Shop.Scene) (engine : result unit)
    (api_key_set : bool) (c c' : Channel.t) (a : Channel.action) :
  Channel.reachable (Channel.init scene engine api_key_set) c →
  Channel._state c = "error" →
  Channel.step a c = Some c' →
  Channel._state c' = "error"
  ∧ Channel._current_future c' = None
  ∧ Channel._log c' = Channel._log c
  ∧ Channel._status_text c' = Channel._status_text c
  ∧ Channel._error_message c' = Channel._error_message c.
Proof.
  intros Hreach Herr.
  pose proof (reachable_error_inv _ _ (init_error_inv scene engine api_key_set)
                Hreach Herr) as Hnone.
  assert (Hface : ∀ c1, same_face c c1 →
            Channel._state c1 = "error"
            ∧ Channel._current_future c1 = None
            ∧ Channel._log c1 = Channel._log c
            ∧ Channel._status_text c1 = Channel._status_text c
            ∧ Channel._error_message c1 = Channel._error_message c).
  { intros c1 (Hl & Hs & Hst & He & Hf & _). rewrite Hs, Hf. done. }
  destruct a as [keys|index| |sound_ok| | |env]; simpl.
  - destruct (Channel.executor_shutdown c); [done|]. intros [= <-].
    unfold Channel.handle_input. rewrite Herr. simpl.
    rewrite orb_true_r. simpl. by apply Hface.
  - destruct (Channel.executor_shutdown c); [done|]. intros [= <-].
    by apply Hface.
  - destruct (Channel.executor_shutdown c); [done|]. intros [= <-].
    apply Hface, drain_face.
  - destruct (Channel.executor_shutdown c); [done|]. intros [= <-].
    unfold Channel._poll_future. rewrite Hnone. by apply Hface.
  - destruct (Channel.executor_shutdown c); [done|]. intros [= <-].
    destruct (close_face c) as (Hs & Hf & Hst & He & _).
    by rewrite Hs, Hf, Hst, He, close_log.
  - intros H. by apply Hface, worker_pickup_face.
  - intros H. by eapply Hface, worker_step_face.
Qed.

Lemma X12_error_state_is_final_witness :
  let c' := (Channel.handle_input [Channel.K_SPACE; Channel.K_r] broken_channel).2 in
  Channel._state c' = "error"
  ∧ Channel._current_future c' = None
  ∧ Channel._log c' = Channel._log broken_channel
  ∧ Channel._status_text c' = Channel._status_text broken_channel
  ∧ Channel._error_message c' = Channel._error_message broken_channel.
Proof.
  intros c'.
  apply (X12_error_state_is_final
           (fresh_scene "Hero" 25 {["Heal Potion" := 3]})
           (Raised (Exn (OtherError "OpenAIError") "no credentials")) true
           broken_channel c' (Channel.Keys [Channel.K_SPACE; Channel.K_r])).
  - apply Channel.reach_init.
  - reflexivity.
  - reflexivity.
Defined.

(** ** Closing the channel *)

Lemma start_listening_assistant (c : Channel.t) :
  Channel._assistant (Channel._start_listening c).2 = Channel._assistant c.
Proof.
  unfold Channel._start_listening.
  destruct (Channel.outstanding c); [done|].
  destruct (String.eqb _ _); [done|].
  destruct (_ || _); [done|].
  unfold mbind, stx_bind, Channel.submit. simpl.
  by destruct (Channel.executor_shutdown c).
Qed.

Lemma handle_keys_assistant (keys : list Channel.Key) (c : Channel.t) :
  Channel._assistant (Channel.handle_keys keys c).2 = Channel._assistant c.
Proof.
  revert c. induction keys as [|k keys IH]; intros c; simpl; [done|].
  destruct k; unfold mbind, stx_bind.
  - pose proof (start_listening_assistant c) as H.
    destruct (Channel._start_listening c) as [[[]|e] c1]; simpl in *; [|done].
    by rewrite IH.
  - rewrite reset_conversation_run.
    destruct (Channel._assistant c) eqn:E; simpl; [done|]. by rewrite IH.
  - apply IH.
Qed.

Lemma append_log_assistant (speaker : string) (msg : option string)
    (c : Channel.t) :
  Channel._assistant (Channel._append_log speaker msg c) = Channel._assistant c.
Proof.
  unfold Channel._append_log. destruct msg; [|done]. by destruct (negb _).
Qed.

Lemma poll_future_assistant (sound_ok : bool) (c : Channel.t) :
  Channel._assistant (Channel._poll_future sound_ok c) = Channel._assistant c.
Proof.
  unfold Channel._poll_future.
  destruct (Channel._current_future c) as [f|]; [|done].
  destruct (Channel.futures c !! f) as [fu|]; [|done].
  destruct (negb (future_done fu)); [done|].
  destruct (future_result fu) as [r|e]; [|done].
  cbn [Channel._assistant Channel.with_current_future].
  unfold Channel._handle_task_result.
  destruct (PyStr.truthy_opt (error r)); [by rewrite append_log_assistant|].
  set (c1 := Channel.with_status _ _ _ c).
  set (c2 := if PyStr.truthy_opt (transcript r) then _ else c1).
  assert (H2 : Channel._assistant c2 = Channel._assistant c).
  { subst c2. destruct (PyStr.truthy_opt (transcript r)); [|done].
    by rewrite append_log_assistant. }
  set (c3 := match assistant r with Some _ => _ | None => c2 end).
  assert (H3 : Channel._assistant c3 = Channel._assistant c).
  { subst c3. destruct (assistant r) as [ar|]; [|done].
    destruct (PyStr.truthy (r_text ar)); [|done].
    by rewrite append_log_assistant. }
  destruct (audio_path r) as [path|]; [|exact H3].
  unfold Channel._play_audio. by destruct (negb sound_ok).
Qed.

(** No move gives the channel an assistant or takes it away. *)
Lemma step_assistant (a : Channel.action) (c c' : Channel.t) :
  Channel.step a c = Some c' → Channel._assistant c' = Channel._assistant c.
Proof.
  destruct a as [keys|index| |sound_ok| | |env]; simpl.
  - destruct (Channel.executor_shutdown c); [done|]. intros [= <-].
    unfold Channel.handle_input. destruct (_ || _); [done|].
    apply handle_keys_assistant.
  - destruct (Channel.executor_shutdown c); [done|]. by intros [= <-].
  - destruct (Channel.executor_shutdown c); [done|]. intros [= <-].
    apply drain_face.
  - destruct (Channel.executor_shutdown c); [done|]. intros [= <-].
    apply poll_future_assistant.
  - destruct (Channel.executor_shutdown c); [done|]. intros [= <-].
    apply close_face.
  - intros H. by apply worker_pickup_face.
  - intros H. by eapply worker_step_face.
Qed.

Lemma reachable_assistant (c0 c : Channel.t) :
  Channel.reachable c0 c → Channel._assistant c = Channel._assistant c0.
Proof.
  intros Hreach. induction Hreach as [|c a c' _ IH Hstep]; [done|].
  by rewrite (step_assistant a c c' Hstep).
Qed.

Lemma drain_worker (n : nat) (c : Channel.t) :
  Channel.worker (Channel.drain n c) = Channel.worker c.
Proof.
  revert c. induction n as [|n IH]; intros c; simpl; [done|].
  destruct (Channel._purchase_requests c) as [|rq rest]; [done|].
  by rewrite IH, process_request_worker.
Qed.

Lemma process_request_futures (rq : Request) (c : Channel.t) :
  Channel.futures (Channel.process_request rq c) = Channel.futures c
  ∧ Channel.work_queue (Channel.process_request rq c) = Channel.work_queue c.
Proof.
  unfold Channel.process_request.
  by destruct (Shop.attempt_voice_purchase (rq_item rq) (Channel._scene c)).
Qed.

Lemma drain_futures (n : nat) (c : Channel.t) :
  Channel.futures (Channel.drain n c) = Channel.futures c
  ∧ Channel.work_queue (Channel.drain n c) = Channel.work_queue c.
Proof.
  revert c. induction n as [|n IH]; intros c; simpl; [done|].
  destruct (Channel._purchase_requests c) as [|rq rest]; [done|].
  destruct (IH (Channel.process_request rq
                  (Channel.with_purchase_requests rest c))) as [-> ->].
  apply (process_request_futures rq (Channel.with_purchase_requests rest c)).
Qed.

(** Without an assistant no task is ever started. *)
Lemma step_no_task (a : Channel.action) (c c' : Channel.t) :
  Channel._assistant c = None → no_task c →
  Channel.step a c = Some c' → no_task c'.
Proof.
  intros Hnone (Hf & Hq & Hw & Hcf).
  destruct a as [keys|index| |sound_ok| | |env]; simpl.
  - destruct (Channel.executor_shutdown c); [done|]. intros [= <-].
    unfold Channel.handle_input. rewrite Hnone. by simpl.
  - destruct (Channel.executor_shutdown c); [done|]. by intros [= <-].
  - destruct (Channel.executor_shutdown c); [done|]. intros [= <-].
    unfold no_task, Channel._process_purchase_requests.
    destruct (drain_futures (length (Channel._purchase_requests c)) c)
      as [-> ->].
    rewrite drain_worker.
    destruct (drain_face (length (Channel._purchase_requests c)) c)
      as (_ & _ & _ & _ & -> & _). done.
  - destruct (Channel.executor_shutdown c); [done|]. intros [= <-].
    unfold Channel._poll_future. by rewrite Hcf.
  - destruct (Channel.executor_shutdown c); [done|]. intros [= <-].
    unfold Channel.close. rewrite Hnone.
    unfold mbind, stx_bind, stx_modify. simpl. rewrite Hcf. simpl.
    by rewrite Hq, Hf.
  - unfold Channel.worker_pickup. by rewrite Hw, Hq.
  - unfold Channel.worker_step. by rewrite Hw.
Qed.

Lemma init_no_task (scene : Shop.Scene) (engine : result unit) (key : bool) :
  Channel._assistant (Channel.init scene engine key) = None →
  no_task (Channel.init scene engine key).
Proof.
  unfold Channel.init. destruct engine as [[]|e]; [|done].
  destruct (Assistant.init _ _ _ _) as [a|e]; [|done].
  by rewrite append_log_assistant.
Qed.

Lemma reachable_no_task (c0 c : Channel.t) :
  Channel._assistant c0 = None → no_task c0 →
  Channel.reachable c0 c → no_task c.
Proof.
  intros Hnone H0 Hreach. induction Hreach as [|c a c' Hr IH Hstep]; [done|].
  eapply step_no_task; [|exact IH|exact Hstep].
  by rewrite (reachable_assistant _ _ Hr).
Qed.

(** X13. [close] never cancels a task.  For a channel in any state it can
    reach from its creation: when the set-up gave it an assistant, [close]
    raises the [AttributeError] of [reset_conversation] at its first
    statement and leaves the channel exactly as it was, so the executor is
    not shut down, no future is cancelled and the temporary audio files are
    kept; when the set-up failed, [close] returns with the executor shut
    down, and there was no task: no future, an empty work queue and an
    idle worker.  Either way the futures and the task of the worker are
    what they were. *)
Theorem X13_close_cancels_nothing (scene : Shop.Scene)
    (engine : result unit) (api_key_set : bool) (c : Channel.t) :
  Channel.reachable (Channel.init scene engine api_key_set) c →
  Channel.futures (Channel.close c).2 = Channel.futures c
  ∧ Channel.worker (Channel.close c).2 = Channel.worker c
  ∧ match Channel._assistant c with
    | Some _ =>
        Channel.close c = (Raised MemorySaver.no_delete, c)
        ∧ exn_cls MemorySaver.no_delete = AttributeError
    | None =>
        (Channel.close c).1 = Ok tt
        ∧ Channel.executor_shutdown (Channel.close c).2 = true
        ∧ Channel._temp_audio (Channel.close c).2 = []
        ∧ no_task c
    end.
Proof.
  intros Hreach.
  pose proof (reachable_assistant _ _ Hreach) as Hsame.
  destruct (Channel._assistant c) as [a|] eqn:E.
  { by rewrite (close_raises c a E). }
  assert (Hno : no_task c).
  { eapply reachable_no_task; [| |exact Hreach]; [done|].
    by apply init_no_task. }
  destruct Hno as (Hf & Hq & Hw & Hcf).
  unfold Channel.close. rewrite E.
  unfold mbind, stx_bind, stx_modify. simpl. rewrite Hcf. simpl.
  rewrite Hq, Hf. done.
Qed.

Lemma X13_close_cancels_nothing_witness :
  let c := after [Channel.Keys [Channel.K_SPACE]; Channel.WorkerPickup]
                 demo_channel in
  Channel.futures c !! 0%nat = Some FRunning
  ∧ Channel.futures (Channel.close c).2 = Channel.futures c
  ∧ Channel.worker (Channel.close c).2 = Channel.worker c
  ∧ Channel.close c = (Raised MemorySaver.no_delete, c)
  ∧ exn_cls MemorySaver.no_delete = AttributeError.
Proof.
  intros c. split; [vm_compute; reflexivity|].
  pose proof (X13_close_cancels_nothing
                (fresh_scene "Hero" 25 {["Heal Potion" := 3]}) (Ok tt) true c)
    as H.
  change (Channel._assistant c) with (Some demo_assistant) in H.
  destruct H as (Hf & Hw & Hc & He).
  - apply (steps_reachable
             [Channel.Keys [Channel.K_SPACE]; Channel.WorkerPickup]).
    vm_compute. reflexivity.
  - split; [exact Hf|]. split; [exact Hw|]. split; [exact Hc|exact He].
Defined.

(** * Turns of the conversation *)

(** A turn that is not a trade, run by the orchestrator: the three
    checkpoints of the graph go to the thread of the session, and nothing
    else changes. *)
Lemma run_process_chat (env : Channel.Env) (a : Assistant.t) (c : Channel.t)
    (input thread_id : string) (pred : IntentPrediction) (reply : string) :
  PyStr.truthy (PyStr.strip input) = true →
  let key := Assistant.thread_key (Assistant._thread_namespace a) thread_id in
  let st := Assistant.entry_state
              (MemorySaver.get key (Channel.checkpoints c)) input in
  Channel.env_intent env (default [] (messages st)) (Assistant._catalog_text a)
  = Ok pred →
  p_intent pred ≠ trade →
  chat_reply env (p_intent pred) (default [] (messages st)) = Ok reply →
  let st3 := Assistant._append_response (classified st pred) reply in
  Channel.run env (Assistant.process a Channel._purchase_handler input thread_id) c
  = Some (Ok {| r_intent := p_intent pred; r_text := reply;
                r_candidate_item := Assistant.candidate_of pred;
                r_trade_result := trade_result st;
                r_raw_state := st3 |},
          Channel.with_checkpoints
            (MemorySaver.put key st3
               (MemorySaver.put key (classified st pred)
                  (MemorySaver.put key st (Channel.checkpoints c)))) c).
Proof.
  intros Htruthy key st Hint Hchat Hreply st3.
  unfold Assistant.process. rewrite Htruthy. cbn [negb].
  rewrite run_bind. unfold Assistant.graph_invoke.
  rewrite run_bind. erewrite run_perform by reflexivity.
  rewrite run_bind. erewrite run_perform by reflexivity.
  rewrite run_bind. fold key. fold st.
  rewrite (run_classify_intent env a st _ pred Hint).
  fold (classified st pred).
  rewrite run_bind. erewrite run_perform by reflexivity.
  rewrite run_bind. clearbody st.
  assert (Hnode : ∀ c0,
    Channel.run env
      match Assistant._route_intent (classified st pred) with
      | trade => Assistant._respond_trade a Channel._purchase_handler
                   (classified st pred)
      | smalltalk => Assistant._respond_smalltalk a (classified st pred)
      | unknown => Assistant._respond_unknown a (classified st pred)
      end c0 = Some (Ok st3, c0)).
  { intros c0. unfold Assistant._route_intent. simpl.
    unfold chat_reply in Hreply.
    destruct (p_intent pred); [done| |].
    - unfold Assistant._respond_smalltalk. rewrite run_bind.
      erewrite run_call by reflexivity. simpl. rewrite Hreply. reflexivity.
    - unfold Assistant._respond_unknown. rewrite run_bind.
      erewrite run_call by reflexivity. simpl. rewrite Hreply. reflexivity. }
  rewrite Hnode. rewrite run_bind. erewrite run_perform by reflexivity.
  reflexivity.
Qed.

Lemma history_after_reply (a : Assistant.t) (c c' : Channel.t)
    (input thread_id reply : string) (mid : gmap string MerchantState) :
  PyStr.truthy (PyStr.strip input) = true →
  let key := Assistant.thread_key (Assistant._thread_namespace a) thread_id in
  let st := Assistant.entry_state
              (MemorySaver.get key (Channel.checkpoints c)) input in
  ∀ st2, messages st2 = messages st →
  history a thread_id
    (Channel.with_checkpoints
       (MemorySaver.put key (Assistant._append_response st2 reply) mid) c')
  = (history a thread_id c
     ++ [HumanMessage (PyStr.strip input); AIMessage reply])%list.
Proof.
  intros Htruthy key st st2 Hst2. unfold history. fold key.
  unfold MemorySaver.get, MemorySaver.put. simpl. rewrite lookup_insert_eq.
  simpl. rewrite Hst2. unfold st, Assistant.entry_state,
    Assistant._add_user_message. simpl. rewrite Htruthy. simpl.
  unfold MemorySaver.get.
  destruct (Channel.checkpoints c !! key) as [saved|]; simpl; [|done].
  by rewrite <- app_assoc.
Qed.

(** X14. A turn of plain conversation that goes well.  When recording,
    transcription, classification (as smalltalk or unknown), the reply
    chain and the synthesis all answer, and the transcript and the reply
    are not blank: the task returns a result with the stripped transcript,
    the reply, the audio file and no error; the scene and the purchase
    queue are untouched; the history of the session grows by exactly the
    stripped transcript and the reply; and handling the result puts the
    channel in the idle state, logs the "You" line and then the "Mira"
    line, and keeps the audio file for cleanup when the mixer could load
    it. *)
Theorem X14_chat_turn (env : Channel.Env) (c : Channel.t) (a : Assistant.t)
    (path heard : string) (pred : IntentPrediction)
    (reply audio : string) :
  Channel._engine c = true →
  Channel._assistant c = Some a →
  Channel.env_record env Channel.VOICE_RECORD_SECONDS = Ok path →
  Channel.env_transcribe env path = Ok heard →
  PyStr.truthy (PyStr.strip heard) = true →
  let key := Assistant.thread_key (Assistant._thread_namespace a)
                                  (Channel._thread_id c) in
  let st := Assistant.entry_state
              (MemorySaver.get key (Channel.checkpoints c)) heard in
  Channel.env_intent env (default [] (messages st)) (Assistant._catalog_text a)
  = Ok pred →
  p_intent pred ≠ trade →
  chat_reply env (p_intent pred) (default [] (messages st)) = Ok reply →
  PyStr.truthy (PyStr.strip reply) = true →
  Channel.env_tts env reply = Ok audio →
  ∃ r c' ar,
    Channel.run env (Channel._capture_and_process c) c = Some (Ok r, c')
    ∧ r = {| transcript := Some (PyStr.strip heard);
             assistant := Some ar; audio_path := Some audio; error := None |}
    ∧ r_intent ar = p_intent pred ∧ r_text ar = reply
    ∧ Channel._scene c' = Channel._scene c
    ∧ Channel._purchase_requests c' = Channel._purchase_requests c
    ∧ history a (Channel._thread_id c) c'
      = (history a (Channel._thread_id c) c
         ++ [HumanMessage (PyStr.strip heard); AIMessage reply])%list
    ∧ ∀ sound_ok,
        let c2 := Channel._handle_task_result r sound_ok c' in
        Channel._state c2 = "idle"
        ∧ Channel._status_text c2 = "Press Space to talk"
        ∧ Channel._log c2
          = Channel._log
              (Channel._append_log "Mira" (Some reply)
                 (Channel._append_log "You" (Some (PyStr.strip heard)) c))
        ∧ Channel._temp_audio c2
          = (if sound_ok then Channel._temp_audio c ++ [audio]
             else Channel._temp_audio c)%list.
Proof.
  intros Heng Hass Hrec Htrans Htruthy key st Hint Hchat Hreply Hrt Htts.
  assert (Hr : PyStr.truthy reply = true) by (by apply strip_truthy_raw).
  pose proof (run_process_chat env a c heard (Channel._thread_id c)
                pred reply Htruthy Hint Hchat Hreply) as Hproc.
  cbv zeta in Hproc. fold key in Hproc. fold st in Hproc.
  do 3 eexists. split.
  { unfold Channel._capture_and_process. rewrite Heng, Hass.
    rewrite run_try_catch, run_bind,
      (run_record_and_transcribe env c _ path heard Hrec Htrans).
    rewrite Htruthy. cbn [negb].
    rewrite run_bind, Hproc. cbn [r_text]. rewrite Hr.
    rewrite run_bind, run_bind. unfold VoiceEngine.synthesize.
    rewrite Hrt. cbn [negb]. erewrite run_call by reflexivity.
    cbn [Channel.handle]. rewrite Htts. reflexivity. }
  split; [reflexivity|]. split; [reflexivity|]. split; [reflexivity|].
  split; [reflexivity|]. split; [reflexivity|]. split.
  { by apply (history_after_reply a c c heard (Channel._thread_id c) reply
                _ Htruthy). }
  intros sound_ok. unfold Channel._handle_task_result.
  cbn [error transcript assistant audio_path PyStr.truthy_opt r_text].
  rewrite Htruthy, Hr.
  unfold Channel._play_audio, Channel._append_log.
  destruct (negb (PyStr.truthy (PyStr.strip
              (PyStr.replace_newlines (PyStr.strip heard)))));
    destruct (negb (PyStr.truthy (PyStr.strip (PyStr.replace_newlines reply))));
    destruct sound_ok; simpl; done.
Qed.

Lemma X14_chat_turn_witness :
  let env := demo_env (Ok "rec.wav") smalltalk (Ok "Good day to you!")
                      (Ok "tts.mp3") in
  ∃ r c', Channel.run env (Channel._capture_and_process demo_channel) demo_channel
          = Some (Ok r, c')
    ∧ transcript r = Some "a heal potion please"
    ∧ audio_path r = Some "tts.mp3"
    ∧ Channel._log (Channel._handle_task_result r true c')
      = [("Mira", "Welcome, Hero! Tell me what you need or feel free to chat.");
         ("You", "a heal potion please"); ("Mira", "Good day to you!")].
Proof.
  intros env.
  destruct (X14_chat_turn env demo_channel demo_assistant
              "rec.wav" " a heal potion please "
              {| p_intent := smalltalk; p_item := Some "heal potion";
                 p_confidence := None; p_rationale := None |}
              "Good day to you!" "tts.mp3")
    as (r & c' & ar & Hrun & Hres & _ & _ & _ & _ & _ & Hpoll);
    try reflexivity; [discriminate|].
  exists r, c'. split; [exact Hrun|].
  destruct (Hpoll true) as (_ & _ & Hlog & _).
  rewrite Hlog, Hres. repeat split; vm_compute; reflexivity.
Defined.

(** X15. A reply made of white space only.  When a turn of plain
    conversation gets a reply that is not empty but blank, the synthesis
    step refuses it without calling the speech service, and the task result
    carries only the error text "Voice interaction failed: Cannot synthesize
    empty text": the transcript and the reply are not reported, although the
    history of the session has stored both. *)
Theorem X15_blank_reply (env : Channel.Env) (c : Channel.t) (a : Assistant.t)
    (path heard : string) (pred : IntentPrediction) (reply : string) :
  Channel._engine c = true →
  Channel._assistant c = Some a →
  Channel.env_record env Channel.VOICE_RECORD_SECONDS = Ok path →
  Channel.env_transcribe env path = Ok heard →
  PyStr.truthy (PyStr.strip heard) = true →
  let key := Assistant.thread_key (Assistant._thread_namespace a)
                                  (Channel._thread_id c) in
  let st := Assistant.entry_state
              (MemorySaver.get key (Channel.checkpoints c)) heard in
  Channel.env_intent env (default [] (messages st)) (Assistant._catalog_text a)
  = Ok pred →
  p_intent pred ≠ trade →
  chat_reply env (p_intent pred) (default [] (messages st)) = Ok reply →
  PyStr.truthy reply = true →
  PyStr.truthy (PyStr.strip reply) = false →
  ∃ c',
    Channel.run env (Channel._capture_and_process c) c
    = Some (Ok (Channel.error_result
                  "Voice interaction failed: Cannot synthesize empty text"), c')
    ∧ history a (Channel._thread_id c) c'
      = (history a (Channel._thread_id c) c
         ++ [HumanMessage (PyStr.strip heard); AIMessage reply])%list.
Proof.
  intros Heng Hass Hrec Htrans Htruthy key st Hint Hchat Hreply Hr Hblank.
  pose proof (run_process_chat env a c heard (Channel._thread_id c)
                pred reply Htruthy Hint Hchat Hreply) as Hproc.
  cbv zeta in Hproc. fold key in Hproc. fold st in Hproc.
  eexists. split.
  { unfold Channel._capture_and_process. rewrite Heng, Hass.
    rewrite run_try_catch, run_bind,
      (run_record_and_transcribe env c _ path heard Hrec Htrans).
    rewrite Htruthy. cbn [negb].
    rewrite run_bind, Hproc. cbn [r_text]. rewrite Hr.
    rewrite run_bind, run_bind. unfold VoiceEngine.synthesize.
    rewrite Hblank. reflexivity. }
  by apply (history_after_reply a c c heard (Channel._thread_id c) reply
              _ Htruthy).
Qed.

Lemma X15_blank_reply_witness :
  let env := demo_env (Ok "rec.wav") unknown (Ok "   ") (Ok "tts.mp3") in
  ∃ c', Channel.run env (Channel._capture_and_process demo_channel) demo_channel
        = Some (Ok (Channel.error_result
                      "Voice interaction failed: Cannot synthesize empty text"), c')
    ∧ history demo_assistant (Channel._thread_id demo_channel) c'
      = (history demo_assistant (Channel._thread_id demo_channel) demo_channel
         ++ [HumanMessage (PyStr.strip " a heal potion please ");
             AIMessage "   "])%list.
Proof.
  intros env.
  apply (X15_blank_reply env demo_channel demo_assistant
           "rec.wav" " a heal potion please "
           {| p_intent := unknown; p_item := Some "heal potion";
              p_confidence := None; p_rationale := None |} "   ");
    try reflexivity. discriminate.
Defined.

(** The trade node when the reply chain answers. *)
Lemma run_respond_trade_ok (env : Channel.Env) (a : Assistant.t)
    (st : MerchantState) (c : Channel.t) (reply : string) :
  Channel._purchase_requests c = [] →
  let rq := {| rq_item := candidate_item st; rq_event := Channel.next_id c;
               rq_container := S (Channel.next_id c) |} in
  let outcome := bridged_outcome rq (Channel._scene c) in
  Channel.env_trade env (default [] (messages st)) (Assistant._catalog_text a)
    (message outcome) (Assistant._visitor_name a) = Ok reply →
  ∃ c', Channel.run env
          (Assistant._respond_trade a Channel._purchase_handler st) c
        = Some (Ok (Assistant._append_response
                      (Assistant.set_trade_result outcome st) reply), c')
    ∧ Channel._scene c'
      = (Shop.attempt_voice_purchase (candidate_item st) (Channel._scene c)).2
    ∧ Channel._purchase_requests c' = []
    ∧ Channel.checkpoints c' = Channel.checkpoints c
    ∧ Channel.signalled c' = (Channel.signalled c ++ [Channel.next_id c])%list
    ∧ stored_outcome c' (S (Channel.next_id c)) = Some outcome.
Proof.
  intros Hq rq outcome Hreply.
  destruct (run_purchase_handler env (candidate_item st) c Hq)
    as (c' & Hrun & Hrest).
  exists c'. split; [|exact Hrest].
  unfold Assistant._respond_trade. rewrite run_bind, Hrun.
  rewrite run_bind. erewrite run_call by reflexivity. fold rq. fold outcome.
  simpl in Hreply |- *. rewrite Hreply. reflexivity.
Qed.

(** X16. A trade that goes well.  When an utterance is classified as a
    trade and every service answers, the purchase is made exactly once, on
    the game loop's side of the bridge: the task result reports the outcome
    that [attempt_voice_purchase] gave for the candidate item on the scene,
    the scene is the one that call left, one event was signalled, the
    purchase queue is empty again, the outcome is what the request's
    container holds, and the history of the session grows by the stripped
    transcript and the reply. *)
Theorem X16_trade_turn (env : Channel.Env) (c : Channel.t) (a : Assistant.t)
    (path heard : string) (pred : IntentPrediction) (reply audio : string) :
  Channel._engine c = true →
  Channel._assistant c = Some a →
  Channel._purchase_requests c = [] →
  Channel.env_record env Channel.VOICE_RECORD_SECONDS = Ok path →
  Channel.env_transcribe env path = Ok heard →
  PyStr.truthy (PyStr.strip heard) = true →
  let key := Assistant.thread_key (Assistant._thread_namespace a)
                                  (Channel._thread_id c) in
  let st := Assistant.entry_state
              (MemorySaver.get key (Channel.checkpoints c)) heard in
  let rq := {| rq_item := Assistant.candidate_of pred;
               rq_event := Channel.next_id c;
               rq_container := S (Channel.next_id c) |} in
  let outcome := bridged_outcome rq (Channel._scene c) in
  Channel.env_intent env (default [] (messages st)) (Assistant._catalog_text a)
  = Ok pred →
  p_intent pred = trade →
  Channel.env_trade env (default [] (messages st)) (Assistant._catalog_text a)
    (message outcome) (Assistant._visitor_name a) = Ok reply →
  PyStr.truthy (PyStr.strip reply) = true →
  Channel.env_tts env reply = Ok audio →
  ∃ r c' ar,
    Channel.run env (Channel._capture_and_process c) c = Some (Ok r, c')
    ∧ r = {| transcript := Some (PyStr.strip heard);
             assistant := Some ar; audio_path := Some audio; error := None |}
    ∧ r_intent ar = trade ∧ r_text ar = reply
    ∧ r_candidate_item ar = Assistant.candidate_of pred
    ∧ reported_trade r = Some outcome
    ∧ Channel._scene c'
      = (Shop.attempt_voice_purchase (Assistant.candidate_of pred)
           (Channel._scene c)).2
    ∧ Channel._purchase_requests c' = []
    ∧ Channel.signalled c' = (Channel.signalled c ++ [Channel.next_id c])%list
    ∧ stored_outcome c' (S (Channel.next_id c)) = Some outcome
    ∧ history a (Channel._thread_id c) c'
      = (history a (Channel._thread_id c) c
         ++ [HumanMessage (PyStr.strip heard); AIMessage reply])%list.
Proof.
  intros Heng Hass Hq Hrec Htrans Htruthy key st rq outcome Hint Htrade
    Hreply Hrt Htts.
  assert (Hr : PyStr.truthy reply = true) by (by apply strip_truthy_raw).
  set (st2 := classified st pred).
  set (c2 := Channel.with_checkpoints
               (MemorySaver.put key st2
                  (Channel.checkpoints
                     (Channel.with_checkpoints
                        (MemorySaver.put key st (Channel.checkpoints c)) c)))
               (Channel.with_checkpoints
                  (MemorySaver.put key st (Channel.checkpoints c)) c)).
  assert (Hq2 : Channel._purchase_requests c2 = []) by exact Hq.
  destruct (run_respond_trade_ok env a st2 c2 reply Hq2 Hreply)
    as (c3 & Hrun & Hsc & Hq3 & Hck & Hsig & Hst).
  do 3 eexists. split.
  { unfold Channel._capture_and_process. rewrite Heng, Hass.
    rewrite run_try_catch, run_bind,
      (run_record_and_transcribe env c _ path heard Hrec Htrans).
    rewrite Htruthy. cbn [negb].
    rewrite run_bind. unfold Assistant.process. rewrite Htruthy. cbn [negb].
    rewrite run_bind. unfold Assistant.graph_invoke.
    rewrite run_bind. erewrite run_perform by reflexivity.
    rewrite run_bind. erewrite run_perform by reflexivity.
    rewrite run_bind. fold key. fold st.
    rewrite (run_classify_intent env a st _ pred Hint).
    fold (classified st pred). fold st2.
    rewrite run_bind. erewrite run_perform by reflexivity.
    rewrite run_bind.
    replace (Assistant._route_intent st2) with trade
      by (unfold Assistant._route_intent; simpl; by rewrite Htrade).
    fold c2. rewrite Hrun.
    rewrite run_bind. erewrite run_perform by reflexivity.
    cbn [Channel.run from_option id response_text
         Assistant._append_response r_text].
    rewrite Hr.
    rewrite run_bind, run_bind. unfold VoiceEngine.synthesize.
    rewrite Hrt. cbn [negb]. erewrite run_call by reflexivity.
    cbn [Channel.handle]. rewrite Htts. reflexivity. }
  split; [reflexivity|]. split; [simpl; by rewrite Htrade|].
  split; [reflexivity|]. split; [reflexivity|]. split; [reflexivity|].
  split; [exact Hsc|]. split; [exact Hq3|]. split; [exact Hsig|].
  split; [exact Hst|].
  by apply (history_after_reply a c c3 heard (Channel._thread_id c) reply
              _ Htruthy).
Qed.

Lemma X16_trade_turn_witness :
  let env := demo_env (Ok "rec.wav") trade (Ok "Here is your potion.")
                      (Ok "tts.mp3") in
  ∃ r c', Channel.run env (Channel._capture_and_process demo_channel) demo_channel
          = Some (Ok r, c')
    ∧ reported_trade r
      = Some {| success := true; item_name := Some "Heal Potion";
                message := "Bought Heal Potion for 20g.";
                price_paid := Some 20 |}
    ∧ gold_of (Channel._scene c') = 5.
Proof.
  intros env.
  destruct (X16_trade_turn env demo_channel demo_assistant
              "rec.wav" " a heal potion please "
              {| p_intent := trade; p_item := Some "heal potion";
                 p_confidence := None; p_rationale := None |}
              "Here is your potion." "tts.mp3")
    as (r & c' & ar & Hrun & _ & _ & _ & _ & Htr & Hsc & _);
    try reflexivity.
  exists r, c'. split; [exact Hrun|]. split.
  - rewrite Htr. vm_compute. reflexivity.
  - rewrite Hsc. vm_compute. reflexivity.
Defined.

(** X17. Early exits of the task leave everything as it was.  When the
    recording fails, when the transcription fails, or when the transcript
    is blank, the task returns an error result and the state of the channel
    (scene, purchase queue, history of the session) is exactly what it was:
    no model is called and no purchase is made.  The error text is the text
    of the exception itself for a [RecordingError], "Voice interaction
    failed: " followed by it for any other exception, and "I could not hear
    you." for a blank transcript. *)
Theorem X17_early_exits_change_nothing (env : Channel.Env) (c : Channel.t)
    (a : Assistant.t) :
  Channel._engine c = true →
  Channel._assistant c = Some a →
  (∀ exc, Channel.env_record env Channel.VOICE_RECORD_SECONDS = Raised exc →
     Channel.run env (Channel._capture_and_process c) c
     = Some (Ok (Channel.error_result (boundary_error exc)), c))
  ∧ (∀ path exc,
       Channel.env_record env Channel.VOICE_RECORD_SECONDS = Ok path →
       Channel.env_transcribe env path = Raised exc →
       Channel.run env (Channel._capture_and_process c) c
       = Some (Ok (Channel.error_result (boundary_error exc)), c))
  ∧ (∀ path heard,
       Channel.env_record env Channel.VOICE_RECORD_SECONDS = Ok path →
       Channel.env_transcribe env path = Ok heard →
       PyStr.truthy (PyStr.strip heard) = false →
       Channel.run env (Channel._capture_and_process c) c
       = Some (Ok (Channel.error_result "I could not hear you."), c)).
Proof.
  intros Heng Hass. unfold Channel._capture_and_process. rewrite Heng, Hass.
  split; [|split].
  - intros exc Hrec. apply (run_capture_boundary env c a).
    rewrite run_bind. unfold VoiceEngine.record_and_transcribe,
      VoiceEngine.record.
    rewrite run_bind. erewrite run_call by reflexivity. by rewrite Hrec.
  - intros path exc Hrec Htrans. apply (run_capture_boundary env c a).
    rewrite run_bind. unfold VoiceEngine.record_and_transcribe,
      VoiceEngine.record, VoiceEngine.transcribe.
    rewrite run_bind. erewrite run_call by reflexivity. rewrite Hrec.
    unfold call, perform. cbn. by rewrite Htrans.
  - intros path heard Hrec Htrans Hblank.
    rewrite run_try_catch, run_bind,
      (run_record_and_transcribe env c _ path heard Hrec Htrans).
    by rewrite Hblank.
Qed.

Lemma X17_early_exits_change_nothing_witness :
  let env := demo_env (Raised (Exn RecordingError "Microphone unavailable"))
                      trade (Ok "ok") (Ok "tts.mp3") in
  Channel.run env (Channel._capture_and_process demo_channel) demo_channel
  = Some (Ok (Channel.error_result "Microphone unavailable"), demo_channel).
Proof.
  intros env.
  apply (proj1 (X17_early_exits_change_nothing env demo_channel demo_assistant
                  eq_refl eq_refl)
           (Exn RecordingError "Microphone unavailable")).
  reflexivity.
Defined.

(** The recording never outlives [record_and_transcribe].  When the
    recorder raises, the call raises the same exception and nothing else
    happens; once a recording exists, the call transcribes it and deletes
    the file on every path, whether the transcription returns or raises,
    and then returns the text or raises the exception of the
    transcription. *)
Lemma recording_is_deleted (duration : Q) :
  ∃ k, VoiceEngine.record_and_transcribe duration
       = Vis (ERecord duration) k
    ∧ (∀ exc, k (Raised exc) = Throw exc)
    ∧ ∀ path,
        unlinks path (k (Ok path))
        ∧ ∃ k2, k (Ok path) = Vis (ETranscribe path) k2
            ∧ (∀ text, ∃ k3, k2 (Ok text) = Vis (EUnlink path) k3
                              ∧ k3 tt = Ret text)
            ∧ (∀ exc, ∃ k3, k2 (Raised exc) = Vis (EUnlink path) k3
                             ∧ k3 tt = Throw exc).
Proof.
  eexists. split; [reflexivity|]. split; [reflexivity|].
  intros path. split.
  - simpl. intros [text|exc]; reflexivity.
  - eexists. split; [reflexivity|]. split.
    + intros text. eexists. split; reflexivity.
    + intros exc. eexists. split; reflexivity.
Qed.

(** * The lines of the overlay *)

Lemma string_app_assoc3 (a b c : string) : (a ++ b) ++ c = a ++ (b ++ c).
Proof.
  induction a as [|x a IH]; [done|].
  change (String x ((a ++ b) ++ c) = String x (a ++ (b ++ c))). by rewrite IH.
Qed.

Lemma join_cons (sep x : string) (l : list string) :
  l ≠ [] → Assistant.join sep (x :: l) = x ++ sep ++ Assistant.join sep l.
Proof. by destruct l. Qed.

Lemma join_merge (sep x y : string) (l1 l2 : list string) :
  Assistant.join sep (l1 ++ (x ++ sep ++ y) :: l2)
  = Assistant.join sep (l1 ++ x :: y :: l2).
Proof.
  induction l1 as [|a l1 IH].
  - simpl app. rewrite (join_cons sep x (y :: l2)) by done.
    destruct l2 as [|z l2]; [done|].
    rewrite (join_cons sep _ (z :: l2)) by done.
    rewrite (join_cons sep y (z :: l2)) by done.
    by rewrite !string_app_assoc3.
  - rewrite <- !app_comm_cons.
    rewrite !join_cons by (by destruct l1). by rewrite IH.
Qed.

Lemma wrap_words_join (width : string → Z) (max_width : Z)
    (lines : list string) (current : string) (words : list string) :
  Assistant.join " " (Overlay.wrap_words width max_width lines current words)
  = Assistant.join " " (lines ++ current :: words).
Proof.
  revert lines current. induction words as [|word rest IH];
    intros lines current; simpl; [done|].
  destruct (width (current ++ " " ++ word) <=? max_width).
  - rewrite IH. apply join_merge.
  - rewrite IH. by rewrite <- app_assoc.
Qed.

Lemma wrap_words_cons (width : string → Z) (max_width : Z)
    (lines : list string) (current : string) (words : list string) :
  Overlay.wrap_words width max_width lines current words ≠ [].
Proof.
  revert lines current. induction words as [|word rest IH];
    intros lines current; simpl.
  - by destruct lines.
  - destruct (width (current ++ " " ++ word) <=? max_width); apply IH.
Qed.

Lemma wrap_words_Forall (P : string → Prop) (width : string → Z)
    (max_width : Z) (lines : list string) (current : string)
    (words : list string) :
  (∀ cur word, P cur → word ∈ words →
     width (cur ++ " " ++ word) ≤ max_width → P (cur ++ " " ++ word)) →
  Forall P lines → P current → Forall P words →
  Forall P (Overlay.wrap_words width max_width lines current words).
Proof.
  revert lines current. induction words as [|word rest IH];
    intros lines current Hjoin Hlines Hcur Hwords; simpl.
  - apply Forall_app. split; [done|]. by constructor.
  - inversion Hwords as [|? ? Hw Hrest]; subst.
    assert (Hjoin' : ∀ cur w, P cur → w ∈ rest →
              width (cur ++ " " ++ w) ≤ max_width → P (cur ++ " " ++ w)).
    { intros cur w Hc Hin. apply Hjoin; [done|]. by right. }
    destruct (width (current ++ " " ++ word) <=? max_width) eqn:E.
    + apply Z.leb_le in E. apply IH; try done. apply Hjoin; [done| |done].
      by left.
    + apply IH; try done. apply Forall_app. split; [done|]. by constructor.
Qed.

Lemma split_from_truthy (cur : option string) (s : string) :
  (∀ w, cur = Some w → PyStr.truthy w = true) →
  Forall (λ w, PyStr.truthy w = true) (Words.split_from cur s).
Proof.
  revert cur. induction s as [|c s IH]; intros cur Hcur; simpl.
  - destruct cur as [w|]; [|constructor]. constructor; [by apply Hcur|constructor].
  - destruct (PyStr.isspace c).
    + destruct cur as [w|]; [|by apply IH].
      constructor; [by apply Hcur|by apply IH].
    + apply IH. intros w [= <-]. destruct cur as [[|]|]; done.
Qed.

(** X18. [_wrap_text] keeps the words.  For every font, text and width:
    the result is never empty; joining its lines with single spaces gives
    the words of the text joined with single spaces (no word is lost,
    repeated or reordered); a blank text gives one empty line; otherwise no
    line is empty, and every line fits the width unless it is a single word
    of the text, which is never broken. *)
Theorem X18_wrap_text_keeps_the_words (width : string → Z) (text : string)
    (max_width : Z) :
  let lines := Overlay._wrap_text width text max_width in
  lines ≠ []
  ∧ Assistant.join " " lines = Assistant.join " " (Words.split text)
  ∧ (Words.split text = [] → lines = [""])
  ∧ (Words.split text ≠ [] →
     Forall (λ line, PyStr.truthy line = true
                     ∧ fits_or_word width max_width (Words.split text) line)
            lines).
Proof.
  intros lines. subst lines. unfold Overlay._wrap_text.
  pose proof (split_from_truthy None text) as Htruthy.
  fold (Words.split text) in Htruthy.
  destruct (Words.split text) as [|first rest] eqn:Hsplit.
  { repeat split; done. }
  split; [apply wrap_words_cons|].
  split; [apply wrap_words_join|].
  split; [done|]. intros _.
  specialize (Htruthy ltac:(done)).
  inversion Htruthy as [|? ? Hfirst Hrest]; subst.
  apply wrap_words_Forall.
  - intros cur word [Hc _] Hin Hfit. split; [by destruct cur|]. by left.
  - constructor.
  - split; [done|]. right. by left.
  - rewrite Forall_forall in Hrest |- *. intros w Hw.
    split; [by apply Hrest|]. right. by right.
Qed.

(** ** The last lines of the log *)

Lemma take_chunks_spec (speaker : string) (chunks : list string)
    (acc : list (string * string)) :
  (length acc < Overlay.max_log_lines)%nat →
  Overlay.take_chunks speaker chunks acc
  = take Overlay.max_log_lines (acc ++ ((λ chunk, (speaker, chunk)) <$> chunks)).
Proof.
  revert acc. induction chunks as [|chunk rest IH]; intros acc Hlen;
    cbn [Overlay.take_chunks]; rewrite ?fmap_nil, ?fmap_cons.
  - rewrite app_nil_r. by rewrite take_ge by lia.
  - destruct (Overlay.max_log_lines <=? length (acc ++ [(speaker, chunk)]))%nat
      eqn:E.
    + apply Nat.leb_le in E. rewrite length_app in E. simpl in E.
      replace (acc ++ (speaker, chunk)
                      :: ((λ chunk0, (speaker, chunk0)) <$> rest))%list
        with ((acc ++ [(speaker, chunk)])
              ++ ((λ chunk0, (speaker, chunk0)) <$> rest))%list
        by (by rewrite <- app_assoc).
      symmetry. apply take_app_length'. rewrite length_app. simpl. lia.
    + apply Nat.leb_gt in E. rewrite IH by done.
      by rewrite <- app_assoc.
Qed.

Lemma gather_spec (width : string → Z) (entries : list (string * string))
    (acc : list (string * string)) :
  (length acc < Overlay.max_log_lines)%nat →
  Overlay.gather width entries acc
  = take Overlay.max_log_lines
      (acc ++ concat ((λ entry : string * string,
                         (λ chunk, (entry.1, chunk))
                           <$> reverse (Overlay._wrap_text width
                                          (entry.1 ++ ": " ++ entry.2)
                                          Overlay.max_line_width))
                      <$> entries)).
Proof.
  revert acc. induction entries as [|[speaker message] rest IH];
    intros acc Hlen; cbn [Overlay.gather]; rewrite ?fmap_nil, ?fmap_cons;
    cbn [concat fst snd].
  - rewrite app_nil_r. by rewrite take_ge by lia.
  - rewrite take_chunks_spec by done.
    set (G := (λ chunk, (speaker, chunk)) <$> reverse _).
    destruct (Overlay.max_log_lines
              <=? length (take Overlay.max_log_lines (acc ++ G)))%nat eqn:E.
    + apply Nat.leb_le in E. rewrite length_take in E.
      apply Nat.min_glb_r in E.
      rewrite app_assoc. rewrite (take_app_le (acc ++ G)) by exact E. done.
    + apply Nat.leb_gt in E. rewrite length_take in E.
      apply Nat.min_lt_iff in E as [E|E]; [by apply Nat.lt_irrefl in E|].
      rewrite take_ge by (by apply Nat.lt_le_incl).
      rewrite IH by exact E. by rewrite <- app_assoc.
Qed.

Lemma reverse_concat {A} (ls : list (list A)) :
  reverse (concat ls) = concat (reverse <$> reverse ls).
Proof.
  induction ls as [|l ls IH]; simpl; [done|].
  rewrite reverse_app, IH, reverse_cons, fmap_app, concat_app. simpl.
  by rewrite app_nil_r.
Qed.

(** X19. The overlay shows the last eight lines of the log.  Whatever the
    font and the log, the lines [_render_overlay] gathers are exactly the
    last [max_log_lines] (8) lines of the wrapped log, or all of them when
    there are fewer, in the order of the log and each with the speaker of
    its entry. *)
Theorem X19_overlay_shows_the_last_lines (width : string → Z)
    (log : list (string * string)) :
  Overlay.rendered_lines width log
  = drop (length (wrapped_log width log) - Overlay.max_log_lines)
         (wrapped_log width log)
  ∧ (length (Overlay.rendered_lines width log) ≤ Overlay.max_log_lines)%nat.
Proof.
  assert (H : Overlay.rendered_lines width log
              = drop (length (wrapped_log width log) - Overlay.max_log_lines)
                     (wrapped_log width log)).
  { unfold Overlay.rendered_lines.
    rewrite gather_spec by (unfold Overlay.max_log_lines; simpl; lia).
    simpl app. rewrite reverse_take.
    assert (Hrev : concat ((λ entry : string * string,
                     (λ chunk, (entry.1, chunk))
                       <$> reverse (Overlay._wrap_text width
                                      (entry.1 ++ ": " ++ entry.2)
                                      Overlay.max_line_width))
                    <$> reverse log)
                   = reverse (wrapped_log width log)).
    { unfold wrapped_log. rewrite reverse_concat, <- fmap_reverse.
      rewrite <- list_fmap_compose. f_equal. apply list_fmap_ext.
      intros i entry _. simpl. by rewrite fmap_reverse. }
    rewrite Hrev, reverse_involutive, length_reverse. done. }
  split; [exact H|]. rewrite H, length_drop. lia.
Qed.

Example wrap_text_example :
  Overlay._wrap_text monospace "Mira:  Welcome, traveler!   Tell me" 160
  = ["Mira: Welcome,"; "traveler! Tell"; "me"]
  ∧ Overlay._wrap_text monospace "   " 160 = [""]
  ∧ Overlay._wrap_text monospace "extraordinarily long" 50
    = ["extraordinarily"; "long"].
Proof. repeat split; vm_compute; reflexivity. Qed.

(** * The orchestrator and the configuration *)



(** ** The .env file *)





Example load_env_example :
  Config.load_env
    (Some ["# keys"; ""; "OPENAI_API_KEY = sk-1 "; "TTS_MODEL=legacy";
           "TTS_MODEL=elevenlabs"; "=nothing"; "no assignment here"])
    {["OPENAI_API_KEY" := "from-shell"]}
  = {["OPENAI_API_KEY" := "from-shell"; "TTS_MODEL" := "legacy"]}.
Proof. vm_compute. reflexivity. Qed.
(** * The inventory screen *)

Lemma rows_listed {A} (table : gmap string A) (name_of : A → string)
    (counts : gmap string Z) (names : list string) :
  (∀ k, k ∈ names → ∃ x, table !! k = Some x ∧ name_of x = k) →
  ∃ l, Owned.rows table counts names = Ok l
    ∧ (λ row : A * Z, (name_of row.1, row.2)) <$> l = listed counts names.
Proof.
  induction names as [|name names IH]; intros Hall; [by exists []|].
  destruct IH as (l & Hl & Hmap).
  { intros k Hk. apply Hall. by right. }
  unfold listed in *. cbn [Owned.rows omap list_omap].
  destruct (counts !! name) as [count|]; [|by exists l].
  destruct (0 <? count); [|by exists l].
  destruct (Hall name) as (x & Hx & Hname); [by left|].
  rewrite Hx, Hl. exists ((x, count) :: l). split; [done|].
  rewrite fmap_cons. cbn [fst snd]. rewrite Hname. f_equal. exact Hmap.
Qed.

Lemma listed_lookup (counts : gmap string Z) (names : list string)
    (i : nat) (name : string) (count : Z) :
  listed counts names !! i = Some (name, count) →
  counts !! name = Some count ∧ 0 < count ∧ name ∈ names.
Proof.
  intros H. apply list_elem_of_lookup_2 in H.
  apply list_elem_of_omap in H as (k & Hk & Hrow).
  destruct (counts !! k) as [c|] eqn:E; [|done].
  destruct (0 <? c) eqn:Hc; [|done]. injection Hrow as <- <-.
  apply Z.ltb_lt in Hc. done.
Qed.

Lemma listed_cons (counts : gmap string Z) (a : string) (names : list string) :
  listed counts (a :: names)
  = match counts !! a with
    | Some count => if 0 <? count then (a, count) :: listed counts names
                    else listed counts names
    | None => listed counts names
    end.
Proof.
  unfold listed. cbn [omap list_omap].
  destruct (counts !! a) as [c|]; [|done]. by destruct (0 <? c).
Qed.

Lemma listed_insert_other (counts : gmap string Z) (names : list string)
    (name : string) (c : Z) :
  name ∉ names → listed (<[name := c]> counts) names = listed counts names.
Proof.
  induction names as [|a names IH]; [done|]. intros Hnot.
  apply not_elem_of_cons in Hnot as [Hne Hnot].
  rewrite !listed_cons, lookup_insert_ne by done. by rewrite IH.
Qed.

(** Writing a count changes the number of rows by the row of its name. *)
Lemma listed_insert_length (counts : gmap string Z) (names : list string)
    (name : string) (c c' : Z) :
  NoDup names → name ∈ names → counts !! name = Some c → 0 < c →
  Z.of_nat (length (listed (<[name := c']> counts) names))
  = Z.of_nat (length (listed counts names)) - (if 0 <? c' then 0 else 1).
Proof.
  intros Hnd Hin Hc Hpos. induction names as [|a names IH]; [by inversion Hin|].
  apply NoDup_cons in Hnd as [Hnot Hnd]. rewrite !listed_cons.
  destruct (decide (a = name)) as [->|Hne].
  - rewrite lookup_insert_eq, Hc, listed_insert_other by done.
    apply Z.ltb_lt in Hpos. rewrite Hpos.
    destruct (0 <? c'); simpl length; lia.
  - rewrite lookup_insert_ne by done.
    apply elem_of_cons in Hin as [->|Hin]; [done|].
    specialize (IH Hnd Hin).
    destruct (counts !! a) as [n|]; [|done].
    destruct (0 <? n); [|done]. simpl length. lia.
Qed.

Lemma weapon_names_table (k : string) :
  k ∈ Owned.WEAPON_NAMES →
  ∃ x, Items.WEAPONS !! k = Some x ∧ Items.weapon_name x = k.
Proof.
  unfold Owned.WEAPON_NAMES. intros H.
  repeat (apply elem_of_cons in H as [->|H]);
    [eexists; split; [vm_compute; reflexivity|reflexivity]..|].
  by apply elem_of_nil in H.
Qed.

Lemma shield_names_table (k : string) :
  k ∈ Owned.SHIELD_NAMES →
  ∃ x, Items.SHIELDS !! k = Some x ∧ Items.shield_name x = k.
Proof.
  unfold Owned.SHIELD_NAMES. intros H.
  repeat (apply elem_of_cons in H as [->|H]);
    [eexists; split; [vm_compute; reflexivity|reflexivity]..|].
  by apply elem_of_nil in H.
Qed.

Lemma potion_names_table (k : string) :
  k ∈ Owned.POTION_NAMES →
  ∃ x, Items.POTIONS !! k = Some x ∧ Items.potion_name x = k.
Proof.
  unfold Owned.POTION_NAMES. intros H.
  repeat (apply elem_of_cons in H as [->|H]);
    [eexists; split; [vm_compute; reflexivity|reflexivity]..|].
  by apply elem_of_nil in H.
Qed.

Lemma potion_names_nodup : NoDup Owned.POTION_NAMES.
Proof.
  apply (bool_decide_unpack (NoDup Owned.POTION_NAMES)). vm_compute. exact I.
Qed.

(** The item tables hold exactly the listed names. *)
Lemma names_are_the_keys :
  dom Items.WEAPONS = list_to_set Owned.WEAPON_NAMES
  ∧ dom Items.SHIELDS = list_to_set Owned.SHIELD_NAMES
  ∧ dom Items.POTIONS = list_to_set Owned.POTION_NAMES.
Proof.
  unfold Items.WEAPONS, Items.SHIELDS, Items.POTIONS.
  rewrite !dom_insert_L, !dom_empty_L. simpl. repeat split; set_solver.
Qed.

Lemma list_item_lookup {A} (l : list A) (i : Z) :
  0 ≤ i < Z.of_nat (length l) →
  ∃ x, l !! Z.to_nat i = Some x ∧ list_item l i = Ok x.
Proof.
  intros Hi. unfold list_item.
  destruct (lookup_lt_is_Some_2 l (Z.to_nat i)) as [x Hx]; [lia|].
  exists x. split; [done|].
  replace (i <? 0) with false by lia.
  replace (0 <=? i) with true by lia.
  replace (i <? Z.of_nat (length l)) with true by lia.
  simpl. by rewrite Hx.
Qed.

Lemma list_item_beyond {A} (l : list A) (i : Z) :
  Z.of_nat (length l) ≤ i → list_item l i = Raised IndexError.
Proof.
  intros Hi. unfold list_item.
  replace (i <? 0) with false by lia.
  replace (i <? Z.of_nat (length l)) with false by lia.
  by rewrite andb_false_r.
Qed.

Lemma section_name (i : Z) :
  0 ≤ i < 3 →
  list_item InventoryOverlay.section_order i
  = Ok (if i =? 0 then "Weapons" else if i =? 1 then "Shields" else "Potions").
Proof.
  intros Hi. assert (i = 0 ∨ i = 1 ∨ i = 2) as [->|[->| ->]] by lia; reflexivity.
Qed.

(** The three lists are always built, and [shown] gives their names. *)
Lemma owned_weapons (inv : InventoryManager.t) :
  ∃ l, Owned.get_owned_weapons inv = Ok l
    ∧ (λ row : Items.Weapon * Z, (Items.weapon_name row.1, row.2)) <$> l
      = listed (InventoryManager.weapons inv) Owned.WEAPON_NAMES.
Proof. apply rows_listed, weapon_names_table. Qed.

Lemma owned_shields (inv : InventoryManager.t) :
  ∃ l, Owned.get_owned_shields inv = Ok l
    ∧ (λ row : Items.Shield * Z, (Items.shield_name row.1, row.2)) <$> l
      = listed (InventoryManager.shields inv) Owned.SHIELD_NAMES.
Proof. apply rows_listed, shield_names_table. Qed.

Lemma owned_potions (inv : InventoryManager.t) :
  ∃ l, Owned.get_potions inv = Ok l
    ∧ (λ row : Items.Potion * Z, (Items.potion_name row.1, row.2)) <$> l
      = listed (InventoryManager.potions inv) Owned.POTION_NAMES.
Proof. apply rows_listed, potion_names_table. Qed.

Lemma shown_listed (o : InventoryOverlay.t) :
  shown o
  = if InventoryOverlay.section_index o =? 0
    then listed (InventoryManager.weapons (InventoryOverlay.inventory o))
                Owned.WEAPON_NAMES
    else if InventoryOverlay.section_index o =? 1
    then listed (InventoryManager.shields (InventoryOverlay.inventory o))
                Owned.SHIELD_NAMES
    else listed (InventoryManager.potions (InventoryOverlay.inventory o))
                Owned.POTION_NAMES.
Proof.
  unfold shown.
  destruct (owned_weapons (InventoryOverlay.inventory o)) as (lw & -> & <-).
  destruct (owned_shields (InventoryOverlay.inventory o)) as (ls & -> & <-).
  destruct (owned_potions (InventoryOverlay.inventory o)) as (lp & -> & <-).
  done.
Qed.

Lemma item_count (o : InventoryOverlay.t) :
  0 ≤ InventoryOverlay.section_index o < 3 →
  InventoryOverlay._item_count_in_section o
  = (Ok (Z.of_nat (length (shown o))), o).
Proof.
  intros Hsec. unfold InventoryOverlay._item_count_in_section, shown.
  unfold mbind, stx_bind, stx_get, stx_lift. rewrite section_name by done.
  destruct (owned_weapons (InventoryOverlay.inventory o)) as (lw & -> & _).
  destruct (owned_shields (InventoryOverlay.inventory o)) as (ls & -> & _).
  destruct (owned_potions (InventoryOverlay.inventory o)) as (lp & -> & _).
  assert (InventoryOverlay.section_index o = 0
          ∨ InventoryOverlay.section_index o = 1
          ∨ InventoryOverlay.section_index o = 2) as [->|[->| ->]] by lia;
    simpl; by rewrite length_fmap.
Qed.

Lemma shown_weapons (o : InventoryOverlay.t) :
  InventoryOverlay.section_index o = 0 →
  shown o = listed (InventoryManager.weapons (InventoryOverlay.inventory o))
                   Owned.WEAPON_NAMES.
Proof. intros H. by rewrite shown_listed, H. Qed.

Lemma shown_shields (o : InventoryOverlay.t) :
  InventoryOverlay.section_index o = 1 →
  shown o = listed (InventoryManager.shields (InventoryOverlay.inventory o))
                   Owned.SHIELD_NAMES.
Proof. intros H. by rewrite shown_listed, H. Qed.

Lemma shown_potions (o : InventoryOverlay.t) :
  InventoryOverlay.section_index o = 2 →
  shown o = listed (InventoryManager.potions (InventoryOverlay.inventory o))
                   Owned.POTION_NAMES.
Proof. intros H. by rewrite shown_listed, H. Qed.

Lemma activate_empty (o : InventoryOverlay.t) :
  0 ≤ InventoryOverlay.section_index o < 3 → shown o = [] →
  InventoryOverlay._activate_selection o = (Ok tt, o).
Proof.
  intros Hsec. unfold InventoryOverlay._activate_selection, shown.
  unfold mbind, stx_bind, stx_get, stx_lift. rewrite section_name by done.
  destruct (owned_weapons (InventoryOverlay.inventory o)) as (lw & -> & _).
  destruct (owned_shields (InventoryOverlay.inventory o)) as (ls & -> & _).
  destruct (owned_potions (InventoryOverlay.inventory o)) as (lp & -> & _).
  assert (InventoryOverlay.section_index o = 0
          ∨ InventoryOverlay.section_index o = 1
          ∨ InventoryOverlay.section_index o = 2) as [->|[->| ->]] by lia;
    simpl; intros ->%fmap_nil_inv; done.
Qed.

Lemma activate_weapon (o : InventoryOverlay.t) (name : string) (count : Z) :
  InventoryOverlay.section_index o = 0 →
  0 ≤ InventoryOverlay.selection_index o →
  shown o !! Z.to_nat (InventoryOverlay.selection_index o)
  = Some (name, count) →
  InventoryOverlay._activate_selection o
  = (Ok tt,
     {| InventoryOverlay.active := InventoryOverlay.active o;
        InventoryOverlay.section_index := InventoryOverlay.section_index o;
        InventoryOverlay.selection_index := InventoryOverlay.selection_index o;
        InventoryOverlay.inventory :=
          InventoryManager.set_equipped_weapon (Some name)
            (InventoryOverlay.inventory o);
        InventoryOverlay.player := InventoryOverlay.player o;
        InventoryOverlay.sounds :=
          (InventoryOverlay.sounds o ++ [("heavy_hit", 4 # 10)])%list |}).
Proof.
  intros Hsec Hsel Hrow.
  pose proof Hrow as Hl. rewrite shown_weapons in Hl by done.
  apply listed_lookup in Hl as (Hcount & Hpos & _).
  unfold shown in Hrow. rewrite Hsec in Hrow. simpl in Hrow.
  unfold InventoryOverlay._activate_selection.
  unfold mbind, stx_bind, stx_get, stx_lift. rewrite section_name by lia.
  rewrite Hsec. simpl.
  destruct (owned_weapons (InventoryOverlay.inventory o)) as (l & Hown & _).
  rewrite Hown in Hrow |- *. simpl in Hrow.
  rewrite list_lookup_fmap in Hrow.
  destruct (l !! Z.to_nat (InventoryOverlay.selection_index o))
    as [row|] eqn:E; [|done].
  injection Hrow as Hname Hc.
  destruct (list_item_lookup l (InventoryOverlay.selection_index o))
    as (row' & Hrow' & ->).
  { apply lookup_lt_Some in E. lia. }
  rewrite E in Hrow'. injection Hrow' as <-.
  destruct l as [|w ws]; [done|].
  unfold InventoryOverlay.on_inventory, stx_zoom,
    InventoryManager.equip_weapon. rewrite Hname, Hcount. simpl.
  replace (count <=? 0) with false by lia.
  unfold InventoryOverlay.play_sound, stx_modify. simpl. by rewrite Hsec.
Qed.

Lemma activate_shield (o : InventoryOverlay.t) (name : string) (count : Z) :
  InventoryOverlay.section_index o = 1 →
  0 ≤ InventoryOverlay.selection_index o →
  shown o !! Z.to_nat (InventoryOverlay.selection_index o)
  = Some (name, count) →
  InventoryOverlay._activate_selection o
  = (Ok tt,
     {| InventoryOverlay.active := InventoryOverlay.active o;
        InventoryOverlay.section_index := InventoryOverlay.section_index o;
        InventoryOverlay.selection_index := InventoryOverlay.selection_index o;
        InventoryOverlay.inventory :=
          InventoryManager.set_equipped_shield (Some name)
            (InventoryOverlay.inventory o);
        InventoryOverlay.player := InventoryOverlay.player o;
        InventoryOverlay.sounds :=
          (InventoryOverlay.sounds o ++ [("heavy_hit", 4 # 10)])%list |}).
Proof.
  intros Hsec Hsel Hrow.
  pose proof Hrow as Hl. rewrite shown_shields in Hl by done.
  apply listed_lookup in Hl as (Hcount & Hpos & _).
  unfold shown in Hrow. rewrite Hsec in Hrow. simpl in Hrow.
  unfold InventoryOverlay._activate_selection.
  unfold mbind, stx_bind, stx_get, stx_lift. rewrite section_name by lia.
  rewrite Hsec. simpl.
  destruct (owned_shields (InventoryOverlay.inventory o)) as (l & Hown & _).
  rewrite Hown in Hrow |- *. simpl in Hrow.
  rewrite list_lookup_fmap in Hrow.
  destruct (l !! Z.to_nat (InventoryOverlay.selection_index o))
    as [row|] eqn:E; [|done].
  injection Hrow as Hname Hc.
  destruct (list_item_lookup l (InventoryOverlay.selection_index o))
    as (row' & Hrow' & ->).
  { apply lookup_lt_Some in E. lia. }
  rewrite E in Hrow'. injection Hrow' as <-.
  destruct l as [|w ws]; [done|].
  unfold InventoryOverlay.on_inventory, stx_zoom,
    InventoryManager.equip_shield. rewrite Hname, Hcount. simpl.
  replace (count <=? 0) with false by lia.
  unfold InventoryOverlay.play_sound, stx_modify. simpl. by rewrite Hsec.
Qed.

Lemma activate_potion (o : InventoryOverlay.t) (name : string) (count : Z) :
  InventoryOverlay.section_index o = 2 →
  0 ≤ InventoryOverlay.selection_index o →
  shown o !! Z.to_nat (InventoryOverlay.selection_index o)
  = Some (name, count) →
  ∃ potion,
    Items.POTIONS !! name = Some potion
    ∧ InventoryOverlay._activate_selection o
      = (Ok tt,
         {| InventoryOverlay.active := InventoryOverlay.active o;
            InventoryOverlay.section_index := InventoryOverlay.section_index o;
            InventoryOverlay.selection_index :=
              InventoryOverlay.selection_index o;
            InventoryOverlay.inventory :=
              InventoryManager.set_potions <[name := count - 1]>
                (InventoryOverlay.inventory o);
            InventoryOverlay.player :=
              (if String.eqb (Items.resource potion) "hp"
               then PlayerStats.heal (Items.restore_amount potion)
                      (InventoryOverlay.player o)
               else PlayerStats.restore_mana (Items.restore_amount potion)
                      (InventoryOverlay.player o));
            InventoryOverlay.sounds :=
              (InventoryOverlay.sounds o
               ++ [(if String.eqb (Items.resource potion) "hp"
                    then "drink" else "mana_drink", 6 # 10)])%list |}).
Proof.
  intros Hsec Hsel Hrow.
  pose proof Hrow as Hl. rewrite shown_potions in Hl by done.
  apply listed_lookup in Hl as (Hcount & Hpos & Hin).
  destruct (potion_names_table name Hin) as (potion & Hpotion & _).
  exists potion. split; [done|].
  unfold shown in Hrow. rewrite Hsec in Hrow. simpl in Hrow.
  unfold InventoryOverlay._activate_selection.
  unfold mbind, stx_bind, stx_get, stx_lift. rewrite section_name by lia.
  rewrite Hsec. simpl.
  destruct (owned_potions (InventoryOverlay.inventory o)) as (l & Hown & _).
  rewrite Hown in Hrow |- *. simpl in Hrow.
  rewrite list_lookup_fmap in Hrow.
  destruct (l !! Z.to_nat (InventoryOverlay.selection_index o))
    as [row|] eqn:E; [|done].
  injection Hrow as Hname Hc.
  destruct (list_item_lookup l (InventoryOverlay.selection_index o))
    as (row' & Hrow' & ->).
  { apply lookup_lt_Some in E. lia. }
  rewrite E in Hrow'. injection Hrow' as <-.
  destruct l as [|w ws]; [done|].
  unfold InventoryOverlay.on_inventory, stx_zoom,
    Inventory.consume_potion. rewrite Hname, Hcount.
  replace (count <=? 0) with false by lia. rewrite Hpotion.
  unfold InventoryOverlay.play_sound, stx_modify.
  destruct (String.eqb (Items.resource potion) "hp"); simpl; by rewrite Hsec.
Qed.

Lemma shown_same (o o' : InventoryOverlay.t) :
  InventoryOverlay.section_index o' = InventoryOverlay.section_index o →
  InventoryManager.weapons (InventoryOverlay.inventory o')
  = InventoryManager.weapons (InventoryOverlay.inventory o) →
  InventoryManager.shields (InventoryOverlay.inventory o')
  = InventoryManager.shields (InventoryOverlay.inventory o) →
  InventoryManager.potions (InventoryOverlay.inventory o')
  = InventoryManager.potions (InventoryOverlay.inventory o) →
  shown o' = shown o.
Proof. intros H1 H2 H3 H4. rewrite !shown_listed. by rewrite H1, H2, H3, H4. Qed.

Lemma selected_row (o : InventoryOverlay.t) :
  0 ≤ InventoryOverlay.selection_index o
    < Z.max 1 (Z.of_nat (length (shown o))) →
  shown o ≠ [] →
  is_Some (shown o !! Z.to_nat (InventoryOverlay.selection_index o)).
Proof.
  intros Hsel Hne. apply lookup_lt_is_Some_2.
  destruct (shown o); [done|]. simpl length in *. lia.
Qed.

(** X22. Enter on the inventory screen acts on the selected row and never
    raises while the selection is on a row.  In the sections of the weapons
    and the shields it equips the item of the row and plays "heavy_hit"; in
    the section of the potions it takes one potion off the count of the row,
    heals hit points (or restores mana) by the amount of the potion, capped
    at the maximum, and plays "drink" (or "mana_drink"); on a section
    without rows it does nothing.  The inventory stays well formed, and the
    selection stays on a row unless it was on the last of several rows of
    potions and that row held a single potion. *)
Theorem X22_enter_acts_on_the_selected_row (o : InventoryOverlay.t) :
  overlay_ok o →
  ∃ o',
    InventoryOverlay._activate_selection o = (Ok tt, o')
    ∧ inventory_ok (InventoryOverlay.inventory o')
    ∧ InventoryOverlay.active o' = InventoryOverlay.active o
    ∧ InventoryOverlay.section_index o' = InventoryOverlay.section_index o
    ∧ InventoryOverlay.selection_index o' = InventoryOverlay.selection_index o
    ∧ (shown o = [] → o' = o)
    ∧ (shown o ≠ [] →
       is_Some (shown o !! Z.to_nat (InventoryOverlay.selection_index o)))
    ∧ (∀ name count,
         shown o !! Z.to_nat (InventoryOverlay.selection_index o)
         = Some (name, count) →
         (InventoryOverlay.section_index o = 0 →
            InventoryOverlay.inventory o'
            = InventoryManager.set_equipped_weapon (Some name)
                (InventoryOverlay.inventory o)
            ∧ InventoryOverlay.player o' = InventoryOverlay.player o
            ∧ InventoryOverlay.sounds o'
              = (InventoryOverlay.sounds o ++ [("heavy_hit", 4 # 10)])%list)
         ∧ (InventoryOverlay.section_index o = 1 →
            InventoryOverlay.inventory o'
            = InventoryManager.set_equipped_shield (Some name)
                (InventoryOverlay.inventory o)
            ∧ InventoryOverlay.player o' = InventoryOverlay.player o
            ∧ InventoryOverlay.sounds o'
              = (InventoryOverlay.sounds o ++ [("heavy_hit", 4 # 10)])%list)
         ∧ (InventoryOverlay.section_index o = 2 →
            ∃ potion,
              Items.POTIONS !! name = Some potion
              ∧ InventoryOverlay.inventory o'
                = InventoryManager.set_potions <[name := count - 1]>
                    (InventoryOverlay.inventory o)
              ∧ InventoryOverlay.player o'
                = (if String.eqb (Items.resource potion) "hp"
                   then PlayerStats.heal (Items.restore_amount potion)
                          (InventoryOverlay.player o)
                   else PlayerStats.restore_mana (Items.restore_amount potion)
                          (InventoryOverlay.player o))
              ∧ InventoryOverlay.sounds o'
                = (InventoryOverlay.sounds o
                   ++ [(if String.eqb (Items.resource potion) "hp"
                        then "drink" else "mana_drink", 6 # 10)])%list))
    ∧ (¬ on_last_potion o → overlay_ok o').
Proof.
  intros (Hinv & Hsec & Hsel).
  destruct (shown o !! Z.to_nat (InventoryOverlay.selection_index o))
    as [[name count]|] eqn:Hrow; cycle 1.
  { assert (Hnil : shown o = []).
    { destruct (decide (shown o = [])) as [|Hne]; [done|].
      destruct (selected_row o Hsel Hne) as [? Hx]. by rewrite Hx in Hrow. }
    exists o. rewrite activate_empty by done.
    do 6 (split; [done|]). split; [by intros Hne|].
    split; [by intros ? ? [=]|]. by intros _. }
  pose proof Hinv as (Hdw & Hds & Hdp & Hcw & Hcs & Hcp & How & Hos).
  assert (Hlen : InventoryOverlay.selection_index o
                 < Z.of_nat (length (shown o))).
  { apply lookup_lt_Some in Hrow. lia. }
  assert (InventoryOverlay.section_index o = 0
          ∨ InventoryOverlay.section_index o = 1
          ∨ InventoryOverlay.section_index o = 2) as [H0|[H1|H2]] by lia.
  - pose proof Hrow as Hl. rewrite shown_weapons in Hl by done.
    apply listed_lookup in Hl as (Hcount & Hpos & _).
    eexists. split; [exact (activate_weapon o name count H0 ltac:(lia) Hrow)|].
    simpl.
    assert (Hok : inventory_ok
              (InventoryManager.set_equipped_weapon (Some name)
                 (InventoryOverlay.inventory o))).
    { repeat split; simpl; try done. intros w [= <-]. by exists count. }
    split; [done|]. do 3 (split; [done|]).
    split; [intros Hnil; by rewrite Hnil in Hrow|].
    split; [by intros _; eexists|].
    split.
    + intros ? ? [= <- <-]. repeat split; try done; intros; lia.
    + intros _. split; [done|]. split; [done|].
      erewrite (shown_same o); [exact Hsel|done..].
  - pose proof Hrow as Hl. rewrite shown_shields in Hl by done.
    apply listed_lookup in Hl as (Hcount & Hpos & _).
    eexists. split; [exact (activate_shield o name count H1 ltac:(lia) Hrow)|].
    simpl.
    assert (Hok : inventory_ok
              (InventoryManager.set_equipped_shield (Some name)
                 (InventoryOverlay.inventory o))).
    { repeat split; simpl; try done. intros w [= <-]. by exists count. }
    split; [done|]. do 3 (split; [done|]).
    split; [intros Hnil; by rewrite Hnil in Hrow|].
    split; [by intros _; eexists|].
    split.
    + intros ? ? [= <- <-]. repeat split; try done; intros; lia.
    + intros _. split; [done|]. split; [done|].
      erewrite (shown_same o); [exact Hsel|done..].
  - pose proof Hrow as Hl. rewrite shown_potions in Hl by done.
    apply listed_lookup in Hl as (Hcount & Hpos & Hin).
    destruct (activate_potion o name count H2 ltac:(lia) Hrow)
      as (potion & Hpotion & Hrun).
    eexists. split; [exact Hrun|]. simpl.
    assert (Hok : inventory_ok
              (InventoryManager.set_potions <[name := count - 1]>
                 (InventoryOverlay.inventory o))).
    { repeat split; simpl; try done.
      - rewrite dom_insert_lookup_L; [done|by eexists].
      - apply counted_insert; [done|lia]. }
    split; [done|]. do 3 (split; [done|]).
    split; [intros Hnil; by rewrite Hnil in Hrow|].
    split; [by intros _; eexists|].
    split.
    + intros ? ? [= <- <-]. split; [intros; lia|]. split; [intros; lia|].
      intros _. by exists potion.
    + intros Hnot. split; [done|]. split; [done|].
      pose proof (listed_insert_length
                    (InventoryManager.potions (InventoryOverlay.inventory o))
                    Owned.POTION_NAMES name count (count - 1)
                    potion_names_nodup Hin Hcount Hpos) as Hnew.
      rewrite <- shown_potions in Hnew by done.
      rewrite shown_potions by done.
      cbn [InventoryOverlay.inventory InventoryOverlay.selection_index
           InventoryManager.potions InventoryManager.set_potions].
      destruct (0 <? count - 1) eqn:Hc; [lia|].
      apply Z.ltb_ge in Hc. assert (count = 1) as -> by lia.
      destruct (decide (InventoryOverlay.selection_index o
                        = Z.of_nat (length (shown o)) - 1)) as [Hlast|]; [|lia].
      destruct (decide (2 ≤ length (shown o))%nat) as [Htwo|]; [|lia].
      exfalso. apply Hnot. repeat split; try done. by exists name.
Qed.

Lemma two_potions_ok : overlay_ok two_potions.
Proof.
  split; [|split].
  - apply (inventory_run_ok
             [AddPotion "Heal Potion" 1; AddPotion "Mana Potion" 1]
             InventoryManager.init inventory_init_ok).
    repeat constructor; simpl; lia.
  - simpl. lia.
  - by vm_compute.
Qed.

Lemma X22_enter_acts_on_the_selected_row_witness :
  ∃ o', InventoryOverlay._activate_selection two_potions = (Ok tt, o')
      ∧ inventory_ok (InventoryOverlay.inventory o')
      ∧ InventoryOverlay.selection_index o' = 1.
Proof.
  destruct (X22_enter_acts_on_the_selected_row two_potions two_potions_ok)
    as (o' & Hrun & Hok & _ & _ & Hsel & _).
  exists o'. split; [exact Hrun|]. split; [exact Hok|]. exact Hsel.
Defined.

(** * Navigation *)

Lemma toggle_ok (o : InventoryOverlay.t) :
  overlay_ok o → overlay_ok (InventoryOverlay.toggle o).
Proof.
  intros (Hinv & Hsec & Hsel). split; [done|]. split; simpl; lia.
Qed.

Lemma set_section_ok (o : InventoryOverlay.t) (section : Z) :
  overlay_ok o → 0 ≤ section < 3 →
  overlay_ok (InventoryOverlay.set_indices section 0 o).
Proof.
  intros (Hinv & Hsec & Hsel) Hs. split; [done|]. split; simpl; lia.
Qed.

Lemma set_selection_ok (o : InventoryOverlay.t) (selection : Z) :
  overlay_ok o → 0 ≤ selection < Z.max 1 (Z.of_nat (length (shown o))) →
  overlay_ok (InventoryOverlay.set_indices (InventoryOverlay.section_index o)
                selection o).
Proof.
  intros (Hinv & Hsec & Hsel) Hs. split; [done|]. split; [done|].
  erewrite (shown_same o); [exact Hs|done..].
Qed.

Lemma handle_loop_navigation (events : list InventoryOverlay.Event)
    (o : InventoryOverlay.t) :
  overlay_ok o → Forall (λ e, is_enter e = false) events →
  ∃ o', InventoryOverlay.handle_loop events o = (Ok tt, o')
      ∧ overlay_ok o'
      ∧ InventoryOverlay.active o'
        = (if existsb is_escape events then negb (InventoryOverlay.active o)
           else InventoryOverlay.active o)
      ∧ InventoryOverlay.inventory o' = InventoryOverlay.inventory o
      ∧ InventoryOverlay.player o' = InventoryOverlay.player o
      ∧ InventoryOverlay.sounds o' = InventoryOverlay.sounds o.
Proof.
  intros Hok Hall. revert o Hok.
  induction Hall as [|e events He Hall IH]; intros o Hok; [by exists o|].
  assert (Hstep : ∀ o1,
            overlay_ok o1 →
            InventoryOverlay.active o1 = InventoryOverlay.active o →
            InventoryOverlay.inventory o1 = InventoryOverlay.inventory o →
            InventoryOverlay.player o1 = InventoryOverlay.player o →
            InventoryOverlay.sounds o1 = InventoryOverlay.sounds o →
            is_escape e = false →
            ∃ o', InventoryOverlay.handle_loop events o1 = (Ok tt, o')
              ∧ overlay_ok o'
              ∧ InventoryOverlay.active o'
                = (if existsb is_escape (e :: events)
                   then negb (InventoryOverlay.active o)
                   else InventoryOverlay.active o)
              ∧ InventoryOverlay.inventory o' = InventoryOverlay.inventory o
              ∧ InventoryOverlay.player o' = InventoryOverlay.player o
              ∧ InventoryOverlay.sounds o' = InventoryOverlay.sounds o).
  { intros o1 Hok1 Ha Hi Hp Hs Hesc.
    destruct (IH o1 Hok1) as (o' & Hrun & Hok' & Ha' & Hi' & Hp' & Hs').
    exists o'. split; [done|]. split; [done|].
    cbn [existsb]. rewrite Hesc, Hi', Hp', Hs', Ha', Ha. done. }
  destruct e as [key|]; [|by apply Hstep].
  pose proof Hok as (Hinv & Hsec & Hsel).
  destruct key; try discriminate He; cbn [InventoryOverlay.handle_loop].
  1,2: exists (InventoryOverlay.toggle o); split; [done|];
       split; [by apply toggle_ok|done].
  1,2,3,4:
    unfold mbind, stx_bind, stx_modify; apply Hstep; try done;
    apply set_section_ok; [done|]; by apply Z.mod_pos_bound.
  1,2,3,4:
    unfold mbind, stx_bind; rewrite item_count by done;
    destruct (0 <? Z.of_nat (length (shown o))) eqn:Hc;
    [apply Z.ltb_lt in Hc; unfold stx_modify; apply Hstep; try done;
     apply set_selection_ok; [done|];
     pose proof (Z.mod_pos_bound (InventoryOverlay.selection_index o + 1)
                   (Z.of_nat (length (shown o))) Hc);
     pose proof (Z.mod_pos_bound (InventoryOverlay.selection_index o - 1)
                   (Z.of_nat (length (shown o))) Hc); lia
    |by apply Hstep].
  by apply Hstep.
Qed.

(** X23. The keys that move about the inventory screen never raise and keep
    the selection on a row.  For any list of events without Enter, handled
    on a screen whose selection is on a row: [handle_events] returns, the
    section is one of the three and the selection is on a row of it (on row
    0 when it has none), the screen is open exactly when it was open and
    neither Escape nor I was among the events, and the inventory, the
    player and the sounds are untouched. *)
Theorem X23_navigation_keeps_the_selection_on_a_row
    (o : InventoryOverlay.t) (events : list InventoryOverlay.Event) :
  overlay_ok o → Forall (λ e, is_enter e = false) events →
  ∃ o', InventoryOverlay.handle_events events o = (Ok tt, o')
      ∧ overlay_ok o'
      ∧ InventoryOverlay.active o'
        = InventoryOverlay.active o && negb (existsb is_escape events)
      ∧ InventoryOverlay.inventory o' = InventoryOverlay.inventory o
      ∧ InventoryOverlay.player o' = InventoryOverlay.player o
      ∧ InventoryOverlay.sounds o' = InventoryOverlay.sounds o.
Proof.
  intros Hok Hall. unfold InventoryOverlay.handle_events.
  destruct (InventoryOverlay.active o) eqn:Hactive.
  - destruct (handle_loop_navigation events o Hok Hall)
      as (o' & Hrun & Hok' & Ha & Hrest).
    exists o'. split; [done|]. split; [done|]. split; [|done].
    rewrite Ha, Hactive. by destruct (existsb is_escape events).
  - exists o. by rewrite Hactive.
Qed.

Lemma X23_navigation_keeps_the_selection_on_a_row_witness :
  ∃ o', InventoryOverlay.handle_events
          [InventoryOverlay.KEYDOWN InventoryOverlay.K_UP;
           InventoryOverlay.KEYDOWN InventoryOverlay.K_LEFT;
           InventoryOverlay.OTHER;
           InventoryOverlay.KEYDOWN InventoryOverlay.K_s;
           InventoryOverlay.KEYDOWN InventoryOverlay.K_ESCAPE;
           InventoryOverlay.KEYDOWN InventoryOverlay.K_DOWN] two_potions
        = (Ok tt, o')
      ∧ overlay_ok o'
      ∧ InventoryOverlay.active o' = false.
Proof.
  destruct (X23_navigation_keeps_the_selection_on_a_row two_potions
              [InventoryOverlay.KEYDOWN InventoryOverlay.K_UP;
               InventoryOverlay.KEYDOWN InventoryOverlay.K_LEFT;
               InventoryOverlay.OTHER;
               InventoryOverlay.KEYDOWN InventoryOverlay.K_s;
               InventoryOverlay.KEYDOWN InventoryOverlay.K_ESCAPE;
               InventoryOverlay.KEYDOWN InventoryOverlay.K_DOWN]
              two_potions_ok)
    as (o' & Hrun & Hok & Ha & _).
  { repeat constructor. }
  exists o'. split; [exact Hrun|]. split; [exact Hok|]. exact Ha.
Defined.

(** * Enter beyond the last row *)

Lemma activate_beyond (o : InventoryOverlay.t) :
  0 ≤ InventoryOverlay.section_index o < 3 → shown o ≠ [] →
  Z.of_nat (length (shown o)) ≤ InventoryOverlay.selection_index o →
  InventoryOverlay._activate_selection o = (Raised IndexError, o).
Proof.
  intros Hsec. unfold InventoryOverlay._activate_selection, shown.
  unfold mbind, stx_bind, stx_get, stx_lift. rewrite section_name by done.
  destruct (owned_weapons (InventoryOverlay.inventory o)) as (lw & -> & _).
  destruct (owned_shields (InventoryOverlay.inventory o)) as (ls & -> & _).
  destruct (owned_potions (InventoryOverlay.inventory o)) as (lp & -> & _).
  assert (InventoryOverlay.section_index o = 0
          ∨ InventoryOverlay.section_index o = 1
          ∨ InventoryOverlay.section_index o = 2) as [->|[->| ->]] by lia;
    simpl; rewrite length_fmap; intros Hne Hlen.
  - destruct lw as [|w lw]; [done|]. by rewrite list_item_beyond.
  - destruct ls as [|w ls]; [done|]. by rewrite list_item_beyond.
  - destruct lp as [|w lp]; [done|]. by rewrite list_item_beyond.
Qed.

(** X24. Drinking the last potion of the last row leaves the selection
    below the list, and the next Enter raises.  When the potions section
    shows two or more rows, the selection is on the last one and that row
    holds a single potion, Enter drinks it: the row disappears and the
    selection, which is not moved, is one past the last row.  A second
    Enter then raises [IndexError] ("list index out of range") and changes
    nothing, so two Enter key presses handled by [handle_events] end in
    that exception. *)
Theorem X24_enter_after_the_last_potion_raises (o : InventoryOverlay.t) :
  overlay_ok o → on_last_potion o → InventoryOverlay.active o = true →
  ∃ o1,
    InventoryOverlay._activate_selection o = (Ok tt, o1)
    ∧ Z.of_nat (length (shown o1)) = Z.of_nat (length (shown o)) - 1
    ∧ InventoryOverlay.selection_index o1 = Z.of_nat (length (shown o1))
    ∧ InventoryOverlay._activate_selection o1 = (Raised IndexError, o1)
    ∧ InventoryOverlay.handle_events
        [InventoryOverlay.KEYDOWN InventoryOverlay.K_RETURN;
         InventoryOverlay.KEYDOWN InventoryOverlay.K_RETURN] o
      = (Raised IndexError, o1).
Proof.
  intros (Hinv & Hsec & Hsel) (H2 & Htwo & Hlast & name & Hrow) Hactive.
  pose proof Hrow as Hl. rewrite shown_potions in Hl by done.
  apply listed_lookup in Hl as (Hcount & Hpos & Hin).
  destruct (activate_potion o name 1 H2 ltac:(lia) Hrow)
    as (potion & Hpotion & Hrun).
  eexists. split; [exact Hrun|].
  match type of Hrun with _ = (_, ?x) => set (o1 := x) in * end.
  assert (Hlen1 : Z.of_nat (length (shown o1))
                  = Z.of_nat (length (shown o)) - 1).
  { pose proof (listed_insert_length
                  (InventoryManager.potions (InventoryOverlay.inventory o))
                  Owned.POTION_NAMES name 1 (1 - 1)
                  potion_names_nodup Hin Hcount Hpos) as Hnew.
    rewrite <- shown_potions in Hnew by done.
    rewrite (shown_potions o1) by done. exact Hnew. }
  assert (Hraise : InventoryOverlay._activate_selection o1
                   = (Raised IndexError, o1)).
  { apply activate_beyond.
    - subst o1. simpl. lia.
    - intros Hnil. rewrite Hnil in Hlen1. simpl in Hlen1. lia.
    - subst o1. cbn [InventoryOverlay.selection_index]. lia. }
  split; [done|]. split; [subst o1; cbn [InventoryOverlay.selection_index]; lia|].
  split; [done|].
  unfold InventoryOverlay.handle_events. rewrite Hactive.
  cbn [InventoryOverlay.handle_loop]. unfold mbind, stx_bind.
  by rewrite Hrun, Hraise.
Qed.

Lemma X24_enter_after_the_last_potion_raises_witness :
  ∃ o1,
    InventoryOverlay._activate_selection two_potions = (Ok tt, o1)
    ∧ InventoryOverlay.handle_events
        [InventoryOverlay.KEYDOWN InventoryOverlay.K_RETURN;
         InventoryOverlay.KEYDOWN InventoryOverlay.K_RETURN] two_potions
      = (Raised IndexError, o1).
Proof.
  destruct (X24_enter_after_the_last_potion_raises two_potions two_potions_ok)
    as (o1 & Hrun & _ & _ & _ & Hraise).
  - split; [reflexivity|]. split; [vm_compute; lia|].
    split; [vm_compute; reflexivity|].
    exists "Mana Potion". vm_compute. reflexivity.
  - reflexivity.
  - exists o1. split; [exact Hrun|exact Hraise].
Defined.
